(** * SubLocalizer: translation orchestration and backend resilience

    A shallow embedding of the translation core of SubLocalizer
    (src/utils/text.py, src/utils/batching.py, src/utils/cache.py,
    src/utils/lang.py, src/parser/ass_parser.py,
    src/translator/orchestrator.py, src/translator/google.py,
    src/translator/deepl_api.py, src/translator/deepl_web.py,
    src/translator/factory.py, src/cli.py) together with the properties
    stated about it.

    Conventions.
    - A Python [str] is a Rocq [string]; one [ascii] stands for one code
      point below 256, so [String.length] is Python's [len].
    - Python [int] is [Z] where the value comes from configuration and [nat]
      where it is a length or a position in a list.
    - A Python [dict] is a [gmap]; a Python [list] is a [list], read with
      [!!] and written with [<[ _ := _ ]>], the out-of-range case of the
      source ([IndexError]) being written out.
    - Exceptions are values of [exn]; code that can raise returns [Res];
      code that also mutates objects is a state transformer [W -> Res A * W].
    - Library code that is not part of the repository (difflib, json, the
      HTTP client, langdetect, pysubs2, [str.upper]) is a parameter of the
      definitions that call it. *)

From Stdlib Require Import ZArith QArith List String Ascii Lia Permutation
  DecimalString.
From stdpp Require Import base option list gmap strings fin_maps.

Set Default Proof Using "Type".
Open Scope string_scope.
Open Scope list_scope.
Open Scope nat_scope.

(* ===================================================================== *)
(** * Part I: definitions *)
(* ===================================================================== *)

(** ** Exceptions and results *)

Module Py.

(** The exceptions the modelled code raises or lets through. *)
Inductive exn : Type :=
| IndexError
| ValueError
| TypeError
| KeyError
| ZeroDivisionError
| UnicodeDecodeError
| MissingTranslations (missing : list nat)
    (* RuntimeError("Missing translations for indexes: ...") *)
| MismatchedBatchSize
    (* RuntimeError("Translator returned mismatched batch size") *)
| TranslatorError (message : string)
    (* whatever [translate_texts] of a backend raises *).

Inductive Res (A : Type) : Type :=
| Ok (a : A)
| Raise (e : exn).
Arguments Ok {A} a.
Arguments Raise {A} e.

Definition bind {A B} (r : Res A) (k : A -> Res B) : Res B :=
  match r with
  | Ok a => k a
  | Raise e => Raise e
  end.

Definition is_ok {A} (r : Res A) : bool :=
  match r with Ok _ => true | Raise _ => false end.

(** ** [str] methods *)

(** [str.isspace] on one code point below 256: TAB..CR, FS..US, SPACE,
    NEL (0x85) and NBSP (0xA0). *)
Definition isspace (c : ascii) : bool :=
  let n := nat_of_ascii c in
  ((9 <=? n) && (n <=? 13)) || ((28 <=? n) && (n <=? 32))
  || (n =? 133) || (n =? 160).

Fixpoint lstrip (s : string) : string :=
  match s with
  | EmptyString => EmptyString
  | String c s' => if isspace c then lstrip s' else s
  end.

Fixpoint rstrip (s : string) : string :=
  match s with
  | EmptyString => EmptyString
  | String c s' =>
      match rstrip s' with
      | EmptyString => if isspace c then EmptyString else String c EmptyString
      | r => String c r
      end
  end.

(** [s.strip()] *)
Definition strip (s : string) : string := rstrip (lstrip s).

(** [sep.join(parts)] *)
Fixpoint join (sep : string) (parts : list string) : string :=
  match parts with
  | [] => ""
  | [p] => p
  | p :: rest => p +:+ sep +:+ join sep rest
  end.

(** [s.split(sep)] for a non-empty [sep]: the pieces between the
    non-overlapping occurrences of [sep], found left to right. [cur] holds
    the characters of the current piece, last one first. *)
Fixpoint split_go (sep : string) (cur : list ascii) (s : string) (fuel : nat)
  : list string :=
  match fuel with
  | O => [string_of_list_ascii (rev cur)]
  | S fuel' =>
      if String.prefix sep s then
        string_of_list_ascii (rev cur)
          :: split_go sep [] (String.substring (String.length sep)
                                (String.length s - String.length sep) s) fuel'
      else
        match s with
        | EmptyString => [string_of_list_ascii (rev cur)]
        | String c s' => split_go sep (c :: cur) s' fuel'
        end
  end.

Definition split (sep s : string) : list string :=
  split_go sep [] s (S (String.length s)).

(** Truthiness of a [str]. *)
Definition truthy (s : string) : bool := negb (String.eqb s "").

(** [a or b] on two [Optional[str]]: the first operand if it is truthy,
    otherwise the second. *)
Definition or_else (a b : option string) : option string :=
  match a with
  | Some s => if truthy s then a else b
  | None => b
  end.

(** [if x:] on an [Optional[str]]. *)
Definition truthy_opt (a : option string) : bool :=
  match a with
  | Some s => truthy s
  | None => false
  end.

End Py.
Export Py.

#[global] Instance Res_ret : MRet Res := @Ok.
#[global] Instance Res_bind : MBind Res := fun A B k r => bind r k.

(** Code that raises and mutates: a state transformer over the objects [W]
    it can reach. An exception keeps the mutations made before it. *)
Definition M (W A : Type) : Type := W -> Res A * W.

#[global] Instance M_ret {W} : MRet (M W) := fun A a w => (Ok a, w).
#[global] Instance M_bind {W} : MBind (M W) := fun A B k m w =>
  match m w with
  | (Ok a, w') => k a w'
  | (Raise e, w') => (Raise e, w')
  end.

Definition raise {W A} (e : exn) : M W A := fun w => (Raise e, w).
Definition modify {W} (f : W -> W) : M W unit := fun w => (Ok tt, f w).
Definition lift_res {W A} (r : Res A) : M W A := fun w => (r, w).

(** A loop that carries local variables [acc] from one iteration to the
    next: [for x in xs: acc = body(acc, x)]. *)
Fixpoint fold_m {W S A} (body : S -> A -> M W S) (xs : list A) (acc : S)
  : M W S :=
  match xs with
  | [] => mret acc
  | x :: rest => acc' ← body acc x; fold_m body rest acc'
  end.

(** The same loop for code that raises but mutates nothing shared. *)
Fixpoint fold_res {S A} (body : S -> A -> Res S) (xs : list A) (acc : S)
  : Res S :=
  match xs with
  | [] => Ok acc
  | x :: rest => acc' ← body acc x; fold_res body rest acc'
  end.

(** [enumerate(xs)], counting from [start] *)
Fixpoint enumerate_from {A} (start : nat) (xs : list A) : list (nat * A) :=
  match xs with
  | [] => []
  | x :: rest => (start, x) :: enumerate_from (S start) rest
  end.

Definition enumerate {A} (xs : list A) : list (nat * A) := enumerate_from 0 xs.

(** [zip(xs, ys)]: stops at the shorter list. *)
Fixpoint zip {A B} (xs : list A) (ys : list B) : list (A * B) :=
  match xs, ys with
  | x :: xs', y :: ys' => (x, y) :: zip xs' ys'
  | _, _ => []
  end.

(** [xs[i] = v]: raises [IndexError] out of range. *)
Definition list_assign {A} (xs : list A) (i : nat) (v : A) : Res (list A) :=
  match xs !! i with
  | Some _ => Ok (<[i := v]> xs)
  | None => Raise IndexError
  end.

(* --------------------------------------------------------------------- *)
(** ** difflib (Python standard library)

    [deduplicate_texts] calls [difflib.SequenceMatcher(None, a, b).ratio()].
    difflib is not part of the repository: the definitions of [Text] take
    the ratio as a parameter. [Difflib.ratio] is a model of the library
    function, used where a statement has to be evaluated on concrete
    strings. It follows the library's algorithm for [isjunk = None] and a
    second string shorter than 200 characters (no "popular element"
    heuristic): take the longest block [a[i:i+k] == b[j:j+k]], earliest in
    [a] and then earliest in [b] among the longest; recurse on what lies
    to the left of the block in both strings and on what lies to the right;
    [ratio = 2.0 * matched / (len(a) + len(b))], and [1.0] for two empty
    strings. *)

Module Difflib.

Fixpoint common_prefix (a b : list ascii) : nat :=
  match a, b with
  | x :: a', y :: b' => if Ascii.eqb x y then S (common_prefix a' b') else 0
  | _, _ => 0
  end.

(** Best block of [a] against the suffixes of [b] that start at [j], [j+1],
    ...: [best] is replaced only by a strictly longer block. *)
Fixpoint scan_b (a b : list ascii) (i j : nat) (best : nat * nat * nat)
  : nat * nat * nat :=
  match b with
  | [] => best
  | _ :: b' =>
      let k := common_prefix a b in
      let best' := if best.2 <? k then (i, j, k) else best in
      scan_b a b' i (S j) best'
  end.

Fixpoint scan_a (a b : list ascii) (i : nat) (best : nat * nat * nat)
  : nat * nat * nat :=
  match a with
  | [] => best
  | _ :: a' => scan_a a' b (S i) (scan_b a b i 0 best)
  end.

(** [find_longest_match(0, len(a), 0, len(b))] as [(i, j, k)]. *)
Definition find_longest_match (a b : list ascii) : nat * nat * nat :=
  scan_a a b 0 (0, 0, 0).

(** Sum of the sizes of [get_matching_blocks()]. Each level of the
    recursion shortens [a]; fuel above its length is enough (lemma
    [matched_fuel]). *)
Fixpoint matched (fuel : nat) (a b : list ascii) : nat :=
  match fuel with
  | O => 0
  | S fuel' =>
      let '(i, j, k) := find_longest_match a b in
      if k =? 0 then 0
      else matched fuel' (take i a) (take j b) + k
           + matched fuel' (drop (i + k) a) (drop (j + k) b)
  end.

Definition ratio (a b : string) : Q :=
  let la := list_ascii_of_string a in
  let lb := list_ascii_of_string b in
  let total := (length la + length lb)%nat in
  if total =? 0 then 1%Q
  else Qmake (2 * Z.of_nat (matched (S (length la)) la lb)) (Pos.of_nat total).

End Difflib.

(* --------------------------------------------------------------------- *)
(** ** src/utils/text.py *)

Module Text.

Record DeduplicationResult : Type := {
  unique_texts : list string;
  groups : list (list nat)
    (* each group contains indexes pointing back to the source list *)
}.

(** The default of the keyword argument [similarity_threshold], 0.985. *)
Definition default_similarity_threshold : Q := Qmake 985 1000.

Section WithRatio.

(** [SequenceMatcher(None, a, b).ratio()] *)
Variable sequence_matcher_ratio : string -> string -> Q.

Definition _sequence_ratio (a b : string) : Q :=
  if String.eqb a "" && String.eqb b "" then 1%Q
  else sequence_matcher_ratio a b.

(** The loop of [_find_match] over [enumerate(pool)], from position [i]. *)
Fixpoint _find_match_from (i : nat) (candidate : string) (pool : list string)
    (threshold : Q) : option nat :=
  match pool with
  | [] => None
  | other :: rest =>
      if String.eqb candidate other then Some i
      else if Qle_bool threshold (_sequence_ratio candidate other) then Some i
      else _find_match_from (S i) candidate rest threshold
  end.

Definition _find_match (candidate : string) (pool : list string)
    (threshold : Q) : option nat :=
  _find_match_from 0 candidate pool threshold.

(** One iteration of the loop of [deduplicate_texts] on [(idx, text)]. *)
Definition dedup_step (threshold : Q) (acc : list string * list (list nat))
    (idx : nat) (text : string) : Res (list string * list (list nat)) :=
  let '(unique, groups) := acc in
  let normalized := strip text in
  match _find_match normalized unique threshold with
  | None => Ok (unique ++ [text], groups ++ [[idx]])
  | Some match_index =>
      match groups !! match_index with
      | Some g => Ok (unique, <[match_index := g ++ [idx]]> groups)
      | None => Raise IndexError
      end
  end.

Fixpoint dedup_loop (threshold : Q) (acc : list string * list (list nat))
    (idx : nat) (texts : list string)
  : Res (list string * list (list nat)) :=
  match texts with
  | [] => Ok acc
  | text :: rest =>
      acc' ← dedup_step threshold acc idx text;
      dedup_loop threshold acc' (S idx) rest
  end.

Definition deduplicate_texts (texts : list string) (similarity_threshold : Q)
  : Res DeduplicationResult :=
  '(unique, groups) ← dedup_loop similarity_threshold ([], []) 0 texts;
  mret {| unique_texts := unique; groups := groups |}.

End WithRatio.

End Text.

(* --------------------------------------------------------------------- *)
(** ** src/utils/batching.py and [TranslationOrchestrator._build_batches]

    The two functions are the same loop, one over strings and one over
    pending entries; [greedy_pack] is that loop, over items measured by
    [len]. *)

Module Batching.

Section Pack.

Context {A : Type}.
Variable len : A -> nat.
Variables max_chars max_items : Z.

(** The loop state is [(batches, current, char_count)]. *)
Definition pack_step (st : list (list A) * list A * nat) (item : A)
  : list (list A) * list A * nat :=
  let '(batches, current, char_count) := st in
  let item_len := len item in
  let '(batches, current, char_count) :=
    if negb (bool_decide (current = []))
       && ((max_chars <? Z.of_nat (char_count + item_len))%Z
           || (max_items <=? Z.of_nat (length current))%Z)
    then (batches ++ [current], [], 0)
    else (batches, current, char_count) in
  (batches, current ++ [item], char_count + item_len).

Definition pack_finish (st : list (list A) * list A * nat) : list (list A) :=
  let '(batches, current, _) := st in
  if bool_decide (current = []) then batches else batches ++ [current].

Definition greedy_pack (items : list A) : list (list A) :=
  pack_finish (fold_left pack_step items ([], [], 0)).

End Pack.

Definition chunk_by_char_limit (items : list string) (max_chars max_items : Z)
  : list (list string) :=
  greedy_pack String.length max_chars max_items items.

(** Characters in a batch: [sum(len(item) for item in batch)]. *)
Definition chars_of {A} (len : A -> nat) (batch : list A) : nat :=
  list_sum (map len batch).

End Batching.

(* --------------------------------------------------------------------- *)
(** ** src/utils/cache.py *)

Module Cache.

Definition make_cache_key (text source target : string) : string :=
  source +:+ "::" +:+ target +:+ "::" +:+ text.

(** *** Reading the store file

    The file is opened with [encoding="utf-8"]; [json.load] reads it, which
    decodes the bytes (strictly: [UnicodeDecodeError] on a malformed
    sequence) and parses the text. The decoder is written out; the parser
    is a parameter. *)

Definition in_range (b : Byte.byte) (lo hi : N) : bool :=
  ((lo <=? Byte.to_N b) && (Byte.to_N b <=? hi))%N.

Definition low_bits (b : Byte.byte) (mask : N) : N := N.land (Byte.to_N b) mask.

(** Strict UTF-8: shortest form only, no surrogates, nothing above
    U+10FFFF. The result is the sequence of code points. *)
Fixpoint utf8_decode (bs : list Byte.byte) : option (list N) :=
  match bs with
  | [] => Some []
  | b0 :: r0 =>
      if in_range b0 0x00 0x7F then
        cons (Byte.to_N b0) <$> utf8_decode r0
      else if in_range b0 0xC2 0xDF then
        match r0 with
        | b1 :: r1 =>
            if in_range b1 0x80 0xBF then
              cons (low_bits b0 0x1F * 64 + low_bits b1 0x3F)%N
                <$> utf8_decode r1
            else None
        | _ => None
        end
      else if in_range b0 0xE0 0xEF then
        match r0 with
        | b1 :: b2 :: r2 =>
            let lo := if in_range b0 0xE0 0xE0 then 0xA0%N else 0x80%N in
            let hi := if in_range b0 0xED 0xED then 0x9F%N else 0xBF%N in
            if in_range b1 lo hi && in_range b2 0x80 0xBF then
              cons ((low_bits b0 0x0F * 64 + low_bits b1 0x3F) * 64
                    + low_bits b2 0x3F)%N <$> utf8_decode r2
            else None
        | _ => None
        end
      else if in_range b0 0xF0 0xF4 then
        match r0 with
        | b1 :: b2 :: b3 :: r3 =>
            let lo := if in_range b0 0xF0 0xF0 then 0x90%N else 0x80%N in
            let hi := if in_range b0 0xF4 0xF4 then 0x8F%N else 0xBF%N in
            if in_range b1 lo hi && in_range b2 0x80 0xBF
               && in_range b3 0x80 0xBF then
              cons (((low_bits b0 0x07 * 64 + low_bits b1 0x3F) * 64
                     + low_bits b2 0x3F) * 64 + low_bits b3 0x3F)%N
                <$> utf8_decode r3
            else None
        | _ => None
        end
      else None
  end.

(** ["{}".encode("utf-8")], what [_load] writes when the file is absent. *)
Definition empty_object_bytes : list Byte.byte := [Byte.x7b; Byte.x7d].

(** The file at [self.path]: absent, or its bytes. Errors of the file
    system itself (permissions, a full disk) are not modelled. *)
Definition file : Type := option (list Byte.byte).

Record TranslationMemory : Type := {
  auto_flush : bool;
  _data : gmap string string;
  _dirty : bool
}.

Section WithJson.

(** [json.loads] on the decoded text: [None] is [json.JSONDecodeError],
    [Some d] the parsed object. [_data] is declared [Dict[str, str]];
    documents that parse to anything else are outside the model. *)
Variable json_loads : list N -> option (gmap string string).

(** [json.dump(data, handle, ensure_ascii=False, indent=2)], as the bytes
    that reach the file. *)
Variable json_dump : gmap string string -> list Byte.byte.

(** [TranslationMemory._load], on a memory whose [_data] is still [{}]. *)
Definition _load (self : TranslationMemory) : M file TranslationMemory :=
  fun disk =>
    let disk :=
      match disk with
      | None => Some empty_object_bytes
      | Some _ => disk
      end in
    match utf8_decode (default [] disk) with
    | None => (Raise UnicodeDecodeError, disk)
    | Some text =>
        match json_loads text with
        | Some d =>
            (Ok {| auto_flush := auto_flush self; _data := d;
                   _dirty := _dirty self |}, disk)
        | None =>
            (Ok {| auto_flush := auto_flush self; _data := ∅;
                   _dirty := _dirty self |}, disk)
        end
    end.

(** [TranslationMemory.__init__] *)
Definition new_memory (auto_flush : bool) : M file TranslationMemory :=
  _load {| auto_flush := auto_flush; _data := ∅; _dirty := false |}.

Definition memory_get (self : TranslationMemory) (key : string)
  : option string :=
  _data self !! key.

Definition flush (self : TranslationMemory) (disk : file)
  : TranslationMemory * file :=
  if negb (_dirty self) then (self, disk)
  else ({| auto_flush := auto_flush self; _data := _data self;
           _dirty := false |},
        Some (json_dump (_data self))).

Definition memory_set (self : TranslationMemory) (key value : string)
    (disk : file) : TranslationMemory * file :=
  let self := {| auto_flush := auto_flush self;
                 _data := <[key := value]> (_data self);
                 _dirty := true |} in
  if auto_flush self then flush self disk else (self, disk).

End WithJson.

(** *** SessionCache

    [_fetch_cached] is [functools.lru_cache(maxsize)(self._fetch)]: the
    memo [_memo] keeps the results of [_fetch], least recently used first,
    at most [maxsize] of them; [set] empties it. *)

Record SessionCache : Type := {
  _store : gmap string string;
  maxsize : nat;
  _memo : list (string * option string)
}.

Definition new_session_cache (maxsize : nat) : SessionCache :=
  {| _store := ∅; maxsize := maxsize; _memo := [] |}.

Definition _fetch (self : SessionCache) (key : string) : option string :=
  _store self !! key.

Definition memo_find (key : string) (memo : list (string * option string))
  : option (option string) :=
  snd <$> List.find (fun e => String.eqb (fst e) key) memo.

Definition memo_remove (key : string) (memo : list (string * option string))
  : list (string * option string) :=
  List.filter (fun e => negb (String.eqb (fst e) key)) memo.

(** [SessionCache.get]: the value, and the cache with its memo updated. *)
Definition session_get (self : SessionCache) (key : string)
  : option string * SessionCache :=
  match memo_find key (_memo self) with
  | Some v =>
      (v, {| _store := _store self; maxsize := maxsize self;
             _memo := memo_remove key (_memo self) ++ [(key, v)] |})
  | None =>
      let v := _fetch self key in
      let memo :=
        if maxsize self =? 0 then _memo self
        else if length (_memo self) <? maxsize self
             then _memo self ++ [(key, v)]
             else drop 1 (_memo self) ++ [(key, v)] in
      (v, {| _store := _store self; maxsize := maxsize self; _memo := memo |})
  end.

Definition session_set (self : SessionCache) (key value : string)
  : SessionCache :=
  {| _store := <[key := value]> (_store self); maxsize := maxsize self;
     _memo := [] |}.

(** [key in session_cache] *)
Definition session_contains (self : SessionCache) (key : string) : bool :=
  bool_decide (is_Some (_store self !! key)).

End Cache.

(* --------------------------------------------------------------------- *)
(** ** src/config.py and src/translator/base.py *)

Module Config.

Record RetryPolicy : Type := {
  max_attempts : Z;
  backoff_factor : Q;
  backoff_jitter : Q
}.

Record TranslatorSettings : Type := {
  batch_char_limit : Z;
  batch_size : Z
}.

(** [SETTINGS.retry] and [SETTINGS.translator] *)
Definition SETTINGS_retry : RetryPolicy :=
  {| max_attempts := 4; backoff_factor := Qmake 3 2;
     backoff_jitter := Qmake 1 4 |}.

Definition SETTINGS_translator : TranslatorSettings :=
  {| batch_char_limit := 6000; batch_size := 20 |}.

Record TranslationRequest : Type := {
  texts : list string;
  source_lang : string;
  target_lang : string
}.

End Config.

(* --------------------------------------------------------------------- *)
(** ** src/translator/orchestrator.py *)

Module Orchestrator.

Import Config.

Record PendingEntry : Type := {
  text : string;
  indexes : list nat;
  cache_key : string
}.

(** What the orchestrator shows to its caller besides the result: the calls
    of [progress_cb] and [log_cb] and the pauses between attempts. A pause
    lasts [delay + random.uniform(0, jitter)]; the delay is a float in the
    source and a rational here, and the draw is not modelled. *)
Inductive event : Type :=
| Progress (completed total : nat)
| Log (attempt : Z) (exc : exn)
    (* f"Translation attempt {attempt} failed: {exc}" *)
| Sleep (delay jitter : Q).

(** *** [_retry] *)

Section Retry.

Context {W A : Type}.
Variable emit : event -> W -> W.
Variable policy : RetryPolicy.
Variable action : M W A.
(** whether a [log_cb] was passed *)
Variable log_cb : bool.

(** The [while True] loop, entered with the values of [attempt] and [delay]
    before the increment. [fuel] bounds the number of further iterations;
    [_retry] passes [max_attempts - 1], which the loop never exceeds (lemma
    [retry_loop_fuel]), so the branch for no fuel left is never taken. *)
Fixpoint retry_loop (fuel : nat) (attempt : Z) (delay : Q) : M W A :=
  fun w =>
    let attempt := (attempt + 1)%Z in
    match action w with
    | (Ok result, w) => (Ok result, w)
    | (Raise exc, w) =>
        let w := if log_cb then emit (Log attempt exc) w else w in
        if (max_attempts policy <=? attempt)%Z then (Raise exc, w)
        else
          match fuel with
          | O => (Raise exc, w)
          | S fuel' =>
              let w := emit (Sleep delay (backoff_jitter policy)) w in
              retry_loop fuel' attempt (delay * backoff_factor policy)%Q w
          end
    end.

Definition _retry : M W A :=
  retry_loop (Z.to_nat (max_attempts policy - 1)) 0 1%Q.

End Retry.

(** *** The orchestrator object *)

Record TranslationOrchestrator : Type := {
  retry_policy : RetryPolicy;
  self_batch_char_limit : Z;
  self_batch_size : Z
}.

(** [x or default] on an [int | None] *)
Definition int_or (x : option Z) (default : Z) : Z :=
  match x with
  | Some v => if (v =? 0)%Z then default else v
  | None => default
  end.

(** [TranslationOrchestrator.__init__]; the translator and the two caches
    are the objects of [world] below. *)
Definition new_orchestrator (retry_policy : option RetryPolicy)
    (batch_char_limit batch_size : option Z) : TranslationOrchestrator :=
  {| retry_policy := default SETTINGS_retry retry_policy;
     self_batch_char_limit :=
       int_or batch_char_limit (Config.batch_char_limit SETTINGS_translator);
     self_batch_size :=
       int_or batch_size (Config.batch_size SETTINGS_translator) |}.

Definition _build_batches (self : TranslationOrchestrator)
    (entries : list PendingEntry) : list (list PendingEntry) :=
  Batching.greedy_pack (fun entry => String.length (text entry))
    (self_batch_char_limit self) (self_batch_size self) entries.

Section WithBackend.

(** The backend: its internal state and its [translate_texts]. *)
Variable B : Type.
Variable translate_texts : TranslationRequest -> M B (list string).

Variable sequence_matcher_ratio : string -> string -> Q.
Variable json_dump : gmap string string -> list Byte.byte.

(** The objects a call of [translate] reaches. *)
Record world : Type := {
  translator : B;
  memory : Cache.TranslationMemory;
  session_cache : Cache.SessionCache;
  disk : Cache.file;
  console : list event
}.

Definition emit (e : event) (w : world) : world :=
  {| translator := translator w; memory := memory w;
     session_cache := session_cache w; disk := disk w;
     console := console w ++ [e] |}.

(** [await self.translator.translate_texts(request)] *)
Definition call_translator (request : TranslationRequest)
  : M world (list string) :=
  fun w =>
    let '(r, b) := translate_texts request (translator w) in
    (r, {| translator := b; memory := memory w;
           session_cache := session_cache w; disk := disk w;
           console := console w |}).

(** [self.session_cache.get(key) or self.memory.get(key)] *)
Definition lookup_cached (key : string) : M world (option string) :=
  fun w =>
    let '(hit, sc) := Cache.session_get (session_cache w) key in
    let w := {| translator := translator w; memory := memory w;
                session_cache := sc; disk := disk w;
                console := console w |} in
    (Ok (or_else hit (Cache.memory_get (memory w) key)), w).

(** [self.session_cache.set(key, value); self.memory.set(key, value)] *)
Definition store_translation (key value : string) : M world unit :=
  fun w =>
    let sc := Cache.session_set (session_cache w) key value in
    let '(mem, d) := Cache.memory_set json_dump (memory w) key value (disk w) in
    (Ok tt, {| translator := translator w; memory := mem;
               session_cache := sc; disk := d; console := console w |}).

(** [progress_cb(completed, total)] when a callback was passed *)
Definition report (progress_cb : bool) (completed total : nat)
  : M world unit :=
  if progress_cb then modify (emit (Progress completed total)) else mret tt.

(** [for idx in indexes: resolved[idx] = cached] *)
Definition assign_all (resolved : list (option string)) (indexes : list nat)
    (value : string) : Res (list (option string)) :=
  fold_res (fun resolved idx => list_assign resolved idx (Some value))
    indexes resolved.

(** [sum(1 for item in resolved if item is not None)] *)
Definition count_resolved (resolved : list (option string)) : nat :=
  length (List.filter (fun item => bool_decide (item ≠ None)) resolved).

(** One iteration of the first loop of [translate], on
    [(unique_text, indexes)]; the loop carries [resolved] and [pending]. *)
Definition resolve_step (source_lang target_lang : string)
    (acc : list (option string) * list PendingEntry)
    (group : string * list nat)
  : M world (list (option string) * list PendingEntry) :=
  let '(resolved, pending) := acc in
  let '(unique_text, indexes) := group in
  let key := Cache.make_cache_key unique_text source_lang target_lang in
  cached ← lookup_cached key;
  match cached with
  | Some value =>
      if truthy value then
        resolved ← lift_res (assign_all resolved indexes value);
        mret (resolved, pending)
      else
        mret (resolved,
              pending ++ [{| text := unique_text; indexes := indexes;
                             cache_key := key |}])
  | None =>
      mret (resolved,
            pending ++ [{| text := unique_text; indexes := indexes;
                           cache_key := key |}])
  end.

(** The innermost loop of [_translate_pending], [for idx in entry.indexes];
    it carries [resolved] and [completed]. *)
Definition scatter_step (progress_cb : bool) (total : nat)
    (translated : string) (acc : list (option string) * nat) (idx : nat)
  : M world (list (option string) * nat) :=
  let '(resolved, completed) := acc in
  resolved ← lift_res (list_assign resolved idx (Some translated));
  let completed := completed + 1 in
  _ ← report progress_cb completed total;
  mret (resolved, completed).

(** The loop [for entry, translated in zip(batch, translations)]. *)
Definition entry_step (progress_cb : bool) (total : nat)
    (acc : list (option string) * nat) (pair : PendingEntry * string)
  : M world (list (option string) * nat) :=
  let '(entry, translated) := pair in
  _ ← store_translation (cache_key entry) translated;
  fold_m (scatter_step progress_cb total translated) (indexes entry) acc.

(** The loop [for batch in batches]. *)
Definition batch_step (self : TranslationOrchestrator)
    (source_lang target_lang : string) (progress_cb log_cb : bool)
    (total : nat) (acc : list (option string) * nat)
    (batch : list PendingEntry)
  : M world (list (option string) * nat) :=
  let texts := map text batch in
  let action :=
    call_translator {| texts := texts; source_lang := source_lang;
                       target_lang := target_lang |} in
  translations ← _retry emit (retry_policy self) action log_cb;
  if negb (length translations =? length batch) then
    raise MismatchedBatchSize
  else
    fold_m (entry_step progress_cb total) (zip batch translations) acc.

(** [_translate_pending]; [resolved] is mutated in place in the source and
    returned here. *)
Definition _translate_pending (self : TranslationOrchestrator)
    (pending : list PendingEntry) (resolved : list (option string))
    (source_lang target_lang : string) (progress_cb log_cb : bool)
  : M world (list (option string)) :=
  let entries := pending in
  let batches := _build_batches self entries in
  let total := length resolved in
  let completed := count_resolved resolved in
  '(resolved, _) ←
    fold_m (batch_step self source_lang target_lang progress_cb log_cb total)
      batches (resolved, completed);
  mret resolved.

(** [translate] up to the point where [resolved] is final: everything
    before the check for missing translations. *)
Definition resolve_all (self : TranslationOrchestrator) (texts : list string)
    (source_lang target_lang : string) (progress_cb log_cb : bool)
  : M world (list (option string)) :=
  let total := length texts in
  let resolved : list (option string) := replicate total None in
  dedup ← lift_res (Text.deduplicate_texts sequence_matcher_ratio texts
                      Text.default_similarity_threshold);
  '(resolved, pending) ←
    fold_m (resolve_step source_lang target_lang)
      (zip (Text.unique_texts dedup) (Text.groups dedup)) (resolved, []);
  let completed := count_resolved resolved in
  _ ← report progress_cb completed total;
  if negb (bool_decide (pending = [])) then
    _translate_pending self pending resolved source_lang target_lang
      progress_cb log_cb
  else mret resolved.

(** [[idx for idx, value in enumerate(resolved) if value is None]] *)
Definition missing_indexes (resolved : list (option string)) : list nat :=
  map fst
    (List.filter (fun iv => bool_decide (snd iv = None)) (enumerate resolved)).

(** The end of [translate]: the check and the returned list. *)
Definition finish (resolved : list (option string)) : Res (list string) :=
  let missing := missing_indexes resolved in
  if negb (bool_decide (missing = [])) then Raise (MissingTranslations missing)
  else Ok (map (fun text => default "" text) resolved).

Definition translate (self : TranslationOrchestrator) (texts : list string)
    (source_lang target_lang : string) (progress_cb log_cb : bool)
  : M world (list string) :=
  resolved ← resolve_all self texts source_lang target_lang
               progress_cb log_cb;
  lift_res (finish resolved).

End WithBackend.

Arguments translator {B} _.
Arguments memory {B} _.
Arguments session_cache {B} _.
Arguments disk {B} _.
Arguments console {B} _.
Arguments emit {B} _ _.

End Orchestrator.

(* --------------------------------------------------------------------- *)
(** ** src/translator/google.py *)

Module Google.

Import Config.

Definition google_endpoints : list string := [
  "https://translate.googleapis.com/translate_a/single";
  "https://translate.google.com/translate_a/single";
  "https://translate.google.com.tr/translate_a/single";
  "https://translate.google.co.uk/translate_a/single"
].

Definition newline : string := String (ascii_of_nat 10) EmptyString.

(** ["\n|||RNLSEP999|||\n"] *)
Definition BATCH_SEPARATOR : string := newline +:+ "|||RNLSEP999|||" +:+ newline.

(** The attributes of a [GoogleTranslator] that its methods read and
    write ([use_multi_endpoint] is [True] unless overridden). *)
Record GoogleTranslator : Type := {
  _endpoint_index : nat;
  _endpoint_failures : gmap string Z;
  use_multi_endpoint : bool
}.

(** [GoogleTranslator.__init__] *)
Definition new_translator : GoogleTranslator :=
  {| _endpoint_index := 0; _endpoint_failures := ∅;
     use_multi_endpoint := true |}.

(** [self._endpoint_failures.get(ep, 0)] *)
Definition failures_of (self : GoogleTranslator) (ep : string) : Z :=
  default 0%Z (_endpoint_failures self !! ep).

(** [min(...)] of a sequence of integers; [ValueError] if it is empty. *)
Definition py_min (xs : list Z) : Res Z :=
  match xs with
  | [] => Raise ValueError
  | x :: rest => Ok (fold_left Z.min rest x)
  end.

(** The list [available] of [_get_next_endpoint], before the test
    [if not available]. *)
Definition available_endpoints (self : GoogleTranslator) (min_failures : Z)
  : list string :=
  List.filter (fun ep => (failures_of self ep <=? min_failures + 2)%Z)
    google_endpoints.

(** [_get_next_endpoint] from the test [if not available] on. *)
Definition select_endpoint (available : list string)
  : M GoogleTranslator string :=
  fun self =>
    let '(failures, available) :=
      if bool_decide (available = []) then (∅, google_endpoints)
      else (_endpoint_failures self, available) in
    if length available =? 0 then
      (Raise ZeroDivisionError,
       {| _endpoint_index := _endpoint_index self;
          _endpoint_failures := failures;
          use_multi_endpoint := use_multi_endpoint self |})
    else
      let index := (_endpoint_index self + 1) mod length available in
      let self := {| _endpoint_index := index;
                     _endpoint_failures := failures;
                     use_multi_endpoint := use_multi_endpoint self |} in
      match available !! index with
      | Some ep => (Ok ep, self)
      | None => (Raise IndexError, self)
      end.

Definition _get_next_endpoint : M GoogleTranslator string :=
  fun self =>
    match py_min (map (failures_of self) google_endpoints) with
    | Raise e => (Raise e, self)
    | Ok min_failures =>
        select_endpoint (available_endpoints self min_failures) self
    end.

(** *** What an endpoint answers

    The body of a response is whatever JSON the endpoint sent; the code
    looks into it with [isinstance], truthiness, [x[0]], iteration and
    [+=]. *)

#[local] Unset Elimination Schemes.
Inductive json : Type :=
| JNull
| JBool (b : bool)
| JNum (q : Q)
| JStr (s : string)
| JList (items : list json)
| JDict (members : list (string * json)).
#[local] Set Elimination Schemes.

Definition json_truthy (v : json) : bool :=
  match v with
  | JNull => false
  | JBool b => b
  | JNum q => negb (Qeq_bool q 0)
  | JStr s => truthy s
  | JList items => negb (bool_decide (items = []))
  | JDict members => negb (bool_decide (members = []))
  end.

(** [v[0]] *)
Definition json_first (v : json) : Res json :=
  match v with
  | JList (x :: _) => Ok x
  | JList [] => Raise IndexError
  | JStr (String c _) => Ok (JStr (String c EmptyString))
  | JStr EmptyString => Raise IndexError
  | JDict _ => Raise KeyError
  | JNull | JBool _ | JNum _ => Raise TypeError
  end.

(** [for seg in v]: the values the loop variable takes. *)
Definition json_iter (v : json) : Res (list json) :=
  match v with
  | JList items => Ok items
  | JStr s =>
      Ok (map (fun c => JStr (String c EmptyString)) (list_ascii_of_string s))
  | JDict members => Ok (map (fun m => JStr (fst m)) members)
  | JNull | JBool _ | JNum _ => Raise TypeError
  end.

(** The outcome of [session.get(url, ...)] followed, when the status is
    read, by [resp.json(content_type=None)]. *)
Inductive reply : Type :=
| RequestFailed (exc : exn)
    (* [session.get] raised: no connection, a timeout ... *)
| Response (status : Z) (body : Res json)
    (* [body] is what [resp.json] returns or raises *).

(** [segs = data[0] if isinstance(data, list) and data else None] *)
Definition first_of_list (data : json) : option json :=
  match data with
  | JList (x :: _) => Some x
  | _ => None
  end.

(** One iteration of [for seg in segs: if seg and seg[0]:
    full_translation += seg[0]]. *)
Definition append_segment (full_translation : string) (seg : json)
  : Res string :=
  if json_truthy seg then
    head ← json_first seg;
    if json_truthy head then
      match head with
      | JStr s => Ok (full_translation +:+ s)
      | _ => Raise TypeError
      end
    else Ok full_translation
  else Ok full_translation.

Definition join_segments (segs : json) : Res string :=
  items ← json_iter segs;
  fold_res append_segment items "".

Section WithNetwork.

(** The network: [http_get endpoint sl tl q] is the request
    [GET endpoint?client=gtx&sl=..&tl=..&dt=t&q=..]. *)
Variable Net : Type.
Variable http_get : string -> string -> string -> string -> Net -> reply * Net.

Record gworld : Type := {
  self : GoogleTranslator;
  net : Net
}.

Definition on_self {A} (m : M GoogleTranslator A) : M gworld A :=
  fun w =>
    let '(r, s) := m (self w) in
    (r, {| self := s; net := net w |}).

Definition request (endpoint sl tl q : string) : M gworld reply :=
  fun w =>
    let '(r, n) := http_get endpoint sl tl q (net w) in
    (Ok r, {| self := self w; net := n |}).

(** [self._endpoint_failures[endpoint] = self._endpoint_failures.get(endpoint, 0) + 1] *)
Definition count_failure (endpoint : string) : M gworld unit :=
  on_self (modify (fun s =>
    {| _endpoint_index := _endpoint_index s;
       _endpoint_failures :=
         <[endpoint := (failures_of s endpoint + 1)%Z]> (_endpoint_failures s);
       use_multi_endpoint := use_multi_endpoint s |})).

(** [self._endpoint_failures[endpoint] = 0] *)
Definition reset_failures (endpoint : string) : M gworld unit :=
  on_self (modify (fun s =>
    {| _endpoint_index := _endpoint_index s;
       _endpoint_failures := <[endpoint := 0%Z]> (_endpoint_failures s);
       use_multi_endpoint := use_multi_endpoint s |})).

(** The inner function [try_endpoint] of [_try_batch_separator]. *)
Definition try_endpoint (texts : list string) (source_lang target_lang : string)
    (endpoint : string) : M gworld (option (list string)) :=
  let combined_text := join BATCH_SEPARATOR texts in
  r ← request endpoint source_lang target_lang combined_text;
  match r with
  | RequestFailed _ => _ ← count_failure endpoint; mret None
  | Response status body =>
      if negb (status =? 200)%Z then _ ← count_failure endpoint; mret None
      else
        match body with
        | Raise _ => _ ← count_failure endpoint; mret None
        | Ok data =>
            match first_of_list data with
            | None => mret None
            | Some segs =>
                if negb (json_truthy segs) then mret None
                else
                  match join_segments segs with
                  | Raise _ => _ ← count_failure endpoint; mret None
                  | Ok full_translation =>
                      let parts := split BATCH_SEPARATOR full_translation in
                      if negb (length parts =? length texts) then mret None
                      else
                        _ ← reset_failures endpoint;
                        mret (Some (map strip parts))
                  end
            end
        end
  end.

(** [if result:] on an [Optional[List[str]]] *)
Definition result_truthy (result : option (list string)) : bool :=
  match result with
  | Some (_ :: _) => true
  | _ => false
  end.

(** The tasks that run to their end, one after the other, with their
    results. *)
Fixpoint run_tasks (attempt : string -> M gworld (option (list string)))
    (endpoints : list string) : M gworld (list (option (list string))) :=
  match endpoints with
  | [] => mret []
  | ep :: rest =>
      result ← attempt ep;
      results ← run_tasks attempt rest;
      mret (result :: results)
  end.

(** The first truthy result, which is what the loop over
    [asyncio.as_completed(tasks)] returns; [None] if there is none. *)
Definition first_truthy (results : list (option (list string)))
  : option (list string) :=
  match List.find result_truthy results with
  | Some result => result
  | None => None
  end.

(** [[self._get_next_endpoint() for _ in range(n)]] *)
Fixpoint next_endpoints (n : nat) : M gworld (list string) :=
  match n with
  | O => mret []
  | S n' =>
      ep ← on_self _get_next_endpoint;
      rest ← next_endpoints n';
      mret (ep :: rest)
  end.

(** The loop [for _ in range(n)] of the branch without racing. *)
Fixpoint try_in_turn (texts : list string) (source_lang target_lang : string)
    (n : nat) : M gworld (option (list string)) :=
  match n with
  | O => mret None
  | S n' =>
      ep ← on_self _get_next_endpoint;
      result ← try_endpoint texts source_lang target_lang ep;
      if result_truthy result then mret result
      else try_in_turn texts source_lang target_lang n'
  end.

(** [_try_batch_separator]. With racing, the tasks run concurrently and
    [asyncio.as_completed] hands them over as they finish; the first truthy
    result is returned and the tasks not yet done are cancelled. [order]
    lists, in the order in which they finish, the positions of the tasks
    that run to their end, as the event loop and the network happen to
    decide it: all of them when no task has a result, otherwise the tasks
    up to the one with the result and whichever others finish before the
    cancellation. A task changes the failure counters only in its last
    step, after its last [await], and a cancelled task not at all, so the
    effects on the counters are those of running the tasks of [order] one
    after the other. *)
Definition _try_batch_separator (order : list nat) (texts : list string)
    (source_lang target_lang : string) : M gworld (option (list string)) :=
  use_multi ← (fun w => (Ok (use_multi_endpoint (self w)), w));
  if use_multi : bool then
    endpoints_to_try ← next_endpoints (min 3 (length google_endpoints));
    results ← run_tasks (try_endpoint texts source_lang target_lang)
                (omap (fun i => endpoints_to_try !! i) order);
    mret (first_truthy results)
  else
    try_in_turn texts source_lang target_lang 3.

(** [_translate_single] races two endpoints and falls back to Lingva and
    to a last synchronous request; nothing below depends on how, so it is
    a parameter: a text in, a translation or [None] out. *)
Variable _translate_single : string -> string -> string -> M gworld (option string).

(** [result if result else ""] *)
Definition or_empty (result : option string) : string :=
  match result with
  | Some s => s
  | None => ""
  end.

(** [_translate_parallel]: one task per text, gathered with
    [return_exceptions=True], an exception counting as [""]. The tasks
    are run one after the other here. *)
Fixpoint translate_each (texts : list string) (source_lang target_lang : string)
  : M gworld (list string) :=
  match texts with
  | [] => mret []
  | text :: rest =>
      fun w =>
        let '(r, w) := _translate_single text source_lang target_lang w in
        let translated :=
          match r with
          | Ok result => or_empty result
          | Raise _ => ""
          end in
        (rest' ← translate_each rest source_lang target_lang;
         mret (translated :: rest')) w
  end.

Definition _translate_parallel (texts : list string)
    (source_lang target_lang : string) : M gworld (list string) :=
  translate_each texts source_lang target_lang.

(** [sum(len(t) for t in texts)] *)
Definition total_chars (texts : list string) : nat :=
  list_sum (map String.length texts).

Definition translate_texts (order : list nat) (request : TranslationRequest)
  : M gworld (list string) :=
  let texts := Config.texts request in
  match texts with
  | [] => mret []
  | [text] =>
      result ← _translate_single text (source_lang request)
                 (target_lang request);
      mret [or_empty result]
  | _ =>
      if (length texts <=? 8) && (total_chars texts <=? 1200) then
        result ← _try_batch_separator order texts (source_lang request)
                   (target_lang request);
        if result_truthy result then mret (default [] result)
        else _translate_parallel texts (source_lang request)
               (target_lang request)
      else
        _translate_parallel texts (source_lang request) (target_lang request)
  end.

End WithNetwork.

End Google.

(* --------------------------------------------------------------------- *)
(** ** More [str] and [int] methods *)

Module PyStr.

Definition LF : string := String "010" EmptyString.
Definition CRLF : string := String "013" (String "010" EmptyString).

(** [c.lower()] on one code point below 256: A..Z and the capital letters
    of Latin-1 (U+00C0..U+00DE, the multiplication sign apart) move up by
    32. *)
Definition lower_char (c : ascii) : ascii :=
  let n := nat_of_ascii c in
  if ((65 <=? n) && (n <=? 90)) || ((192 <=? n) && (n <=? 214))
     || ((216 <=? n) && (n <=? 222))
  then ascii_of_nat (n + 32) else c.

(** [s.lower()] *)
Fixpoint lower (s : string) : string :=
  match s with
  | EmptyString => EmptyString
  | String c s' => String (lower_char c) (lower s')
  end.

(** [s.endswith(suffix)] *)
Definition endswith (s suffix : string) : bool :=
  (String.length suffix <=? String.length s)
  && String.eqb
       (String.substring (String.length s - String.length suffix)
          (String.length suffix) s) suffix.

(** [s[:n]] for [n >= 0] *)
Definition slice_to (n : nat) (s : string) : string := String.substring 0 n s.

(** [s[:-k]] for [k > 0] *)
Definition drop_last (k : nat) (s : string) : string :=
  slice_to (String.length s - k) s.

(** [s.split(sep, maxsplit)] for a separator of one character: at most
    [maxsplit] cuts, from the left. [cur] holds the characters of the
    current piece, last one first. *)
Fixpoint split_char_go (sep : ascii) (maxsplit : nat) (cur : list ascii)
    (s : string) : list string :=
  match s with
  | EmptyString => [string_of_list_ascii (rev cur)]
  | String c s' =>
      match maxsplit with
      | O => [string_of_list_ascii (rev cur) +:+ s]
      | S maxsplit' =>
          if Ascii.eqb c sep then
            string_of_list_ascii (rev cur)
              :: split_char_go sep maxsplit' [] s'
          else split_char_go sep maxsplit (c :: cur) s'
      end
  end.

Definition split_char (sep : ascii) (maxsplit : nat) (s : string)
  : list string :=
  split_char_go sep maxsplit [] s.

(** [s.count(c)] for one character *)
Fixpoint count_char (c : ascii) (s : string) : nat :=
  match s with
  | EmptyString => 0
  | String c' s' => (if Ascii.eqb c' c then 1 else 0) + count_char c s'
  end.

(** The decimal digits of a natural number: [str(n)]. *)
Definition digits (n : N) : string := NilZero.string_of_uint (N.to_uint n).

(** [str(z)] for an [int] *)
Definition str_int (z : Z) : string :=
  (if (z <? 0)%Z then "-" else "") +:+ digits (Z.abs_N z).

Fixpoint zeros (n : nat) : string :=
  match n with
  | O => EmptyString
  | S n' => String "0" (zeros n')
  end.

(** [f"{z:0{width}d}"]: the sign, then zeros up to the width, then the
    digits. *)
Definition format_0d (width : nat) (z : Z) : string :=
  let sign := if (z <? 0)%Z then "-" else "" in
  let body := digits (Z.abs_N z) in
  sign +:+ zeros (width - String.length sign - String.length body) +:+ body.

End PyStr.

(* --------------------------------------------------------------------- *)
(** ** src/utils/lang.py *)

Module Lang.

Import PyStr.

(** The loop of [_build_sample] over the texts not yet seen; it carries
    [buffer] and [total], and [break] ends it. *)
Fixpoint sample_loop (max_chars : Z) (texts : list string)
    (buffer : list string) (total : Z) : list string :=
  match texts with
  | [] => buffer
  | text :: rest =>
      if negb (truthy text) then sample_loop max_chars rest buffer total
      else
        let remaining := (max_chars - total)%Z in
        if (remaining <=? 0)%Z then buffer
        else
          let snippet := strip text in
          if negb (truthy snippet) then sample_loop max_chars rest buffer total
          else
            let snippet :=
              if (remaining <? Z.of_nat (String.length snippet))%Z
              then slice_to (Z.to_nat remaining) snippet
              else snippet in
            sample_loop max_chars rest (buffer ++ [snippet])
              (total + Z.of_nat (String.length snippet))
  end.

Definition _build_sample (texts : list string) (max_chars : Z) : string :=
  join LF (sample_loop max_chars texts [] 0).

(** The default of the keyword argument [max_chars] *)
Definition default_max_chars : Z := 2500.

Section WithDetector.

(** [langdetect.detect]: the language code, or [None] for
    [LangDetectException]. *)
Variable detect : string -> option string.

Definition detect_language (texts : list string) (max_chars : Z)
  : option string :=
  let sample := _build_sample texts max_chars in
  if negb (truthy (strip sample)) then None
  else detect sample.

End WithDetector.

End Lang.

(* --------------------------------------------------------------------- *)
(** ** src/parser/ass_parser.py *)

Module AssParser.

Import PyStr.

Definition FIELD_NAMES : list string :=
  ["layer"; "start"; "end"; "style"; "name"; "margin_l"; "margin_r";
   "margin_v"; "effect"].

Definition _strip_line_ending (raw_line : string) : string * string :=
  if endswith raw_line CRLF then (drop_last 2 raw_line, CRLF)
  else if endswith raw_line LF then (drop_last 1 raw_line, LF)
  else (raw_line, "").

(** The longest run of whitespace at the start of [s], and what follows
    it. *)
Fixpoint span_space (s : string) : string * string :=
  match s with
  | EmptyString => (EmptyString, EmptyString)
  | String c s' =>
      if isspace c then
        let '(spaces, rest) := span_space s' in (String c spaces, rest)
      else (EmptyString, s)
  end.

(** [DIALOGUE_PREFIX.match(s)]. The pattern, compiled with
    [re.IGNORECASE], asks at the start of [s] for the nine characters of
    [Dialogue:] and takes after them the longest run of whitespace; the
    two together are its group 1. The result is [None], or
    [match.group(1)] and [s[match.end():]]. Below 256 a character matches
    a letter of the pattern, case ignored, when its lower case is that
    letter. *)
Definition DIALOGUE_PREFIX_match (s : string) : option (string * string) :=
  let head := String.substring 0 9 s in
  if String.eqb (lower head) "dialogue:" then
    let '(spaces, rest) :=
      span_space (String.substring 9 (String.length s - 9) s) in
    Some (head +:+ spaces, rest)
  else None.

(** [_format_time] *)
Definition _format_time (ms : Z) : string :=
  let total_cs := Z.max (ms / 10) 0 in
  let hours := (total_cs / 360000)%Z in
  let minutes := ((total_cs / 6000) mod 60)%Z in
  let seconds := ((total_cs / 100) mod 60)%Z in
  let centiseconds := (total_cs mod 100)%Z in
  str_int hours +:+ ":" +:+ format_0d 2 minutes +:+ ":"
  +:+ format_0d 2 seconds +:+ "." +:+ format_0d 2 centiseconds.

Definition _format_margin (value : Z) : string := format_0d 4 value.

Record SubtitleLine : Type := {
  index : nat;
  prefix : string;
  fields : gmap string string;
  text : string;
  line_ending : string
}.

(** [dict(pairs)]: a later pair replaces an earlier one with its key. *)
Definition dict_of (pairs : list (string * string)) : gmap string string :=
  fold_left (fun d pair => <[pair.1 := pair.2]> d) pairs ∅.

(** [x or "\n"] *)
Definition or_newline (line_ending : string) : string :=
  if truthy line_ending then line_ending else LF.

(** [SubtitleLine.parse] *)
Definition parse (index : nat) (raw_line : string) : Res SubtitleLine :=
  let '(stripped, line_ending) := _strip_line_ending raw_line in
  match DIALOGUE_PREFIX_match stripped with
  | None => Raise ValueError
  | Some (prefix, payload) =>
      let parts := split_char "," 9 payload in
      let parts :=
        if length parts <? 10
        then parts ++ replicate (10 - length parts) ""
        else parts in
      let metadata := dict_of (zip FIELD_NAMES (take (length FIELD_NAMES) parts)) in
      match last parts with
      | None => Raise IndexError
      | Some text =>
          Ok {| index := index; prefix := prefix; fields := metadata;
                text := text; line_ending := or_newline line_ending |}
      end
  end.

(** A [pysubs2.SSAEvent], with the attributes that the parser reads. *)
Record SSAEvent : Type := {
  ev_type : string;
  ev_is_comment : bool;
  ev_layer : Z;
  ev_start : Z;
  ev_end : Z;
  ev_style : string;
  ev_name : string;
  ev_marginl : Z;
  ev_marginr : Z;
  ev_marginv : Z;
  ev_effect : string;
  ev_text : string
}.

(** [SubtitleLine.from_event] *)
Definition from_event (index : nat) (prefix line_ending : string)
    (event : SSAEvent) : SubtitleLine :=
  {| index := index;
     prefix := prefix;
     fields :=
       dict_of [("layer", str_int (ev_layer event));
                ("start", _format_time (ev_start event));
                ("end", _format_time (ev_end event));
                ("style", ev_style event);
                ("name", ev_name event);
                ("margin_l", _format_margin (ev_marginl event));
                ("margin_r", _format_margin (ev_marginr event));
                ("margin_v", _format_margin (ev_marginv event));
                ("effect", ev_effect event)];
     text := ev_text event;
     line_ending := or_newline line_ending |}.

(** [[self.fields[name] for name in FIELD_NAMES]] *)
Fixpoint ordered_fields (fields : gmap string string) (names : list string)
  : Res (list string) :=
  match names with
  | [] => Ok []
  | name :: rest =>
      match fields !! name with
      | None => Raise KeyError
      | Some value =>
          values ← ordered_fields fields rest;
          mret (value :: values)
      end
  end.

(** [SubtitleLine.render] *)
Definition render (self : SubtitleLine) : Res string :=
  ordered ← ordered_fields (fields self) FIELD_NAMES;
  let payload := join "," (ordered ++ [text self]) in
  mret (prefix self +:+ payload +:+ line_ending self).

Record ASSParser : Type := {
  _lines : list string;
  source_path : option string;
  dialogue_lines : list SubtitleLine;
  _pysubs_dialogues : list SSAEvent
}.

(** One iteration of the loop of [_extract_dialogues] on [(idx, line)];
    the loop carries [pysubs_iter], an iterator over the events or
    [None], and [self.dialogue_lines]. *)
Definition extract_step
    (acc : option (list SSAEvent) * list SubtitleLine) (item : nat * string)
  : Res (option (list SSAEvent) * list SubtitleLine) :=
  let '(pysubs_iter, dialogue_lines) := acc in
  let '(idx, line) := item in
  match DIALOGUE_PREFIX_match line with
  | None => Ok acc
  | Some (prefix, _) =>
      let '(_, line_ending) := _strip_line_ending line in
      let '(pysubs_event, pysubs_iter) :=
        match pysubs_iter with
        | Some (event :: events) => (Some event, Some events)
        | Some [] => (None, None)
        | None => (None, None)
        end in
      match parse idx line with
      | Ok dialogue => Ok (pysubs_iter, dialogue_lines ++ [dialogue])
      | Raise ValueError =>
          match pysubs_event with
          | None => Ok (pysubs_iter, dialogue_lines)
          | Some event =>
              Ok (pysubs_iter,
                  dialogue_lines
                    ++ [from_event idx prefix line_ending event])
          end
      | Raise e => Raise e
      end
  end.

(** [_extract_dialogues], on a parser whose [dialogue_lines] is still
    empty. *)
Definition _extract_dialogues (self : ASSParser) : Res ASSParser :=
  let pysubs_iter :=
    if bool_decide (_pysubs_dialogues self = []) then None
    else Some (_pysubs_dialogues self) in
  '(_, dialogue_lines) ←
    fold_res extract_step (enumerate (_lines self))
      (pysubs_iter, dialogue_lines self);
  mret {| _lines := _lines self; source_path := source_path self;
          dialogue_lines := dialogue_lines;
          _pysubs_dialogues := _pysubs_dialogues self |}.

Section WithPysubs2.

(** [pysubs2.load(path)]: the events of the file, or [None] when the
    module is not installed or the call raises. *)
Variable pysubs2_load : string -> option (list SSAEvent).

Definition _load_pysubs_dialogues (source_path : option string)
  : list SSAEvent :=
  match source_path with
  | None => []
  | Some path =>
      match pysubs2_load path with
      | None => []
      | Some subs =>
          List.filter
            (fun event =>
               String.eqb (lower (ev_type event)) "dialogue"
               && negb (ev_is_comment event)) subs
      end
  end.

(** [ASSParser.__init__] *)
Definition new_parser (lines : list string) (source_path : option string)
  : Res ASSParser :=
  _extract_dialogues
    {| _lines := lines; source_path := source_path; dialogue_lines := [];
       _pysubs_dialogues := _load_pysubs_dialogues source_path |}.

End WithPysubs2.

(** [list(self.iter_texts())] *)
Definition iter_texts (self : ASSParser) : list string :=
  map text (dialogue_lines self).

(** One iteration of the loop of [apply_translations], on the dialogue at
    position [k] of [dialogue_lines] and its translation: the dialogue
    object is changed where it sits, and its line is replaced. *)
Definition apply_step (k : nat) (translated : string) : M ASSParser unit :=
  fun self =>
    match dialogue_lines self !! k with
    | None => (Raise IndexError, self)
    | Some dialogue =>
        let dialogue :=
          {| index := index dialogue; prefix := prefix dialogue;
             fields := fields dialogue; text := translated;
             line_ending := line_ending dialogue |} in
        let self :=
          {| _lines := _lines self; source_path := source_path self;
             dialogue_lines := <[k := dialogue]> (dialogue_lines self);
             _pysubs_dialogues := _pysubs_dialogues self |} in
        match render dialogue with
        | Raise e => (Raise e, self)
        | Ok rendered =>
            match list_assign (_lines self) (index dialogue) rendered with
            | Raise e => (Raise e, self)
            | Ok lines =>
                (Ok tt,
                 {| _lines := lines; source_path := source_path self;
                    dialogue_lines := dialogue_lines self;
                    _pysubs_dialogues := _pysubs_dialogues self |})
            end
        end
    end.

Definition apply_translations (translated_texts : list string)
  : M ASSParser unit :=
  fun self =>
    if negb (length translated_texts =? length (dialogue_lines self)) then
      (Raise ValueError, self)
    else
      fold_m (fun (_ : unit) item => apply_step item.1 item.2)
        (enumerate translated_texts) tt self.

(** What [write] and [backup_original] put into the file:
    ["".join(self._lines)]. *)
Definition written (self : ASSParser) : string := join "" (_lines self).

End AssParser.

(* --------------------------------------------------------------------- *)
(** ** src/translator/deepl_api.py *)

Module DeepL.

(** The exceptions that the DeepL backends raise or let through. *)
Inductive error : Type :=
| RuntimeError (message : string)
| AttributeError
| TypeError
| OtherError (name : string)
    (* anything else that the HTTP client raises and the code does not
       catch: a timeout, a JSON document that does not parse ... *).

Inductive outcome (A : Type) : Type :=
| Done (a : A)
| Failed (e : error).
Arguments Done {A} a.
Arguments Failed {A} e.

(** [needle in s] *)
Definition contains (needle s : string) : bool :=
  match String.index 0 needle s with
  | Some _ => true
  | None => false
  end.

End DeepL.

Module DeepLAPI.

Import PyStr Google DeepL.

Definition PRO_API_URL : string := "https://api.deepl.com/v2/translate".
Definition FREE_API_URL : string := "https://api-free.deepl.com/v2/translate".

Definition LANG_MAP : list (string * option string) :=
  [("auto", None); ("en", Some "EN"); ("tr", Some "TR"); ("de", Some "DE");
   ("fr", Some "FR"); ("es", Some "ES"); ("it", Some "IT"); ("ja", Some "JA");
   ("ko", Some "KO"); ("ru", Some "RU"); ("zh", Some "ZH");
   ("pt", Some "PT-PT"); ("nl", Some "NL"); ("pl", Some "PL")].

(** [LANG_MAP.get(key)]: [None] for a key that is absent, and for
    ["auto"]. *)
Definition lang_map_get (key : string) : option string :=
  match List.find (fun entry => String.eqb entry.1 key) LANG_MAP with
  | Some entry => entry.2
  | None => None
  end.

Record DeepLAPITranslator : Type := {
  api_key : string;
  plan : string;
  api_url : string;
  timeout : Q;
  proxy : option string
}.

(** [DeepLAPITranslator.__init__] *)
Definition new_translator (api_key plan : string) (api_url : option string)
    (timeout : Q) (proxy : option string) : Res DeepLAPITranslator :=
  if negb (truthy api_key) then Raise ValueError
  else
    let plan := lower plan in
    let url :=
      if truthy_opt api_url then default "" api_url
      else if String.eqb plan "free" || endswith api_key ":fx"
           then FREE_API_URL
           else PRO_API_URL in
    Ok {| api_key := api_key; plan := plan; api_url := url;
          timeout := timeout; proxy := proxy |}.

(** The JSON body of the request. The key ["source_lang"] is there when
    [payload_source_lang] is not [None]. *)
Record payload : Type := {
  payload_text : list string;
  payload_target_lang : option string;
  payload_source_lang : option string
}.

(** What the HTTP client raises: an [aiohttp.ClientError], which the code
    catches, or something else. *)
Inductive failure : Type :=
| ClientError (message : string)
| OtherFailure (e : error).

(** The outcome of [session.post]: an exception, or a response with its
    status, and what [resp.text()] and [resp.json()] give if they are
    awaited. *)
Inductive reply : Type :=
| NoResponse (f : failure)
| Response (status : Z) (text : failure + string) (body : failure + json).

(** [except aiohttp.ClientError as e: raise RuntimeError(...)] *)
Definition connection_error (f : failure) : error :=
  match f with
  | ClientError message =>
      RuntimeError ("DeepL API connection error: " +:+ message)
  | OtherFailure e => e
  end.

(** The [try] block of [translate_texts]: the value of [data], or the
    exception. *)
Definition read_response (r : reply) : outcome json :=
  match r with
  | NoResponse f => Failed (connection_error f)
  | Response status text body =>
      if (status =? 403)%Z then
        Failed (RuntimeError
                  "DeepL API: Invalid API key or insufficient permissions")
      else if (status =? 456)%Z then
        Failed (RuntimeError "DeepL API: Quota exceeded")
      else if (status =? 429)%Z then
        Failed (RuntimeError "DeepL API: Too many requests. Please slow down.")
      else if negb (status =? 200)%Z then
        match text with
        | inl f => Failed (connection_error f)
        | inr t =>
            Failed (RuntimeError
                      ("DeepL API error: HTTP " +:+ str_int status +:+ " - "
                       +:+ slice_to 200 t))
        end
      else
        match body with
        | inl f => Failed (connection_error f)
        | inr data => Done data
        end
  end.

(** [v.get(key, default)]: only a [dict] has the method. The members of a
    [JDict] have distinct keys, as those of a Python [dict]. *)
Definition json_get (v : json) (key : string) (default : json)
  : outcome json :=
  match v with
  | JDict members =>
      Done (match List.find (fun m => String.eqb m.1 key) members with
            | Some m => m.2
            | None => default
            end)
  | _ => Failed AttributeError
  end.

(** [for item in v] *)
Definition json_items (v : json) : outcome (list json) :=
  match v with
  | JList items => Done items
  | JStr s =>
      Done (map (fun c => JStr (String c EmptyString)) (list_ascii_of_string s))
  | JDict members => Done (map (fun m => JStr m.1) members)
  | JNull | JBool _ | JNum _ => Failed TypeError
  end.

(** The loop [for item in ...: translations.append(item.get("text", ""))] *)
Fixpoint collect_texts (items : list json) : outcome (list json) :=
  match items with
  | [] => Done []
  | item :: rest =>
      match json_get item "text" (JStr "") with
      | Failed e => Failed e
      | Done translated =>
          match collect_texts rest with
          | Failed e => Failed e
          | Done translations => Done (translated :: translations)
          end
      end
  end.

(** From [data] to the returned list: the parsing, and the padding with
    empty strings. The list is declared [List[str]]; its elements are
    whatever JSON values the response holds under ["text"]. *)
Definition parse_response (texts : list string) (data : json)
  : outcome (list json) :=
  match json_get data "translations" (JList []) with
  | Failed e => Failed e
  | Done found =>
      match json_items found with
      | Failed e => Failed e
      | Done items =>
          match collect_texts items with
          | Failed e => Failed e
          | Done translations =>
              Done (translations
                      ++ replicate (length texts - length translations)
                           (JStr ""))
          end
      end
  end.

Section WithHttp.

(** [str.upper]; it is not closed on the code points below 256 (the upper
    case of U+00FF lies above), so it is taken as it is. *)
Variable upper : string -> string.

Variable Net : Type.

(** [session.post(url, json=payload, proxy=proxy)] *)
Variable http_post :
  string -> payload -> option string -> Net -> reply * Net.

Definition _map_lang (lang : string) : option string :=
  let mapped := lang_map_get (lower lang) in
  match mapped with
  | None =>
      if negb (String.eqb (lower lang) "auto") then Some (upper lang)
      else mapped
  | Some _ => mapped
  end.

Definition translate_texts (self : DeepLAPITranslator)
    (request : Config.TranslationRequest) (net : Net)
  : outcome (list json) * Net :=
  let texts := Config.texts request in
  if bool_decide (texts = []) then (Done [], net)
  else
    let source_lang := _map_lang (Config.source_lang request) in
    let payload :=
      {| payload_text := texts;
         payload_target_lang := _map_lang (Config.target_lang request);
         payload_source_lang :=
           if truthy_opt source_lang then source_lang else None |} in
    let '(r, net) := http_post (api_url self) payload (proxy self) net in
    match read_response r with
    | Failed e => (Failed e, net)
    | Done data => (parse_response texts data, net)
    end.

End WithHttp.

End DeepLAPI.

(* --------------------------------------------------------------------- *)
(** ** src/translator/deepl_web.py *)

Module DeepLWeb.

Import PyStr DeepL.

Definition LANG_MAP : list (string * string) :=
  [("auto", "auto"); ("en", "EN"); ("tr", "TR"); ("de", "DE"); ("fr", "FR");
   ("es", "ES"); ("it", "IT"); ("ja", "JA"); ("ko", "KO"); ("ru", "RU");
   ("zh", "ZH"); ("pt", "PT"); ("nl", "NL"); ("pl", "PL")].

(** [sum(text.count("i") for text in texts)] *)
Definition i_count (texts : list string) : Z :=
  Z.of_nat (list_sum (map (count_char "i") texts)).

(** The timestamp of [_build_request_body], from [int(time.time() * 1000)]. *)
Definition adjust_timestamp (texts : list string) (now : Z) : Z :=
  if (0 <? i_count texts)%Z
  then (now - now mod (i_count texts + 1) + (i_count texts + 1))%Z
  else now.

(** Whether [_translate_batch_internal] writes the method with a space
    before the colon. *)
Definition method_spaced (request_id : Z) : bool :=
  (((request_id + 5) mod 29 =? 0) || ((request_id + 3) mod 13 =? 0))%Z.

(** The pauses of [translate_texts]: [asyncio.sleep(base + uniform(0,
    jitter))]. *)
Inductive pause : Type :=
| Pause (base jitter : Q).

Section WithUpper.

Variable upper : string -> string.

(** [LANG_MAP.get(lang.lower(), lang.upper())] *)
Definition _map_lang (lang : string) : string :=
  match List.find (fun entry => String.eqb entry.1 (lower lang)) LANG_MAP with
  | Some entry => entry.2
  | None => upper lang
  end.

End WithUpper.

Section WithBatchInternal.

(** The state that a request changes: the session, the request counter,
    the network. *)
Variable W : Type.

(** [_translate_batch_internal]: the request to the JSON-RPC endpoint and
    the reading of its answer. It is a parameter here. *)
Variable _translate_batch_internal :
  list string -> string -> string -> W -> outcome (list string) * W.

(** [await asyncio.sleep(...)] *)
Variable sleep : pause -> W -> W.

(** The loop [for attempt in range(max_retries)] on one slice, from
    [attempt]; [more] tells whether another slice follows. It returns what
    is to be appended to [results]. [left] is [max_retries - attempt]. *)
Fixpoint attempts (left : nat) (attempt : Z) (batch : list string)
    (source_lang target_lang : string) (more : bool) (w : W)
  : outcome (list string) * W :=
  match left with
  | O => (Done [], w)
  | S left' =>
      match _translate_batch_internal batch source_lang target_lang w with
      | (Done batch_results, w) =>
          let w :=
            if more then sleep (Pause (Qmake 1 2) (Qmake 1 2)) w else w in
          (Done batch_results, w)
      | (Failed (RuntimeError message), w) =>
          if contains "rate limit" (lower message) && (attempt <? 3 - 1)%Z
          then
            let w := sleep (Pause (inject_Z ((attempt + 1) * 2)) 1) w in
            attempts left' (attempt + 1) batch source_lang target_lang more w
          else if (attempt <? 3 - 1)%Z then
            let w := sleep (Pause 1 0) w in
            attempts left' (attempt + 1) batch source_lang target_lang more w
          else (Failed (RuntimeError message), w)
      | (Failed e, w) => (Failed e, w)
      end
  end.

(** The loop [for i in range(0, len(texts), batch_size)], from [i];
    [slices] bounds the number of slices still to come. *)
Fixpoint batch_loop (slices : nat) (i : nat) (texts : list string)
    (source_lang target_lang : string) (results : list string) (w : W)
  : outcome (list string) * W :=
  match slices with
  | O => (Done results, w)
  | S slices' =>
      if length texts <=? i then (Done results, w)
      else
        let batch := take 5 (drop i texts) in
        match attempts 3 0 batch source_lang target_lang
                (i + 5 <? length texts) w with
        | (Failed e, w) => (Failed e, w)
        | (Done batch_results, w) =>
            batch_loop slices' (i + 5) texts source_lang target_lang
              (results ++ batch_results) w
        end
  end.

Definition translate_texts (request : Config.TranslationRequest) (w : W)
  : outcome (list string) * W :=
  let texts := Config.texts request in
  if bool_decide (texts = []) then (Done [], w)
  else
    match batch_loop (length texts) 0 texts (Config.source_lang request)
            (Config.target_lang request) [] w with
    | (Failed e, w) => (Failed e, w)
    | (Done results, w) =>
        (Done (results ++ replicate (length texts - length results) ""), w)
    end.

End WithBatchInternal.

End DeepLWeb.

(* --------------------------------------------------------------------- *)
(** ** src/translator/factory.py *)

Module Factory.

Import PyStr.

(** [SETTINGS.secrets], as far as the factory reads it, and
    [SETTINGS.translator.session_timeout]. *)
Record EngineSecrets : Type := {
  deepl_api_key : option string;
  deepl_free_api_key : option string;
  deepl_api_plan : string;
  google_proxy : option string
}.

Definition AVAILABLE_ENGINES : list (string * string) :=
  [("google", "Google Translate"); ("deepl_web", "DeepL Web (Free)");
   ("deepl_api", "DeepL API")].

(** The translator that the factory builds, by the arguments of its
    constructor. *)
Inductive translator : Type :=
| GoogleEngine (proxy : option string) (timeout : Q)
| DeepLWebEngine (proxy : option string) (timeout : Q)
| DeepLAPIEngine (t : DeepLAPI.DeepLAPITranslator).

Section WithSettings.

Variable secrets : EngineSecrets.
Variable session_timeout : Q.

Definition _build_deepl_api_translator (api_key plan proxy : option string)
    (timeout : Q) : Res DeepLAPI.DeepLAPITranslator :=
  let key :=
    or_else (or_else api_key (deepl_api_key secrets))
      (deepl_free_api_key secrets) in
  if negb (truthy_opt key) then Raise ValueError
  else
    let key := default "" key in
    let resolved_plan :=
      if truthy_opt plan then lower (default "" plan)
      else if endswith key ":fx" then "free"
      else if truthy (deepl_api_plan secrets)
           then lower (deepl_api_plan secrets)
           else "free" in
    DeepLAPI.new_translator key resolved_plan None timeout proxy.

Definition build_translator (engine_name : string)
    (proxy deepl_api_key deepl_plan : option string) : Res translator :=
  let engine := lower engine_name in
  let timeout := session_timeout in
  if String.eqb engine "google" then
    Ok (GoogleEngine (or_else proxy (google_proxy secrets)) timeout)
  else if String.eqb engine "deepl_web" then
    Ok (DeepLWebEngine proxy timeout)
  else if String.eqb engine "deepl_api" then
    t ← _build_deepl_api_translator deepl_api_key deepl_plan proxy timeout;
    mret (DeepLAPIEngine t)
  else Raise ValueError.

End WithSettings.

End Factory.

(* --------------------------------------------------------------------- *)
(** ** src/cli.py *)

Module Cli.

Import Config.

Section WithEnvironment.

Variable B : Type.
Variable translate_texts : TranslationRequest -> M B (list string).
Variable sequence_matcher_ratio : string -> string -> Q.
Variable json_dump : gmap string string -> list Byte.byte.
Variable detect : string -> option string.

(** [SETTINGS.default_source_lang], which is read from the environment. *)
Variable default_source_lang : string.

(** The objects of the command: the parser, and what the orchestrator
    reaches (the translator, the two caches, the store file). *)
Record objects : Type := {
  parser : AssParser.ASSParser;
  backend : Orchestrator.world B
}.

(** [resolved_source], the source language of the request. *)
Definition resolved_source (source : string) (texts : list string) : string :=
  if String.eqb (PyStr.lower source) "auto" then
    match Lang.detect_language detect texts Lang.default_max_chars with
    | Some detected =>
        if truthy detected then detected else default_source_lang
    | None => default_source_lang
    end
  else source.

(** [memory.flush()] *)
Definition flush_memory : M (Orchestrator.world B) unit :=
  fun w =>
    let '(mem, d) :=
      Cache.flush json_dump (Orchestrator.memory w) (Orchestrator.disk w) in
    (Ok tt, {| Orchestrator.translator := Orchestrator.translator w;
               Orchestrator.memory := mem;
               Orchestrator.session_cache := Orchestrator.session_cache w;
               Orchestrator.disk := d;
               Orchestrator.console := Orchestrator.console w |}).

(** The command [translate] once its objects are built, from
    [texts = list(parser.iter_texts())] to [memory.flush()]. Both
    callbacks are passed to the orchestrator; what they print, and the
    other messages of the command, go to the terminal and are not
    modelled. The value is what [parser.write(output)] puts into the
    output file. *)
Definition translate (orchestrator : Orchestrator.TranslationOrchestrator)
    (source target : string) : M objects string :=
  fun o =>
    let texts := AssParser.iter_texts (parser o) in
    let resolved_source := resolved_source source texts in
    match Orchestrator.translate B translate_texts sequence_matcher_ratio
            json_dump orchestrator texts resolved_source target true true
            (backend o) with
    | (Raise e, w) => (Raise e, {| parser := parser o; backend := w |})
    | (Ok translations, w) =>
        match AssParser.apply_translations translations (parser o) with
        | (Raise e, p) => (Raise e, {| parser := p; backend := w |})
        | (Ok _, p) =>
            let output := AssParser.written p in
            match flush_memory w with
            | (Raise e, w) => (Raise e, {| parser := p; backend := w |})
            | (Ok _, w) => (Ok output, {| parser := p; backend := w |})
            end
        end
    end.

End WithEnvironment.

Arguments parser {B} _.
Arguments backend {B} _.

End Cli.

(* ===================================================================== *)
(** * Part II: the vocabulary of the statements *)
(* ===================================================================== *)

Import Text Batching Cache Config Orchestrator Google.

(** ** The model of difflib *)

(** A block that is not empty lies within the first string. *)
Definition block_within (n : nat) (block : nat * nat * nat) : Prop :=
  block.2 = 0 \/ block.1.1 + block.2 <= n.

(** ** Deduplication *)

(** What the loop of [deduplicate_texts] keeps true: as many groups as
    unique texts, and the groups hold the positions seen so far, once
    each. *)
Definition dedup_inv (acc : list string * list (list nat)) (n : nat) : Prop :=
  length acc.1 = length acc.2 /\ Permutation (concat acc.2) (seq 0 n).

(** Two positions are in the same group. *)
Definition same_group (d : DeduplicationResult) (i j : nat) : Prop :=
  exists g, g ∈ groups d /\ i ∈ g /\ j ∈ g.

Section DedupVocabulary.

Variable ratio : string -> string -> Q.
Variable threshold : Q.

(** Every position seen so far whose text has no leading or trailing
    whitespace sits in the group that [_find_match] now finds for its
    text. *)
Definition found_inv (seen : list string) (acc : list string * list (list nat))
  : Prop :=
  length acc.1 = length acc.2
  /\ forall i t, seen !! i = Some t -> strip t = t ->
       exists m g, _find_match ratio t acc.1 threshold = Some m
                   /\ acc.2 !! m = Some g /\ i ∈ g.

End DedupVocabulary.

(** ** Batch planning *)

Section PackVocabulary.

Context {A : Type}.
Variable len : A -> nat.
Variables max_chars max_items : Z.

(** What holds of every batch: it is not empty, it has at most [max_items]
    entries, and its characters fit in [max_chars] unless it is a single
    entry. *)
Definition batch_ok (batch : list A) : Prop :=
  batch <> []
  /\ (Z.of_nat (length batch) <= max_items)%Z
  /\ ((Z.of_nat (chars_of len batch) <= max_chars)%Z \/ length batch = 1).

Definition pack_inv (seen : list A) (st : list (list A) * list A * nat) : Prop :=
  let '(batches, current, char_count) := st in
  concat batches ++ current = seen
  /\ char_count = chars_of len current
  /\ Forall batch_ok batches
  /\ (current = [] \/ batch_ok current).

End PackVocabulary.

(** Three pending entries for examples, with the texts of the scenario. *)
Definition example_entries : list Orchestrator.PendingEntry :=
  [ {| Orchestrator.text := "abcde"; Orchestrator.indexes := [0];
       Orchestrator.cache_key := "en::tr::abcde" |};
    {| Orchestrator.text := "fghij"; Orchestrator.indexes := [1; 3];
       Orchestrator.cache_key := "en::tr::fghij" |};
    {| Orchestrator.text := "k"; Orchestrator.indexes := [2];
       Orchestrator.cache_key := "en::tr::k" |} ].

(** ** The retry executor *)

Section RetryVocabulary.

Context {St A : Type}.
(** The action, a state transformer on whatever it acts upon. *)
Variable act : M St A.

(** The same action with a counter of its calls next to its state, and
    the console the executor writes to. *)
Definition counted : M (St * nat * list event) A :=
  fun w =>
    let '(s, calls, console) := w in
    let '(r, s') := act s in
    (r, (s', calls + 1, console)).

Definition emit_console (e : event) (w : St * nat * list event)
  : St * nat * list event :=
  let '(s, calls, console) := w in (s, calls, console ++ [e]).

(** The outcome of the call that follows [n] earlier calls, and the state
    it leaves. *)
Fixpoint nth_call (n : nat) (s : St) : Res A * St :=
  match n with
  | O => act s
  | S n' => nth_call n' (snd (act s))
  end.

Definition fails (n : nat) (s : St) : Prop := is_ok (fst (nth_call n s)) = false.

End RetryVocabulary.

(** An action for examples: it fails on its first [failures] calls and
    succeeds from then on; its state is the number of calls made. *)
Definition flaky (failures : nat) : M nat (list string) :=
  fun n =>
    if n <? failures then (Raise (TranslatorError "rate limited"), n + 1)
    else (Ok ["ok"], n + 1).

(** ** Reasoning about state transformers *)

(** [hoare P m Q]: from a state satisfying [P], [m] ends with a result
    (a value or an exception) and a state satisfying [Q]. *)
Definition hoare {W A} (P : W -> Prop) (m : M W A) (Q : Res A -> W -> Prop)
  : Prop :=
  forall w, P w -> Q (m w).1 (m w).2.

(** The postcondition that asks [Q] of a returned value and [E] of a raised
    exception. *)
Definition post {W A} (Q : A -> W -> Prop) (E : exn -> W -> Prop)
  : Res A -> W -> Prop :=
  fun r w => match r with Ok a => Q a w | Raise e => E e w end.

(** [m] does not raise, from any state, and its value satisfies [Q]. *)
Definition total {W A} (m : M W A) (Q : A -> Prop) : Prop :=
  forall w, exists a w', m w = (Ok a, w') /\ Q a.

(** ** The racing backend *)

(** The smallest failure count over the endpoints. *)
Definition is_min_failures (self : GoogleTranslator) (m : Z) : Prop :=
  (exists least, least ∈ google_endpoints /\ failures_of self least = m)
  /\ forall ep, ep ∈ google_endpoints -> (m <= failures_of self ep)%Z.

(** No result, or as many results as texts. *)
Definition sized_or_none (n : nat) (result : option (list string)) : Prop :=
  match result with
  | Some translated => length translated = n
  | None => True
  end.

Section SeparatorVocabulary.

Variable Net : Type.

(** A method that does not raise and whose result has this shape. *)
Definition returns_sized (n : nat) (m : M (gworld Net) (option (list string)))
  : Prop :=
  hoare (fun _ => True) m (post (fun result _ => sized_or_none n result)
                                (fun _ _ => False)).

End SeparatorVocabulary.

(** An endpoint for examples: it answers every request with the one
    segment ["Merhaba"], without any separator. *)
Definition one_segment_endpoint (endpoint sl tl q : string) (n : unit)
  : reply * unit :=
  (Response 200 (Ok (JList [JList [JList [JStr "Merhaba"]]])), n).

Definition example_gworld : gworld unit :=
  {| self := new_translator; net := tt |}.

(** An endpoint that answers with the two translations around the
    separator: the separator path returns them, stripped. *)
Definition two_segment_endpoint (endpoint sl tl q : string) (n : unit)
  : reply * unit :=
  (Response 200
     (Ok (JList [JList [JList [JStr ("Merhaba" +:+ newline)];
                        JList [JStr ("|||RNLSEP999|||" +:+ newline)];
                        JList [JStr "Selam"]]])), n).

(** ** The caches and the orchestrator *)

(** The memo of [_fetch_cached] agrees with the store: [get] can then not
    return a stale value. It holds of a new cache and each method keeps
    it. *)
Definition memo_ok (sc : SessionCache) : Prop :=
  forall key v, (key, v) ∈ _memo sc -> v = _store sc !! key.

(** Position [i] of the buffer has been written. *)
Definition is_resolved (resolved : list (option string)) (i : nat) : Prop :=
  exists s, resolved !! i = Some (Some s).

(** The buffer keeps its length and its written positions. *)
Definition grows (resolved resolved' : list (option string)) : Prop :=
  length resolved' = length resolved
  /\ forall i, is_resolved resolved i -> is_resolved resolved' i.

(** Every written slot of the buffer holds a string with property [K]. *)
Definition all_slots (K : string -> Prop) (resolved : list (option string))
  : Prop :=
  forall i s, resolved !! i = Some (Some s) -> K s.

(** The positions of a batch: those of its entries. *)
Definition batch_positions (batch : list PendingEntry) : list nat :=
  concat (map indexes batch).

(** What one iteration of the first loop does with its group: it writes
    its positions or makes a pending entry of it. *)
Definition group_handled (g : list nat) (resolved : list (option string))
    (extra : list PendingEntry) : Prop :=
  (forall i, i ∈ g -> is_resolved resolved i)
  \/ exists p, p ∈ extra /\ indexes p = g.

(** A call of [translate_texts]: the request and what came back. *)
Abbreviation call := (TranslationRequest * Res (list string))%type.

Section OrchestratorVocabulary.

Variable B : Type.
Variable translate_texts : TranslationRequest -> M B (list string).
Variables source_lang target_lang : string.

(** The buffer keeps its length [n], whatever happens to the state. *)
Definition keeps_length {X} (n : nat)
  : Res (list (option string) * X) -> world B -> Prop :=
  post (fun acc _ => length acc.1 = n) (fun _ _ => True).

(** The contract of a backend: as many translations as texts. *)
Definition answers : Prop :=
  forall request b,
    exists translated b',
      translate_texts request b = (Ok translated, b')
      /\ length translated = length (texts request).

(** The backend with a record of its calls next to its state, each call
    with its request and its outcome: the mock backend of a call-count
    test. *)
Definition spy (request : TranslationRequest)
  : M (B * list call) (list string) :=
  fun b =>
    let '(r, b') := translate_texts request b.1 in
    (r, (b', b.2 ++ [(request, r)])).

Definition calls (w : world (B * list call)) : list call :=
  (translator w).2.

Definition requests (w : world (B * list call)) : list TranslationRequest :=
  map fst (calls w).

(** A method that leaves the translator alone. *)
Definition quiet {A} (m : M (world (B * list call)) A) : Prop :=
  forall w, translator (m w).2 = translator w.

(** The key of [u] is in a cache with a value that is not empty. *)
Definition cached_nonempty (w : world (B * list call))
    (key : string) : Prop :=
  (exists v, _store (session_cache w) !! key = Some v /\ v <> "")
  \/ (exists v, _data (memory w) !! key = Some v /\ v <> "").

(** The record of calls of [tr'] continues that of [tr]. *)
Definition later (tr tr' : B * list call) : Prop :=
  exists more, tr'.2 = tr.2 ++ more.

(** The loops that write the buffer without calling the backend. *)
Definition keeps_slots {X} (K : string -> Prop)
  : Res (list (option string) * X) -> world (B * list call) -> Prop :=
  post (fun acc _ => all_slots K acc.1) (fun _ _ => True).

(** The state in which [translate] is called, and the text in question. *)
Variable w0 : world (B * list call).
Variable u : string.

(** Since the call started, no request to the backend contained [u]. *)
Definition no_call_for (w : world (B * list call)) : Prop :=
  exists new, requests w = requests w0 ++ new
              /\ forall request, request ∈ new -> u ∉ texts request.

(** What the first loop of [translate] keeps true: the translator and the
    contents of the caches are as at the start, and no pending entry is
    for [u]. *)
Definition resolving (acc : list (option string) * list PendingEntry)
    (w : world (B * list call)) : Prop :=
  translator w = translator w0
  /\ _store (session_cache w) = _store (session_cache w0)
  /\ memory w = memory w0
  /\ memo_ok (session_cache w)
  /\ forall p, p ∈ acc.2 -> text p <> u.

(** [s] is the non-empty value that a cache held at the start for the key
    of some text. *)
Definition from_cache (s : string) : Prop :=
  s <> ""
  /\ exists t,
       _store (session_cache w0) !! make_cache_key t source_lang target_lang
       = Some s
       \/ _data (memory w0) !! make_cache_key t source_lang target_lang
          = Some s.

(** [s] is one of the translations that the backend returned in a call
    made since the start. *)
Definition from_backend (tr : B * list call) (s : string) : Prop :=
  exists new request translated,
    tr.2 = (translator w0).2 ++ new
    /\ (request, Ok translated) ∈ new
    /\ s ∈ translated.

Definition known (tr : B * list call) (s : string) : Prop :=
  from_cache s \/ from_backend tr s.

(** The buffer and the record of calls, between two batches. *)
Definition batching (acc : list (option string) * nat)
    (w : world (B * list call)) : Prop :=
  later (translator w0) (translator w)
  /\ all_slots (known (translator w)) acc.1.

(** The first loop: the state is as at the start and the written slots
    hold cached values. *)
Definition from_caches (acc : list (option string) * list PendingEntry)
    (w : world (B * list call)) : Prop :=
  translator w = translator w0
  /\ _store (session_cache w) = _store (session_cache w0)
  /\ memory w = memory w0
  /\ memo_ok (session_cache w)
  /\ all_slots from_cache acc.1.

End OrchestratorVocabulary.

(** A backend for examples: it has no state and answers each text with
    the text between brackets. *)
Definition bracket_backend (request : TranslationRequest) : M unit (list string) :=
  fun b => (Ok (map (fun t => "<" +:+ t +:+ ">") (texts request)), b).

(** Its state with the record of requests, before any request. *)
Definition no_requests : unit * list call := (tt, []).

(** A state for examples: empty caches, no store file yet. *)
Definition fresh_world {B} (b : B) : world B :=
  {| translator := b;
     memory := {| auto_flush := true; _data := ∅; _dirty := false |};
     session_cache := new_session_cache 2048;
     disk := None;
     console := [] |}.

(** The same with one entry in the session cache. *)
Definition world_with_session_entry {B} (b : B) (key value : string) : world B :=
  {| translator := b;
     memory := {| auto_flush := true; _data := ∅; _dirty := false |};
     session_cache := session_set (new_session_cache 2048) key value;
     disk := None;
     console := [] |}.

(** The same with one entry in the durable memory. *)
Definition world_with_memory_entry {B} (b : B) (key value : string) : world B :=
  {| translator := b;
     memory := {| auto_flush := true; _data := {[ key := value ]};
                  _dirty := false |};
     session_cache := new_session_cache 2048;
     disk := None;
     console := [] |}.

(** The key of [u] is in a cache, whatever its value. *)
Definition cached {B} (w : world (B * list call)) (key : string)
  : Prop :=
  is_Some (_store (session_cache w) !! key)
  \/ is_Some (_data (memory w) !! key).

(** ** Groups, batches, pauses, keys and cursors *)

(** Each group starts with the position whose text stands for the group,
    and its other positions come later in the input. *)
Definition canonical_inv (seen : list string)
    (acc : list string * list (list nat)) : Prop :=
  length acc.1 = length acc.2
  /\ forall k g, acc.2 !! k = Some g ->
       exists first rest u,
         g = first :: rest /\ seen !! first = Some u /\ acc.1 !! k = Some u
         /\ Forall (fun i => first < i < length seen) rest.

Section GreedyVocabulary.

Context {A : Type}.
Variable len : A -> nat.
Variables max_chars max_items : Z.

(** [item] does not go into [batch]: with it the batch would have more
    than [max_chars] characters, or the batch has [max_items] entries
    already. *)
Definition overflows (batch : list A) (item : A) : Prop :=
  (max_chars < Z.of_nat (chars_of len batch + len item))%Z
  \/ (max_items <= Z.of_nat (length batch))%Z.

(** What the loop keeps true besides [pack_inv], whatever the limits: no
    closed batch is empty, and a batch was closed only because the entry
    that follows it did not go into it. *)
Definition greedy_inv (st : list (list A) * list A * nat) : Prop :=
  let '(batches, current, char_count) := st in
  char_count = chars_of len current
  /\ Forall (fun batch => batch <> []) batches
  /\ (current = [] -> batches = [])
  /\ forall k batch item rest,
       batches !! k = Some batch ->
       (batches ++ [current]) !! S k = Some (item :: rest) ->
       overflows batch item.

End GreedyVocabulary.

(** The pauses on the console. *)
Definition is_sleep (e : event) : bool :=
  match e with
  | Sleep _ _ => true
  | _ => false
  end.

Definition pauses (console : list event) : list event :=
  List.filter is_sleep console.

(** The value of [delay] after [n] failed attempts, from [delay]:
    [delay * factor * ... * factor]. *)
Fixpoint backoff (delay factor : Q) (n : nat) : Q :=
  match n with
  | O => delay
  | S n' => backoff (delay * factor)%Q factor n'
  end.

(** A history of calls on a session cache, and the plain [dict] that the
    same calls of [set] build. *)
Inductive cache_op : Type :=
| CacheGet (key : string)
| CacheSet (key value : string).

Definition run_op (sc : SessionCache) (op : cache_op) : SessionCache :=
  match op with
  | CacheGet key => (session_get sc key).2
  | CacheSet key value => session_set sc key value
  end.

Definition run_ops (sc : SessionCache) (ops : list cache_op) : SessionCache :=
  fold_left run_op ops sc.

Definition dict_op (d : gmap string string) (op : cache_op)
  : gmap string string :=
  match op with
  | CacheGet _ => d
  | CacheSet key value => <[key := value]> d
  end.

(** The memo respects its bound and agrees with the store. *)
Definition session_inv (sc : SessionCache) : Prop :=
  memo_ok sc /\ length (_memo sc) <= maxsize sc.

(** A language code with a colon in it. *)
Fixpoint has_colon (s : string) : bool :=
  match s with
  | EmptyString => false
  | String c s' => Ascii.eqb c ":" || has_colon s'
  end.

(** The positions that [n] turns of the round robin visit in a list of
    [size] endpoints, from the cursor [index]. *)
Fixpoint cursor_positions (size index n : nat) : list nat :=
  match n with
  | O => []
  | S n' =>
      let index' := (index + 1) mod size in
      index' :: cursor_positions size index' n'
  end.

(** ** Subtitle files *)

Section AssVocabulary.

Import PyStr AssParser.

(** [n] commas *)
Fixpoint commas (n : nat) : string :=
  match n with
  | O => EmptyString
  | S n' => String "," (commas n')
  end.

(** A dialogue with another text: what [dialogue.text = translated] makes
    of it. *)
Definition with_text (dialogue : SubtitleLine) (translated : string)
  : SubtitleLine :=
  {| index := index dialogue; prefix := prefix dialogue;
     fields := fields dialogue; text := translated;
     line_ending := line_ending dialogue |}.

(** The dialogues of a list of lines, the first of which is line [idx]:
    the lines that [SubtitleLine.parse] accepts, parsed, in their order. *)
Fixpoint dialogues_from (idx : nat) (lines : list string)
  : list SubtitleLine :=
  match lines with
  | [] => []
  | line :: rest =>
      match parse idx line with
      | Ok dialogue => dialogue :: dialogues_from (S idx) rest
      | Raise _ => dialogues_from (S idx) rest
      end
  end.

(** The lines with the texts of their dialogues replaced, in order, by
    [translated]; the other lines are kept. *)
Fixpoint retext (idx : nat) (lines translated : list string) : list string :=
  match lines with
  | [] => []
  | line :: rest =>
      match parse idx line, translated with
      | Ok dialogue, t :: translated' =>
          match render (with_text dialogue t) with
          | Ok rendered => rendered :: retext (S idx) rest translated'
          | Raise _ => line :: retext (S idx) rest translated'
          end
      | Ok _, [] => line :: rest
      | Raise _, _ => line :: retext (S idx) rest translated
      end
  end.

(** No character of [s] is [c]. *)
Definition free_of (c : ascii) (s : string) : Prop := count_char c s = 0.

(** The dialogue with these nine field values, in the order of
    [FIELD_NAMES]. *)
Definition make_line (idx : nat) (prefix : string) (values : list string)
    (text ending : string) : SubtitleLine :=
  {| index := idx; prefix := prefix;
     fields := dict_of (zip FIELD_NAMES values);
     text := text; line_ending := ending |}.

(** [s] does not start with whitespace. *)
Definition starts_solid (s : string) : Prop :=
  forall c r, s = String c r -> isspace c = false.

(** All characters of [s] are whitespace. *)
Fixpoint all_space (s : string) : bool :=
  match s with
  | EmptyString => true
  | String c s' => isspace c && all_space s'
  end.

(** A translation that can be written into a line with this ending and
    read back: with a bare newline as the ending, it must not end with a
    carriage return, which would be taken for a part of the ending. *)
Definition writable (ending translated : string) : Prop :=
  ending = CRLF \/ endswith translated (String "013" EmptyString) = false.

End AssVocabulary.

(** ** The DeepL backends *)

Section DeepLVocabulary.

Import DeepL.

(** The reply to the one request that [DeepLAPITranslator.translate_texts]
    makes for a request with texts. *)
Definition api_reply (upper : string -> string) (Net : Type)
    (http_post : string -> DeepLAPI.payload -> option string -> Net
                 -> DeepLAPI.reply * Net)
    (self : DeepLAPI.DeepLAPITranslator) (request : TranslationRequest)
    (net : Net) : DeepLAPI.reply :=
  let source_lang := DeepLAPI._map_lang upper (source_lang request) in
  (http_post (DeepLAPI.api_url self)
     {| DeepLAPI.payload_text := texts request;
        DeepLAPI.payload_target_lang :=
          DeepLAPI._map_lang upper (target_lang request);
        DeepLAPI.payload_source_lang :=
          if truthy_opt source_lang then source_lang else None |}
     (DeepLAPI.proxy self) net).1.

Context {W : Type}.

(** [_translate_batch_internal] with a record of the slices it was called
    with next to its state. *)
Definition recorded
    (internal : list string -> string -> string -> W
                -> outcome (list string) * W)
    (batch : list string) (source_lang target_lang : string)
    (w : W * list (list string))
  : outcome (list string) * (W * list (list string)) :=
  let '(r, w') := internal batch source_lang target_lang w.1 in
  (r, (w', w.2 ++ [batch])).

Definition sleep_beside (sleep : DeepLWeb.pause -> W -> W)
    (p : DeepLWeb.pause) (w : W * list (list string))
  : W * list (list string) :=
  (sleep p w.1, w.2).

(** The calls that ask [counts[j]] times for the slice
    [texts[5*(k+j) : 5*(k+j) + 5]], for [j = 0, 1, ...] in turn. *)
Fixpoint slice_calls (texts : list string) (k : nat) (counts : list nat)
  : list (list string) :=
  match counts with
  | [] => []
  | n :: counts' =>
      replicate n (take 5 (drop (5 * k) texts))
        ++ slice_calls texts (S k) counts'
  end.

(** The contract of [_translate_batch_internal]: when it returns, it
    returns as many translations as it was given texts. *)
Definition keeps_count
    (internal : list string -> string -> string -> W
                -> outcome (list string) * W) : Prop :=
  forall batch source_lang target_lang w results w',
    internal batch source_lang target_lang w = (Done results, w') ->
    length results = length batch.

End DeepLVocabulary.

(** ** Calling [translate] again *)

Section RepeatVocabulary.

Variable B : Type.
Variables source_lang target_lang : string.

(** A backend none of whose translations is the empty string. *)
Definition never_blank
    (translate_texts : TranslationRequest -> M B (list string)) : Prop :=
  forall request b translated b',
    translate_texts request b = (Ok translated, b') ->
    Forall (fun s => s <> "") translated.

(** The memo agrees with the store, and every key with property [P] has a
    value that is not empty in one of the caches: looking such a key up is
    a hit. *)
Definition remembers (P : string -> Prop) (w : world (B * list call))
  : Prop :=
  memo_ok (session_cache w)
  /\ forall key, P key -> cached_nonempty B w key.

(** What the first loop of [translate] has done with the groups [seen] so
    far: the key of each is in a cache with a value that is not empty, or
    it is the key of a pending entry. *)
Definition looked_up (seen : list (string * list nat))
    (acc : list (option string) * list PendingEntry)
    (w : world (B * list call)) : Prop :=
  memo_ok (session_cache w)
  /\ forall pr, pr ∈ seen ->
       cached_nonempty B w (make_cache_key pr.1 source_lang target_lang)
       \/ exists p, p ∈ acc.2
                    /\ cache_key p
                       = make_cache_key pr.1 source_lang target_lang.

(** The keys of the groups of a call. *)
Definition group_key (pairs : list (string * list nat)) (key : string)
  : Prop :=
  exists pr, pr ∈ pairs /\ key = make_cache_key pr.1 source_lang target_lang.

(** What the first loop of [translate] keeps true when every lookup is a
    hit: the translator, the contents of the caches and the store file are
    as in [w1], and nothing is pending. *)
Definition all_hits (w1 : world (B * list call))
    (acc : list (option string) * list PendingEntry)
    (w : world (B * list call)) : Prop :=
  translator w = translator w1
  /\ _store (session_cache w) = _store (session_cache w1)
  /\ memory w = memory w1
  /\ disk w = disk w1
  /\ memo_ok (session_cache w)
  /\ acc.2 = [].

End RepeatVocabulary.

(** ** The calls of the progress callback *)

(** The calls of [progress_cb] among the events, in order, each with its
    two arguments. *)
Definition progress_calls (events : list event) : list (nat * nat) :=
  omap (fun e => match e with
                 | Progress completed total => Some (completed, total)
                 | _ => None
                 end) events.

(** The calls [(first, total)], [(first + 1, total)], ..., [(last, total)]. *)
Definition counting (first last total : nat) : list (nat * nat) :=
  map (fun completed => (completed, total)) (seq first (S last - first)).

Section ProgressVocabulary.

Variable B : Type.

(** The state in which [translate] is called, and [len(texts)]. *)
Variable w0 : world B.
Variable n : nat.

(** What the first loop of [translate] keeps true: it has called no
    callback, the buffer holds strings only at positions of the groups
    [seen], and these positions are written or belong to a pending
    entry. *)
Definition tallied (seen : list (string * list nat))
    (acc : list (option string) * list PendingEntry) (w : world B) : Prop :=
  console w = console w0
  /\ length acc.1 = n
  /\ (forall i, is_resolved acc.1 i -> i ∈ concat seen.*2)
  /\ count_resolved acc.1 + length (batch_positions acc.2)
     = length (concat seen.*2).

(** What the loops of [_translate_pending] keep true after writing [k]
    positions: the callback has been called once for each count from
    [first] to [completed], which is [first + k]. *)
Definition ticking (first k : nat) (acc : list (option string) * nat)
    (w : world B) : Prop :=
  progress_calls (console w)
  = progress_calls (console w0) ++ counting first acc.2 n
  /\ acc.2 = first + k.

End ProgressVocabulary.

(* ===================================================================== *)
(** * Part III: properties *)
(* ===================================================================== *)

(** ** Lists *)

Lemma concat_snoc {A} (ls : list (list A)) (l : list A) :
  concat (ls ++ [l]) = concat ls ++ l.
Proof. rewrite concat_app. simpl. by rewrite app_nil_r. Qed.

Lemma concat_insert_snoc {A} (ls : list (list A)) (i : nat) (l : list A) (x : A) :
  ls !! i = Some l ->
  Permutation (concat (<[i := l ++ [x]]> ls)) (concat ls ++ [x]).
Proof.
  intros Hi.
  rewrite <- (take_drop_middle ls i l Hi) at 2.
  rewrite insert_take_drop by (eapply lookup_lt_Some; eauto).
  rewrite !concat_app. simpl.
  rewrite <- !app_assoc. apply Permutation_app_head. simpl.
  apply Permutation_app_head, Permutation_cons_append.
Qed.

Lemma elem_of_concat {A} (x : A) (ls : list (list A)) :
  x ∈ concat ls <-> exists l, l ∈ ls /\ x ∈ l.
Proof.
  rewrite list_elem_of_In, in_concat. split; intros (l & Hl & Hx); exists l.
  - by rewrite !list_elem_of_In.
  - by rewrite <- !list_elem_of_In.
Qed.

(** ** The model of difflib *)

(** The values that the documentation of difflib gives for [ratio()]. *)
Example difflib_ratio_abcd : Qeq_bool (Difflib.ratio "abcd" "bcde") (Qmake 3 4) = true.
Proof. reflexivity. Qed.

Example difflib_ratio_empty : Difflib.ratio "" "" = 1%Q.
Proof. reflexivity. Qed.

Lemma common_prefix_le (a b : list ascii) :
  Difflib.common_prefix a b <= length a.
Proof.
  revert b. induction a as [|x a IH]; intros [|y b]; simpl; try lia.
  destruct (Ascii.eqb x y); [|lia]. specialize (IH b). lia.
Qed.

Lemma scan_b_within n a b i : forall j best,
  i + length a <= n ->
  block_within n best ->
  block_within n (Difflib.scan_b a b i j best).
Proof.
  induction b as [|y b IH]; intros j best Ha Hbest; simpl; [done|].
  apply IH; [done|].
  destruct (best.2 <? Difflib.common_prefix a (y :: b)); [|done].
  right. simpl. pose proof (common_prefix_le a (y :: b)). lia.
Qed.

Lemma scan_a_within n a b : forall i best,
  i + length a <= n ->
  block_within n best ->
  block_within n (Difflib.scan_a a b i best).
Proof.
  induction a as [|x a IH]; intros i best Ha Hbest; simpl; [done|].
  apply IH; [simpl in Ha; lia|]. by apply scan_b_within.
Qed.

Lemma find_longest_match_within a b :
  block_within (length a) (Difflib.find_longest_match a b).
Proof.
  unfold Difflib.find_longest_match. apply scan_a_within; [lia|by left].
Qed.

(** The recursion on the two sides of a block shortens the first string:
    any fuel above its length gives the same count, and [Difflib.ratio]
    passes enough. *)
Lemma matched_fuel fuel : forall fuel' a b,
  length a < fuel -> length a < fuel' ->
  Difflib.matched fuel a b = Difflib.matched fuel' a b.
Proof.
  induction fuel as [|fuel IH]; intros [|fuel'] a b H1 H2; try lia. simpl.
  pose proof (find_longest_match_within a b) as Hblock.
  destruct (Difflib.find_longest_match a b) as [[i j] k].
  destruct (k =? 0) eqn:Hk; [done|]. apply Nat.eqb_neq in Hk.
  destruct Hblock as [?|Hblock]; [done|]. simpl in Hblock.
  rewrite (IH fuel' (take i a) (take j b)),
          (IH fuel' (drop (i + k) a) (drop (j + k) b)); try done;
    rewrite ?length_take, ?length_drop; lia.
Qed.

(** ** Deduplication (src/utils/text.py) *)

Section DedupProps.

Variable ratio : string -> string -> Q.
Variable threshold : Q.

Lemma _find_match_from_bounds i candidate pool m :
  _find_match_from ratio i candidate pool threshold = Some m ->
  i <= m < i + length pool.
Proof.
  revert i. induction pool as [|other rest IH]; intros i; simpl; [done|].
  destruct (String.eqb candidate other); [intros [= <-]; lia|].
  destruct (Qle_bool _ _); [intros [= <-]; lia|].
  intros H. apply IH in H. lia.
Qed.

Lemma _find_match_bound candidate pool m :
  _find_match ratio candidate pool threshold = Some m -> m < length pool.
Proof. intros H. apply _find_match_from_bounds in H. lia. Qed.

Lemma dedup_step_inv acc idx text :
  dedup_inv acc idx ->
  exists acc', dedup_step ratio threshold acc idx text = Ok acc'
               /\ dedup_inv acc' (S idx).
Proof.
  destruct acc as [unique groups]. intros [Hlen Hperm]. simpl in *.
  unfold dedup_step.
  destruct (_find_match ratio (strip text) unique threshold) as [m|] eqn:Hm.
  - apply _find_match_bound in Hm. rewrite Hlen in Hm.
    destruct (lookup_lt_is_Some_2 groups m Hm) as [g Hg]. rewrite Hg.
    eexists; split; [reflexivity|]. split; cbn [fst snd].
    + by rewrite length_insert.
    + rewrite seq_S. cbn [Nat.add].
      etransitivity; [by apply concat_insert_snoc|].
      by apply Permutation_app_tail.
  - eexists; split; [reflexivity|]. split; cbn [fst snd].
    + rewrite !length_app. simpl. lia.
    + rewrite concat_snoc, seq_S. by apply Permutation_app_tail.
Qed.

Lemma dedup_loop_inv texts : forall acc idx,
  dedup_inv acc idx ->
  exists acc', dedup_loop ratio threshold acc idx texts = Ok acc'
               /\ dedup_inv acc' (idx + length texts).
Proof.
  induction texts as [|text rest IH]; intros acc idx Hinv; simpl.
  - exists acc. by rewrite Nat.add_0_r.
  - destruct (dedup_step_inv acc idx text Hinv) as (acc1 & -> & Hinv1).
    simpl. destruct (IH acc1 (S idx) Hinv1) as (acc2 & -> & Hinv2).
    exists acc2. split; [done|]. by replace (idx + S (length rest)) with (S idx + length rest) by lia.
Qed.

(** The loop ends without raising, in a state that satisfies the
    invariant for all the positions. *)
Lemma dedup_loop_result texts :
  exists unique grps,
    dedup_loop ratio threshold ([], []) 0 texts = Ok (unique, grps)
    /\ length grps = length unique
    /\ Permutation (concat grps) (seq 0 (length texts)).
Proof.
  destruct (dedup_loop_inv texts ([], []) 0) as ([unique grps] & Hloop & Hlen & Hperm).
  { split; simpl; [done|constructor]. }
  simpl in *. by exists unique, grps.
Qed.

End DedupProps.

(** C6. For every list of [N] texts, [deduplicate_texts] returns a result
    (it does not raise) whose groups partition the positions [0 .. N-1]:
    the groups put end to end are a rearrangement of [0, 1, ..., N-1], so
    that every position is in exactly one group, exactly once; and there
    are as many groups as unique texts. This holds for every similarity
    ratio and every threshold. *)
Theorem deduplicate_texts_partition (ratio : string -> string -> Q)
    (threshold : Q) (texts : list string) :
  exists d, deduplicate_texts ratio texts threshold = Ok d
            /\ length (groups d) = length (unique_texts d)
            /\ Permutation (concat (groups d)) (seq 0 (length texts)).
Proof.
  unfold deduplicate_texts.
  destruct (dedup_loop_result ratio threshold texts)
    as (unique & grps & -> & Hlen & Hperm).
  simpl. eexists; split; [reflexivity|]. simpl. by split.
Qed.

Section DedupDuplicates.

Variable ratio : string -> string -> Q.
Variable threshold : Q.

Lemma _find_match_from_app_l i candidate pool extra m :
  _find_match_from ratio i candidate pool threshold = Some m ->
  _find_match_from ratio i candidate (pool ++ extra) threshold = Some m.
Proof.
  revert i. induction pool as [|other rest IH]; intros i; simpl; [done|].
  destruct (String.eqb candidate other); [done|].
  destruct (Qle_bool _ _); [done|]. apply IH.
Qed.

Lemma _find_match_from_app_self i candidate pool :
  _find_match_from ratio i candidate pool threshold = None ->
  _find_match_from ratio i candidate (pool ++ [candidate]) threshold
  = Some (i + length pool).
Proof.
  revert i. induction pool as [|other rest IH]; intros i; simpl.
  - intros _. rewrite String.eqb_refl. f_equal. lia.
  - destruct (String.eqb candidate other); [done|].
    destruct (Qle_bool _ _); [done|].
    intros H. rewrite (IH _ H). f_equal. lia.
Qed.

#[local] Abbreviation found_inv := (found_inv ratio threshold).

Lemma dedup_step_found seen acc text acc' :
  found_inv seen acc ->
  dedup_step ratio threshold acc (length seen) text = Ok acc' ->
  found_inv (seen ++ [text]) acc'.
Proof.
  destruct acc as [unique grps]. intros [Hlen Hfound]. cbn [fst snd] in *.
  unfold dedup_step.
  destruct (_find_match ratio (strip text) unique threshold) as [m|] eqn:Hm.
  - destruct (grps !! m) as [g|] eqn:Hg; [|done]. intros [= <-].
    split; cbn [fst snd]; [by rewrite length_insert|].
    intros i t Hi Ht.
    apply lookup_snoc_Some in Hi as [[Hlt Hi]|[-> ->]].
    + destruct (Hfound i t Hi Ht) as (m' & g' & Hm' & Hg' & Hin).
      exists m'. destruct (decide (m = m')) as [<-|Hne].
      * exists (g ++ [length seen]). split; [done|]. split.
        -- apply list_lookup_insert_eq. by eapply lookup_lt_Some.
        -- rewrite Hg in Hg'. injection Hg' as <-. set_solver.
      * exists g'. split; [done|]. split; [|done].
        by rewrite list_lookup_insert_ne.
    + exists m, (g ++ [length seen]). rewrite <- Ht at 1. split; [done|]. split.
      * apply list_lookup_insert_eq. by eapply lookup_lt_Some.
      * set_solver.
  - intros [= <-].
    split; cbn [fst snd]; [rewrite !length_app; simpl; lia|].
    intros i t Hi Ht.
    apply lookup_snoc_Some in Hi as [[Hlt Hi]|[-> ->]].
    + destruct (Hfound i t Hi Ht) as (m' & g' & Hm' & Hg' & Hin).
      exists m', g'. split; [by apply _find_match_from_app_l|]. split; [|done].
      rewrite lookup_app_l; [done|]. by eapply lookup_lt_Some.
    + rewrite Ht in Hm. exists (length unique), [length seen]. split.
      * unfold _find_match in *. by rewrite (_find_match_from_app_self _ _ _ Hm).
      * split; [|set_solver]. rewrite Hlen. by rewrite list_lookup_middle.
Qed.

Lemma dedup_loop_found rest : forall seen acc acc',
  found_inv seen acc ->
  dedup_loop ratio threshold acc (length seen) rest = Ok acc' ->
  found_inv (seen ++ rest) acc'.
Proof.
  induction rest as [|text rest IH]; intros seen acc acc' Hinv; simpl.
  - intros [= <-]. by rewrite app_nil_r.
  - destruct (dedup_step ratio threshold acc (length seen) text) as [acc1|] eqn:Hstep;
      [|done].
    simpl. intros Hloop.
    replace (seen ++ text :: rest) with ((seen ++ [text]) ++ rest)
      by (by rewrite <- app_assoc).
    apply (IH _ acc1); [by eapply dedup_step_found|].
    rewrite length_app. simpl. by replace (length seen + 1) with (S (length seen)) by lia.
Qed.

(** Where the text has no whitespace at either end, exact duplicates do
    share a group, wherever they stand. *)
Lemma duplicates_collapse_when_stripped texts i j t :
  texts !! i = Some t -> texts !! j = Some t -> strip t = t ->
  exists d, deduplicate_texts ratio texts threshold = Ok d /\ same_group d i j.
Proof.
  intros Hi Hj Ht. unfold deduplicate_texts.
  destruct (dedup_loop_result ratio threshold texts)
    as (unique & grps & Hloop & _). rewrite Hloop. simpl.
  eexists. split; [reflexivity|].
  apply (dedup_loop_found texts [] ([], [])) in Hloop as [_ Hfound].
  2:{ split; [done|]. intros ? ? H. by rewrite lookup_nil in H. }
  simpl in Hfound.
  destruct (Hfound i t Hi Ht) as (m & g & Hm & Hg & Hin).
  destruct (Hfound j t Hj Ht) as (m' & g' & Hm' & Hg' & Hin').
  rewrite Hm in Hm'. injection Hm' as <-. rewrite Hg in Hg'. injection Hg' as <-.
  exists g. split; [|done]. simpl. by eapply list_elem_of_lookup_2.
Qed.

(** A text with whitespace at an end is compared, stripped, with its own
    unstripped first occurrence: when the ratio of the two is below the
    threshold, the second occurrence starts a group of its own. *)
Lemma padded_pair_split t :
  strip t <> t ->
  Qle_bool threshold (ratio (strip t) t) = false ->
  deduplicate_texts ratio [t; t] threshold
  = Ok {| unique_texts := [t; t]; groups := [[0]; [1]] |}.
Proof.
  intros Hne Hlow.
  unfold deduplicate_texts, dedup_loop, dedup_step, _find_match. simpl.
  apply String.eqb_neq in Hne. rewrite Hne.
  unfold _sequence_ratio.
  destruct (String.eqb (strip t) "" && String.eqb t "") eqn:Hempty.
  - apply andb_true_iff in Hempty as [H1 H2].
    apply String.eqb_eq in H1, H2. rewrite H1, H2 in Hne. done.
  - by rewrite Hlow.
Qed.

End DedupDuplicates.

(** C5. The claim is that two positions holding exactly the same string,
    leading and trailing whitespace included, always share a group. The
    code does not do this: on [[" a", " a"]] it compares the stripped
    second occurrence ["a"] with the stored first occurrence [" a"]; they
    differ, their ratio is 2/3, below 0.985, and the second occurrence
    becomes a group of its own. *)
Theorem deduplicate_texts_splits_padded_duplicates :
  deduplicate_texts Difflib.ratio [" a"; " a"] default_similarity_threshold
  = Ok {| unique_texts := [" a"; " a"]; groups := [[0]; [1]] |}
  /\ forall d, deduplicate_texts Difflib.ratio [" a"; " a"]
                 default_similarity_threshold = Ok d ->
               ~ same_group d 0 1.
Proof.
  assert (H : deduplicate_texts Difflib.ratio [" a"; " a"]
                default_similarity_threshold
              = Ok {| unique_texts := [" a"; " a"]; groups := [[0]; [1]] |})
    by (vm_compute; reflexivity).
  split; [exact H|].
  intros d Hd. rewrite H in Hd. injection Hd as <-.
  intros (g & Hg & H0 & H1). simpl in Hg.
  rewrite !elem_of_cons, elem_of_nil in Hg.
  destruct Hg as [->|[->|[]]].
  - apply list_elem_of_singleton in H1. discriminate.
  - apply list_elem_of_singleton in H0. discriminate.
Qed.

(** ** Batch planning (src/utils/batching.py, [_build_batches]) *)

Section PackProps.

Context {A : Type}.
Variable len : A -> nat.
Variables max_chars max_items : Z.
Hypothesis max_items_pos : (0 < max_items)%Z.

#[local] Abbreviation batch_ok := (batch_ok len max_chars max_items).
#[local] Abbreviation pack_inv := (pack_inv len max_chars max_items).

Lemma chars_of_snoc (batch : list A) (item : A) :
  chars_of len (batch ++ [item]) = chars_of len batch + len item.
Proof. unfold chars_of. rewrite map_app, list_sum_app. simpl. lia. Qed.

(** Whatever the budgets, the batches and the open batch hold the entries
    seen so far, in their order. *)
Lemma pack_loop_concat items : forall st,
  let st' := fold_left (pack_step len max_chars max_items) items st in
  concat st'.1.1 ++ st'.1.2 = (concat st.1.1 ++ st.1.2) ++ items.
Proof.
  induction items as [|item rest IH]; intros st; simpl.
  - by rewrite app_nil_r.
  - rewrite IH. destruct st as [[batches current] char_count].
    unfold pack_step.
    destruct (negb (bool_decide (current = [])) && _); simpl.
    + rewrite concat_snoc. by rewrite <- !app_assoc.
    + by rewrite <- !app_assoc.
Qed.

Lemma greedy_pack_concat items :
  concat (greedy_pack len max_chars max_items items) = items.
Proof.
  unfold greedy_pack.
  pose proof (pack_loop_concat items ([], [], 0)) as H. simpl in H.
  destruct (fold_left _ items _) as [[batches current] char_count].
  simpl in *. case_bool_decide as Hempty.
  - subst current. by rewrite app_nil_r in H.
  - by rewrite concat_snoc.
Qed.

Lemma pack_step_inv seen st item :
  pack_inv seen st ->
  pack_inv (seen ++ [item]) (pack_step len max_chars max_items st item).
Proof using max_items_pos.
  destruct st as [[batches current] char_count].
  intros (Hseen & Hcount & Hbatches & Hcurrent).
  unfold pack_step.
  destruct (negb (bool_decide (current = []))
            && ((max_chars <? Z.of_nat (char_count + len item))%Z
                || (max_items <=? Z.of_nat (length current))%Z)) eqn:Hclose.
  - apply andb_true_iff in Hclose as [Hne _].
    apply negb_true_iff, bool_decide_eq_false in Hne.
    destruct Hcurrent as [?|Hok]; [done|].
    repeat split.
    + rewrite concat_snoc. by rewrite <- Hseen.
    + unfold chars_of. simpl. lia.
    + apply Forall_app. split; [done|]. by constructor.
    + right. repeat split; [done|simpl; lia|by right].
  - repeat split.
    + by rewrite <- Hseen, app_assoc.
    + rewrite chars_of_snoc. lia.
    + done.
    + right. apply andb_false_iff in Hclose as [Hempty|Hfits].
      * apply negb_false_iff, bool_decide_eq_true in Hempty. subst current.
        repeat split; [done|simpl; lia|by right].
      * apply orb_false_iff in Hfits as [Hchars Hitems].
        apply Z.ltb_ge in Hchars. apply Z.leb_gt in Hitems.
        repeat split.
        -- by destruct current.
        -- rewrite length_app. simpl. lia.
        -- left. rewrite chars_of_snoc. lia.
Qed.

Lemma pack_loop_inv items : forall seen st,
  pack_inv seen st ->
  pack_inv (seen ++ items) (fold_left (pack_step len max_chars max_items) items st).
Proof using max_items_pos.
  induction items as [|item rest IH]; intros seen st Hinv; simpl.
  - by rewrite app_nil_r.
  - replace (seen ++ item :: rest) with ((seen ++ [item]) ++ rest)
      by (by rewrite <- app_assoc).
    by apply IH, pack_step_inv.
Qed.

Lemma greedy_pack_spec items :
  concat (greedy_pack len max_chars max_items items) = items
  /\ Forall batch_ok (greedy_pack len max_chars max_items items).
Proof using max_items_pos.
  unfold greedy_pack.
  assert (Hinit : pack_inv [] ([], [], 0)).
  { unfold pack_inv. split; [done|]. split; [done|]. split; [constructor|by left]. }
  pose proof (pack_loop_inv items [] ([], [], 0) Hinit) as Hinv.
  destruct (fold_left _ items _) as [[batches current] char_count].
  destruct Hinv as (Hseen & _ & Hbatches & Hcurrent).
  simpl in Hseen. unfold pack_finish.
  case_bool_decide as Hempty.
  - subst current. by rewrite app_nil_r in Hseen.
  - destruct Hcurrent as [?|Hok]; [done|]. split.
    + by rewrite concat_snoc.
    + apply Forall_app. split; [done|]. by constructor.
Qed.

End PackProps.

(** The scenario of the specification: budgets 10 and 4, lengths 5, 5, 1. *)
Example chunk_by_char_limit_scenario :
  chunk_by_char_limit ["abcde"; "fghij"; "k"] 10 4
  = [["abcde"; "fghij"]; ["k"]].
Proof. reflexivity. Qed.

(** C3, as stated, fails: an entry longer than [max_chars] is a batch of
    its own, and that batch exceeds [max_chars]. *)
Lemma batch_planner_oversized_entry :
  ~ (forall (items : list string) (max_chars max_items : Z),
       (0 < max_chars)%Z -> (0 < max_items)%Z ->
       Forall (fun batch =>
                 (Z.of_nat (length batch) <= max_items)%Z
                 /\ (Z.of_nat (chars_of String.length batch) <= max_chars)%Z)
              (chunk_by_char_limit items max_chars max_items)
       /\ concat (chunk_by_char_limit items max_chars max_items) = items).
Proof.
  intros H.
  destruct (H ["abcdef"] 3%Z 2%Z) as [Hall _]; [lia|lia|].
  change (chunk_by_char_limit ["abcdef"] 3 2) with [["abcdef"]] in Hall.
  apply Forall_inv in Hall as [_ Hchars].
  vm_compute in Hchars. by apply Hchars.
Qed.

(** C3, amended. For every list of entries and all [max_chars > 0] and
    [max_items > 0], the batch planner ([chunk_by_char_limit] over strings,
    [_build_batches] over pending entries) yields batches whose
    concatenation is the input list (nothing dropped, nothing reordered);
    no batch is empty or has more than [max_items] entries; and the
    characters of a batch do not exceed [max_chars] unless the batch is a
    single entry. *)
Theorem batch_planner_bounds (max_chars max_items : Z) :
  (0 < max_chars)%Z -> (0 < max_items)%Z ->
  (forall items : list string,
     concat (chunk_by_char_limit items max_chars max_items) = items
     /\ Forall (batch_ok String.length max_chars max_items)
          (chunk_by_char_limit items max_chars max_items))
  /\ (forall (self : Orchestrator.TranslationOrchestrator)
        (entries : list Orchestrator.PendingEntry),
        Orchestrator.self_batch_char_limit self = max_chars ->
        Orchestrator.self_batch_size self = max_items ->
        concat (Orchestrator._build_batches self entries) = entries
        /\ Forall (batch_ok (fun entry => String.length (Orchestrator.text entry))
                     max_chars max_items)
             (Orchestrator._build_batches self entries)).
Proof.
  intros _ Hitems. split.
  - intros items. by apply greedy_pack_spec.
  - intros self entries <- <-. by apply greedy_pack_spec.
Qed.

Lemma batch_planner_bounds_witness :
  (0 < 10)%Z /\ (0 < 4)%Z
  /\ (concat (chunk_by_char_limit ["abcde"; "fghij"; "k"] 10 4)
      = ["abcde"; "fghij"; "k"]
      /\ Forall (batch_ok String.length 10 4)
           (chunk_by_char_limit ["abcde"; "fghij"; "k"] 10 4))
  /\ (concat (Orchestrator._build_batches
                (Orchestrator.new_orchestrator None (Some 10%Z) (Some 4%Z))
                example_entries)
      = example_entries
      /\ Forall (batch_ok (fun entry => String.length (Orchestrator.text entry))
                   10 4)
           (Orchestrator._build_batches
              (Orchestrator.new_orchestrator None (Some 10%Z) (Some 4%Z))
              example_entries)).
Proof.
  assert (Hchars : (0 < 10)%Z) by lia.
  assert (Hitems : (0 < 4)%Z) by lia.
  split; [exact Hchars|]. split; [exact Hitems|]. split.
  - exact (proj1 (batch_planner_bounds 10 4 Hchars Hitems)
             ["abcde"; "fghij"; "k"]).
  - exact (proj2 (batch_planner_bounds 10 4 Hchars Hitems)
             (Orchestrator.new_orchestrator None (Some 10%Z) (Some 4%Z))
             example_entries eq_refl eq_refl).
Defined.

(** ** Cache keys and the durable store (src/utils/cache.py) *)

(** C10. [make_cache_key] is not injective: the triples
    (text ["x"], source ["a"], target ["b::c"]) and
    (text ["c::x"], source ["a"], target ["b"]) are distinct and have the
    same key ["a::b::c::x"]. *)
Theorem make_cache_key_not_injective :
  exists text1 source1 target1 text2 source2 target2 : string,
    (text1, source1, target1) <> (text2, source2, target2)
    /\ make_cache_key text1 source1 target1
       = make_cache_key text2 source2 target2.
Proof.
  exists "x", "a", "b::c", "c::x", "a", "b". split; [discriminate|reflexivity].
Qed.

Lemma append_inj_l (prefix s1 s2 : string) :
  prefix +:+ s1 = prefix +:+ s2 -> s1 = s2.
Proof.
  induction prefix as [|c prefix IH]; simpl; [done|].
  intros [= H]. by apply IH.
Qed.

(** Within one call of [translate] the two languages are fixed, and there
    the key determines the text. *)
Lemma make_cache_key_text_inj (text1 text2 source target : string) :
  make_cache_key text1 source target = make_cache_key text2 source target ->
  text1 = text2.
Proof.
  unfold make_cache_key. intros H.
  by do 4 apply append_inj_l in H.
Qed.

Section LoadProps.

Variable json_loads : list N -> option (gmap string string).

(** An absent file is created holding [{}] and read back as the empty
    store, given that the parser reads [{}] as the empty object. *)
Lemma _load_absent (self : TranslationMemory) :
  json_loads [123%N; 125%N] = Some ∅ ->
  exists memory,
    _load json_loads self None = (Ok memory, Some empty_object_bytes)
    /\ _data memory = ∅.
Proof.
  intros Hempty. unfold _load. simpl. rewrite Hempty.
  eexists. split; reflexivity.
Qed.

(** A file that decodes but does not parse gives the empty store. *)
Lemma _load_unparsable (self : TranslationMemory) (content : list Byte.byte)
    (decoded : list N) :
  utf8_decode content = Some decoded ->
  json_loads decoded = None ->
  exists memory,
    _load json_loads self (Some content) = (Ok memory, Some content)
    /\ _data memory = ∅.
Proof.
  intros Hdecode Hparse. unfold _load. simpl. rewrite Hdecode, Hparse.
  eexists. split; reflexivity.
Qed.

(** C9. The claim is that a corrupt store file never makes the
    construction of the durable memory fail. The code catches
    [json.JSONDecodeError] only: on a file that is not valid UTF-8, such as
    the single byte 0xFF, reading raises [UnicodeDecodeError], which
    [_load], and with it the constructor, lets through. *)
Theorem load_invalid_utf8_raises (auto_flush : bool) :
  new_memory json_loads auto_flush (Some [Byte.xff])
  = (Raise UnicodeDecodeError, Some [Byte.xff]).
Proof. reflexivity. Qed.

End LoadProps.

(** ** The retry executor ([TranslationOrchestrator._retry]) *)

Section RetryFuel.

Context {W A : Type}.
Variable emit : event -> W -> W.
Variable policy : RetryPolicy.
Variable action : M W A.
Variable log_cb : bool.

(** The loop runs at most [max_attempts - attempt - 1] further iterations:
    any two amounts of fuel that cover this give the same run. *)
Lemma retry_loop_fuel fuel : forall fuel' attempt delay w,
  Z.to_nat (max_attempts policy - (attempt + 1)) <= fuel ->
  Z.to_nat (max_attempts policy - (attempt + 1)) <= fuel' ->
  retry_loop emit policy action log_cb fuel attempt delay w
  = retry_loop emit policy action log_cb fuel' attempt delay w.
Proof.
  induction fuel as [|fuel IH]; intros [|fuel'] attempt delay w H1 H2; simpl;
    try reflexivity;
    destruct (action w) as [[result|exc] w1]; try reflexivity;
    destruct (max_attempts policy <=? attempt + 1)%Z eqn:Hlast;
    try reflexivity; apply Z.leb_gt in Hlast; try lia.
  apply IH; lia.
Qed.

(** With a budget of one attempt or less the action is called once. *)
Lemma retry_single_attempt w :
  (max_attempts policy <= 1)%Z ->
  _retry emit policy action log_cb w
  = match action w with
    | (Ok result, w') => (Ok result, w')
    | (Raise exc, w') =>
        (Raise exc, if log_cb then emit (Log 1 exc) w' else w')
    end.
Proof.
  intros Hmax. unfold _retry.
  replace (Z.to_nat (max_attempts policy - 1)) with 0 by lia.
  cbn [retry_loop]. change (0 + 1)%Z with 1%Z.
  destruct (action w) as [[result|exc] w']; [done|].
  by rewrite (proj2 (Z.leb_le _ _) Hmax).
Qed.

End RetryFuel.

Section RetryProps.

Context {St A : Type}.
Variable policy : RetryPolicy.
(** The action, a state transformer on whatever it acts upon. *)
Variable act : M St A.
Variable log_cb : bool.

#[local] Abbreviation counted := (counted act).
#[local] Abbreviation nth_call := (nth_call act).
#[local] Abbreviation fails := (fails act).

Lemma retry_loop_succeeds j : forall fuel attempt delay s calls console v s',
  (forall i, i < j -> fails i s) ->
  nth_call j s = (Ok v, s') ->
  j <= fuel ->
  (attempt + Z.of_nat j + 1 <= max_attempts policy)%Z ->
  exists console',
    retry_loop emit_console policy counted log_cb fuel attempt delay
      (s, calls, console)
    = (Ok v, (s', calls + j + 1, console')).
Proof.
  induction j as [|j IH]; intros fuel attempt delay s calls console v s'
    Hfails Hok Hfuel Hmax.
  - simpl in Hok. exists console.
    destruct fuel; simpl; rewrite Hok; do 3 f_equal; lia.
  - destruct fuel as [|fuel]; [lia|].
    pose proof (Hfails 0 ltac:(lia)) as H0. unfold fails in H0. simpl in H0.
    simpl in Hok. simpl.
    destruct (act s) as [[result|exc] s1] eqn:Hact; [done|]. simpl in Hok.
    destruct (max_attempts policy <=? attempt + 1)%Z eqn:Hlast;
      [apply Z.leb_le in Hlast; lia|].
    assert (Hrest : forall i, i < j -> fails i s1).
    { intros i Hi. specialize (Hfails (S i) ltac:(lia)).
      unfold fails in *. simpl in Hfails. by rewrite Hact in Hfails. }
    destruct log_cb; cbn [emit_console];
      (edestruct (IH fuel (attempt + 1)%Z (delay * backoff_factor policy)%Q s1
                    (calls + 1)) as (console' & ->);
       [exact Hrest | exact Hok | lia | lia |]);
      exists console'; do 3 f_equal; lia.
Qed.

Lemma retry_loop_gives_up j : forall fuel attempt delay s calls console exc s',
  (forall i, i < j -> fails i s) ->
  nth_call j s = (Raise exc, s') ->
  j <= fuel ->
  ((attempt + Z.of_nat j + 1 = max_attempts policy)%Z
   \/ j = 0 /\ (max_attempts policy <= attempt + 1)%Z) ->
  exists console',
    retry_loop emit_console policy counted log_cb fuel attempt delay
      (s, calls, console)
    = (Raise exc, (s', calls + j + 1, console')).
Proof.
  induction j as [|j IH]; intros fuel attempt delay s calls console exc s'
    Hfails Hlast Hfuel Hmax.
  - simpl in Hlast.
    assert (Hstop : (max_attempts policy <=? attempt + 1)%Z = true)
      by (apply Z.leb_le; lia).
    rewrite Nat.add_0_r.
    destruct fuel, log_cb; simpl; rewrite Hlast, Hstop; eexists; reflexivity.
  - destruct fuel as [|fuel]; [lia|].
    pose proof (Hfails 0 ltac:(lia)) as H0. unfold fails in H0. simpl in H0.
    simpl in Hlast. simpl.
    destruct (act s) as [[result|exc0] s1] eqn:Hact; [done|]. simpl in Hlast.
    destruct (max_attempts policy <=? attempt + 1)%Z eqn:Hstop;
      [apply Z.leb_le in Hstop; lia|].
    assert (Hrest : forall i, i < j -> fails i s1).
    { intros i Hi. specialize (Hfails (S i) ltac:(lia)).
      unfold fails in *. simpl in Hfails. by rewrite Hact in Hfails. }
    destruct log_cb; cbn [emit_console];
      (edestruct (IH fuel (attempt + 1)%Z (delay * backoff_factor policy)%Q s1
                    (calls + 1)) as (console' & ->);
       [exact Hrest | exact Hlast | lia | lia |]);
      exists console'; do 3 f_equal; lia.
Qed.

End RetryProps.

(** C4. For every action and every policy with [max_attempts = k]:
    if the action fails on its first [j - 1] calls and succeeds on call
    [j], with [1 <= j <= k], the executor returns that success value and
    has called the action exactly [j] times; if the action fails on all of
    its first [k] calls ([k >= 1]), the executor raises the exception of
    the last of them, unchanged, after exactly [k] calls. The action is any
    state transformer; the calls are counted next to its state. *)
Theorem retry_counts_attempts {St A : Type} (policy : RetryPolicy)
    (act : M St A) (log_cb : bool) (k : nat) (s : St) :
  max_attempts policy = Z.of_nat k ->
  (forall j v s',
     1 <= j <= k ->
     (forall i, i < j - 1 -> fails act i s) ->
     nth_call act (j - 1) s = (Ok v, s') ->
     exists console,
       _retry emit_console policy (counted act) log_cb (s, 0, [])
       = (Ok v, (s', j, console)))
  /\ (forall exc s',
        1 <= k ->
        (forall i, i < k - 1 -> fails act i s) ->
        nth_call act (k - 1) s = (Raise exc, s') ->
        exists console,
          _retry emit_console policy (counted act) log_cb (s, 0, [])
          = (Raise exc, (s', k, console))).
Proof.
  intros Hk. unfold _retry. rewrite Hk. split.
  - intros j v s' Hj Hfails Hok.
    destruct (retry_loop_succeeds policy act log_cb (j - 1)
                (Z.to_nat (Z.of_nat k - 1)) 0%Z 1%Q s 0 [] v s')
      as (console & ->); [done|done|lia|lia|].
    exists console. do 3 f_equal. lia.
  - intros exc s' Hk1 Hfails Hlast.
    destruct (retry_loop_gives_up policy act log_cb (k - 1)
                (Z.to_nat (Z.of_nat k - 1)) 0%Z 1%Q s 0 [] exc s')
      as (console & ->); [done|done|lia|lia|].
    exists console. do 3 f_equal. lia.
Qed.

Lemma retry_counts_attempts_witness :
  max_attempts SETTINGS_retry = Z.of_nat 4
  /\ (1 <= 4 <= 4
      /\ (forall i, i < 4 - 1 -> fails (flaky 3) i 0)
      /\ nth_call (flaky 3) (4 - 1) 0 = (Ok ["ok"], 4)
      /\ exists console,
           _retry emit_console SETTINGS_retry (counted (flaky 3)) true
             (0, 0, [])
           = (Ok ["ok"], (4, 4, console)))
  /\ (1 <= 4
      /\ (forall i, i < 4 - 1 -> fails (flaky 9) i 0)
      /\ nth_call (flaky 9) (4 - 1) 0
         = (Raise (TranslatorError "rate limited"), 4)
      /\ exists console,
           _retry emit_console SETTINGS_retry (counted (flaky 9)) true
             (0, 0, [])
           = (Raise (TranslatorError "rate limited"), (4, 4, console))).
Proof.
  assert (Hk : max_attempts SETTINGS_retry = Z.of_nat 4) by reflexivity.
  assert (Hj : 1 <= 4 <= 4) by lia.
  assert (Hfails : forall n i, i < 4 - 1 -> fails (flaky (3 + n)) i 0).
  { intros n [|[|[|i]]] Hi;
      [reflexivity|reflexivity|reflexivity|simpl in Hi; lia]. }
  assert (Hok : nth_call (flaky 3) (4 - 1) 0 = (Ok ["ok"], 4)) by reflexivity.
  assert (Hlast : nth_call (flaky 9) (4 - 1) 0
                  = (Raise (TranslatorError "rate limited"), 4))
    by reflexivity.
  split; [exact Hk|]. split.
  - split; [exact Hj|]. split; [exact (Hfails 0)|]. split; [exact Hok|].
    exact (proj1 (retry_counts_attempts SETTINGS_retry (flaky 3) true 4 0 Hk)
             4 ["ok"] 4 Hj (Hfails 0) Hok).
  - split; [exact (proj1 Hj)|]. split; [exact (Hfails 6)|].
    split; [exact Hlast|].
    exact (proj2 (retry_counts_attempts SETTINGS_retry (flaky 9) true 4 0 Hk)
             (TranslatorError "rate limited") 4 (proj1 Hj) (Hfails 6) Hlast).
Defined.

(** The run of the scenario in full: four calls, three failures logged,
    pauses of 1, 3/2 and 9/4 before the jitter. *)
Example retry_scenario :
  _retry emit_console SETTINGS_retry (counted (flaky 3)) true (0, 0, [])
  = (Ok ["ok"],
     (4, 4,
      [Log 1 (TranslatorError "rate limited"); Sleep 1 (Qmake 1 4);
       Log 2 (TranslatorError "rate limited");
       Sleep (1 * Qmake 3 2) (Qmake 1 4);
       Log 3 (TranslatorError "rate limited");
       Sleep (1 * Qmake 3 2 * Qmake 3 2) (Qmake 1 4)])).
Proof. reflexivity. Qed.

(** With every attempt failing, the fourth failure is what the caller
    sees, and there is no fifth call. *)
Example retry_exhausted :
  exists console,
    _retry emit_console SETTINGS_retry (counted (flaky 9)) true (0, 0, [])
    = (Raise (TranslatorError "rate limited"), (4, 4, console)).
Proof. eexists. reflexivity. Qed.

(** ** The racing backend (src/translator/google.py) *)

Lemma fold_left_min_le (xs : list Z) : forall x,
  (fold_left Z.min xs x <= x)%Z
  /\ (forall y, y ∈ xs -> (fold_left Z.min xs x <= y)%Z)
  /\ fold_left Z.min xs x ∈ x :: xs.
Proof.
  induction xs as [|a xs IH]; intros x; simpl.
  - split; [lia|]. split; [intros y Hy; by apply elem_of_nil in Hy|]. by left.
  - destruct (IH (Z.min x a)) as (Hle & Hall & Hin). split; [lia|]. split.
    + intros y Hy. apply elem_of_cons in Hy as [->|Hy]; [lia|by apply Hall].
    + apply elem_of_cons in Hin as [Heq|Hin].
      * rewrite Heq. destruct (Z.min_spec x a) as [[_ ->]|[_ ->]].
        -- by left.
        -- right. by left.
      * right. by right.
Qed.

Lemma py_min_spec (xs : list Z) :
  xs <> [] ->
  exists m, py_min xs = Ok m /\ m ∈ xs /\ forall y, y ∈ xs -> (m <= y)%Z.
Proof.
  destruct xs as [|x xs]; [done|]. intros _. simpl.
  destruct (fold_left_min_le xs x) as (Hle & Hall & Hin).
  eexists. split; [reflexivity|]. split; [done|].
  intros y Hy. apply elem_of_cons in Hy as [->|Hy]; [done|by apply Hall].
Qed.

Lemma google_endpoints_nonempty : google_endpoints <> [].
Proof. discriminate. Qed.

Lemma min_failures_exists (self : GoogleTranslator) :
  exists m, py_min (map (failures_of self) google_endpoints) = Ok m
            /\ is_min_failures self m.
Proof.
  destruct (py_min_spec (map (failures_of self) google_endpoints))
    as (m & Hm & Hin & Hall).
  { intros H. apply map_eq_nil in H. by apply google_endpoints_nonempty. }
  exists m. split; [done|]. split.
  - apply list_elem_of_fmap in Hin as (least & -> & Hleast). by exists least.
  - intros ep Hep. apply Hall. by apply list_elem_of_fmap_2.
Qed.

Lemma available_endpoints_spec (self : GoogleTranslator) (m : Z) (ep : string) :
  ep ∈ available_endpoints self m
  <-> ep ∈ google_endpoints /\ (failures_of self ep <= m + 2)%Z.
Proof.
  unfold available_endpoints. rewrite !list_elem_of_In, filter_In.
  by rewrite Z.leb_le.
Qed.

(** The endpoint with the fewest failures always qualifies: [available] is
    never empty, and the branch that clears the counters is never taken
    from [_get_next_endpoint]. *)
Lemma available_endpoints_nonempty (self : GoogleTranslator) (m : Z) :
  is_min_failures self m -> available_endpoints self m <> [].
Proof.
  intros [(least & Hin & Hleast) _] Hnil.
  assert (H : least ∈ available_endpoints self m).
  { apply available_endpoints_spec. split; [done|lia]. }
  rewrite Hnil in H. by apply elem_of_nil in H.
Qed.

Lemma select_endpoint_nonempty (available : list string)
    (self : GoogleTranslator) :
  available <> [] ->
  exists ep self',
    select_endpoint available self = (Ok ep, self')
    /\ ep ∈ available
    /\ _endpoint_failures self' = _endpoint_failures self
    /\ _endpoint_index self' = (_endpoint_index self + 1) mod length available.
Proof.
  intros Hne. unfold select_endpoint.
  rewrite bool_decide_eq_false_2 by done.
  assert (Hlen : length available <> 0) by (by destruct available).
  apply Nat.eqb_neq in Hlen as Hlen'. rewrite Hlen'.
  pose proof (Nat.mod_upper_bound (_endpoint_index self + 1) _ Hlen) as Hlt.
  destruct (lookup_lt_is_Some_2 _ _ Hlt) as [ep Hep]. rewrite Hep.
  eexists _, _. split; [reflexivity|]. split; [|done].
  by eapply list_elem_of_lookup_2.
Qed.

(** C7. For every state of the failure counters (and of the round-robin
    cursor), [_get_next_endpoint] returns one of the endpoints, and the
    failure count of the endpoint it returns is at most the smallest
    failure count over all endpoints plus 2; the counters are left as they
    were. The code that runs when no endpoint qualifies ([select_endpoint]
    on an empty [available]) clears all failure counters and picks among
    all endpoints. *)
Theorem get_next_endpoint_within_two (self : GoogleTranslator) :
  (exists ep self' m,
     _get_next_endpoint self = (Ok ep, self')
     /\ is_min_failures self m
     /\ ep ∈ google_endpoints
     /\ (failures_of self ep <= m + 2)%Z
     /\ _endpoint_failures self' = _endpoint_failures self)
  /\ (exists ep self',
        select_endpoint [] self = (Ok ep, self')
        /\ ep ∈ google_endpoints
        /\ _endpoint_failures self' = ∅).
Proof.
  split.
  - destruct (min_failures_exists self) as (m & Hm & Hmin).
    unfold _get_next_endpoint. rewrite Hm.
    destruct (select_endpoint_nonempty (available_endpoints self m) self)
      as (ep & self' & -> & Hin & Hsame & _).
    { by apply available_endpoints_nonempty. }
    apply available_endpoints_spec in Hin as [Hin Hle].
    by exists ep, self', m.
  - unfold select_endpoint. rewrite bool_decide_eq_true_2 by done.
    change (length google_endpoints =? 0) with false. cbv iota.
    pose proof (Nat.mod_upper_bound (_endpoint_index self + 1)
                  (length google_endpoints) ltac:(discriminate)) as Hlt.
    destruct (lookup_lt_is_Some_2 _ _ Hlt) as [ep Hep]. rewrite Hep.
    eexists _, _. split; [reflexivity|]. split; [|done].
    by eapply list_elem_of_lookup_2.
Qed.

(** *** Reasoning about state transformers *)

Lemma hoare_ret {W A} (P : W -> Prop) (a : A) (Q : Res A -> W -> Prop) :
  (forall w, P w -> Q (Ok a) w) -> hoare P (mret a) Q.
Proof. intros H w Hw. by apply H. Qed.

Lemma hoare_raise {W A} (P : W -> Prop) (e : exn) (Q : Res A -> W -> Prop) :
  (forall w, P w -> Q (Raise e) w) -> hoare P (raise e) Q.
Proof. intros H w Hw. by apply H. Qed.

Lemma hoare_lift_res {W A} (P : W -> Prop) (r : Res A) (Q : Res A -> W -> Prop) :
  (forall w, P w -> Q r w) -> hoare P (lift_res r) Q.
Proof. intros H w Hw. by apply H. Qed.

Lemma hoare_modify {W} (P : W -> Prop) (f : W -> W) (Q : Res unit -> W -> Prop) :
  (forall w, P w -> Q (Ok tt) (f w)) -> hoare P (modify f) Q.
Proof. intros H w Hw. by apply H. Qed.

Lemma hoare_bind {W A B} (P : W -> Prop) (m : M W A) (k : A -> M W B)
    (R : A -> W -> Prop) (Q : Res B -> W -> Prop) :
  hoare P m (post R (fun e w => Q (Raise e) w)) ->
  (forall a, hoare (R a) (k a) Q) ->
  hoare P (m ≫= k) Q.
Proof.
  intros Hm Hk w Hw. specialize (Hm w Hw).
  unfold mbind, M_bind. destruct (m w) as [[a|e] w']; simpl in *.
  - by apply Hk.
  - done.
Qed.

Lemma hoare_consequence {W A} (P P' : W -> Prop) (m : M W A)
    (Q Q' : Res A -> W -> Prop) :
  hoare P' m Q' ->
  (forall w, P w -> P' w) ->
  (forall r w, Q' r w -> Q r w) ->
  hoare P m Q.
Proof. intros Hm HP HQ w Hw. by apply HQ, Hm, HP. Qed.

Lemma hoare_seq {W A B} (P : W -> Prop) (m : M W A) (k : A -> M W B)
    (R : A -> W -> Prop) (E : exn -> W -> Prop) (Q : Res B -> W -> Prop) :
  hoare P m (post R E) ->
  (forall a, hoare (R a) (k a) Q) ->
  (forall e w, E e w -> Q (Raise e) w) ->
  hoare P (m ≫= k) Q.
Proof.
  intros Hm Hk HE. eapply hoare_bind; [|exact Hk].
  eapply hoare_consequence; [exact Hm|done|].
  intros [a|e] w; simpl; [done|apply HE].
Qed.

(** The rule for loops: [I] holds of the carried variables and the state
    before and after each iteration; [E] is what an exception leaves. *)
Lemma hoare_fold_m {W S A} (I : S -> W -> Prop) (E : exn -> W -> Prop)
    (body : S -> A -> M W S) (xs : list A) :
  (forall acc x, x ∈ xs -> hoare (I acc) (body acc x) (post I E)) ->
  forall acc, hoare (I acc) (fold_m body xs acc) (post I E).
Proof.
  induction xs as [|x xs IH]; intros Hbody acc; simpl.
  - by apply hoare_ret.
  - eapply hoare_bind.
    + apply Hbody. by left.
    + intros acc'. apply IH. intros acc'' y Hy. apply Hbody. by right.
Qed.

(** *** The separator path *)

Section SeparatorProps.

Variable Net : Type.
Variable http_get : string -> string -> string -> string -> Net -> reply * Net.

#[local] Abbreviation returns_sized := (returns_sized Net).

Lemma try_endpoint_sized texts source_lang target_lang endpoint :
  returns_sized (length texts)
    (try_endpoint Net http_get texts source_lang target_lang endpoint).
Proof.
  intros w _. unfold try_endpoint, request, mbind, M_bind. simpl.
  destruct (http_get _ _ _ _ _) as [[exc|status body] n]; simpl; [done|].
  destruct (status =? 200)%Z; simpl; [|done].
  destruct body as [data|exc]; simpl; [|done].
  destruct (first_of_list data) as [segs|]; simpl; [|done].
  destruct (json_truthy segs); simpl; [|done].
  destruct (join_segments segs) as [full_translation|exc]; simpl; [|done].
  destruct (length (split BATCH_SEPARATOR full_translation) =? length texts)
    eqn:Hlen; simpl; [|done].
  apply Nat.eqb_eq in Hlen. by rewrite length_map.
Qed.

Lemma run_tasks_sized n attempt endpoints :
  (forall ep, returns_sized n (attempt ep)) ->
  hoare (fun _ => True) (run_tasks Net attempt endpoints)
    (post (fun results _ => Forall (sized_or_none n) results)
          (fun _ _ => False)).
Proof.
  intros Hattempt. induction endpoints as [|ep rest IH]; simpl.
  - apply hoare_ret. intros w _. constructor.
  - intros w _. unfold mbind, M_bind.
    pose proof (Hattempt ep w I) as Hfirst.
    destruct (attempt ep w) as [[result|e] w1]; simpl in Hfirst; [|done].
    pose proof (IH w1 I) as Hrest.
    destruct (run_tasks Net attempt rest w1) as [[results|e] w2];
      simpl in *; [|done].
    by constructor.
Qed.

Lemma first_truthy_sized n results :
  Forall (sized_or_none n) results -> sized_or_none n (first_truthy results).
Proof.
  intros Hall. unfold first_truthy.
  destruct (List.find result_truthy results) as [result|] eqn:Hfind; [|done].
  apply find_some in Hfind as [Hin _].
  rewrite Forall_forall in Hall. by apply Hall, list_elem_of_In.
Qed.

Lemma _get_next_endpoint_ok (self : GoogleTranslator) :
  exists ep self', _get_next_endpoint self = (Ok ep, self').
Proof.
  destruct (min_failures_exists self) as (m & Hm & Hmin).
  unfold _get_next_endpoint. rewrite Hm.
  destruct (select_endpoint_nonempty (available_endpoints self m) self)
    as (ep & self' & -> & _); [by apply available_endpoints_nonempty|].
  by exists ep, self'.
Qed.

Lemma on_self_next_endpoint_ok :
  hoare (fun _ : gworld Net => True) (on_self Net _get_next_endpoint)
    (post (fun _ _ => True) (fun _ _ => False)).
Proof.
  intros w _. unfold on_self.
  destruct (_get_next_endpoint_ok (self Net w)) as (ep & self' & ->). done.
Qed.

Lemma next_endpoints_ok n :
  hoare (fun _ : gworld Net => True) (next_endpoints Net n)
    (post (fun _ _ => True) (fun _ _ => False)).
Proof.
  induction n as [|n IH]; simpl.
  - by apply hoare_ret.
  - eapply hoare_bind; [apply on_self_next_endpoint_ok|]. intros ep.
    eapply hoare_bind; [apply IH|]. intros rest. by apply hoare_ret.
Qed.

Lemma try_in_turn_sized texts source_lang target_lang n :
  returns_sized (length texts)
    (try_in_turn Net http_get texts source_lang target_lang n).
Proof.
  induction n as [|n IH]; simpl.
  - by apply hoare_ret.
  - eapply hoare_bind; [apply on_self_next_endpoint_ok|]. intros ep.
    eapply hoare_bind; [apply try_endpoint_sized|].
    intros result. destruct (result_truthy result).
    + apply hoare_ret. intros w Hw. exact Hw.
    + eapply hoare_consequence; [apply IH|done|done].
Qed.

Lemma _try_batch_separator_sized order texts source_lang target_lang :
  returns_sized (length texts)
    (_try_batch_separator Net http_get order texts source_lang target_lang).
Proof.
  unfold _try_batch_separator.
  eapply (hoare_bind _ _ _ (fun _ _ => True)); [by intros w _|].
  intros [|].
  - eapply hoare_bind; [apply next_endpoints_ok|]. intros endpoints_to_try.
    eapply hoare_seq;
      [apply run_tasks_sized; intros ep; apply try_endpoint_sized| |done].
    intros results. apply hoare_ret. intros w Hresults.
    by apply first_truthy_sized.
  - apply try_in_turn_sized.
Qed.

End SeparatorProps.

(** C8. In the separator path of the racing backend: when the reply of an
    endpoint is well formed but splitting the joined translation on the
    separator gives a number of segments different from the number of
    texts, [try_endpoint] returns [None] (the joined result is discarded;
    the failure counters are left as they were); and, for every reply of
    the network and every order in which the racing tasks finish,
    [_try_batch_separator] does not raise and returns either [None] or a
    list with as many elements as there are texts. *)
Theorem separator_path_counts_segments (Net : Type)
    (http_get : string -> string -> string -> string -> Net -> reply * Net)
    (texts : list string) (source_lang target_lang : string) :
  (forall endpoint w data segs full_translation n,
     http_get endpoint source_lang target_lang (join BATCH_SEPARATOR texts)
       (net Net w) = (Response 200 (Ok data), n) ->
     first_of_list data = Some segs ->
     json_truthy segs = true ->
     join_segments segs = Ok full_translation ->
     length (split BATCH_SEPARATOR full_translation) <> length texts ->
     try_endpoint Net http_get texts source_lang target_lang endpoint w
     = (Ok None, {| self := self Net w; net := n |}))
  /\ (forall order w,
        exists result w',
          _try_batch_separator Net http_get order texts source_lang
            target_lang w = (Ok result, w')
          /\ sized_or_none (length texts) result).
Proof.
  split.
  - intros endpoint w data segs full_translation n Hget Hsegs Htruthy Hjoin Hlen.
    unfold try_endpoint, request, mbind, M_bind. simpl.
    rewrite Hget. simpl. rewrite Hsegs, Htruthy. simpl. rewrite Hjoin.
    apply Nat.eqb_neq in Hlen. by rewrite Hlen.
  - intros order w.
    pose proof (_try_batch_separator_sized Net http_get order texts
                  source_lang target_lang w I) as H.
    destruct (_try_batch_separator _ _ _ _ _ _ w) as [[result|exc] w'];
      simpl in H; [|done].
    by exists result, w'.
Qed.

(** ** The session cache *)

Lemma memo_ok_new maxsize : memo_ok (new_session_cache maxsize).
Proof. intros key v H. by apply elem_of_nil in H. Qed.

Lemma memo_ok_set sc key value : memo_ok (session_set sc key value).
Proof. intros k v H. by apply elem_of_nil in H. Qed.

Lemma memo_find_Some key memo v :
  memo_find key memo = Some v -> (key, v) ∈ memo.
Proof.
  unfold memo_find. destruct (List.find _ memo) as [[k v']|] eqn:Hfind; [|done].
  simpl. intros [= ->]. apply find_some in Hfind as [Hin Hkey].
  simpl in Hkey. apply String.eqb_eq in Hkey as ->. by apply list_elem_of_In.
Qed.

Lemma session_get_spec sc key :
  memo_ok sc ->
  (session_get sc key).1 = _store sc !! key
  /\ _store (session_get sc key).2 = _store sc
  /\ memo_ok (session_get sc key).2.
Proof.
  intros Hok. unfold session_get.
  destruct (memo_find key (_memo sc)) as [v|] eqn:Hfind; simpl.
  - apply memo_find_Some in Hfind. split; [by apply Hok|]. split; [done|].
    intros k v' Hin. simpl in *. apply elem_of_app in Hin as [Hin|Hin].
    + apply Hok. unfold memo_remove in Hin.
      apply list_elem_of_In, filter_In in Hin as [Hin _].
      by apply list_elem_of_In.
    + apply list_elem_of_singleton in Hin as [= -> ->]. by apply Hok.
  - split; [done|]. split; [done|].
    intros k v' Hin. simpl in *.
    destruct (maxsize sc =? 0); [by apply Hok|].
    destruct (length (_memo sc) <? maxsize sc);
      apply elem_of_app in Hin as [Hin|Hin].
    + by apply Hok.
    + by apply list_elem_of_singleton in Hin as [= -> ->].
    + apply Hok. apply list_elem_of_In.
      apply list_elem_of_In in Hin. rewrite <- (take_drop 1 (_memo sc)).
      apply in_or_app. by right.
    + by apply list_elem_of_singleton in Hin as [= -> ->].
Qed.

(** [x or y] is truthy when one of the two is. *)
Lemma truthy_or_else (a b : option string) :
  truthy_opt (or_else a b) = truthy_opt a || truthy_opt b.
Proof.
  destruct a as [s|]; simpl; [|done].
  destruct (truthy s) eqn:Hs; simpl; by rewrite ?Hs.
Qed.

Lemma truthy_true (s : string) : truthy s = true <-> s <> "".
Proof.
  unfold truthy. rewrite negb_true_iff. apply String.eqb_neq.
Qed.

(** ** The orchestrator ([TranslationOrchestrator.translate]) *)

Lemma list_assign_length {A} (xs xs' : list A) (i : nat) (v : A) :
  list_assign xs i v = Ok xs' -> length xs' = length xs.
Proof.
  unfold list_assign. destruct (xs !! i); [|done].
  intros [= <-]. apply length_insert.
Qed.

Lemma assign_all_length indexes : forall resolved resolved' value,
  assign_all resolved indexes value = Ok resolved' ->
  length resolved' = length resolved.
Proof.
  unfold assign_all.
  induction indexes as [|idx rest IH]; intros resolved resolved' value; simpl.
  - by intros [= <-].
  - destruct (list_assign resolved idx (Some value)) as [r1|] eqn:H1; [|done].
    simpl. intros H. apply IH in H. apply list_assign_length in H1. congruence.
Qed.

(** [missing_indexes] lists exactly the positions still holding [None]. *)
Lemma missing_indexes_from start resolved i :
  i ∈ map fst (List.filter (fun iv : nat * option string =>
                              bool_decide (snd iv = None))
                 (enumerate_from start resolved))
  <-> exists j, i = start + j /\ resolved !! j = Some None.
Proof.
  revert start. induction resolved as [|v rest IH]; intros start; simpl.
  - split; [intros H; by apply elem_of_nil in H|by intros (j & _ & ?)].
  - case_bool_decide as Hv; simpl in *.
    + rewrite elem_of_cons, IH. split.
      * intros [->|(j & -> & Hj)]; [exists 0|exists (S j)]; subst;
          (split; [lia|done]).
      * intros ([|j] & -> & Hj); [left; lia|right].
        exists j. split; [lia|done].
    + rewrite IH. split.
      * intros (j & -> & Hj). exists (S j). split; [lia|done].
      * intros ([|j] & -> & Hj); [simpl in Hj; congruence|].
        exists j. split; [lia|done].
Qed.

Lemma elem_of_missing_indexes resolved i :
  i ∈ missing_indexes resolved <-> resolved !! i = Some None.
Proof.
  unfold missing_indexes, enumerate. rewrite missing_indexes_from.
  split; [by intros (j & -> & Hj)|intros H; by exists i].
Qed.

(** What [finish] does with the final buffer. *)
Lemma finish_spec (resolved : list (option string)) :
  match finish resolved with
  | Ok out =>
      length out = length resolved
      /\ forall i, i < length resolved ->
           exists s, resolved !! i = Some (Some s) /\ out !! i = Some s
  | Raise e =>
      e = MissingTranslations (missing_indexes resolved)
      /\ exists i, i < length resolved /\ resolved !! i = Some None
  end.
Proof.
  unfold finish. case_bool_decide as Hmissing; simpl.
  - split; [by rewrite length_map|].
    intros i Hi. destruct (lookup_lt_is_Some_2 _ _ Hi) as [[s|] Hs].
    + exists s. split; [done|]. by rewrite list_lookup_fmap, Hs.
    + apply elem_of_missing_indexes in Hs. rewrite Hmissing in Hs.
      by apply elem_of_nil in Hs.
  - split; [done|].
    destruct (missing_indexes resolved) as [|i rest] eqn:Hm; [done|].
    exists i. assert (Hi : resolved !! i = Some None).
    { apply elem_of_missing_indexes. rewrite Hm. by left. }
    split; [by eapply lookup_lt_Some|done].
Qed.

Section OrchestratorLength.

Variable B : Type.
Variable translate_texts : TranslationRequest -> M B (list string).
Variable ratio : string -> string -> Q.
Variable json_dump : gmap string string -> list Byte.byte.
Variable self : TranslationOrchestrator.
Variables source_lang target_lang : string.
Variables progress_cb log_cb : bool.

#[local] Abbreviation keeps_length := (keeps_length B).

Lemma resolve_step_length n acc group :
  length acc.1 = n ->
  hoare (fun _ => True) (resolve_step B source_lang target_lang acc group)
    (keeps_length n).
Proof.
  destruct acc as [resolved pending], group as [unique_text indexes].
  intros Hlen w _. simpl in Hlen.
  unfold resolve_step, lookup_cached, mbind, M_bind.
  destruct (session_get _ _) as [hit sc]. simpl.
  destruct (or_else hit _) as [value|]; simpl; [|done].
  destruct (truthy value); simpl; [|done].
  unfold lift_res.
  destruct (assign_all resolved indexes value) as [resolved'|] eqn:Hassign;
    simpl; [|done].
  apply assign_all_length in Hassign. congruence.
Qed.

Lemma scatter_step_length n total translated acc idx :
  length acc.1 = n ->
  hoare (fun _ => True) (scatter_step B progress_cb total translated acc idx)
    (keeps_length n).
Proof.
  destruct acc as [resolved completed]. intros Hlen w _. simpl in Hlen.
  unfold scatter_step, lift_res, mbind, M_bind.
  destruct (list_assign resolved idx (Some translated)) as [resolved'|] eqn:Ha;
    simpl; [|done].
  apply list_assign_length in Ha.
  unfold report. destruct progress_cb; simpl; congruence.
Qed.

Lemma fold_keeps_length {X A} n (body : list (option string) * X -> A
                                        -> M (world B) (list (option string) * X))
    (xs : list A) :
  (forall acc x, length acc.1 = n ->
     hoare (fun _ => True) (body acc x) (keeps_length n)) ->
  forall acc, length acc.1 = n ->
    hoare (fun _ => True) (fold_m body xs acc) (keeps_length n).
Proof.
  intros Hbody acc Hacc.
  eapply hoare_consequence;
    [apply (hoare_fold_m (fun acc _ => length acc.1 = n) (fun _ _ => True))
    | intros w _; exact Hacc | done].
  intros acc' x _ w Hw. by apply Hbody.
Qed.

Lemma entry_step_length n total acc pair :
  length acc.1 = n ->
  hoare (fun _ => True) (entry_step B json_dump progress_cb total acc pair)
    (keeps_length n).
Proof.
  destruct pair as [entry translated]. intros Hlen. unfold entry_step.
  eapply (hoare_seq _ _ _ (fun _ _ => True) (fun _ _ => True));
    [by intros w _; destruct (store_translation _ _ _ _ w) as [[|] ?]| |done].
  intros _. apply fold_keeps_length; [|done].
  intros acc' idx. apply scatter_step_length.
Qed.

Lemma batch_step_length n total acc batch :
  length acc.1 = n ->
  hoare (fun _ => True)
    (batch_step B translate_texts json_dump self source_lang target_lang
       progress_cb log_cb total acc batch)
    (keeps_length n).
Proof.
  intros Hlen. unfold batch_step.
  eapply (hoare_seq _ _ _ (fun _ _ => True) (fun _ _ => True));
    [by intros w _; destruct (_retry _ _ _ _ w) as [[|] ?]| |done].
  intros translations. destruct (negb _).
  - by apply hoare_raise.
  - apply fold_keeps_length; [|done]. intros acc' pair. apply entry_step_length.
Qed.

Lemma resolve_all_length texts :
  hoare (fun _ => True)
    (resolve_all B translate_texts ratio json_dump self texts source_lang
       target_lang progress_cb log_cb)
    (post (fun resolved _ => length resolved = length texts) (fun _ _ => True)).
Proof.
  unfold resolve_all.
  eapply (hoare_seq _ _ _ (fun _ _ => True) (fun _ _ => True));
    [by intros w _; destruct (lift_res _ w) as [[|] ?]| |done].
  intros dedup.
  eapply hoare_seq;
    [apply (fold_keeps_length (length texts)); [apply resolve_step_length|]
    | | done].
  { simpl. apply length_replicate. }
  intros [resolved pending]. apply hoare_consequence with
    (P' := fun _ => length resolved = length texts)
    (Q' := post (fun resolved _ => length resolved = length texts)
             (fun _ _ => True)); [|done|done].
  intros w Hlen.
  unfold mbind at 1, M_bind at 1.
  destruct (report B progress_cb _ _ w) as [[[]|e] w1] eqn:Hreport; [|done].
  destruct (negb _); [|done].
  unfold _translate_pending.
  pose proof (fold_keeps_length (length resolved)
                (batch_step B translate_texts json_dump self source_lang
                   target_lang progress_cb log_cb (length resolved))
                (_build_batches self pending)
                (fun acc x => batch_step_length _ _ acc x)
                (resolved, count_resolved resolved) eq_refl w1 I) as Hfold.
  unfold mbind, M_bind.
  destruct (fold_m _ _ _ w1) as [[[resolved' completed]|e] w2]; simpl in *;
    [congruence|done].
Qed.

End OrchestratorLength.

(** C1. For every input sequence of texts, every backend and every state
    of the caches, [translate] either returns a list of the length of the
    input, every slot of the buffer [resolved] having been written (it
    holds a string, which is the element returned at that position), or
    raises; and when the buffer still has an unwritten slot after
    processing, [translate] raises the error that lists the missing
    positions. *)
Theorem translate_resolves_every_slot (B : Type)
    (translate_texts : TranslationRequest -> M B (list string))
    (ratio : string -> string -> Q)
    (json_dump : gmap string string -> list Byte.byte)
    (self : TranslationOrchestrator) (texts : list string)
    (source_lang target_lang : string) (progress_cb log_cb : bool)
    (w : world B) :
  let processing :=
    resolve_all B translate_texts ratio json_dump self texts source_lang
      target_lang progress_cb log_cb w in
  match translate B translate_texts ratio json_dump self texts source_lang
          target_lang progress_cb log_cb w with
  | (Ok out, w') =>
      length out = length texts
      /\ exists resolved,
           processing = (Ok resolved, w')
           /\ length resolved = length texts
           /\ forall i, i < length texts ->
                exists s, resolved !! i = Some (Some s) /\ out !! i = Some s
  | (Raise e, w') =>
      processing = (Raise e, w')
      \/ exists resolved,
           processing = (Ok resolved, w')
           /\ e = MissingTranslations (missing_indexes resolved)
           /\ exists i, i < length texts /\ resolved !! i = Some None
  end.
Proof.
  intros processing. unfold translate, mbind, M_bind.
  pose proof (resolve_all_length B translate_texts ratio json_dump self
                source_lang target_lang progress_cb log_cb texts w I) as Hlen.
  fold processing in Hlen. fold processing.
  destruct processing as [[resolved|e] w1]; simpl in *; [|by left].
  unfold lift_res. pose proof (finish_spec resolved) as Hfinish.
  destruct (finish resolved) as [out|e].
  - destruct Hfinish as [Hout Hslots]. split; [congruence|].
    exists resolved. split; [done|]. split; [done|]. by rewrite <- Hlen.
  - destruct Hfinish as [-> Hmissing]. right.
    exists resolved. split; [done|]. split; [done|]. by rewrite <- Hlen.
Qed.

(** *** What reaches the backend *)

Section RetryInvariant.

Context {W A : Type}.
Variable emit : event -> W -> W.
Variable policy : RetryPolicy.
Variable action : M W A.
Variable log_cb : bool.

(** A property [I] of the state that the action and the console keep is
    kept by the executor; and what holds when the action returns ([R]) holds
    when the executor returns, which it does at once. *)
Lemma hoare_retry (I : W -> Prop) (R : A -> W -> Prop) :
  (forall e w, I w -> I (emit e w)) ->
  hoare I action (post R (fun _ w => I w)) ->
  hoare I (_retry emit policy action log_cb) (post R (fun _ w => I w)).
Proof.
  intros Hemit Haction. unfold _retry.
  generalize (Z.to_nat (max_attempts policy - 1)) as fuel.
  generalize 0%Z as attempt. generalize 1%Q as delay.
  intros delay attempt fuel. revert delay attempt.
  induction fuel as [|fuel IH]; intros delay attempt w Hw; simpl;
    specialize (Haction w Hw);
    destruct (action w) as [[result|exc] w1]; simpl in *; try done;
    assert (Hlog : I (if log_cb then emit (Log (attempt + 1) exc) w1 else w1))
      by (destruct log_cb; [by apply Hemit|done]);
    destruct (max_attempts policy <=? attempt + 1)%Z; simpl; try done.
  apply IH. by apply Hemit.
Qed.

End RetryInvariant.

Section CacheHits.

Variable B : Type.
Variable translate_texts : TranslationRequest -> M B (list string).
Variable ratio : string -> string -> Q.
Variable json_dump : gmap string string -> list Byte.byte.
Variable self : TranslationOrchestrator.
Variables source_lang target_lang : string.
Variables progress_cb log_cb : bool.

#[local] Abbreviation spy := (spy B translate_texts).
#[local] Abbreviation calls := (calls B).
#[local] Abbreviation requests := (requests B).
#[local] Abbreviation quiet := (quiet B).

Lemma quiet_ret {A} (a : A) : quiet (mret a).
Proof. done. Qed.

Lemma quiet_bind {A C} (m : M _ A) (k : A -> M _ C) :
  quiet m -> (forall a, quiet (k a)) -> quiet (m ≫= k).
Proof.
  intros Hm Hk w. specialize (Hm w). unfold mbind, M_bind.
  destruct (m w) as [[a|e] w1]; simpl in *; [|done].
  by rewrite Hk.
Qed.

Lemma quiet_fold_m {S A} (body : S -> A -> M _ S) (xs : list A) :
  (forall acc x, quiet (body acc x)) -> forall acc, quiet (fold_m body xs acc).
Proof.
  intros Hbody. induction xs as [|x xs IH]; intros acc; simpl.
  - apply quiet_ret.
  - apply quiet_bind; [apply Hbody|apply IH].
Qed.

Lemma quiet_lift_res {A} (r : Res A) : quiet (lift_res r).
Proof. done. Qed.

Lemma quiet_report completed total :
  quiet (report _ progress_cb completed total).
Proof. intros w. unfold report. by destruct progress_cb. Qed.

Lemma quiet_store_translation key value :
  quiet (store_translation _ json_dump key value).
Proof.
  intros w. unfold store_translation.
  by destruct (memory_set _ _ _ _ _) as [mem d].
Qed.

Lemma quiet_entry_step total acc pair :
  quiet (entry_step _ json_dump progress_cb total acc pair).
Proof.
  destruct pair as [entry translated]. unfold entry_step.
  apply quiet_bind; [apply quiet_store_translation|]. intros _.
  apply quiet_fold_m. intros [resolved completed] idx. unfold scatter_step.
  apply quiet_bind; [apply quiet_lift_res|]. intros resolved'.
  apply quiet_bind; [apply quiet_report|]. intros _. apply quiet_ret.
Qed.

(** The state in which [translate] is called, and the text in question. *)
Variable w0 : world (B * list call).
Variable u : string.

#[local] Abbreviation no_call_for := (no_call_for B w0 u).

Lemma quiet_no_call {A} (m : M _ A) :
  quiet m -> hoare no_call_for m (fun _ w => no_call_for w).
Proof.
  intros Hm w (new & Hnew & Hall). exists new. split; [|done].
  unfold requests, calls in *. by rewrite Hm.
Qed.

Lemma call_translator_no_call request :
  u ∉ texts request ->
  hoare no_call_for (call_translator _ spy request) (fun _ w => no_call_for w).
Proof.
  intros Hu w (new & Hnew & Hall). unfold call_translator, spy.
  destruct (translate_texts request (translator w).1) as [r b'] eqn:Hcall.
  simpl. exists (new ++ [request]). unfold requests, calls in *. simpl. split.
  - by rewrite List.map_app, Hnew, app_assoc.
  - intros req Hreq. apply elem_of_app in Hreq as [Hreq|Hreq]; [by apply Hall|].
    by apply list_elem_of_singleton in Hreq as ->.
Qed.

Lemma batch_step_no_call total acc batch :
  u ∉ map text batch ->
  hoare no_call_for
    (batch_step _ spy json_dump self source_lang target_lang progress_cb
       log_cb total acc batch)
    (fun _ w => no_call_for w).
Proof.
  intros Hu. unfold batch_step.
  eapply hoare_bind.
  - eapply hoare_consequence;
      [apply (hoare_retry emit _ _ _ no_call_for (fun _ w => no_call_for w))
      |done|].
    + intros e w (new & Hnew & Hall). by exists new.
    + eapply hoare_consequence; [by apply call_translator_no_call|done|].
      by intros [a|e] w Hw.
    + intros [a|e] w Hw; simpl; exact Hw.
  - intros translations. destruct (negb _).
    + apply hoare_raise. done.
    + apply quiet_no_call, quiet_fold_m. intros acc' pair.
      apply quiet_entry_step.
Qed.

Lemma _translate_pending_no_call pending resolved :
  (forall p, p ∈ pending -> text p <> u) ->
  hoare no_call_for
    (_translate_pending _ spy json_dump self pending resolved source_lang
       target_lang progress_cb log_cb)
    (fun _ w => no_call_for w).
Proof.
  intros Hpending. unfold _translate_pending.
  eapply hoare_bind.
  - eapply hoare_consequence;
      [apply (hoare_fold_m (fun _ w => no_call_for w) (fun _ w => no_call_for w))
      | intros w Hw; exact Hw
      | intros r w Hw; exact Hw ].
    intros acc batch Hbatch.
    eapply hoare_consequence; [apply batch_step_no_call| |].
    + intros Hin. apply list_elem_of_fmap in Hin as (p & Hp & Hin).
      apply (Hpending p); [|done].
      unfold _build_batches in Hbatch.
      rewrite <- (greedy_pack_concat (fun entry => String.length (text entry))
                    (self_batch_char_limit self) (self_batch_size self) pending).
      apply elem_of_concat. by exists batch.
    + done.
    + intros [a|e] w Hw; exact Hw.
  - intros [resolved' completed]. by apply hoare_ret.
Qed.

#[local] Abbreviation cached_nonempty := (cached_nonempty B).

Hypothesis memo_ok_w0 : memo_ok (session_cache w0).
Hypothesis u_cached :
  cached_nonempty w0 (make_cache_key u source_lang target_lang).

Lemma u_is_hit :
  truthy_opt
    (or_else (_store (session_cache w0) !! make_cache_key u source_lang target_lang)
       (memory_get (memory w0) (make_cache_key u source_lang target_lang)))
  = true.
Proof using u_cached.
  rewrite truthy_or_else. apply orb_true_iff. unfold memory_get.
  destruct u_cached as [(v & -> & Hv)|(v & -> & Hv)]; [left|right];
    simpl; by apply truthy_true.
Qed.

#[local] Abbreviation resolving := (resolving B w0 u).

Lemma resolve_step_resolving acc group :
  hoare (resolving acc) (resolve_step _ source_lang target_lang acc group)
    (post resolving (fun _ w => translator w = translator w0)).
Proof using u_cached.
  destruct acc as [resolved pending], group as [unique_text indexes].
  intros w (Htr & Hstore & Hmem & Hmemo & Hpending). simpl in Hpending.
  unfold resolve_step, lookup_cached, mbind, M_bind.
  destruct (session_get_spec (session_cache w)
              (make_cache_key unique_text source_lang target_lang) Hmemo)
    as (Hget & Hstore' & Hmemo').
  destruct (session_get _ _) as [hit sc]. simpl in *. subst hit.
  assert (Hnew : forall cached,
            truthy_opt cached = false ->
            cached = or_else (_store (session_cache w)
                                !! make_cache_key unique_text source_lang target_lang)
                       (memory_get (memory w)
                          (make_cache_key unique_text source_lang target_lang)) ->
            forall p, p ∈ pending ++
                        [{| text := unique_text; indexes := indexes;
                            cache_key := make_cache_key unique_text
                                           source_lang target_lang |}] ->
                      text p <> u).
  { intros cached Hfalse Hcached p Hp.
    apply elem_of_app in Hp as [Hp|Hp]; [by apply Hpending|].
    apply list_elem_of_singleton in Hp as ->. simpl. intros ->.
    rewrite Hstore, Hmem in Hcached. rewrite Hcached in Hfalse.
    by rewrite u_is_hit in Hfalse. }
  assert (Hstore0 : _store sc = _store (session_cache w0)) by congruence.
  destruct (or_else _ _) as [value|] eqn:Hcached; simpl.
  - destruct (truthy value) eqn:Hvalue; simpl.
    + unfold lift_res.
      destruct (assign_all resolved indexes value); simpl; [|done].
      by repeat (split; [done|]).
    + repeat (split; [done|]). by apply (Hnew (Some value)).
  - repeat (split; [done|]). by apply (Hnew None).
Qed.

Lemma translate_no_call texts :
  no_call_for
    (translate _ spy ratio json_dump self texts source_lang target_lang
       progress_cb log_cb w0).2.
Proof using memo_ok_w0 u_cached.
  assert (Hstart : no_call_for w0).
  { exists []. split; [by rewrite app_nil_r|]. intros ? H. by apply elem_of_nil in H. }
  assert (Hsame : forall w, translator w = translator w0 -> no_call_for w).
  { intros w Hw. destruct Hstart as (new & Hnew & Hall). exists new.
    unfold requests, calls in *. by rewrite Hw. }
  cut (hoare (fun w => w = w0)
         (translate _ spy ratio json_dump self texts source_lang target_lang
            progress_cb log_cb)
         (fun _ w => no_call_for w)); [intros H; by apply H|].
  unfold translate.
  eapply hoare_bind; [|intros resolved; by apply quiet_no_call, quiet_lift_res].
  unfold resolve_all.
  eapply (hoare_seq _ _ _ (fun _ w => w = w0) (fun _ w => no_call_for w)).
  { intros w ->. unfold lift_res. by destruct (deduplicate_texts _ _ _). }
  2:{ intros e w Hw. exact Hw. }
  intros dedup.
  eapply (hoare_seq _ _ _ resolving (fun _ w => translator w = translator w0)).
  { eapply hoare_consequence; [apply hoare_fold_m|..].
    - intros acc group _. apply resolve_step_resolving.
    - intros w ->. repeat split; try done.
      intros p Hp. by apply elem_of_nil in Hp.
    - done. }
  2:{ intros e w Hw. by apply Hsame. }
  intros [resolved pending].
  eapply (hoare_seq _ _ _ (fun _ w => no_call_for w /\ forall p, p ∈ pending -> text p <> u)
            (fun _ w => no_call_for w)).
  { intros w (Htr & _ & _ & _ & Hpending). unfold report.
    destruct progress_cb; simpl; (split; [by apply Hsame|done]). }
  2:{ intros e w Hw. exact Hw. }
  intros _. destruct (negb _).
  - intros w [Hw Hpending].
    pose proof (_translate_pending_no_call pending resolved Hpending w Hw) as H.
    destruct (_translate_pending _ _ _ _ _ _ _ _ _ _ w) as [[r|e] w']; exact H.
  - apply hoare_ret. by intros w [Hw _].
Qed.

End CacheHits.

(** C2, as stated, fails: an entry whose value is the empty string is
    present in the cache and is treated as a miss. With ["en::tr::Hi"]
    mapped to [""] in the session cache, translating [["Hi"]] sends
    ["Hi"] to the backend. *)
Lemma cache_entry_with_empty_value_is_a_miss :
  ~ (forall (w : world (unit * list call)) (texts : list string)
       (source_lang target_lang u : string),
       memo_ok (session_cache w) ->
       cached w (make_cache_key u source_lang target_lang) ->
       exists new,
         requests unit
           (translate _ (spy unit bracket_backend) Difflib.ratio (fun _ => [])
              (new_orchestrator None None None) texts source_lang target_lang
              false false w).2
         = requests unit w ++ new
         /\ forall request, request ∈ new -> u ∉ Config.texts request).
Proof.
  intros H.
  destruct (H (world_with_session_entry no_requests "en::tr::Hi" "") ["Hi"]
              "en" "tr" "Hi") as (new & Hnew & Hall).
  - apply memo_ok_set.
  - left. exists "". vm_compute. reflexivity.
  - vm_compute in Hnew. subst new.
    apply (Hall {| texts := ["Hi"]; source_lang := "en"; target_lang := "tr" |}).
    + by left.
    + by left.
Qed.

(** C2, amended. For every key that the session cache or the durable
    cache holds with a non-empty value at the start of a call of
    [translate], the backend's [translate_texts] is not invoked for that
    key's text during the call: no request made during the call contains
    the text. The backend is arbitrary; its requests are recorded next to
    its state. The session cache is one whose memo agrees with its store
    ([memo_ok]), as it does when new and after each of its methods. *)
Theorem cache_hit_prevents_backend_call (B : Type)
    (translate_texts : TranslationRequest -> M B (list string))
    (ratio : string -> string -> Q)
    (json_dump : gmap string string -> list Byte.byte)
    (self : TranslationOrchestrator) (texts : list string)
    (source_lang target_lang : string) (progress_cb log_cb : bool)
    (w : world (B * list call)) (u : string) :
  memo_ok (session_cache w) ->
  cached_nonempty B w (make_cache_key u source_lang target_lang) ->
  exists new,
    requests B
      (translate _ (spy B translate_texts) ratio json_dump self texts
         source_lang target_lang progress_cb log_cb w).2
    = requests B w ++ new
    /\ forall request, request ∈ new -> u ∉ Config.texts request.
Proof.
  intros Hmemo Hcached.
  exact (translate_no_call B translate_texts ratio json_dump self source_lang
           target_lang progress_cb log_cb w u Hmemo Hcached texts).
Qed.

Lemma cache_hit_prevents_backend_call_witness :
  memo_ok (session_cache
             (world_with_memory_entry no_requests "en::tr::Hello" "Merhaba"))
  /\ cached_nonempty unit
       (world_with_memory_entry no_requests "en::tr::Hello" "Merhaba")
       (make_cache_key "Hello" "en" "tr")
  /\ exists new,
       requests unit
         (translate _ (spy unit bracket_backend) Difflib.ratio (fun _ => [])
            (new_orchestrator None None None) ["Hello"; "Hello"; "Hi"]
            "en" "tr" true true
            (world_with_memory_entry no_requests "en::tr::Hello" "Merhaba")).2
       = requests unit
           (world_with_memory_entry no_requests "en::tr::Hello" "Merhaba")
         ++ new
       /\ forall request, request ∈ new -> "Hello" ∉ Config.texts request.
Proof.
  assert (Hmemo : memo_ok (session_cache
            (world_with_memory_entry no_requests
               "en::tr::Hello" "Merhaba"))) by apply memo_ok_new.
  assert (Hcached : cached_nonempty unit
            (world_with_memory_entry no_requests "en::tr::Hello" "Merhaba")
            (make_cache_key "Hello" "en" "tr")).
  { right. exists "Merhaba". split; [vm_compute; reflexivity|discriminate]. }
  split; [exact Hmemo|]. split; [exact Hcached|].
  exact (cache_hit_prevents_backend_call unit bracket_backend Difflib.ratio
           (fun _ => []) (new_orchestrator None None None)
           ["Hello"; "Hello"; "Hi"] "en" "tr" true true
           (world_with_memory_entry no_requests "en::tr::Hello" "Merhaba")
           "Hello" Hmemo Hcached).
Defined.

(** The scenarios of the specification, run on the example backend. *)
Example translate_scenario_fresh :
  (translate _ (spy unit bracket_backend) Difflib.ratio (fun _ => [])
     (new_orchestrator None None None) ["Hello"; "Hello"; "Hi"] "en" "tr"
     false false (fresh_world no_requests)).1
  = Ok ["<Hello>"; "<Hello>"; "<Hi>"].
Proof. vm_compute. reflexivity. Qed.

Example translate_scenario_cached :
  let r := translate _ (spy unit bracket_backend) Difflib.ratio (fun _ => [])
             (new_orchestrator None None None) ["Hello"; "Hello"; "Hi"]
             "en" "tr" false false
             (world_with_memory_entry no_requests "en::tr::Hello" "Merhaba") in
  r.1 = Ok ["Merhaba"; "Merhaba"; "<Hi>"]
  /\ requests unit r.2
     = [{| texts := ["Hi"]; source_lang := "en"; target_lang := "tr" |}].
Proof. vm_compute. split; reflexivity. Qed.

(** Two units of work with one key share the cache entry: the translation
    stored for text ["x"] from ["a"] to ["b::c"] is what a later call
    returns for text ["c::x"] from ["a"] to ["b"], without asking the
    backend. *)
Example shared_cache_entry :
  let first := translate _ (spy unit bracket_backend) Difflib.ratio
                 (fun _ => []) (new_orchestrator None None None) ["x"]
                 "a" "b::c" false false (fresh_world no_requests) in
  let second := translate _ (spy unit bracket_backend) Difflib.ratio
                  (fun _ => []) (new_orchestrator None None None) ["c::x"]
                  "a" "b" false false first.2 in
  first.1 = Ok ["<x>"]
  /\ second.1 = Ok ["<x>"]
  /\ requests unit second.2 = requests unit first.2.
Proof. vm_compute. repeat split; reflexivity. Qed.

Lemma separator_path_counts_segments_witness :
  one_segment_endpoint "https://translate.googleapis.com/translate_a/single"
    "en" "tr" (join BATCH_SEPARATOR ["Hello"; "Hi"]) (net unit example_gworld)
  = (Response 200 (Ok (JList [JList [JList [JStr "Merhaba"]]])), tt)
  /\ first_of_list (JList [JList [JList [JStr "Merhaba"]]])
     = Some (JList [JList [JStr "Merhaba"]])
  /\ json_truthy (JList [JList [JStr "Merhaba"]]) = true
  /\ join_segments (JList [JList [JStr "Merhaba"]]) = Ok "Merhaba"
  /\ length (split BATCH_SEPARATOR "Merhaba") <> length ["Hello"; "Hi"]
  /\ try_endpoint unit one_segment_endpoint ["Hello"; "Hi"] "en" "tr"
       "https://translate.googleapis.com/translate_a/single" example_gworld
     = (Ok None, {| self := self unit example_gworld; net := tt |}).
Proof.
  assert (H1 : one_segment_endpoint
                 "https://translate.googleapis.com/translate_a/single"
                 "en" "tr" (join BATCH_SEPARATOR ["Hello"; "Hi"])
                 (net unit example_gworld)
               = (Response 200 (Ok (JList [JList [JList [JStr "Merhaba"]]])), tt))
    by reflexivity.
  assert (H2 : first_of_list (JList [JList [JList [JStr "Merhaba"]]])
               = Some (JList [JList [JStr "Merhaba"]])) by reflexivity.
  assert (H3 : json_truthy (JList [JList [JStr "Merhaba"]]) = true)
    by reflexivity.
  assert (H4 : join_segments (JList [JList [JStr "Merhaba"]]) = Ok "Merhaba")
    by reflexivity.
  assert (H5 : length (split BATCH_SEPARATOR "Merhaba")
               <> length ["Hello"; "Hi"]) by (vm_compute; lia).
  split; [exact H1|]. split; [exact H2|]. split; [exact H3|].
  split; [exact H4|]. split; [exact H5|].
  exact (proj1 (separator_path_counts_segments unit one_segment_endpoint
                  ["Hello"; "Hi"] "en" "tr")
           "https://translate.googleapis.com/translate_a/single"
           example_gworld _ _ _ tt H1 H2 H3 H4 H5).
Defined.

Example separator_path_success :
  (_try_batch_separator unit two_segment_endpoint [0; 1; 2] ["Hello"; "Hi"]
     "en" "tr" example_gworld).1
  = Ok (Some ["Merhaba"; "Selam"]).
Proof. vm_compute. reflexivity. Qed.

(** *** With a backend that answers, [translate] returns

    The check for missing translations is a defensive one: the
    bookkeeping of groups and pending entries writes every slot. Every
    exception of [translate] is one the backend raised or the mismatched
    batch size; with a backend that returns as many translations as it is
    given texts, [translate] returns. *)

Lemma total_ret {W A} (a : A) (Q : A -> Prop) : Q a -> total (W := W) (mret a) Q.
Proof. intros H w. by exists a, w. Qed.

Lemma total_bind {W A B} (m : M W A) (k : A -> M W B) (Q : A -> Prop)
    (R : B -> Prop) :
  total m Q -> (forall a, Q a -> total (k a) R) -> total (m ≫= k) R.
Proof.
  intros Hm Hk w. destruct (Hm w) as (a & w1 & Hrun & Ha).
  destruct (Hk a Ha w1) as (b & w2 & Hrun' & Hb).
  exists b, w2. unfold mbind, M_bind. by rewrite Hrun.
Qed.

Lemma total_weaken {W A} (m : M W A) (Q R : A -> Prop) :
  total m Q -> (forall a, Q a -> R a) -> total m R.
Proof.
  intros Hm HQR w. destruct (Hm w) as (a & w' & Hrun & Ha).
  exists a, w'. split; [done|by apply HQR].
Qed.

Lemma retry_total {W A} (emit : event -> W -> W) (policy : RetryPolicy)
    (action : M W A) (log_cb : bool) (Q : A -> Prop) :
  total action Q -> total (_retry emit policy action log_cb) Q.
Proof.
  intros Haction w. destruct (Haction w) as (a & w' & Hrun & Ha).
  exists a, w'. split; [|done]. unfold _retry.
  destruct (Z.to_nat _); simpl; by rewrite Hrun.
Qed.

Lemma grows_refl resolved : grows resolved resolved.
Proof. by split. Qed.

Lemma grows_trans r1 r2 r3 : grows r1 r2 -> grows r2 r3 -> grows r1 r3.
Proof. intros [H1 H1'] [H2 H2']. split; [congruence|auto]. Qed.

Lemma list_assign_resolves resolved i v :
  i < length resolved ->
  exists resolved', list_assign resolved i (Some v) = Ok resolved'
                    /\ grows resolved resolved' /\ is_resolved resolved' i.
Proof.
  intros Hi. unfold list_assign.
  destruct (lookup_lt_is_Some_2 _ _ Hi) as [x ->].
  eexists. split; [reflexivity|]. split; [split|].
  - apply length_insert.
  - intros j [s Hj]. destruct (decide (i = j)) as [<-|Hne].
    + exists v. by apply list_lookup_insert_eq.
    + exists s. by rewrite list_lookup_insert_ne.
  - exists v. by apply list_lookup_insert_eq.
Qed.

Lemma assign_all_resolves indexes v : forall resolved,
  (forall i, i ∈ indexes -> i < length resolved) ->
  exists resolved', assign_all resolved indexes v = Ok resolved'
                    /\ grows resolved resolved'
                    /\ forall i, i ∈ indexes -> is_resolved resolved' i.
Proof.
  unfold assign_all.
  induction indexes as [|idx rest IH]; intros resolved Hbound; simpl.
  - exists resolved. split; [done|]. split; [apply grows_refl|].
    intros i Hi. by apply elem_of_nil in Hi.
  - destruct (list_assign_resolves resolved idx v) as (r1 & -> & Hg1 & Hidx);
      [apply Hbound; by left|].
    simpl. destruct (IH r1) as (r2 & -> & Hg2 & Hrest).
    { intros i Hi. rewrite (proj1 Hg1). apply Hbound. by right. }
    exists r2. split; [done|]. split; [by eapply grows_trans|].
    intros i Hi. apply elem_of_cons in Hi as [->|Hi]; [by apply Hg2|by apply Hrest].
Qed.

Lemma zip_elem_fst {A B} (xs : list A) (ys : list B) x y :
  (x, y) ∈ zip xs ys -> x ∈ xs.
Proof.
  revert ys. induction xs as [|a xs IH]; intros [|b ys] H; simpl in H;
    try by apply elem_of_nil in H.
  apply elem_of_cons in H as [[= -> ->]|H]; [by left|right; by eapply IH].
Qed.

Lemma zip_elem_snd {A B} (xs : list A) (ys : list B) x y :
  (x, y) ∈ zip xs ys -> y ∈ ys.
Proof.
  revert ys. induction xs as [|a xs IH]; intros [|b ys] H; simpl in H;
    try by apply elem_of_nil in H.
  apply elem_of_cons in H as [[= -> ->]|H]; [by left|right; by eapply IH].
Qed.

Lemma zip_covers_fst {A B} (xs : list A) (ys : list B) x :
  length xs = length ys -> x ∈ xs -> exists y, (x, y) ∈ zip xs ys.
Proof.
  revert ys. induction xs as [|a xs IH]; intros [|b ys] Hlen Hx; simpl in *;
    try done; try by apply elem_of_nil in Hx.
  apply elem_of_cons in Hx as [->|Hx].
  - exists b. by left.
  - destruct (IH ys ltac:(lia) Hx) as [y Hy]. exists y. by right.
Qed.

Lemma zip_covers_snd {A B} (xs : list A) (ys : list B) y :
  length xs = length ys -> y ∈ ys -> exists x, (x, y) ∈ zip xs ys.
Proof.
  revert ys. induction xs as [|a xs IH]; intros [|b ys] Hlen Hy; simpl in *;
    try done; try by apply elem_of_nil in Hy.
  apply elem_of_cons in Hy as [->|Hy].
  - exists a. by left.
  - destruct (IH ys ltac:(lia) Hy) as [x Hx]. exists x. by right.
Qed.

Lemma zip_fst {A B} (xs : list A) (ys : list B) :
  length xs = length ys -> (zip xs ys).*1 = xs.
Proof.
  revert ys. induction xs as [|x xs IH]; intros [|y ys] Hlen; simpl in *;
    try done.
  rewrite IH; [done|lia].
Qed.

Lemma zip_snd {A B} (xs : list A) (ys : list B) :
  length xs = length ys -> (zip xs ys).*2 = ys.
Proof.
  revert ys. induction xs as [|x xs IH]; intros [|y ys] Hlen; simpl in *;
    try done.
  rewrite IH; [done|lia].
Qed.

Section Totality.

Variable B : Type.
Variable translate_texts : TranslationRequest -> M B (list string).
Variable ratio : string -> string -> Q.
Variable json_dump : gmap string string -> list Byte.byte.
Variable self : TranslationOrchestrator.
Variables source_lang target_lang : string.
Variables progress_cb log_cb : bool.

#[local] Abbreviation answers := (answers B translate_texts).

Hypothesis backend_answers : answers.

(** A loop whose iteration on [x] writes the positions [covers x]. *)
Lemma fold_total_grows {X A}
    (body : list (option string) * X -> A -> M (world B) (list (option string) * X))
    (covers : A -> list nat) (xs : list A) :
  (forall acc x,
     (forall i, i ∈ covers x -> i < length acc.1) ->
     total (body acc x)
       (fun acc' => grows acc.1 acc'.1
                    /\ forall i, i ∈ covers x -> is_resolved acc'.1 i)) ->
  forall acc,
    (forall x i, x ∈ xs -> i ∈ covers x -> i < length acc.1) ->
    total (fold_m body xs acc)
      (fun acc' => grows acc.1 acc'.1
                   /\ forall x i, x ∈ xs -> i ∈ covers x -> is_resolved acc'.1 i).
Proof.
  intros Hbody. induction xs as [|x xs IH]; intros acc Hbound; simpl.
  - apply total_ret. split; [apply grows_refl|].
    intros x i Hx. by apply elem_of_nil in Hx.
  - eapply total_bind.
    + apply Hbody. intros i Hi. apply (Hbound x); [by left|done].
    + intros acc1 [Hg1 Hx]. eapply total_weaken.
      * apply IH. intros y i Hy Hi. rewrite (proj1 Hg1).
        apply (Hbound y); [by right|done].
      * intros acc2 [Hg2 Hxs]. split; [by eapply grows_trans|].
        intros y i Hy Hi. apply elem_of_cons in Hy as [->|Hy].
        -- by apply Hg2, Hx.
        -- by apply (Hxs y).
Qed.

Lemma report_total completed total' :
  total (report B progress_cb completed total') (fun _ => True).
Proof. intros w. unfold report. destruct progress_cb; by eexists _, _. Qed.

Lemma scatter_step_total total' translated acc idx :
  (forall i, i ∈ [idx] -> i < length acc.1) ->
  total (scatter_step B progress_cb total' translated acc idx)
    (fun acc' => grows acc.1 acc'.1
                 /\ forall i, i ∈ [idx] -> is_resolved acc'.1 i).
Proof.
  destruct acc as [resolved completed]. intros Hbound. simpl in *.
  destruct (list_assign_resolves resolved idx translated)
    as (resolved' & Hassign & Hgrows & Hidx); [apply Hbound; by left|].
  unfold scatter_step. rewrite Hassign.
  eapply total_bind; [by apply (total_ret (W := world B) resolved' (fun r => r = resolved'))|].
  intros ? ->.
  eapply total_bind; [apply report_total|]. intros _ _.
  apply total_ret. simpl. split; [done|].
  intros i Hi. by apply list_elem_of_singleton in Hi as ->.
Qed.

Lemma entry_step_total total' acc (pair : PendingEntry * string) :
  (forall i, i ∈ indexes pair.1 -> i < length acc.1) ->
  total (entry_step B json_dump progress_cb total' acc pair)
    (fun acc' => grows acc.1 acc'.1
                 /\ forall i, i ∈ indexes pair.1 -> is_resolved acc'.1 i).
Proof.
  destruct pair as [entry translated]. intros Hbound. simpl in *.
  unfold entry_step.
  eapply (total_bind _ _ (fun _ => True)).
  { intros w. unfold store_translation.
    destruct (memory_set _ _ _ _ _). by eexists _, _. }
  intros _ _. eapply total_weaken.
  - apply (fold_total_grows (scatter_step B progress_cb total' translated)
             (fun idx => [idx])).
    + intros acc' idx. apply scatter_step_total.
    + intros idx i Hidx Hi. apply list_elem_of_singleton in Hi as ->.
      by apply Hbound.
  - intros acc' [Hgrows Hall]. split; [done|].
    intros i Hi. apply (Hall i); [done|by left].
Qed.

Lemma elem_of_batch_positions batch i :
  i ∈ batch_positions batch <-> exists p, p ∈ batch /\ i ∈ indexes p.
Proof.
  unfold batch_positions. rewrite elem_of_concat. split.
  - intros (l & Hl & Hi). apply list_elem_of_fmap in Hl as (p & -> & Hp).
    by exists p.
  - intros (p & Hp & Hi). exists (indexes p). split; [|done].
    by apply list_elem_of_fmap_2.
Qed.

Lemma call_translator_total request :
  total (call_translator B translate_texts request)
    (fun translated => length translated = length (texts request)).
Proof using backend_answers.
  intros w. unfold call_translator.
  destruct (backend_answers request (translator w)) as (l & b' & -> & Hlen).
  by eexists _, _.
Qed.

Lemma batch_step_total total' acc batch :
  (forall i, i ∈ batch_positions batch -> i < length acc.1) ->
  total (batch_step B translate_texts json_dump self source_lang target_lang
           progress_cb log_cb total' acc batch)
    (fun acc' => grows acc.1 acc'.1
                 /\ forall i, i ∈ batch_positions batch -> is_resolved acc'.1 i).
Proof using backend_answers.
  intros Hbound. unfold batch_step.
  eapply total_bind; [apply retry_total, call_translator_total|].
  intros translations Hlen. simpl in Hlen. rewrite length_map in Hlen.
  rewrite Hlen, Nat.eqb_refl. simpl.
  eapply total_weaken.
  - apply (fold_total_grows (entry_step B json_dump progress_cb total')
             (fun pair => indexes pair.1)).
    + intros acc' pair. apply entry_step_total.
    + intros [entry translated] i Hpair Hi. simpl in Hi.
      apply Hbound, elem_of_batch_positions. exists entry.
      split; [by eapply zip_elem_fst|done].
  - intros acc' [Hgrows Hall]. split; [done|].
    intros i Hi. apply elem_of_batch_positions in Hi as (p & Hp & Hi).
    destruct (zip_covers_fst batch translations p ltac:(done) Hp) as [t Ht].
    by apply (Hall (p, t)).
Qed.

Lemma _translate_pending_total pending resolved :
  (forall p i, p ∈ pending -> i ∈ indexes p -> i < length resolved) ->
  total (_translate_pending B translate_texts json_dump self pending resolved
           source_lang target_lang progress_cb log_cb)
    (fun resolved' =>
       grows resolved resolved'
       /\ forall p i, p ∈ pending -> i ∈ indexes p -> is_resolved resolved' i).
Proof using backend_answers.
  intros Hbound. unfold _translate_pending.
  assert (Hbatches : forall batch p, batch ∈ _build_batches self pending ->
                                     p ∈ batch -> p ∈ pending).
  { intros batch p Hbatch Hp. unfold _build_batches in Hbatch.
    rewrite <- (greedy_pack_concat (fun entry => String.length (text entry))
                  (self_batch_char_limit self) (self_batch_size self) pending).
    apply elem_of_concat. by exists batch. }
  eapply total_bind.
  - apply (fold_total_grows
             (batch_step B translate_texts json_dump self source_lang
                target_lang progress_cb log_cb (length resolved))
             batch_positions).
    + intros acc batch. apply batch_step_total.
    + intros batch i Hbatch Hi. simpl.
      apply elem_of_batch_positions in Hi as (p & Hp & Hi).
      apply (Hbound p); [by eapply Hbatches|done].
  - intros [resolved' completed] [Hgrows Hall]. simpl in *.
    apply total_ret. split; [done|].
    intros p i Hp Hi.
    assert (Hin : p ∈ concat (_build_batches self pending)).
    { unfold _build_batches. by rewrite greedy_pack_concat. }
    apply elem_of_concat in Hin as (batch & Hbatch & Hpb).
    apply (Hall batch); [done|]. apply elem_of_batch_positions. by exists p.
Qed.

Lemma resolve_step_total acc (group : string * list nat) :
  (forall i, i ∈ group.2 -> i < length acc.1) ->
  total (resolve_step B source_lang target_lang acc group)
    (fun acc' =>
       grows acc.1 acc'.1
       /\ exists extra, acc'.2 = acc.2 ++ extra
                        /\ (forall p, p ∈ extra -> indexes p = group.2)
                        /\ group_handled group.2 acc'.1 extra).
Proof.
  destruct acc as [resolved pending], group as [unique_text g].
  intros Hbound w. simpl in *.
  unfold resolve_step, lookup_cached, mbind, M_bind.
  destruct (session_get _ _) as [hit sc]. simpl.
  set (entry := {| text := unique_text; indexes := g;
                   cache_key := make_cache_key unique_text source_lang
                                  target_lang |}).
  assert (Hpending : forall w' : world B,
            exists a w'',
              (Ok (resolved, pending ++ [entry]), w') = (Ok a, w'')
              /\ grows resolved a.1
              /\ exists extra, a.2 = pending ++ extra
                               /\ (forall p, p ∈ extra -> indexes p = g)
                               /\ group_handled g a.1 extra).
  { intros w'. eexists _, _. split; [reflexivity|]. simpl.
    split; [apply grows_refl|]. exists [entry]. split; [done|]. split.
    - intros p Hp. by apply list_elem_of_singleton in Hp as ->.
    - right. exists entry. split; [by left|done]. }
  destruct (or_else hit _) as [value|]; [|apply Hpending].
  destruct (truthy value); [|apply Hpending].
  destruct (assign_all_resolves g value resolved Hbound)
    as (resolved' & Hassign & Hgrows & Hall).
  unfold lift_res. rewrite Hassign. simpl.
  eexists _, _. split; [reflexivity|]. simpl. split; [done|].
  exists []. split; [by rewrite app_nil_r|]. split.
  - intros p Hp. by apply elem_of_nil in Hp.
  - by left.
Qed.

Lemma resolve_loop_total (pairs : list (string * list nat)) : forall acc,
  (forall pr i, pr ∈ pairs -> i ∈ pr.2 -> i < length acc.1) ->
  total (fold_m (resolve_step B source_lang target_lang) pairs acc)
    (fun acc' =>
       grows acc.1 acc'.1
       /\ exists extra,
            acc'.2 = acc.2 ++ extra
            /\ (forall p, p ∈ extra -> exists pr, pr ∈ pairs /\ indexes p = pr.2)
            /\ forall pr, pr ∈ pairs -> group_handled pr.2 acc'.1 extra).
Proof.
  induction pairs as [|pr pairs IH]; intros acc Hbound; simpl.
  - apply total_ret. split; [apply grows_refl|]. exists [].
    split; [by rewrite app_nil_r|].
    split; intros ? H; by apply elem_of_nil in H.
  - eapply total_bind.
    + apply resolve_step_total. intros i Hi. apply (Hbound pr); [by left|done].
    + intros acc1 (Hg1 & extra1 & Hacc1 & Hextra1 & Hpr).
      eapply total_weaken.
      * apply IH. intros pr' i Hpr' Hi. rewrite (proj1 Hg1).
        apply (Hbound pr'); [by right|done].
      * intros acc2 (Hg2 & extra2 & Hacc2 & Hextra2 & Hpairs).
        split; [by eapply grows_trans|].
        exists (extra1 ++ extra2). split; [by rewrite Hacc2, Hacc1, app_assoc|].
        split.
        -- intros p Hp. apply elem_of_app in Hp as [Hp|Hp].
           ++ exists pr. split; [by left|by apply Hextra1].
           ++ destruct (Hextra2 p Hp) as (pr' & Hpr' & Hidx).
              exists pr'. split; [by right|done].
        -- intros pr' Hpr'. apply elem_of_cons in Hpr' as [->|Hpr'].
           ++ destruct Hpr as [Hall|(p & Hp & Hidx)].
              ** left. intros i Hi. by apply Hg2, Hall.
              ** right. exists p. split; [|done]. apply elem_of_app. by left.
           ++ destruct (Hpairs pr' Hpr') as [Hall|(p & Hp & Hidx)].
              ** by left.
              ** right. exists p. split; [|done]. apply elem_of_app. by right.
Qed.

(** With a backend that answers, [translate] returns, whatever the texts and
    the state of the caches. *)
Lemma translate_total texts :
  total (translate B translate_texts ratio json_dump self texts source_lang
           target_lang progress_cb log_cb)
    (fun out => length out = length texts).
Proof using backend_answers.
  unfold translate, resolve_all, deduplicate_texts.
  destruct (dedup_loop_result ratio default_similarity_threshold texts)
    as (unique & grps & -> & Hlen & Hperm). simpl.
  assert (Hgroup : forall pr i, pr ∈ zip unique grps -> i ∈ pr.2 ->
                                i < length texts).
  { intros [t g] i Hpr Hi. simpl in Hi. apply zip_elem_snd in Hpr.
    assert (Hin : i ∈ concat grps) by (apply elem_of_concat; by exists g).
    rewrite Hperm in Hin. apply list_elem_of_In, in_seq in Hin. lia. }
  eapply total_bind.
  - eapply (total_bind _ _ (fun d => d = {| unique_texts := unique; groups := grps |}));
      [by intros w; eexists _, _|].
    intros d ->. simpl.
    eapply total_bind.
    + apply resolve_loop_total. intros pr i Hpr Hi. simpl.
      rewrite length_replicate. by apply (Hgroup pr).
    + intros [resolved pending] (Hgrows & extra & Hpending & Hextra & Hhandled).
      simpl in *. subst pending.
      eapply (total_bind _ _ (fun _ => True)); [apply report_total|].
      intros _ _.
      instantiate (1 := fun resolved' =>
        length resolved' = length texts
        /\ forall i, i < length texts -> is_resolved resolved' i).
      assert (Hsize : length resolved = length texts)
        by (rewrite (proj1 Hgrows); apply length_replicate).
      assert (Hcover : forall i, i < length texts ->
                exists pr, pr ∈ zip unique grps /\ i ∈ pr.2).
      { intros i Hi.
        assert (Hin : i ∈ concat grps).
        { rewrite Hperm. apply list_elem_of_In, in_seq. lia. }
        apply elem_of_concat in Hin as (g & Hg & Hig).
        destruct (zip_covers_snd unique grps g ltac:(done) Hg) as [t Ht].
        by exists (t, g). }
      case_bool_decide as Hempty; simpl.
      * apply total_ret. split; [done|]. intros i Hi.
        destruct (Hcover i Hi) as (pr & Hpr & Hipr).
        destruct (Hhandled pr Hpr) as [Hall|(p & Hp & _)]; [by apply Hall|].
        rewrite Hempty in Hp. by apply elem_of_nil in Hp.
      * eapply total_weaken.
        -- apply _translate_pending_total. intros p i Hp Hi.
           destruct (Hextra p Hp) as (pr & Hpr & Hidx). rewrite Hidx in Hi.
           rewrite Hsize. by apply (Hgroup pr).
        -- intros resolved' [Hgrows' Hall]. split; [destruct Hgrows'; congruence|].
           intros i Hi. destruct (Hcover i Hi) as (pr & Hpr & Hipr).
           destruct (Hhandled pr Hpr) as [Hdone|(p & Hp & Hidx)].
           ++ by apply Hgrows', Hdone.
           ++ apply (Hall p); [done|by rewrite Hidx].
  - intros resolved [Hsize Hall] w. unfold lift_res.
    pose proof (finish_spec resolved) as Hfinish.
    destruct (finish resolved) as [out|e].
    + exists out, w. split; [done|]. destruct Hfinish; congruence.
    + destruct Hfinish as (_ & i & Hi & Hnone).
      destruct (Hall i ltac:(lia)) as [s Hs]. congruence.
Qed.

End Totality.

(** *** Where the returned strings come from *)

Lemma list_assign_slots K resolved resolved' i v :
  all_slots K resolved -> K v ->
  list_assign resolved i (Some v) = Ok resolved' ->
  all_slots K resolved'.
Proof.
  intros Hall Hv. unfold list_assign.
  destruct (resolved !! i) eqn:Hi; [|done]. intros [= <-] j s Hj.
  destruct (decide (i = j)) as [<-|Hne].
  - rewrite list_lookup_insert_eq in Hj by (by eapply lookup_lt_Some).
    by injection Hj as <-.
  - rewrite list_lookup_insert_ne in Hj by done. by eapply Hall.
Qed.

Lemma assign_all_slots K indexes v : forall resolved resolved',
  all_slots K resolved -> K v ->
  assign_all resolved indexes v = Ok resolved' ->
  all_slots K resolved'.
Proof.
  unfold assign_all.
  induction indexes as [|idx rest IH]; intros resolved resolved' Hall Hv; simpl.
  - by intros [= <-].
  - destruct (list_assign resolved idx (Some v)) as [r1|] eqn:H1; [|done].
    simpl. apply IH; [|done]. by eapply list_assign_slots.
Qed.

Lemma all_slots_weaken (K K' : string -> Prop) resolved :
  (forall s, K s -> K' s) -> all_slots K resolved -> all_slots K' resolved.
Proof. intros HK Hall i s Hi. by eapply HK, Hall. Qed.

Section Provenance.

Variable B : Type.
Variable translate_texts : TranslationRequest -> M B (list string).
Variable ratio : string -> string -> Q.
Variable json_dump : gmap string string -> list Byte.byte.
Variable self : TranslationOrchestrator.
Variables source_lang target_lang : string.
Variables progress_cb log_cb : bool.

(** The state in which [translate] is called. *)
Variable w0 : world (B * list call).
Hypothesis memo_ok_w0 : memo_ok (session_cache w0).

#[local] Abbreviation from_cache := (from_cache B source_lang target_lang w0).
#[local] Abbreviation from_backend := (from_backend B w0).
#[local] Abbreviation known := (known B source_lang target_lang w0).
#[local] Abbreviation later := (later B).

Lemma later_refl tr : later tr tr.
Proof. exists []. by rewrite app_nil_r. Qed.

Lemma later_trans tr1 tr2 tr3 : later tr1 tr2 -> later tr2 tr3 -> later tr1 tr3.
Proof.
  intros [m1 H1] [m2 H2]. exists (m1 ++ m2). by rewrite H2, H1, app_assoc.
Qed.

Lemma known_later tr tr' s : later tr tr' -> known tr s -> known tr' s.
Proof.
  intros [more Hmore] [Hc|(new & request & translated & Hnew & Hin & Hs)];
    [by left|right].
  exists (new ++ more), request, translated. split; [|split; [|done]].
  - by rewrite Hmore, Hnew, app_assoc.
  - apply elem_of_app. by left.
Qed.

#[local] Abbreviation keeps_slots := (keeps_slots B).

Lemma fold_keeps_slots {X A} K
    (body : list (option string) * X -> A
            -> M (world (B * list call)) (list (option string) * X))
    (xs : list A) :
  (forall acc x, x ∈ xs -> all_slots K acc.1 ->
     hoare (fun _ => True) (body acc x) (keeps_slots K)) ->
  forall acc, all_slots K acc.1 ->
    hoare (fun _ => True) (fold_m body xs acc) (keeps_slots K).
Proof.
  intros Hbody acc Hacc.
  eapply hoare_consequence;
    [apply (hoare_fold_m (fun acc _ => all_slots K acc.1) (fun _ _ => True))
    | intros w _; exact Hacc | done].
  intros acc' x Hx w Hw. by apply Hbody.
Qed.

Lemma entry_step_slots K total' acc (pair : PendingEntry * string) :
  all_slots K acc.1 -> K pair.2 ->
  hoare (fun _ => True) (entry_step _ json_dump progress_cb total' acc pair)
    (keeps_slots K).
Proof.
  destruct pair as [entry translated]. intros Hacc Hk. simpl in Hk.
  unfold entry_step.
  eapply (hoare_seq _ _ _ (fun _ _ => True) (fun _ _ => True));
    [by intros w _; destruct (store_translation _ _ _ _ w) as [[|] ?]| |done].
  intros _. apply fold_keeps_slots; [|done].
  intros [resolved completed] idx _ Hresolved w _. simpl in Hresolved.
  unfold scatter_step, lift_res, mbind, M_bind.
  destruct (list_assign resolved idx (Some translated)) as [resolved'|] eqn:Ha;
    simpl; [|done].
  apply (list_assign_slots K) in Ha; [|done|done].
  unfold report. by destruct progress_cb.
Qed.

#[local] Abbreviation batching := (batching B source_lang target_lang w0).

Lemma call_translator_records request :
  forall w,
    let run := call_translator _ (spy B translate_texts) request w in
    later (translator w) (translator run.2)
    /\ forall translated, run.1 = Ok translated ->
         exists more, (translator run.2).2 = (translator w).2 ++ more
                      /\ (request, Ok translated) ∈ more.
Proof.
  intros w. unfold call_translator, spy.
  destruct (translate_texts request (translator w).1) as [r b']. simpl.
  split; [by eexists|].
  intros translated ->. eexists. split; [done|]. by left.
Qed.

Lemma batch_step_batching total' acc batch :
  hoare (batching acc)
    (batch_step _ (spy B translate_texts) json_dump self source_lang
       target_lang progress_cb log_cb total' acc batch)
    (post batching (fun _ _ => True)).
Proof.
  intros w1 [Hlater Hslots]. unfold batch_step.
  set (request := {| Config.texts := map text batch;
                     Config.source_lang := source_lang;
                     Config.target_lang := target_lang |}).
  assert (Hretry :
    hoare (fun w => later (translator w1) (translator w))
      (_retry emit (retry_policy self)
         (call_translator _ (spy B translate_texts) request) log_cb)
      (post (fun translated w =>
               exists more, (translator w).2 = (translator w1).2 ++ more
                            /\ (request, Ok translated) ∈ more)
            (fun _ w => later (translator w1) (translator w)))).
  { apply hoare_retry; [done|].
    intros w Hw. destruct (call_translator_records request w) as [Hl Hr].
    destruct (call_translator _ _ request w) as [[translated|e'] w'] eqn:Hcall;
      simpl in *.
    - destruct Hw as [m1 Hm1]. destruct (Hr translated eq_refl) as (m2 & Hm2 & Hin).
      exists (m1 ++ m2). split; [by rewrite Hm2, Hm1, app_assoc|].
      apply elem_of_app. by right.
    - by eapply later_trans. }
  specialize (Hretry w1 (later_refl _)).
  unfold mbind, M_bind.
  destruct (_retry _ _ _ _ w1) as [[translations|e] w2] eqn:Hrun; [|done].
  simpl in Hretry. destruct Hretry as (more & Hmore & Hin).
  destruct (negb _); [done|].
  assert (Hlater2 : later (translator w1) (translator w2)) by (by exists more).
  assert (Hnew : forall t, t ∈ translations -> known (translator w2) t).
  { intros t Ht. right. destruct Hlater as [new Hnew].
    exists (new ++ more), request, translations.
    split; [by rewrite Hmore, Hnew, app_assoc|]. split; [|done].
    apply elem_of_app. by right. }
  pose proof (fold_keeps_slots (known (translator w2))
                (entry_step _ json_dump progress_cb total')
                (zip batch translations)) as Hfold.
  specialize (Hfold ltac:(
    intros acc' pair Hpair Hacc'; apply entry_step_slots; [done|];
    destruct pair as [entry t]; apply Hnew; by eapply zip_elem_snd) acc).
  specialize (Hfold ltac:(
    eapply all_slots_weaken; [|exact Hslots];
    intros s; by apply known_later) w2 I).
  pose proof (quiet_fold_m B
                (entry_step _ json_dump progress_cb total')
                (zip batch translations)
                (quiet_entry_step B json_dump progress_cb total') acc w2)
    as Hquiet.
  destruct (fold_m _ _ acc w2) as [[acc'|e] w3]; simpl in *; [|done].
  split; rewrite Hquiet; [by eapply later_trans|done].
Qed.

#[local] Abbreviation from_caches := (from_caches B source_lang target_lang w0).

Lemma or_else_Some a b s :
  or_else a b = Some s -> a = Some s \/ b = Some s.
Proof.
  destruct a as [x|]; simpl; [|by right].
  destruct (truthy x); [by left|by right].
Qed.

Lemma resolve_step_from_caches acc group :
  hoare (from_caches acc) (resolve_step _ source_lang target_lang acc group)
    (post from_caches (fun _ _ => True)).
Proof.
  destruct acc as [resolved pending], group as [unique_text indexes].
  intros w (Htr & Hstore & Hmem & Hmemo & Hslots). simpl in Hslots.
  unfold resolve_step, lookup_cached, mbind, M_bind.
  destruct (session_get_spec (session_cache w)
              (make_cache_key unique_text source_lang target_lang) Hmemo)
    as (Hget & Hstore' & Hmemo').
  destruct (session_get _ _) as [hit sc]. simpl in *. subst hit.
  assert (Hstore0 : _store sc = _store (session_cache w0)) by congruence.
  destruct (or_else _ _) as [value|] eqn:Hcached; simpl;
    [|by repeat (split; [done|])].
  destruct (truthy value) eqn:Hvalue; simpl; [|by repeat (split; [done|])].
  unfold lift_res.
  destruct (assign_all resolved indexes value) as [resolved'|] eqn:Hassign;
    simpl; [|done].
  repeat (split; [done|]).
  eapply assign_all_slots; [exact Hslots| |exact Hassign].
  split; [by apply truthy_true|]. exists unique_text.
  apply or_else_Some in Hcached. unfold memory_get in Hcached.
  by rewrite Hstore, Hmem in Hcached.
Qed.

(** Every string that [translate] returns is a non-empty value that a
    cache held at the start of the call, or a translation that the backend
    returned during the call. *)
Lemma translate_provenance texts out i s :
  let run := translate _ (spy B translate_texts) ratio json_dump self texts
               source_lang target_lang progress_cb log_cb w0 in
  run.1 = Ok out -> out !! i = Some s -> known (translator run.2) s.
Proof using memo_ok_w0.
  intros run Hout Hi.
  cut (hoare (fun w => w = w0)
         (resolve_all _ (spy B translate_texts) ratio json_dump self texts
            source_lang target_lang progress_cb log_cb)
         (post (fun resolved w => all_slots (known (translator w)) resolved)
               (fun _ _ => True))).
  { intros Hresolve. specialize (Hresolve w0 eq_refl).
    subst run. unfold translate, mbind, M_bind in *.
    destruct (resolve_all _ _ _ _ _ _ _ _ _ _ w0) as [[resolved|e] w1];
      simpl in *; [|done].
    unfold lift_res in *. simpl in *.
    pose proof (finish_spec resolved) as Hfinish. rewrite Hout in Hfinish.
    destruct Hfinish as [Hlen Hall].
    destruct (Hall i) as (s' & Hs' & Hsi);
      [rewrite <- Hlen; by eapply lookup_lt_Some|].
    rewrite Hi in Hsi. injection Hsi as <-. by eapply Hresolve. }
  unfold resolve_all.
  eapply (hoare_seq _ _ _ (fun _ w => w = w0) (fun _ _ => True));
    [intros w ->; unfold lift_res; by destruct (deduplicate_texts _ _ _)| |done].
  intros dedup.
  eapply (hoare_seq _ _ _ from_caches (fun _ _ => True)); [| |done].
  { eapply hoare_consequence; [apply hoare_fold_m|..].
    - intros acc group _. apply resolve_step_from_caches.
    - intros w ->. repeat (split; [done|]).
      intros j s' Hj. simpl in Hj. apply lookup_replicate in Hj as [? _]. done.
    - done. }
  intros [resolved pending].
  eapply (hoare_seq _ _ _ (fun _ => batching (resolved, count_resolved resolved))
            (fun _ _ => True)); [| |done].
  { intros w (Htr & _ & _ & _ & Hslots). simpl in Hslots.
    assert (Hb : batching (resolved, count_resolved resolved) w).
    { split; [rewrite Htr; apply later_refl|].
      eapply all_slots_weaken; [|exact Hslots]. intros s' Hs'. by left. }
    unfold report. destruct progress_cb; simpl; [|done].
    destruct Hb as [Hl Hs]. by split. }
  intros _. destruct (negb _).
  - unfold _translate_pending. intros w Hb.
    pose proof (hoare_fold_m batching (fun _ _ => True)
                  (batch_step _ (spy B translate_texts) json_dump self
                     source_lang target_lang progress_cb log_cb
                     (length resolved))
                  (_build_batches self pending)
                  (fun acc batch _ => batch_step_batching _ acc batch)
                  (resolved, count_resolved resolved) w Hb) as Hfold.
    unfold mbind, M_bind.
    destruct (fold_m _ _ _ w) as [[[resolved' completed]|e] w']; simpl in *;
      [|done].
    by destruct Hfold.
  - apply hoare_ret. by intros w [_ Hs].
Qed.

End Provenance.

(** *** [GoogleTranslator.translate_texts] keeps the backend contract *)

Section GoogleContract.

Variable Net : Type.
Variable http_get : string -> string -> string -> string -> Net -> reply * Net.
Variable _translate_single :
  string -> string -> string -> M (gworld Net) (option string).

Lemma translate_each_length source_lang target_lang texts :
  total (translate_each Net _translate_single texts source_lang target_lang)
    (fun translated => length translated = length texts).
Proof.
  induction texts as [|text rest IH]; intros w; simpl.
  - by exists [], w.
  - destruct (_translate_single text source_lang target_lang w) as [r w1].
    destruct (IH w1) as (rest' & w2 & Hrest & Hlen).
    unfold mbind, M_bind. rewrite Hrest. simpl.
    eexists _, _. split; [reflexivity|]. simpl. by rewrite Hlen.
Qed.

(** Whenever the racing backend returns, it returns as many translations
    as it was given texts: the orchestrator's check of the batch size
    cannot fail on it. *)
Lemma google_translate_texts_length order request :
  hoare (fun _ => True)
    (translate_texts Net http_get _translate_single order request)
    (post (fun translated _ => length translated = length (texts request))
          (fun _ _ => True)).
Proof.
  unfold translate_texts.
  assert (Hparallel : forall ts,
            hoare (fun _ : gworld Net => True)
              (_translate_parallel Net _translate_single ts
                 (source_lang request) (target_lang request))
              (post (fun translated _ => length translated = length ts)
                    (fun _ _ => True))).
  { intros ts w _. unfold _translate_parallel.
    destruct (translate_each_length (source_lang request) (target_lang request)
                ts w) as (l & w' & -> & Hlen). done. }
  destruct (texts request) as [|text [|text' rest]] eqn:Htexts.
  - by apply hoare_ret.
  - intros w _. unfold mbind, M_bind.
    by destruct (_translate_single _ _ _ w) as [[result|e] w'].
  - destruct (_ && _); [|apply Hparallel].
    intros w _. unfold mbind, M_bind.
    pose proof (_try_batch_separator_sized Net http_get order
                  (text :: text' :: rest) (source_lang request)
                  (target_lang request) w I) as Hsep.
    destruct (_try_batch_separator _ _ _ _ _ _ w) as [[result|e] w'];
      simpl in Hsep; [|done].
    destruct result as [[|t ts]|]; cbn [result_truthy];
      [apply (Hparallel _ w' I) | exact Hsep | apply (Hparallel _ w' I)].
Qed.

End GoogleContract.

(* --------------------------------------------------------------------- *)
(** ** More about deduplication *)

Section DedupCanonical.

Variable ratio : string -> string -> Q.
Variable threshold : Q.

Lemma dedup_step_canonical seen acc text acc' :
  canonical_inv seen acc ->
  dedup_step ratio threshold acc (length seen) text = Ok acc' ->
  canonical_inv (seen ++ [text]) acc'.
Proof.
  destruct acc as [unique grps]. intros [Hlen Hinv]. simpl in *.
  unfold dedup_step.
  destruct (_find_match ratio (strip text) unique threshold) as [m|] eqn:Hm.
  - destruct (grps !! m) as [g|] eqn:Hg; [|done]. intros [= <-].
    split; cbn [fst snd]; [by rewrite length_insert|].
    intros k g' Hk. rewrite length_app. cbn [length].
    destruct (decide (k = m)) as [->|Hne].
    + rewrite list_lookup_insert_eq in Hk by (by eapply lookup_lt_Some).
      injection Hk as <-.
      destruct (Hinv m g Hg) as (first & rest & u & -> & Hfirst & Hu & Hrest).
      exists first, (rest ++ [length seen]), u.
      split; [done|]. split; [by apply lookup_app_l_Some|]. split; [done|].
      apply Forall_app. split.
      * eapply Forall_impl; [exact Hrest|]. simpl. lia.
      * constructor; [|constructor]. apply lookup_lt_Some in Hfirst. lia.
    + rewrite list_lookup_insert_ne in Hk by done.
      destruct (Hinv k g' Hk) as (first & rest & u & -> & Hfirst & Hu & Hrest).
      exists first, rest, u.
      split; [done|]. split; [by apply lookup_app_l_Some|]. split; [done|].
      eapply Forall_impl; [exact Hrest|]. simpl. lia.
  - intros [= <-]. split; cbn [fst snd].
    { rewrite !length_app. simpl. lia. }
    intros k g' Hk. rewrite length_app. cbn [length].
    apply lookup_app_Some in Hk as [Hk|[Hge Hk]].
    + destruct (Hinv k g' Hk) as (first & rest & u & -> & Hfirst & Hu & Hrest).
      exists first, rest, u.
      split; [done|]. split; [by apply lookup_app_l_Some|].
      split; [by apply lookup_app_l_Some|].
      eapply Forall_impl; [exact Hrest|]. simpl. lia.
    + destruct (k - length grps) as [|n] eqn:Hdiff; [|done].
      injection Hk as <-.
      assert (k = length unique) as -> by lia.
      exists (length seen), [], text. split; [done|].
      split; [by rewrite lookup_app_r, Nat.sub_diag by lia|].
      split; [by rewrite lookup_app_r, Nat.sub_diag by lia|constructor].
Qed.

Lemma dedup_loop_canonical rest : forall seen acc acc',
  canonical_inv seen acc ->
  dedup_loop ratio threshold acc (length seen) rest = Ok acc' ->
  canonical_inv (seen ++ rest) acc'.
Proof.
  induction rest as [|text rest IH]; intros seen acc acc' Hinv; simpl.
  - intros [= <-]. by rewrite app_nil_r.
  - destruct (dedup_step ratio threshold acc (length seen) text)
      as [acc1|] eqn:Hstep; [|done]. simpl. intros Hloop.
    replace (seen ++ text :: rest) with ((seen ++ [text]) ++ rest)
      by (by rewrite <- app_assoc).
    apply (IH _ acc1); [by eapply dedup_step_canonical|].
    rewrite length_app. simpl.
    by replace (length seen + 1) with (S (length seen)) by lia.
Qed.

Lemma deduplicate_texts_canonical texts d :
  deduplicate_texts ratio texts threshold = Ok d ->
  canonical_inv texts (unique_texts d, groups d).
Proof.
  unfold deduplicate_texts.
  destruct (dedup_loop ratio threshold ([], []) 0 texts)
    as [[unique grps]|] eqn:Hloop; [|done].
  simpl. intros [= <-]. simpl.
  apply (dedup_loop_canonical texts [] ([], [])); [|done].
  split; [done|]. intros k g Hk. simpl in Hk. by rewrite lookup_nil in Hk.
Qed.

End DedupCanonical.

(** X1. The text that stands for a group is the text, as written, at the
    first position of the group, and the other positions of the group come
    later in the input: [unique_texts[k] == texts[groups[k][0]]] and
    [groups[k]] has no position before its first one. What is sent to the
    backend for a group is thus its earliest member, leading and trailing
    whitespace included. *)
Theorem deduplicate_texts_first_occurrence (ratio : string -> string -> Q)
    (threshold : Q) (texts : list string) (d : DeduplicationResult)
    (k : nat) (g : list nat) :
  deduplicate_texts ratio texts threshold = Ok d ->
  groups d !! k = Some g ->
  exists first rest u,
    g = first :: rest
    /\ texts !! first = Some u
    /\ unique_texts d !! k = Some u
    /\ Forall (fun i => first < i) rest.
Proof.
  intros Hd Hg.
  destruct (deduplicate_texts_canonical ratio threshold texts d Hd)
    as [_ Hinv].
  destruct (Hinv k g Hg) as (first & rest & u & -> & Hfirst & Hu & Hrest).
  exists first, rest, u. repeat (split; [done|]).
  eapply Forall_impl; [exact Hrest|]. simpl. lia.
Qed.

Lemma deduplicate_texts_first_occurrence_witness :
  deduplicate_texts Difflib.ratio ["Hello"; "Hi"; "Hello"]
    default_similarity_threshold
  = Ok {| unique_texts := ["Hello"; "Hi"]; groups := [[0; 2]; [1]] |}
  /\ [[0; 2]; [1]] !! 0 = Some [0; 2]
  /\ exists first rest u,
       [0; 2] = first :: rest
       /\ ["Hello"; "Hi"; "Hello"] !! first = Some u
       /\ ["Hello"; "Hi"] !! 0 = Some u
       /\ Forall (fun i => first < i) rest.
Proof.
  split; [vm_compute; reflexivity|]. split; [reflexivity|].
  apply (deduplicate_texts_first_occurrence Difflib.ratio
           default_similarity_threshold ["Hello"; "Hi"; "Hello"]
           {| unique_texts := ["Hello"; "Hi"]; groups := [[0; 2]; [1]] |}
           0 [0; 2]);
    [vm_compute; reflexivity|reflexivity].
Defined.

(** X2. Two positions that hold the same string share a group whenever
    the string has no whitespace at either end, wherever the two positions
    are and whatever the similarity measure and the threshold: one
    translation serves both. *)
Theorem deduplicate_texts_merges_stripped_duplicates
    (ratio : string -> string -> Q) (threshold : Q) (texts : list string)
    (i j : nat) (t : string) :
  texts !! i = Some t -> texts !! j = Some t -> strip t = t ->
  exists d,
    deduplicate_texts ratio texts threshold = Ok d
    /\ exists g, g ∈ groups d /\ i ∈ g /\ j ∈ g.
Proof. apply duplicates_collapse_when_stripped. Qed.

Lemma deduplicate_texts_merges_stripped_duplicates_witness :
  ["Hello"; "Hi"; "Hello"] !! 0 = Some "Hello"
  /\ ["Hello"; "Hi"; "Hello"] !! 2 = Some "Hello"
  /\ strip "Hello" = "Hello"
  /\ exists d,
       deduplicate_texts Difflib.ratio ["Hello"; "Hi"; "Hello"]
         default_similarity_threshold = Ok d
       /\ exists g, g ∈ groups d /\ 0 ∈ g /\ 2 ∈ g.
Proof.
  split; [reflexivity|]. split; [reflexivity|]. split; [reflexivity|].
  apply (deduplicate_texts_merges_stripped_duplicates Difflib.ratio
           default_similarity_threshold ["Hello"; "Hi"; "Hello"] 0 2 "Hello");
    reflexivity.
Defined.

(* --------------------------------------------------------------------- *)
(** ** More about batch planning *)

Section GreedyProps.

Context {A : Type}.
Variable len : A -> nat.
Variables max_chars max_items : Z.

#[local] Abbreviation overflows := (overflows len max_chars max_items).
#[local] Abbreviation greedy_inv := (greedy_inv len max_chars max_items).

Lemma chars_of_app (batch batch' : list A) :
  chars_of len (batch ++ batch') = chars_of len batch + chars_of len batch'.
Proof. unfold chars_of. by rewrite map_app, list_sum_app. Qed.

Lemma pack_step_greedy st item :
  greedy_inv st -> greedy_inv (pack_step len max_chars max_items st item).
Proof.
  destruct st as [[batches current] char_count].
  intros (Hcount & Hne & Hfirst & Hadj).
  unfold pack_step.
  destruct (negb (bool_decide (current = []))
            && ((max_chars <? Z.of_nat (char_count + len item))%Z
                || (max_items <=? Z.of_nat (length current))%Z)) eqn:Hclose.
  - apply andb_true_iff in Hclose as [Hcur Hfull].
    apply negb_true_iff, bool_decide_eq_false in Hcur.
    split; [unfold chars_of; simpl; lia|].
    split; [apply Forall_app; split; [done|by constructor]|].
    split; [done|].
    intros k batch item' rest Hk Hnext. simpl in Hnext.
    apply lookup_app_Some in Hk as [Hk|[Hge Hk]].
    + apply (Hadj k batch item' rest Hk).
      apply lookup_lt_Some in Hk as Hlt.
      rewrite lookup_app_l in Hnext by (rewrite length_app; simpl; lia).
      done.
    + destruct (k - length batches) as [|n] eqn:Hdiff; [|done].
      injection Hk as <-.
      rewrite lookup_app_r in Hnext by (rewrite length_app; simpl; lia).
      rewrite length_app in Hnext. simpl in Hnext.
      replace (S k - (length batches + 1)) with 0 in Hnext by lia.
      injection Hnext as <- <-.
      apply orb_true_iff in Hfull as [Hchars|Hitems].
      * left. apply Z.ltb_lt in Hchars. by rewrite <- Hcount.
      * right. by apply Z.leb_le in Hitems.
  - split; [rewrite chars_of_app; unfold chars_of at 2; simpl; lia|].
    split; [done|]. split; [by destruct current|].
    intros k batch item' rest Hk Hnext.
    apply lookup_lt_Some in Hk as Hlt.
    destruct current as [|c cs].
    + rewrite Hfirst in Hlt by done. simpl in Hlt. lia.
    + destruct (decide (S k < length batches)) as [Hin|Hlast].
      * apply (Hadj k batch item' rest Hk).
        rewrite lookup_app_l in Hnext |- * by done. exact Hnext.
      * apply (Hadj k batch item' cs Hk).
        rewrite lookup_app_r in Hnext |- * by lia.
        replace (S k - length batches) with 0 in Hnext |- * by lia.
        simpl in Hnext |- *. by injection Hnext as <- _.
Qed.

Lemma pack_loop_greedy items : forall st,
  greedy_inv st ->
  greedy_inv (fold_left (pack_step len max_chars max_items) items st).
Proof.
  induction items as [|item rest IH]; intros st Hinv; simpl; [done|].
  by apply IH, pack_step_greedy.
Qed.

(** The batches of [greedy_pack], whatever the limits. *)
Lemma greedy_pack_greedy items :
  Forall (fun batch => batch <> []) (greedy_pack len max_chars max_items items)
  /\ forall k batch item rest,
       greedy_pack len max_chars max_items items !! k = Some batch ->
       greedy_pack len max_chars max_items items !! S k = Some (item :: rest) ->
       overflows batch item.
Proof.
  unfold greedy_pack.
  assert (Hinit : greedy_inv ([], [], 0)).
  { split; [done|]. split; [constructor|]. split; [done|].
    intros k ? ? ? Hk. by rewrite lookup_nil in Hk. }
  pose proof (pack_loop_greedy items _ Hinit) as Hinv.
  destruct (fold_left _ items _) as [[batches current] char_count].
  destruct Hinv as (_ & Hne & Hfirst & Hadj).
  unfold pack_finish. case_bool_decide as Hempty.
  - rewrite (Hfirst Hempty). split; [constructor|].
    intros k ? ? ? Hk. by rewrite lookup_nil in Hk.
  - split; [apply Forall_app; split; [done|by constructor]|].
    intros k batch item rest Hk Hnext.
    apply lookup_app_Some in Hk as [Hk|[Hge Hk]]; [by eapply Hadj|].
    apply lookup_lt_Some in Hnext. rewrite length_app in Hnext.
    simpl in Hnext. lia.
Qed.

End GreedyProps.



(** X4. When all the entries fit in one batch (their characters within
    [max_chars] and their number within [max_items]), the planner makes
    exactly one batch of them, so the backend is asked once. *)
Theorem batch_planner_single_batch {A : Type} (len : A -> nat)
    (max_chars max_items : Z) (items : list A) :
  items <> [] ->
  (Z.of_nat (chars_of len items) <= max_chars)%Z ->
  (Z.of_nat (length items) <= max_items)%Z ->
  greedy_pack len max_chars max_items items = [items].
Proof.
  intros Hitems Hchars Hcount.
  pose proof (greedy_pack_concat len max_chars max_items items) as Hconcat.
  destruct (greedy_pack_greedy len max_chars max_items items) as [Hne Hadj].
  destruct (greedy_pack len max_chars max_items items)
    as [|batch [|batch' more]].
  - by simpl in Hconcat.
  - simpl in Hconcat. rewrite app_nil_r in Hconcat. by rewrite Hconcat.
  - exfalso. apply Forall_cons in Hne as [_ Hne].
    apply Forall_cons in Hne as [Hne' _].
    destruct batch' as [|item rest]; [done|].
    specialize (Hadj 0 batch item rest eq_refl eq_refl).
    rewrite <- Hconcat in Hchars, Hcount. simpl in Hchars, Hcount.
    rewrite chars_of_app in Hchars. rewrite length_app in Hcount.
    change (item :: rest ++ concat more)
      with ([item] ++ (rest ++ concat more)) in Hchars.
    rewrite chars_of_app in Hchars. unfold chars_of at 2 in Hchars.
    simpl in Hchars, Hcount. destruct Hadj as [Hadj|Hadj]; lia.
Qed.

Lemma batch_planner_single_batch_witness :
  ["abcde"; "fghij"; "k"] <> []
  /\ (Z.of_nat (chars_of String.length ["abcde"; "fghij"; "k"]) <= 6000)%Z
  /\ (Z.of_nat (length ["abcde"; "fghij"; "k"]) <= 20)%Z
  /\ chunk_by_char_limit ["abcde"; "fghij"; "k"] 6000 20
     = [["abcde"; "fghij"; "k"]].
Proof.
  split; [discriminate|]. split; [vm_compute; discriminate|].
  split; [vm_compute; discriminate|].
  apply (batch_planner_single_batch String.length 6000 20
           ["abcde"; "fghij"; "k"]);
    [discriminate|vm_compute; discriminate|vm_compute; discriminate].
Defined.

(* --------------------------------------------------------------------- *)
(** ** More about the caches *)

Lemma append_colon_inj (s1 s2 r1 r2 : string) :
  has_colon s1 = false -> has_colon s2 = false ->
  s1 +:+ String ":" r1 = s2 +:+ String ":" r2 -> s1 = s2 /\ r1 = r2.
Proof.
  revert s2. induction s1 as [|c s1 IH]; intros [|c' s2]; simpl.
  - intros _ _ [= ->]. done.
  - intros _ H [= <- _]. done.
  - intros H _ [= -> _]. done.
  - intros H1 H2 [= <- Heq].
    apply orb_false_iff in H1 as [_ H1]. apply orb_false_iff in H2 as [_ H2].
    destruct (IH s2 H1 H2 Heq) as [-> ->]. done.
Qed.

(** X5. Where the language codes contain no colon, the cache key
    determines the unit of work: two triples of text, source and target
    with the same key are the same triple. Keys can be shared by different
    units only through a colon in a language code. *)
Theorem make_cache_key_injective_without_colon
    (text1 source1 target1 text2 source2 target2 : string) :
  has_colon source1 = false -> has_colon target1 = false ->
  has_colon source2 = false -> has_colon target2 = false ->
  make_cache_key text1 source1 target1 = make_cache_key text2 source2 target2 ->
  text1 = text2 /\ source1 = source2 /\ target1 = target2.
Proof.
  intros Hs1 Ht1 Hs2 Ht2 Hkey. unfold make_cache_key in Hkey. simpl in Hkey.
  apply append_colon_inj in Hkey as [-> Hkey]; [|done..].
  injection Hkey as Hkey.
  apply append_colon_inj in Hkey as [-> Hkey]; [|done..].
  by injection Hkey as ->.
Qed.

Lemma make_cache_key_injective_without_colon_witness :
  has_colon "en" = false /\ has_colon "tr" = false
  /\ make_cache_key "Hello" "en" "tr" = make_cache_key "Hello" "en" "tr"
  /\ "Hello" = "Hello" /\ "en" = "en" /\ "tr" = "tr".
Proof.
  split; [reflexivity|]. split; [reflexivity|]. split; [reflexivity|].
  apply (make_cache_key_injective_without_colon
           "Hello" "en" "tr" "Hello" "en" "tr"); reflexivity.
Defined.

Lemma session_inv_get sc key :
  session_inv sc ->
  (session_get sc key).1 = _store sc !! key
  /\ _store (session_get sc key).2 = _store sc
  /\ maxsize (session_get sc key).2 = maxsize sc
  /\ session_inv (session_get sc key).2.
Proof.
  intros [Hok Hlen].
  destruct (session_get_spec sc key Hok) as (Hget & Hstore & Hok').
  split; [done|]. split; [done|].
  unfold session_inv. unfold session_get in *.
  destruct (memo_find key (_memo sc)) as [v|] eqn:Hfind; simpl in *.
  - split; [done|]. split; [done|].
    rewrite length_app. simpl.
    apply memo_find_Some in Hfind.
    apply list_elem_of_In in Hfind.
    assert (length (memo_remove key (_memo sc)) < length (_memo sc)); [|lia].
    unfold memo_remove. clear -Hfind.
    induction (_memo sc) as [|e memo IH]; [done|]. simpl.
    destruct Hfind as [->|Hin].
    + simpl. rewrite String.eqb_refl. simpl.
      pose proof (filter_length_le
                    (fun e => negb (String.eqb e.1 key)) memo). lia.
    + specialize (IH Hin). destruct (negb _); simpl; lia.
  - split; [done|]. split; [done|].
    destruct (maxsize sc =? 0) eqn:Hzero; [lia|].
    apply Nat.eqb_neq in Hzero.
    destruct (length (_memo sc) <? maxsize sc) eqn:Hroom.
    + apply Nat.ltb_lt in Hroom. rewrite length_app. simpl. lia.
    + rewrite length_app, length_drop. simpl. lia.
Qed.

Lemma run_ops_dict ops : forall sc,
  session_inv sc ->
  _store (run_ops sc ops) = fold_left dict_op ops (_store sc)
  /\ maxsize (run_ops sc ops) = maxsize sc
  /\ session_inv (run_ops sc ops).
Proof.
  induction ops as [|[key|key value] ops IH]; intros sc Hinv; simpl; [done|..].
  - destruct (session_inv_get sc key Hinv) as (_ & Hstore & Hsize & Hinv').
    destruct (IH _ Hinv') as (-> & -> & ?). by rewrite Hstore.
  - destruct (IH (session_set sc key value)) as (-> & -> & ?); [|done].
    split; [apply memo_ok_set|simpl; lia].
Qed.

(** X6. The session cache is a plain dictionary to its callers, and its
    memo stays within its bound: after any history of [get] and [set] on
    a new cache of any [maxsize], [get] returns what the last [set] of the
    key stored (or nothing), never a value that a later [set] replaced,
    and the memo of [functools.lru_cache] holds at most [maxsize]
    results. *)
Theorem session_cache_is_a_dict (maxsize : nat) (ops : list cache_op)
    (key : string) :
  (session_get (run_ops (new_session_cache maxsize) ops) key).1
  = fold_left dict_op ops ∅ !! key
  /\ length (_memo (run_ops (new_session_cache maxsize) ops)) <= maxsize.
Proof.
  destruct (run_ops_dict ops (new_session_cache maxsize))
    as (Hstore & Hsize & Hinv).
  { split; [apply memo_ok_new|simpl; lia]. }
  destruct (session_inv_get _ key Hinv) as (-> & _).
  split; [by rewrite Hstore|]. destruct Hinv as [_ Hlen].
  by rewrite Hsize in Hlen.
Qed.

Section MemoryProps.

Variable json_loads : list N -> option (gmap string string).
Variable json_dump : gmap string string -> list Byte.byte.

(** After [set] and [flush] the file holds the dump of the data, whether
    [set] flushed by itself or not. *)
Lemma memory_set_flush self key value disk :
  let after := memory_set json_dump self key value disk in
  let flushed := flush json_dump after.1 after.2 in
  flushed.2 = Some (json_dump (<[key := value]> (_data self)))
  /\ _data flushed.1 = <[key := value]> (_data self)
  /\ _dirty flushed.1 = false
  /\ (auto_flush self = true -> after = flushed)
  /\ (auto_flush self = false -> after.2 = disk).
Proof.
  unfold memory_set, flush. simpl. destruct (auto_flush self); simpl; done.
Qed.

Lemma new_memory_reads auto_flush content text d :
  utf8_decode content = Some text ->
  json_loads text = Some d ->
  new_memory json_loads auto_flush (Some content)
  = (Ok {| Cache.auto_flush := auto_flush; _data := d; _dirty := false |},
     Some content).
Proof.
  intros Hdecode Hparse. unfold new_memory, _load. simpl.
  by rewrite Hdecode, Hparse.
Qed.

End MemoryProps.

(** X7. A translation put into the translation memory survives a restart.
    After [set(key, value)] and [flush()] the store file holds the dump of
    the data with the new entry, and the memory is clean; with
    [auto_flush] the call of [set] has written the file already, without
    it [set] leaves the file alone. Where [json.load] reads back what
    [json.dump] wrote for this data, a [TranslationMemory] opened on the
    file afterwards returns [value] for [key]. *)
Theorem memory_entry_survives_restart
    (json_loads : list N -> option (gmap string string))
    (json_dump : gmap string string -> list Byte.byte)
    (self : TranslationMemory) (key value : string) (disk : file)
    (text : list N) (auto_flush' : bool) :
  let data := <[key := value]> (_data self) in
  let after := memory_set json_dump self key value disk in
  let flushed := flush json_dump after.1 after.2 in
  utf8_decode (json_dump data) = Some text ->
  json_loads text = Some data ->
  flushed.2 = Some (json_dump data)
  /\ _dirty flushed.1 = false
  /\ (auto_flush self = true -> after = flushed)
  /\ (auto_flush self = false -> after.2 = disk)
  /\ exists reopened,
       new_memory json_loads auto_flush' flushed.2 = (Ok reopened, flushed.2)
       /\ memory_get reopened key = Some value.
Proof.
  intros data after flushed Hdecode Hparse.
  destruct (memory_set_flush json_dump self key value disk)
    as (Hdisk & Hdata & Hdirty & Hauto & Hmanual).
  fold after flushed in Hdisk, Hdata, Hdirty, Hauto, Hmanual.
  repeat (split; [done|]).
  rewrite Hdisk. fold data.
  rewrite (new_memory_reads json_loads auto_flush' _ text data Hdecode Hparse).
  eexists. split; [reflexivity|].
  unfold memory_get. simpl. unfold data. by rewrite lookup_insert_eq.
Qed.

Lemma memory_entry_survives_restart_witness :
  let json_loads := fun _ : list N =>
    Some ({[ "en::tr::Hello" := "Merhaba" ]} : gmap string string) in
  let json_dump := fun _ : gmap string string => empty_object_bytes in
  let self := {| auto_flush := false; _data := ∅; _dirty := false |} in
  let data := <[ "en::tr::Hello" := "Merhaba" ]> (_data self) in
  let after := memory_set json_dump self "en::tr::Hello" "Merhaba" None in
  let flushed := flush json_dump after.1 after.2 in
  utf8_decode (json_dump data) = Some [123%N; 125%N]
  /\ json_loads [123%N; 125%N] = Some data
  /\ flushed.2 = Some (json_dump data)
  /\ _dirty flushed.1 = false
  /\ (auto_flush self = true -> after = flushed)
  /\ (auto_flush self = false -> after.2 = None)
  /\ exists reopened,
       new_memory json_loads true flushed.2 = (Ok reopened, flushed.2)
       /\ memory_get reopened "en::tr::Hello" = Some "Merhaba".
Proof.
  intros json_loads json_dump self data after flushed.
  split; [reflexivity|]. split; [reflexivity|].
  apply (memory_entry_survives_restart json_loads json_dump self
           "en::tr::Hello" "Merhaba" None [123%N; 125%N] true);
    reflexivity.
Defined.

(* --------------------------------------------------------------------- *)
(** ** More about the retry executor *)

Section RetryBudget.

Context {St A : Type}.
Variable policy : RetryPolicy.
Variable act : M St A.
Variable log_cb : bool.

(** From any point of the loop: the further calls after the first one are
    as many as the pauses, the pauses last [delay], [delay * factor], ...,
    and there are no more of them than attempts left. *)
Lemma retry_loop_budget fuel : forall attempt delay s calls console,
  let run := retry_loop emit_console policy (counted act) log_cb fuel attempt
               delay (s, calls, console) in
  exists n events,
    run.2.1.2 = calls + 1 + n
    /\ run.2.2 = console ++ events
    /\ pauses events
       = map (fun i => Sleep (backoff delay (backoff_factor policy) i)
                         (backoff_jitter policy)) (seq 0 n)
    /\ n <= fuel
    /\ (Z.of_nat n <= Z.max 0 (max_attempts policy - (attempt + 1)))%Z.
Proof.
  induction fuel as [|fuel IH]; intros attempt delay s calls console.
  - cbv zeta. cbn [retry_loop].
    assert (Hact : counted act (s, calls, console)
                   = ((act s).1, ((act s).2, calls + 1, console)))
      by (unfold counted; by destruct (act s)).
    rewrite Hact. clear Hact.
    destruct (act s) as [[v|exc] s1]; cbn [fst snd].
    + exists 0, []. rewrite app_nil_r. repeat split; try done; lia.
    + exists 0, (if log_cb then [Log (attempt + 1) exc] else []).
      destruct log_cb, (max_attempts policy <=? attempt + 1)%Z;
        cbn [emit_console fst snd]; rewrite ?app_nil_r;
        repeat split; try done; lia.
  - cbv zeta. cbn [retry_loop].
    assert (Hact : counted act (s, calls, console)
                   = ((act s).1, ((act s).2, calls + 1, console)))
      by (unfold counted; by destruct (act s)).
    rewrite Hact. clear Hact.
    destruct (act s) as [[v|exc] s1]; cbn [fst snd].
    + exists 0, []. rewrite app_nil_r. repeat split; try done; lia.
    + destruct (max_attempts policy <=? attempt + 1)%Z eqn:Hlast.
      * exists 0, (if log_cb then [Log (attempt + 1) exc] else []).
        destruct log_cb; cbn [emit_console fst snd]; rewrite ?app_nil_r;
          repeat split; try done; lia.
      * apply Z.leb_gt in Hlast.
        set (logged := if log_cb then [Log (attempt + 1)%Z exc] else []).
        set (pause := Sleep delay (backoff_jitter policy)).
        destruct (IH (attempt + 1)%Z (delay * backoff_factor policy)%Q s1
                    (calls + 1) ((console ++ logged) ++ [pause]))
          as (n & events & Hcalls & Hconsole & Hpauses & Hfuel & Hleft).
        exists (S n), (logged ++ [pause] ++ events).
        assert (Hsame :
          (let w := if log_cb
                    then emit_console (Log (attempt + 1) exc)
                           (s1, calls + 1, console)
                    else (s1, calls + 1, console) in
           emit_console pause w)
          = (s1, calls + 1, (console ++ logged) ++ [pause])).
        { unfold logged. destruct log_cb; cbn [emit_console];
            by rewrite ?app_nil_r. }
        cbv zeta in Hsame. rewrite Hsame.
        split; [lia|]. split; [by rewrite Hconsole, <- !app_assoc|].
        split; [|lia].
        unfold pauses in *. rewrite !List.filter_app.
        assert (List.filter is_sleep logged = []) as ->
          by (unfold logged; by destruct log_cb).
        cbn [List.filter is_sleep pause app]. rewrite Hpauses.
        cbn [seq map backoff]. f_equal.
        rewrite <- seq_shift, List.map_map. reflexivity.
Qed.

End RetryBudget.


(* --------------------------------------------------------------------- *)
(** ** More about the racing backend *)

Lemma google_endpoints_NoDup : NoDup google_endpoints.
Proof.
  unfold google_endpoints.
  repeat (apply NoDup_cons; split;
          [rewrite ?elem_of_cons, elem_of_nil; intros H;
           repeat (destruct H as [H|H]; [discriminate H|]); exact H|]).
  apply NoDup_nil_2.
Qed.

Lemma available_endpoints_NoDup (self : GoogleTranslator) (m : Z) :
  NoDup (available_endpoints self m).
Proof.
  unfold available_endpoints.
  apply NoDup_ListNoDup, List.NoDup_filter, NoDup_ListNoDup,
    google_endpoints_NoDup.
Qed.

Lemma is_min_failures_unique (self : GoogleTranslator) (m m' : Z) :
  is_min_failures self m -> is_min_failures self m' -> m = m'.
Proof.
  intros [(ep & Hep & <-) Hlow] [(ep' & Hep' & <-) Hlow'].
  specialize (Hlow ep' Hep'). specialize (Hlow' ep Hep). lia.
Qed.

Lemma cursor_positions_spec (size : nat) : forall n index,
  cursor_positions size index n
  = map (fun j => (index + j) mod size) (seq 1 n).
Proof.
  induction n as [|n IH]; intros index; [done|].
  cbn [cursor_positions seq map]. f_equal. rewrite IH.
  rewrite <- (seq_shift n 1), List.map_map. apply map_ext. intros j.
  rewrite Nat.Div0.add_mod_idemp_l. f_equal. lia.
Qed.

Lemma cursor_positions_NoDup (size index n : nat) :
  n <= size -> NoDup (cursor_positions size index n).
Proof.
  intros Hn. rewrite cursor_positions_spec.
  destruct (decide (size = 0)) as [->|Hsize].
  { assert (n = 0) as -> by lia. apply NoDup_nil_2. }
  apply (NoDup_fmap_2_strong (fun j => (index + j) mod size));
    [|apply NoDup_seq].
  intros a b Ha Hb Heq. apply elem_of_seq in Ha, Hb.
  pose proof (Nat.div_mod_eq (index + a) size) as Hqa.
  pose proof (Nat.div_mod_eq (index + b) size) as Hqb.
  rewrite Heq in Hqa.
  set (qa := (index + a) / size) in *. set (qb := (index + b) / size) in *.
  set (r := (index + b) mod size) in *.
  destruct (decide (qa = qb)) as [Hq|Hq]; [subst qa; rewrite Hq in Hqa; lia|].
  exfalso. assert (qa < qb \/ qb < qa) as [Hlt|Hlt] by lia; nia.
Qed.

Section RoundRobin.

Variable Net : Type.

Lemma _get_next_endpoint_cursor (self : GoogleTranslator) (m : Z) :
  is_min_failures self m ->
  exists ep,
    _get_next_endpoint self
    = (Ok ep,
       {| _endpoint_index :=
            (_endpoint_index self + 1)
              mod length (available_endpoints self m);
          _endpoint_failures := _endpoint_failures self;
          use_multi_endpoint := use_multi_endpoint self |})
    /\ available_endpoints self m
         !! ((_endpoint_index self + 1)
               mod length (available_endpoints self m)) = Some ep.
Proof.
  intros Hmin.
  destruct (min_failures_exists self) as (m' & Hm' & Hmin').
  rewrite (is_min_failures_unique self m m' Hmin Hmin') in *.
  unfold _get_next_endpoint. rewrite Hm'.
  pose proof (available_endpoints_nonempty self m' Hmin') as Hne.
  unfold select_endpoint. rewrite bool_decide_eq_false_2 by done.
  assert (Hlen : length (available_endpoints self m') <> 0)
    by (by destruct (available_endpoints self m')).
  apply Nat.eqb_neq in Hlen as Hlen'. rewrite Hlen'.
  pose proof (Nat.mod_upper_bound (_endpoint_index self + 1) _ Hlen) as Hlt.
  destruct (lookup_lt_is_Some_2 _ _ Hlt) as [ep Hep]. rewrite Hep.
  by exists ep.
Qed.

Lemma next_endpoints_cursor n : forall (w : gworld Net) m,
  is_min_failures (self Net w) m ->
  exists eps w',
    next_endpoints Net n w = (Ok eps, w')
    /\ Forall2 (fun ep i => available_endpoints (self Net w) m !! i = Some ep)
         eps
         (cursor_positions (length (available_endpoints (self Net w) m))
            (_endpoint_index (self Net w)) n)
    /\ _endpoint_failures (self Net w') = _endpoint_failures (self Net w)
    /\ net Net w' = net Net w.
Proof.
  induction n as [|n IH]; intros w m Hmin.
  - exists [], w. repeat split. constructor.
  - destruct (_get_next_endpoint_cursor (self Net w) m Hmin) as (ep & Hnext & Hep).
    cbn [next_endpoints]. unfold mbind, M_bind, on_self. rewrite Hnext.
    set (self' := {| _endpoint_index := _; _endpoint_failures := _;
                     use_multi_endpoint := _ |}).
    set (w1 := {| self := self'; net := net Net w |}).
    destruct (IH w1 m) as (eps & w2 & Hrest & Hall & Hfailures & Hnet);
      [exact Hmin|].
    rewrite Hrest. exists (ep :: eps), w2. split; [reflexivity|].
    split; [|by rewrite Hfailures, Hnet].
    cbn [cursor_positions]. constructor; [exact Hep|exact Hall].
Qed.

End RoundRobin.

(** X9. The endpoints of a race are taken in turn from the list of the
    endpoints that qualify (those within two failures of the best one):
    [n] consecutive calls of [_get_next_endpoint] return the entries of
    that list at the positions that follow the cursor, going round, and
    leave the failure counters alone. The endpoints of a race are
    therefore pairwise different as long as no more are asked for than
    qualify ([_try_batch_separator] asks for three, [_translate_single]
    for two); beyond that the race sends several requests to the same
    endpoint. *)
Theorem raced_endpoints_round_robin (Net : Type) (w : gworld Net) (n : nat) :
  exists m eps w',
    let available := available_endpoints (self Net w) m in
    is_min_failures (self Net w) m
    /\ next_endpoints Net n w = (Ok eps, w')
    /\ length eps = n
    /\ (forall i ep,
          eps !! i = Some ep ->
          available !! ((_endpoint_index (self Net w) + (1 + i))
                          mod length available) = Some ep)
    /\ (n <= length available -> NoDup eps)
    /\ _endpoint_failures (self Net w') = _endpoint_failures (self Net w).
Proof.
  destruct (min_failures_exists (self Net w)) as (m & _ & Hmin).
  destruct (next_endpoints_cursor Net n w m Hmin)
    as (eps & w' & Hrun & Hall & Hfailures & _).
  exists m, eps, w'. cbv zeta.
  split; [done|]. split; [done|].
  pose proof (Forall2_length _ _ _ Hall) as Hlen.
  rewrite cursor_positions_spec, length_map, length_seq in Hlen.
  split; [done|]. split; [|split; [|done]].
  - intros i ep Hi.
    destruct (Forall2_lookup_l _ _ _ _ _ Hall Hi) as (pos & Hpos & Hep).
    rewrite cursor_positions_spec in Hpos.
    rewrite list_lookup_fmap in Hpos.
    apply lookup_lt_Some in Hi as Hlt.
    rewrite lookup_seq_lt in Hpos by lia. simpl in Hpos.
    injection Hpos as <-. exact Hep.
  - intros Hn. apply NoDup_alt. intros i j ep Hi Hj.
    destruct (Forall2_lookup_l _ _ _ _ _ Hall Hi) as (pi & Hpi & Hepi).
    destruct (Forall2_lookup_l _ _ _ _ _ Hall Hj) as (pj & Hpj & Hepj).
    pose proof (available_endpoints_NoDup (self Net w) m) as Hnodup.
    rewrite NoDup_alt in Hnodup.
    pose proof (Hnodup _ _ _ Hepi Hepj) as ->.
    pose proof (cursor_positions_NoDup _ (_endpoint_index (self Net w)) n Hn)
      as Hpositions.
    rewrite NoDup_alt in Hpositions. by eapply Hpositions.
Qed.

Section EndpointCounters.

Variable Net : Type.
Variable http_get : string -> string -> string -> string -> Net -> reply * Net.

Lemma failures_of_insert_eq s endpoint count index multi :
  failures_of {| _endpoint_index := index;
                 _endpoint_failures := <[endpoint := count]> s;
                 use_multi_endpoint := multi |} endpoint = count.
Proof. unfold failures_of. simpl. by rewrite lookup_insert_eq. Qed.

Lemma failures_of_insert_ne s endpoint other count index multi :
  other <> endpoint ->
  failures_of {| _endpoint_index := index;
                 _endpoint_failures := <[endpoint := count]> s;
                 use_multi_endpoint := multi |} other
  = default 0%Z (s !! other).
Proof. intros Hne. unfold failures_of. simpl. by rewrite lookup_insert_ne. Qed.

End EndpointCounters.

(** X10. One request of the separator path never raises and touches the
    failure counter of its own endpoint only: a result resets that counter
    to 0 and has one part per text; a request that fails or is answered
    with a status other than 200 adds one to it and gives no result; in
    the other cases without result the counter is kept or raised by one.
    The counters of the other endpoints and the cursor stay as they
    were. *)
Theorem try_endpoint_counts_failures (Net : Type)
    (http_get : string -> string -> string -> string -> Net -> reply * Net)
    (texts : list string) (source_lang target_lang endpoint : string)
    (w : gworld Net) :
  let run := try_endpoint Net http_get texts source_lang target_lang
               endpoint w in
  let before := failures_of (self Net w) endpoint in
  let after := failures_of (self Net run.2) endpoint in
  (exists result, run.1 = Ok result
     /\ match result with
        | Some parts => after = 0%Z /\ length parts = length texts
        | None => after = before \/ after = (before + 1)%Z
        end)
  /\ (forall other, other <> endpoint ->
        failures_of (self Net run.2) other = failures_of (self Net w) other)
  /\ _endpoint_index (self Net run.2) = _endpoint_index (self Net w)
  /\ match (http_get endpoint source_lang target_lang
              (join BATCH_SEPARATOR texts) (net Net w)).1 with
     | RequestFailed _ => run.1 = Ok None /\ after = (before + 1)%Z
     | Response status _ =>
         status <> 200%Z -> run.1 = Ok None /\ after = (before + 1)%Z
     end.
Proof.
  cbv zeta. unfold try_endpoint, request, mbind, M_bind. simpl.
  destruct (http_get _ _ _ _ _) as [[exc|status body] n]; simpl.
  { rewrite failures_of_insert_eq. split; [exists None; split; [done|by right]|].
    split; [intros other Hne; by rewrite failures_of_insert_ne|done]. }
  destruct (status =? 200)%Z eqn:Hstatus; simpl.
  2:{ rewrite failures_of_insert_eq.
      split; [exists None; split; [done|by right]|].
      split; [intros other Hne; by rewrite failures_of_insert_ne|done]. }
  apply Z.eqb_eq in Hstatus.
  destruct body as [data|exc]; simpl.
  2:{ rewrite failures_of_insert_eq.
      split; [exists None; split; [done|by right]|].
      split; [intros other Hne; by rewrite failures_of_insert_ne|done]. }
  destruct (first_of_list data) as [segs|]; simpl.
  2:{ split; [exists None; split; [done|by left]|]. done. }
  destruct (json_truthy segs); simpl.
  2:{ split; [exists None; split; [done|by left]|]. done. }
  destruct (join_segments segs) as [full_translation|exc]; simpl.
  2:{ rewrite failures_of_insert_eq.
      split; [exists None; split; [done|by right]|].
      split; [intros other Hne; by rewrite failures_of_insert_ne|done]. }
  destruct (length (split BATCH_SEPARATOR full_translation) =? length texts)
    eqn:Hlen; simpl.
  2:{ split; [exists None; split; [done|by left]|]. done. }
  apply Nat.eqb_eq in Hlen. rewrite failures_of_insert_eq.
  split; [eexists; split; [reflexivity|]; simpl; by rewrite length_map|].
  split; [intros other Hne; by rewrite failures_of_insert_ne|done].
Qed.

Section GoogleAnswers.

Variable Net : Type.
Variable http_get : string -> string -> string -> string -> Net -> reply * Net.
Variable _translate_single :
  string -> string -> string -> M (gworld Net) (option string).

(** A request of several texts is always answered; one of a single text
    is answered when [_translate_single] does not raise on it. *)
Lemma google_translate_texts_returns order request (w : gworld Net) :
  (forall text,
     texts request = [text] ->
     is_ok (_translate_single text (source_lang request)
              (target_lang request) w).1 = true) ->
  exists translated w',
    Google.translate_texts Net http_get _translate_single order request w
    = (Ok translated, w')
    /\ length translated = length (texts request).
Proof.
  intros Hsingle. unfold Google.translate_texts.
  destruct (texts request) as [|text [|text' rest]] eqn:Htexts.
  - by exists [], w.
  - specialize (Hsingle text eq_refl). unfold mbind, M_bind.
    destruct (_translate_single _ _ _ w) as [[result|e] w']; [|done].
    by eexists _, _.
  - clear Hsingle.
    assert (Hparallel : forall w1,
              exists translated w',
                _translate_parallel Net _translate_single
                  (text :: text' :: rest) (source_lang request)
                  (target_lang request) w1 = (Ok translated, w')
                /\ length translated = length (text :: text' :: rest)).
    { intros w1. apply (translate_each_length Net _translate_single). }
    destruct (_ && _); [|apply Hparallel].
    unfold mbind, M_bind.
    pose proof (_try_batch_separator_sized Net http_get order
                  (text :: text' :: rest) (source_lang request)
                  (target_lang request) w I) as Hsep.
    destruct (_try_batch_separator _ _ _ _ _ _ w) as [[result|e] w'];
      simpl in Hsep; [|done].
    destruct result as [[|t ts]|]; cbn [result_truthy];
      [apply Hparallel| |apply Hparallel].
    by eexists _, _.
Qed.

End GoogleAnswers.

(** X11. [GoogleTranslator.translate_texts] keeps the contract of a
    backend whatever the network does: a request of no text or of several
    texts is always answered, with as many strings as texts (the empty
    string where no translation could be had), and so is a request of one
    text unless [_translate_single] itself raises on it. The
    orchestrator's check of the batch size cannot fail on this backend. *)
Theorem google_translate_texts_answers (Net : Type)
    (http_get : string -> string -> string -> string -> Net -> reply * Net)
    (_translate_single :
       string -> string -> string -> M (gworld Net) (option string))
    (order : list nat) (request : TranslationRequest) (w : gworld Net) :
  (forall text,
     texts request = [text] ->
     is_ok (_translate_single text (source_lang request)
              (target_lang request) w).1 = true) ->
  exists translated w',
    Google.translate_texts Net http_get _translate_single order request w
    = (Ok translated, w')
    /\ length translated = length (texts request).
Proof. apply google_translate_texts_returns. Qed.

Lemma google_translate_texts_answers_witness :
  let single := fun (_ _ _ : string) (w : gworld unit) =>
                  (Ok (Some "Merhaba"), w) in
  let request := {| texts := ["Hello"]; source_lang := "en";
                    target_lang := "tr" |} in
  (forall text,
     texts request = [text] ->
     is_ok (single text (source_lang request) (target_lang request)
              example_gworld).1 = true)
  /\ exists translated w',
       Google.translate_texts unit two_segment_endpoint single [0] request
         example_gworld = (Ok translated, w')
       /\ length translated = length (texts request).
Proof.
  intros single request. split; [reflexivity|].
  apply (google_translate_texts_answers unit two_segment_endpoint single [0]
           request example_gworld).
  reflexivity.
Defined.

(** X12. The orchestrator on top of the Google backend always returns:
    where [_translate_single] does not raise, [translate] gives one string
    for each input text, whatever the endpoints answer, whatever the
    caches hold and whatever the limits and the retry policy are. A text
    that no endpoint translated comes back as the empty string, not as an
    error. *)
Theorem translate_with_google_returns (Net : Type)
    (http_get : string -> string -> string -> string -> Net -> reply * Net)
    (_translate_single :
       string -> string -> string -> M (gworld Net) (option string))
    (order : list nat) (ratio : string -> string -> Q)
    (json_dump : gmap string string -> list Byte.byte)
    (orchestrator : TranslationOrchestrator) (texts : list string)
    (source_lang target_lang : string) (progress_cb log_cb : bool)
    (w : world (gworld Net)) :
  (forall text sl tl g, is_ok (_translate_single text sl tl g).1 = true) ->
  exists out w',
    translate (gworld Net)
      (Google.translate_texts Net http_get _translate_single order)
      ratio json_dump orchestrator texts source_lang target_lang
      progress_cb log_cb w = (Ok out, w')
    /\ length out = length texts.
Proof.
  intros Hsingle.
  apply (translate_total (gworld Net)
           (Google.translate_texts Net http_get _translate_single order)).
  intros request g.
  apply google_translate_texts_returns. intros text _. apply Hsingle.
Qed.

Lemma translate_with_google_returns_witness :
  let single := fun (_ _ _ : string) (w : gworld unit) =>
                  (Ok (None : option string), w) in
  (forall text sl tl g, is_ok (single text sl tl g).1 = true)
  /\ exists out w',
       translate (gworld unit)
         (Google.translate_texts unit two_segment_endpoint single [0])
         Difflib.ratio (fun _ => []) (new_orchestrator None None None)
         ["Hello"; "Hi"] "en" "tr" false false (fresh_world example_gworld)
       = (Ok out, w')
       /\ length out = length ["Hello"; "Hi"].
Proof.
  intros single. split; [reflexivity|].
  apply (translate_with_google_returns unit two_segment_endpoint single [0]
           Difflib.ratio (fun _ => []) (new_orchestrator None None None)
           ["Hello"; "Hi"] "en" "tr" false false (fresh_world example_gworld)).
  reflexivity.
Defined.

(** X13. With a backend that keeps the contract (it answers every request
    with as many translations as texts), [translate] returns one string
    for each input text: no exception escapes, whatever the texts, the
    state of the caches, the batch limits and the retry policy. *)
Theorem translate_returns_with_answering_backend (B : Type)
    (translate_texts : TranslationRequest -> M B (list string))
    (ratio : string -> string -> Q)
    (json_dump : gmap string string -> list Byte.byte)
    (orchestrator : TranslationOrchestrator) (texts : list string)
    (source_lang target_lang : string) (progress_cb log_cb : bool)
    (w : world B) :
  (forall request b,
     exists translated b',
       translate_texts request b = (Ok translated, b')
       /\ length translated = length (Config.texts request)) ->
  exists out w',
    translate B translate_texts ratio json_dump orchestrator texts
      source_lang target_lang progress_cb log_cb w = (Ok out, w')
    /\ length out = length texts.
Proof. intros Hanswers. by apply translate_total. Qed.

Lemma translate_returns_with_answering_backend_witness :
  (forall request b,
     exists translated b',
       bracket_backend request b = (Ok translated, b')
       /\ length translated = length (Config.texts request))
  /\ exists out w',
       translate unit bracket_backend Difflib.ratio (fun _ => [])
         (new_orchestrator None None None) ["Hello"; "Hello"; "Hi"]
         "en" "tr" true true (fresh_world tt) = (Ok out, w')
       /\ length out = length ["Hello"; "Hello"; "Hi"].
Proof.
  assert (Hanswers : forall request b,
            exists translated b',
              bracket_backend request b = (Ok translated, b')
              /\ length translated = length (Config.texts request)).
  { intros request b. eexists _, _. split; [reflexivity|].
    by rewrite length_map. }
  split; [exact Hanswers|].
  apply (translate_returns_with_answering_backend unit bracket_backend
           Difflib.ratio (fun _ => []) (new_orchestrator None None None)
           ["Hello"; "Hello"; "Hi"] "en" "tr" true true (fresh_world tt)
           Hanswers).
Defined.

(* --------------------------------------------------------------------- *)
(** ** More about the orchestrator *)

(** X14. [translate] makes nothing up: every string it returns is either
    a non-empty value that the session cache or the translation memory
    held, when the call started, under the key of some text for the two
    languages of the call, or one of the translations that the backend
    returned in answer to a request made during the call. *)
Theorem translate_returns_cached_or_translated (B : Type)
    (translate_texts : TranslationRequest -> M B (list string))
    (ratio : string -> string -> Q)
    (json_dump : gmap string string -> list Byte.byte)
    (orchestrator : TranslationOrchestrator) (texts : list string)
    (source_lang target_lang : string) (progress_cb log_cb : bool)
    (w0 : world (B * list call)) (out : list string) (i : nat) (s : string) :
  memo_ok (session_cache w0) ->
  let run := translate _ (spy B translate_texts) ratio json_dump orchestrator
               texts source_lang target_lang progress_cb log_cb w0 in
  run.1 = Ok out ->
  out !! i = Some s ->
  (s <> ""
   /\ exists t,
        _store (session_cache w0) !! make_cache_key t source_lang target_lang
        = Some s
        \/ _data (memory w0) !! make_cache_key t source_lang target_lang
           = Some s)
  \/ (exists new request translated,
        calls B run.2 = calls B w0 ++ new
        /\ (request, Ok translated) ∈ new
        /\ s ∈ translated).
Proof.
  intros Hmemo run Hout Hi.
  exact (translate_provenance B translate_texts ratio json_dump orchestrator
           source_lang target_lang progress_cb log_cb w0 Hmemo texts out i s
           Hout Hi).
Qed.

Lemma translate_returns_cached_or_translated_witness :
  let w0 := world_with_memory_entry no_requests "en::tr::Hello" "Merhaba" in
  let run := translate _ (spy unit bracket_backend) Difflib.ratio
               (fun _ => []) (new_orchestrator None None None)
               ["Hello"; "Hi"] "en" "tr" false false w0 in
  memo_ok (session_cache w0)
  /\ run.1 = Ok ["Merhaba"; "<Hi>"]
  /\ ["Merhaba"; "<Hi>"] !! 1 = Some "<Hi>"
  /\ (("<Hi>" <> ""
       /\ exists t,
            _store (session_cache w0) !! make_cache_key t "en" "tr"
            = Some "<Hi>"
            \/ _data (memory w0) !! make_cache_key t "en" "tr" = Some "<Hi>")
      \/ (exists new request translated,
            calls unit run.2 = calls unit w0 ++ new
            /\ (request, Ok translated) ∈ new
            /\ "<Hi>" ∈ translated)).
Proof.
  intros w0 run.
  assert (Hmemo : memo_ok (session_cache w0)) by apply memo_ok_new.
  split; [exact Hmemo|]. split; [vm_compute; reflexivity|].
  split; [reflexivity|].
  apply (translate_returns_cached_or_translated unit bracket_backend
           Difflib.ratio (fun _ => []) (new_orchestrator None None None)
           ["Hello"; "Hi"] "en" "tr" false false w0 ["Merhaba"; "<Hi>"] 1
           "<Hi>" Hmemo);
    [vm_compute; reflexivity|reflexivity].
Defined.

(** *** Calling [translate] again *)

(** The rule for a loop whose invariant speaks of the items handled so
    far. *)
Lemma hoare_fold_m_prefix {W S A} (I : list A -> S -> W -> Prop)
    (E : exn -> W -> Prop) (body : S -> A -> M W S) (xs : list A) :
  (forall seen x acc, x ∈ xs ->
     hoare (I seen acc) (body acc x) (post (I (seen ++ [x])) E)) ->
  forall seen acc,
    hoare (I seen acc) (fold_m body xs acc) (post (I (seen ++ xs)) E).
Proof.
  induction xs as [|x xs IH]; intros Hbody seen acc; simpl.
  - apply hoare_ret. intros w Hw. simpl. by rewrite app_nil_r.
  - eapply hoare_bind.
    + apply Hbody. by left.
    + intros acc'.
      replace (seen ++ x :: xs) with ((seen ++ [x]) ++ xs)
        by (by rewrite <- app_assoc).
      apply IH. intros seen' y acc'' Hy. apply Hbody. by right.
Qed.

(** A fact that does not depend on the state can be taken out of a
    precondition. *)
Lemma hoare_pure {W A} (fact : Prop) (P : W -> Prop) (m : M W A)
    (Q : Res A -> W -> Prop) :
  (fact -> hoare P m Q) -> hoare (fun w => fact /\ P w) m Q.
Proof. intros H w [Hfact Hw]. by apply H. Qed.

Lemma memory_set_data json_dump (self : TranslationMemory) key value disk :
  _data (memory_set json_dump self key value disk).1
  = <[key := value]> (_data self).
Proof. unfold memory_set, flush. simpl. by destruct (auto_flush self). Qed.

Section Repeat.

Variable B : Type.
Variable translate_texts : TranslationRequest -> M B (list string).
Variable ratio : string -> string -> Q.
Variable json_dump : gmap string string -> list Byte.byte.
Variable self : TranslationOrchestrator.
Variables source_lang target_lang : string.
Variables progress_cb log_cb : bool.

#[local] Abbreviation spy := (spy B translate_texts).
#[local] Abbreviation cached_nonempty := (cached_nonempty B).
#[local] Abbreviation remembers := (remembers B).
#[local] Abbreviation looked_up := (looked_up B source_lang target_lang).
#[local] Abbreviation group_key := (group_key source_lang target_lang).
#[local] Abbreviation all_hits := (all_hits B).

Lemma cached_nonempty_same (w w' : world (B * list call)) key :
  _store (session_cache w') = _store (session_cache w) ->
  memory w' = memory w ->
  cached_nonempty w key -> cached_nonempty w' key.
Proof.
  intros Hstore Hmem [(v & Hv & Hne)|(v & Hv & Hne)]; [left|right];
    exists v; by rewrite ?Hstore, ?Hmem.
Qed.

Lemma remembers_weaken (P P' : string -> Prop) w :
  (forall key, P' key -> P key) -> remembers P w -> remembers P' w.
Proof. intros Hsub [Hmemo Hkeys]. split; [done|]. intros key Hkey. by apply Hkeys, Hsub. Qed.

(** A value that the lookup finds and that is not empty is in a cache. *)
Lemma hit_cached_nonempty (w : world (B * list call)) key value :
  or_else (_store (session_cache w) !! key) (memory_get (memory w) key)
  = Some value ->
  truthy value = true ->
  cached_nonempty w key.
Proof.
  intros Hvalue Htruthy.
  assert (H : truthy_opt
                (or_else (_store (session_cache w) !! key)
                   (memory_get (memory w) key)) = true)
    by (by rewrite Hvalue).
  rewrite truthy_or_else in H. apply orb_true_iff in H as [H|H].
  - left. destruct (_store (session_cache w) !! key) as [v|]; [|done].
    exists v. split; [done|]. by apply truthy_true.
  - right. unfold memory_get in H.
    destruct (_data (memory w) !! key) as [v|]; [|done].
    exists v. split; [done|]. by apply truthy_true.
Qed.

(** And the lookup of a key that is in a cache with such a value finds
    one. *)
Lemma cached_nonempty_hit (w : world (B * list call)) key :
  cached_nonempty w key ->
  truthy_opt
    (or_else (_store (session_cache w) !! key) (memory_get (memory w) key))
  = true.
Proof.
  intros Hkey. rewrite truthy_or_else. apply orb_true_iff. unfold memory_get.
  destruct Hkey as [(v & -> & Hv)|(v & -> & Hv)]; [left|right];
    simpl; by apply truthy_true.
Qed.

Lemma store_translation_remembers P key value :
  value <> "" ->
  hoare (remembers P) (store_translation _ json_dump key value)
    (post (fun _ => remembers (fun k => P k \/ k = key)) (fun _ _ => True)).
Proof.
  intros Hvalue w [Hmemo Hkeys]. unfold store_translation.
  pose proof (memory_set_data json_dump (memory w) key value (disk w)) as Hdata.
  destruct (memory_set _ _ _ _ _) as [mem d]. simpl in *.
  split; [apply memo_ok_set|].
  intros k Hk. destruct (decide (k = key)) as [->|Hne].
  - left. exists value. simpl. by rewrite lookup_insert_eq.
  - destruct Hk as [Hk|Hk]; [|done].
    destruct (Hkeys k Hk) as [(v & Hv & Hv')|(v & Hv & Hv')]; [left|right];
      exists v; simpl; (split; [|done]).
    + by rewrite lookup_insert_ne.
    + rewrite Hdata. by rewrite lookup_insert_ne.
Qed.

Lemma report_remembers P completed total' :
  hoare (remembers P) (report _ progress_cb completed total')
    (post (fun _ => remembers P) (fun _ _ => True)).
Proof. intros w Hw. unfold report. destruct progress_cb; exact Hw. Qed.

Lemma entry_step_remembers P total' acc entry translated :
  translated <> "" ->
  hoare (remembers P)
    (entry_step _ json_dump progress_cb total' acc (entry, translated))
    (post (fun _ => remembers (fun k => P k \/ k = cache_key entry))
          (fun _ _ => True)).
Proof.
  intros Hne. unfold entry_step.
  eapply (hoare_seq _ _ _
            (fun _ => remembers (fun k => P k \/ k = cache_key entry))
            (fun _ _ => True)); [by apply store_translation_remembers| |done].
  intros _.
  apply (hoare_fold_m
           (fun _ => remembers (fun k => P k \/ k = cache_key entry))
           (fun _ _ => True)).
  intros [resolved completed] idx _. unfold scatter_step.
  eapply (hoare_seq _ _ _
            (fun _ => remembers (fun k => P k \/ k = cache_key entry))
            (fun _ _ => True)); [|intros resolved'|done].
  - apply hoare_lift_res. intros w Hw. by destruct (list_assign _ _ _).
  - eapply (hoare_seq _ _ _
              (fun _ => remembers (fun k => P k \/ k = cache_key entry))
              (fun _ _ => True)); [apply report_remembers| |done].
    intros _. by apply hoare_ret.
Qed.

Hypothesis backend_never_blank : never_blank B translate_texts.

Lemma call_translator_remembers P request :
  hoare (remembers P) (call_translator _ spy request)
    (post (fun translations w =>
             Forall (fun s => s <> "") translations /\ remembers P w)
          (fun _ w => remembers P w)).
Proof using backend_never_blank.
  intros w Hw. unfold call_translator, spy.
  destruct (translate_texts request (translator w).1) as [r b'] eqn:Hcall.
  simpl. destruct r as [translations|e]; simpl; [|exact Hw].
  split; [|exact Hw]. by eapply backend_never_blank.
Qed.

Lemma batch_step_remembers P total' acc batch :
  hoare (remembers P)
    (batch_step _ spy json_dump self source_lang target_lang progress_cb
       log_cb total' acc batch)
    (post (fun _ => remembers
                      (fun k => P k \/ exists p, p ∈ batch /\ cache_key p = k))
          (fun _ _ => True)).
Proof using backend_never_blank.
  unfold batch_step.
  eapply hoare_seq;
    [apply (hoare_retry emit _ _ _ (remembers P)
              (fun translations w =>
                 Forall (fun s => s <> "") translations /\ remembers P w))
    | |done].
  - intros e w Hw. exact Hw.
  - apply call_translator_remembers.
  - intros translations. destruct (negb _) eqn:Hlen; [by apply hoare_raise|].
    apply negb_false_iff, Nat.eqb_eq in Hlen.
    apply hoare_pure. intros Hall.
    eapply hoare_consequence;
      [apply (hoare_fold_m_prefix
                (fun seen _ =>
                   remembers
                     (fun k => P k \/ exists pr : PendingEntry * string,
                                        pr ∈ seen /\ cache_key pr.1 = k))
                (fun _ _ => True) _ _) with (seen := []) | |].
    + intros seen [entry translated] acc' Hpair.
      assert (Hne : translated <> "").
      { apply zip_elem_snd in Hpair.
        by apply (proj1 (Forall_forall _ _) Hall). }
      eapply hoare_consequence; [by apply entry_step_remembers|done|].
      intros [a|e] w Hw; simpl in *; [|done].
      eapply remembers_weaken; [|exact Hw].
      intros key [Hkey|(pr & Hpr & <-)]; [by left; left|].
      apply elem_of_app in Hpr as [Hpr|Hpr].
      * left. right. by exists pr.
      * apply list_elem_of_singleton in Hpr as ->. by right.
    + intros w Hw. eapply remembers_weaken; [|exact Hw].
      intros key [Hkey|(pr & Hpr & _)]; [done|]. by apply elem_of_nil in Hpr.
    + intros [a|e] w Hw; simpl in *; [|done].
      eapply remembers_weaken; [|exact Hw].
      intros key [Hkey|(p & Hp & <-)]; [by left|]. right.
      destruct (zip_covers_fst batch translations p ltac:(done) Hp) as [t Ht].
      by exists (p, t).
Qed.

Lemma _translate_pending_remembers P pending resolved :
  hoare (remembers P)
    (_translate_pending _ spy json_dump self pending resolved source_lang
       target_lang progress_cb log_cb)
    (post (fun _ => remembers
                      (fun k => P k \/ exists p, p ∈ pending /\ cache_key p = k))
          (fun _ _ => True)).
Proof using backend_never_blank.
  unfold _translate_pending.
  eapply (hoare_seq _ _ _
            (fun _ => remembers
                        (fun k => P k \/ exists p, p ∈ pending /\ cache_key p = k))
            (fun _ _ => True)); [| |done].
  2:{ intros [resolved' completed]. by apply hoare_ret. }
  eapply hoare_consequence;
    [apply (hoare_fold_m_prefix
              (fun seen _ =>
                 remembers
                   (fun k => P k \/ exists p, p ∈ concat seen /\ cache_key p = k))
              (fun _ _ => True) _ _) with (seen := []) | |].
  - intros seen batch acc Hbatch.
    eapply hoare_consequence; [apply batch_step_remembers|done|].
    intros [a|e] w Hw; simpl in *; [|done].
    eapply remembers_weaken; [|exact Hw].
    intros key [Hkey|(p & Hp & <-)]; [by left; left|].
    rewrite concat_app in Hp. simpl in Hp. rewrite app_nil_r in Hp.
    apply elem_of_app in Hp as [Hp|Hp].
    + left. right. by exists p.
    + right. by exists p.
  - intros w Hw. eapply remembers_weaken; [|exact Hw].
    intros key [Hkey|(p & Hp & _)]; [done|]. by apply elem_of_nil in Hp.
  - intros [a|e] w Hw; simpl in *; [|done].
    eapply remembers_weaken; [|exact Hw].
    intros key [Hkey|(p & Hp & <-)]; [by left|]. right. exists p.
    split; [|done]. unfold _build_batches. by rewrite greedy_pack_concat.
Qed.

Lemma resolve_step_looked_up seen acc group :
  hoare (looked_up seen acc)
    (resolve_step _ source_lang target_lang acc group)
    (post (looked_up (seen ++ [group])) (fun _ _ => True)).
Proof.
  destruct acc as [resolved pending], group as [unique_text indexes].
  intros w [Hmemo Hseen]. simpl in Hseen.
  unfold resolve_step, lookup_cached, mbind, M_bind.
  destruct (session_get_spec (session_cache w)
              (make_cache_key unique_text source_lang target_lang) Hmemo)
    as (Hget & Hstore & Hmemo').
  destruct (session_get _ _) as [hit sc]. simpl in *. subst hit.
  set (entry := {| text := unique_text; indexes := indexes;
                   cache_key := make_cache_key unique_text source_lang
                                  target_lang |}).
  set (w' := {| translator := translator w; memory := memory w;
                session_cache := sc; disk := disk w;
                console := console w |}).
  assert (Hkeep : forall key, cached_nonempty w key -> cached_nonempty w' key).
  { intros key. by apply cached_nonempty_same. }
  assert (Hmiss : looked_up (seen ++ [(unique_text, indexes)])
                    (resolved, pending ++ [entry]) w').
  { split; [done|]. intros pr Hpr. simpl.
    apply elem_of_app in Hpr as [Hpr|Hpr].
    - destruct (Hseen pr Hpr) as [Hc|(p & Hp & Hk)]; [left; by apply Hkeep|].
      right. exists p. split; [|done]. apply elem_of_app. by left.
    - apply list_elem_of_singleton in Hpr as ->. right. exists entry.
      split; [|done]. apply elem_of_app. right. by left. }
  destruct (or_else _ _) as [value|] eqn:Hcached; simpl; [|exact Hmiss].
  destruct (truthy value) eqn:Hvalue; simpl; [|exact Hmiss].
  unfold lift_res. destruct (assign_all resolved indexes value); simpl; [|done].
  split; [done|]. intros pr Hpr. simpl.
  apply elem_of_app in Hpr as [Hpr|Hpr].
  - destruct (Hseen pr Hpr) as [Hc|Hp]; [left; by apply Hkeep|by right].
  - apply list_elem_of_singleton in Hpr as ->. left. apply Hkeep.
    by eapply hit_cached_nonempty.
Qed.

(** After a call that returned, the key of every group is in a cache with
    a value that is not empty. *)
Lemma translate_remembers texts unique grps :
  Text.dedup_loop ratio default_similarity_threshold ([], []) 0 texts
  = Ok (unique, grps) ->
  hoare (fun w => memo_ok (session_cache w))
    (translate _ spy ratio json_dump self texts source_lang target_lang
       progress_cb log_cb)
    (post (fun _ => remembers (group_key (zip unique grps)))
          (fun _ _ => True)).
Proof using backend_never_blank.
  intros Hdedup. unfold translate.
  eapply (hoare_seq _ _ _
            (fun _ => remembers (group_key (zip unique grps)))
            (fun _ _ => True)); [| |done].
  2:{ intros resolved. apply hoare_lift_res. intros w Hw.
      by destruct (finish resolved). }
  unfold resolve_all, deduplicate_texts. rewrite Hdedup. simpl.
  eapply (hoare_seq _ _ _
            (fun dedup w =>
               dedup = {| unique_texts := unique; groups := grps |}
               /\ memo_ok (session_cache w))
            (fun _ _ => True)); [by intros w Hw| |done].
  intros dedup. apply hoare_pure. intros ->. simpl.
  eapply (hoare_seq _ _ _ (looked_up (zip unique grps)) (fun _ _ => True));
    [| |done].
  { eapply hoare_consequence;
      [apply (hoare_fold_m_prefix looked_up (fun _ _ => True) _ _
                (fun seen group acc _ => resolve_step_looked_up seen acc group))
         with (seen := [])| |done].
    intros w Hw. split; [done|]. intros pr Hpr. by apply elem_of_nil in Hpr. }
  intros [resolved pending].
  eapply (hoare_seq _ _ _
            (fun _ => looked_up (zip unique grps) (resolved, pending))
            (fun _ _ => True)); [| |done].
  { intros w Hw. unfold report. destruct progress_cb; exact Hw. }
  intros _. case_bool_decide as Hpending; simpl.
  - apply hoare_ret. intros w [Hmemo Hseen]. split; [done|].
    intros key (pr & Hpr & ->).
    destruct (Hseen pr Hpr) as [Hc|(p & Hp & _)]; [done|].
    simpl in Hp. rewrite Hpending in Hp. by apply elem_of_nil in Hp.
  - intros w [Hmemo Hseen].
    pose proof (_translate_pending_remembers (cached_nonempty w) pending
                  resolved w (conj Hmemo (fun key Hkey => Hkey))) as H.
    destruct (_translate_pending _ _ _ _ _ _ _ _ _ _ w) as [[r|e] w'];
      simpl in *; [|done].
    eapply remembers_weaken; [|exact H].
    intros key (pr & Hpr & ->).
    destruct (Hseen pr Hpr) as [Hc|(p & Hp & Hk)]; [by left|].
    right. by exists p.
Qed.

Lemma resolve_step_all_hits w1 acc group :
  cached_nonempty w1 (make_cache_key group.1 source_lang target_lang) ->
  hoare (all_hits w1 acc) (resolve_step _ source_lang target_lang acc group)
    (post (all_hits w1) (fun _ _ => True)).
Proof.
  destruct acc as [resolved pending], group as [unique_text indexes].
  intros Hkey w (Htr & Hstore & Hmem & Hdisk & Hmemo & Hpending).
  simpl in Hpending, Hkey. subst pending.
  unfold resolve_step, lookup_cached, mbind, M_bind.
  destruct (session_get_spec (session_cache w)
              (make_cache_key unique_text source_lang target_lang) Hmemo)
    as (Hget & Hstore' & Hmemo').
  destruct (session_get _ _) as [hit sc]. simpl in *. subst hit.
  pose proof (cached_nonempty_hit w _
                (cached_nonempty_same w1 w _ Hstore Hmem Hkey)) as Hhit.
  destruct (or_else _ _) as [value|]; simpl in Hhit; [|done].
  rewrite Hhit. simpl. unfold lift_res.
  destruct (assign_all resolved indexes value); simpl; [|done].
  repeat split; try done. simpl. congruence.
Qed.

(** When the key of every group is in a cache with a value that is not
    empty, [translate] returns, and it leaves the translator, the
    translation memory and the store file as they were. *)
Lemma translate_all_hits texts unique grps (w1 : world (B * list call)) :
  Text.dedup_loop ratio default_similarity_threshold ([], []) 0 texts
  = Ok (unique, grps) ->
  length grps = length unique ->
  concat grps ≡ₚ seq 0 (length texts) ->
  remembers (group_key (zip unique grps)) w1 ->
  exists out w2,
    translate _ spy ratio json_dump self texts source_lang target_lang
      progress_cb log_cb w1 = (Ok out, w2)
    /\ length out = length texts
    /\ translator w2 = translator w1
    /\ memory w2 = memory w1
    /\ disk w2 = disk w1.
Proof.
  intros Hdedup Hlen Hperm [Hmemo Hkeys].
  assert (Hgroup : forall pr i, pr ∈ zip unique grps -> i ∈ pr.2 ->
                                i < length texts).
  { intros [t g] i Hpr Hi. simpl in Hi. apply zip_elem_snd in Hpr.
    assert (Hin : i ∈ concat grps) by (apply elem_of_concat; by exists g).
    rewrite Hperm in Hin. apply list_elem_of_In, in_seq in Hin. lia. }
  assert (Hcover : forall i, i < length texts ->
            exists pr, pr ∈ zip unique grps /\ i ∈ pr.2).
  { intros i Hi.
    assert (Hin : i ∈ concat grps).
    { rewrite Hperm. apply list_elem_of_In, in_seq. lia. }
    apply elem_of_concat in Hin as (g & Hg & Hig).
    destruct (zip_covers_snd unique grps g ltac:(done) Hg) as [t Ht].
    by exists (t, g). }
  destruct (resolve_loop_total (B * list call) source_lang target_lang
              (zip unique grps) (replicate (length texts) None, [])) with (w := w1)
    as ([resolved pending] & wf & Hfold & Hgrows & extra & Hextra & _ & Hhandled).
  { intros pr i Hpr Hi. simpl. rewrite length_replicate. by apply (Hgroup pr). }
  pose proof (hoare_fold_m (all_hits w1) (fun _ _ => True)
                (resolve_step _ source_lang target_lang) (zip unique grps)) as Hinv.
  specialize (Hinv (fun acc group Hin =>
                      resolve_step_all_hits w1 acc group
                        (Hkeys _ (ex_intro _ group (conj Hin eq_refl))))
                (replicate (length texts) None, []) w1).
  rewrite Hfold in Hinv. simpl in Hinv, Hextra, Hgrows.
  destruct Hinv as (Htr & Hstore & Hmem & Hdisk & Hmemo' & Hpending);
    [by repeat split|].
  simpl in Hpending. subst pending extra.
  pose proof (finish_spec resolved) as Hfinish.
  assert (Hsize : length resolved = length texts)
    by (rewrite (proj1 Hgrows); apply length_replicate).
  destruct (finish resolved) as [out|e] eqn:Hout.
  - exists out.
    exists (if progress_cb
            then emit (Progress (count_resolved resolved) (length texts)) wf
            else wf).
    split.
    + unfold translate, resolve_all, deduplicate_texts. rewrite Hdedup.
      unfold mbind, M_bind, lift_res. simpl. rewrite Hfold.
      unfold report. destruct progress_cb; simpl; by rewrite Hout.
    + split; [destruct Hfinish; congruence|].
      by destruct progress_cb.
  - destruct Hfinish as (_ & i & Hi & Hnone).
    destruct (Hcover i ltac:(lia)) as (pr & Hpr & Hipr).
    destruct (Hhandled pr Hpr) as [Hall|(p & Hp & _)].
    + destruct (Hall i Hipr) as [s Hs]. simpl in Hs. congruence.
    + by apply elem_of_nil in Hp.
Qed.

End Repeat.


Lemma bracket_backend_never_blank : never_blank unit bracket_backend.
Proof.
  intros request b translated b' [= <- _]. apply Forall_forall.
  intros s Hs. apply list_elem_of_fmap in Hs as (t & -> & _). done.
Qed.


(** *** The calls of the progress callback *)

(** The rule for a loop whose invariant speaks of the items handled so far
    and needs to know what is still to come. *)
Lemma hoare_fold_m_split {W S A} (I : list A -> S -> W -> Prop)
    (E : exn -> W -> Prop) (body : S -> A -> M W S) (xs : list A) :
  (forall before x after acc, xs = before ++ x :: after ->
     hoare (I before acc) (body acc x) (post (I (before ++ [x])) E)) ->
  forall acc, hoare (I [] acc) (fold_m body xs acc) (post (I xs) E).
Proof.
  intros Hbody.
  cut (forall rest seen acc, xs = seen ++ rest ->
         hoare (I seen acc) (fold_m body rest acc) (post (I xs) E)).
  { intros H acc. by apply (H xs []). }
  induction rest as [|x rest IH]; intros seen acc Hxs; simpl.
  - apply hoare_ret. intros w Hw. simpl. by rewrite Hxs, app_nil_r.
  - eapply hoare_bind.
    + by apply (Hbody seen x rest).
    + intros acc'. apply IH. by rewrite <- app_assoc.
Qed.

Section RetryEvents.

Context {W A : Type}.
Variable emit : event -> W -> W.
Variable policy : RetryPolicy.
Variable action : M W A.
Variable log_cb : bool.

(** The executor calls no progress callback: a property that the action
    keeps, and that the other events keep, is kept by the executor. *)
Lemma hoare_retry_events (I : W -> Prop) (R : A -> W -> Prop) :
  (forall e w, (forall completed total, e <> Progress completed total) ->
               I w -> I (emit e w)) ->
  hoare I action (post R (fun _ w => I w)) ->
  hoare I (_retry emit policy action log_cb) (post R (fun _ w => I w)).
Proof.
  intros Hemit Haction. unfold _retry.
  generalize (Z.to_nat (max_attempts policy - 1)) as fuel.
  generalize 0%Z as attempt. generalize 1%Q as delay.
  intros delay attempt fuel. revert delay attempt.
  induction fuel as [|fuel IH]; intros delay attempt w Hw; simpl;
    specialize (Haction w Hw);
    destruct (action w) as [[result|exc] w1]; simpl in *; try done;
    assert (Hlog : I (if log_cb then emit (Log (attempt + 1) exc) w1 else w1))
      by (destruct log_cb; [by apply Hemit|done]);
    destruct (max_attempts policy <=? attempt + 1)%Z; simpl; try done.
  apply IH. by apply Hemit.
Qed.

End RetryEvents.

Lemma list_assign_Ok {A} (xs xs' : list A) (i : nat) (v : A) :
  list_assign xs i v = Ok xs' -> xs' = <[i := v]> xs.
Proof. unfold list_assign. destruct (xs !! i); [|done]. by intros [= <-]. Qed.

Lemma count_resolved_replicate n : count_resolved (replicate n None) = 0.
Proof. unfold count_resolved. induction n as [|n IH]; [done|]. simpl. exact IH. Qed.

Lemma count_resolved_insert resolved i v :
  resolved !! i = Some None ->
  count_resolved (<[i := Some v]> resolved) = S (count_resolved resolved).
Proof.
  unfold count_resolved. revert i.
  induction resolved as [|o rest IH]; intros [|i] H; simpl in *; try done.
  - injection H as ->. done.
  - destruct (bool_decide (o ≠ None)); simpl; by rewrite IH.
Qed.

(** Writing positions that are distinct and still empty adds each of them
    to the count. *)
Lemma assign_all_count indexes v : forall resolved resolved',
  NoDup indexes ->
  (forall i, i ∈ indexes -> resolved !! i = Some None) ->
  assign_all resolved indexes v = Ok resolved' ->
  count_resolved resolved' = count_resolved resolved + length indexes
  /\ length resolved' = length resolved
  /\ forall i, is_resolved resolved' i -> is_resolved resolved i \/ i ∈ indexes.
Proof.
  unfold assign_all.
  induction indexes as [|idx rest IH]; intros resolved resolved' Hnodup Hnone;
    simpl.
  - intros [= <-]. split; [lia|]. split; [done|]. by left.
  - destruct (list_assign resolved idx (Some v)) as [r1|] eqn:H1; [|done].
    simpl. intros Hrest. apply list_assign_Ok in H1 as ->.
    apply NoDup_cons in Hnodup as [Hidx Hnodup].
    assert (Hnone' : forall i, i ∈ rest ->
                       <[idx := Some v]> resolved !! i = Some None).
    { intros i Hi. rewrite list_lookup_insert_ne; [|by intros ->].
      apply Hnone. by right. }
    destruct (IH _ _ Hnodup Hnone' Hrest) as (Hcount & Hlen & Hres).
    rewrite count_resolved_insert in Hcount by (apply Hnone; by left).
    rewrite length_insert in Hlen.
    split; [lia|]. split; [done|].
    intros i Hi. destruct (Hres i Hi) as [[s Hs]|Hin]; [|right; by right].
    destruct (decide (idx = i)) as [->|Hne]; [right; by left|].
    left. exists s. by rewrite list_lookup_insert_ne in Hs.
Qed.

Lemma counting_one first total : counting first first total = [(first, total)].
Proof. unfold counting. by replace (S first - first) with 1 by lia. Qed.

Lemma counting_snoc first last total :
  first <= last ->
  counting first (last + 1) total
  = counting first last total ++ [(last + 1, total)].
Proof.
  intros H. unfold counting.
  replace (S (last + 1) - first) with (S (S last - first)) by lia.
  rewrite seq_S, List.map_app. simpl.
  by replace (first + (S last - first)) with (last + 1) by lia.
Qed.

Lemma progress_calls_snoc events e :
  progress_calls (events ++ [e]) = progress_calls events ++ progress_calls [e].
Proof. unfold progress_calls. apply omap_app. Qed.

Section Progress.

Variable B : Type.
Variable translate_texts : TranslationRequest -> M B (list string).
Variable ratio : string -> string -> Q.
Variable json_dump : gmap string string -> list Byte.byte.
Variable self : TranslationOrchestrator.
Variables source_lang target_lang : string.
Variable log_cb : bool.
Variable w0 : world B.
Variable n : nat.

#[local] Abbreviation tallied := (tallied B w0 n).
#[local] Abbreviation ticking := (ticking B w0 n).

Lemma resolve_step_tallied before group after acc :
  NoDup (concat (before ++ group :: after).*2) ->
  (forall i, i ∈ group.2 -> i < n) ->
  hoare (tallied before acc)
    (resolve_step B source_lang target_lang acc group)
    (post (tallied (before ++ [group])) (fun _ _ => True)).
Proof.
  destruct acc as [resolved pending], group as [unique_text indexes].
  intros Hnodup Hbound w (Hconsole & Hsize & Hseen & Hcount). simpl in *.
  rewrite fmap_app, concat_app in Hnodup. simpl in Hnodup.
  apply NoDup_app in Hnodup as (_ & Hdisjoint & Hrest).
  apply NoDup_app in Hrest as (Hindexes & _ & _).
  assert (Hshape : concat (before ++ [(unique_text, indexes)]).*2
                   = concat before.*2 ++ indexes).
  { rewrite fmap_app, concat_app. simpl. by rewrite app_nil_r. }
  unfold resolve_step, lookup_cached, mbind, M_bind.
  destruct (session_get _ _) as [hit sc]. simpl.
  set (entry := {| text := unique_text; indexes := indexes;
                   cache_key := make_cache_key unique_text source_lang
                                  target_lang |}).
  assert (Hmiss : forall w' : world B,
            console w' = console w0 ->
            tallied (before ++ [(unique_text, indexes)])
              (resolved, pending ++ [entry]) w').
  { intros w' Hw'. split; [done|]. split; [done|]. simpl. rewrite Hshape.
    split.
    - intros i Hi. apply elem_of_app. left. by apply Hseen.
    - unfold batch_positions in *.
      rewrite List.map_app, concat_app, !length_app. simpl.
      rewrite app_nil_r. lia. }
  destruct (or_else _ _) as [value|]; simpl; [|by apply Hmiss].
  destruct (truthy value); simpl; [|by apply Hmiss].
  unfold lift_res.
  destruct (assign_all resolved indexes value) as [resolved'|] eqn:Hassign;
    simpl; [|done].
  assert (Hnone : forall i, i ∈ indexes -> resolved !! i = Some None).
  { intros i Hi.
    destruct (lookup_lt_is_Some_2 resolved i) as [[s|] Hs];
      [rewrite Hsize; by apply Hbound| |done].
    exfalso. apply (Hdisjoint i); [apply Hseen; by exists s|].
    apply elem_of_app. by left. }
  destruct (assign_all_count indexes value resolved resolved' Hindexes Hnone
              Hassign) as (Hcount' & Hsize' & Hres).
  split; [done|]. split; [simpl; congruence|]. simpl. rewrite Hshape. split.
  - intros i Hi. apply elem_of_app.
    destruct (Hres i Hi) as [Hold|Hnew]; [left; by apply Hseen|by right].
  - rewrite length_app. lia.
Qed.

Lemma scatter_step_ticking first k translated acc idx :
  hoare (ticking first k acc) (scatter_step B true n translated acc idx)
    (post (ticking first (S k)) (fun _ _ => True)).
Proof.
  destruct acc as [resolved completed]. intros w [Hcalls Hk]. simpl in *.
  unfold scatter_step, mbind, M_bind, lift_res.
  destruct (list_assign resolved idx (Some translated)); simpl; [|done].
  split; simpl; [|lia].
  rewrite progress_calls_snoc, Hcalls, counting_snoc by lia.
  by rewrite app_assoc.
Qed.

Lemma entry_step_ticking first k acc pair :
  hoare (ticking first k acc) (entry_step B json_dump true n acc pair)
    (post (ticking first (k + length (indexes pair.1))) (fun _ _ => True)).
Proof.
  destruct pair as [entry translated]. unfold entry_step. simpl.
  eapply (hoare_seq _ _ _ (fun _ => ticking first k acc) (fun _ _ => True));
    [| |done].
  { intros w Hw. unfold store_translation.
    destruct (memory_set _ _ _ _ _) as [mem d]. exact Hw. }
  intros _.
  eapply hoare_consequence;
    [apply (hoare_fold_m_prefix
              (fun seen => ticking first (k + length seen))
              (fun _ _ => True) _ _) with (seen := [])| |].
  - intros seen idx acc' _.
    eapply hoare_consequence; [apply scatter_step_ticking|done|].
    intros [a|e] w Hw; simpl in *; [|done].
    rewrite length_app. simpl.
    by replace (k + (length seen + 1)) with (S (k + length seen)) by lia.
  - intros w Hw. simpl. by rewrite Nat.add_0_r.
  - by intros [a|e] w Hw.
Qed.

Lemma batch_step_ticking first k acc batch :
  hoare (ticking first k acc)
    (batch_step B translate_texts json_dump self source_lang target_lang
       true log_cb n acc batch)
    (post (ticking first (k + length (batch_positions batch)))
          (fun _ _ => True)).
Proof.
  unfold batch_step.
  eapply (hoare_seq _ _ _ (fun _ => ticking first k acc) (fun _ _ => True));
    [| |done].
  { eapply hoare_consequence;
      [apply (hoare_retry_events emit _ _ _ (ticking first k acc)
                (fun _ => ticking first k acc))|done|by intros [a|e] w Hw].
    - intros e w Hne [Hcalls Hk]. split; [|done]. simpl.
      rewrite progress_calls_snoc, Hcalls.
      destruct e as [completed total| |]; [by destruct (Hne completed total)|..];
        simpl; by rewrite app_nil_r.
    - intros w Hw. unfold call_translator.
      by destruct (translate_texts _ _) as [[r|e] b]. }
  intros translations. destruct (negb _) eqn:Hlen; [by apply hoare_raise|].
  apply negb_false_iff, Nat.eqb_eq in Hlen.
  eapply hoare_consequence;
    [apply (hoare_fold_m_prefix
              (fun seen : list (PendingEntry * string) =>
                 ticking first (k + length (batch_positions seen.*1)))
              (fun _ _ => True) _ _) with (seen := [])| |].
  - intros seen pair acc' _.
    eapply hoare_consequence; [apply entry_step_ticking|done|].
    intros [a|e] w Hw; simpl in *; [|done].
    unfold batch_positions in *.
    rewrite fmap_app, List.map_app, concat_app, length_app. simpl.
    rewrite app_nil_r. by rewrite Nat.add_assoc.
  - intros w Hw. simpl. by rewrite Nat.add_0_r.
  - intros [a|e] w Hw; [|done]. unfold post in Hw. cbn [app] in Hw.
    rewrite zip_fst in Hw by done. exact Hw.
Qed.

Lemma _translate_pending_ticking pending resolved :
  length resolved = n ->
  hoare (ticking (count_resolved resolved) 0
           (resolved, count_resolved resolved))
    (_translate_pending B translate_texts json_dump self pending resolved
       source_lang target_lang true log_cb)
    (post (fun _ w =>
             progress_calls (console w)
             = progress_calls (console w0)
               ++ counting (count_resolved resolved)
                    (count_resolved resolved
                     + length (batch_positions pending)) n)
          (fun _ _ => True)).
Proof.
  intros Hsize. unfold _translate_pending. rewrite Hsize.
  eapply (hoare_seq _ _ _
            (ticking (count_resolved resolved)
               (length (batch_positions pending)))
            (fun _ _ => True)); [| |done].
  2:{ intros [resolved' completed]. apply hoare_ret.
      intros w [Hcalls Hk]. simpl in *. by rewrite <- Hk. }
  eapply hoare_consequence;
    [apply (hoare_fold_m_prefix
              (fun seen : list (list PendingEntry) =>
                 ticking (count_resolved resolved)
                   (length (batch_positions (concat seen))))
              (fun _ _ => True) _ _) with (seen := [])| |].
  - intros seen batch acc _.
    eapply hoare_consequence; [apply batch_step_ticking|done|].
    intros [a|e] w Hw; simpl in *; [|done].
    unfold batch_positions in *.
    rewrite concat_app, List.map_app, concat_app, length_app. simpl.
    by rewrite !app_nil_r.
  - done.
  - intros [a|e] w Hw; simpl in *; [|done].
    unfold _build_batches in Hw. by rewrite greedy_pack_concat in Hw.
Qed.

(** The progress callback of a call that returns counts up to
    [len(texts)]. *)
Lemma translate_progress texts unique grps :
  length texts = n ->
  Text.dedup_loop ratio default_similarity_threshold ([], []) 0 texts
  = Ok (unique, grps) ->
  length grps = length unique ->
  concat grps ≡ₚ seq 0 (length texts) ->
  hoare (fun w => w = w0)
    (translate B translate_texts ratio json_dump self texts source_lang
       target_lang true log_cb)
    (post (fun _ w =>
             exists cached,
               cached <= n
               /\ progress_calls (console w)
                  = progress_calls (console w0) ++ counting cached n n)
          (fun _ _ => True)).
Proof.
  intros Hn Hdedup Hlen Hperm. unfold translate.
  eapply (hoare_seq _ _ _
            (fun _ w =>
               exists cached,
                 cached <= n
                 /\ progress_calls (console w)
                    = progress_calls (console w0) ++ counting cached n n)
            (fun _ _ => True)); [| |done].
  2:{ intros resolved. apply hoare_lift_res. intros w Hw.
      by destruct (finish resolved). }
  assert (Hgrps : (zip unique grps).*2 = grps) by (by apply zip_snd).
  assert (Hnodup : NoDup (concat (zip unique grps).*2)).
  { rewrite Hgrps, Hperm. apply NoDup_seq. }
  assert (Hall : length (concat (zip unique grps).*2) = n).
  { rewrite Hgrps, Hperm, length_seq. done. }
  assert (Hgroup : forall pr i, pr ∈ zip unique grps -> i ∈ pr.2 -> i < n).
  { intros [t g] i Hpr Hi. simpl in Hi. apply zip_elem_snd in Hpr.
    assert (Hin : i ∈ concat grps) by (apply elem_of_concat; by exists g).
    rewrite Hperm in Hin. apply list_elem_of_In, in_seq in Hin. lia. }
  unfold resolve_all, deduplicate_texts. rewrite Hdedup, Hn. simpl.
  eapply (hoare_seq _ _ _
            (fun dedup w =>
               dedup = {| unique_texts := unique; groups := grps |}
               /\ w = w0)
            (fun _ _ => True)); [by intros w Hw| |done].
  intros dedup. apply hoare_pure. intros ->. simpl.
  eapply (hoare_seq _ _ _ (tallied (zip unique grps)) (fun _ _ => True));
    [| |done].
  { eapply hoare_consequence;
      [apply (hoare_fold_m_split tallied (fun _ _ => True))| |done].
    - intros before group after acc Hsplit.
      apply (resolve_step_tallied before group after).
      + by rewrite <- Hsplit.
      + intros i Hi. apply (Hgroup group); [|done].
        rewrite Hsplit. apply elem_of_app. right. by left.
    - intros w ->. split; [done|]. split; [apply length_replicate|]. simpl.
      split.
      + intros i [s Hs]. apply lookup_replicate in Hs as [[=] _].
      + by rewrite count_resolved_replicate. }
  intros [resolved pending] w (Hconsole & Hsize & _ & Hcount). simpl in *.
  rewrite Hall in Hcount.
  unfold mbind, M_bind, report, modify. simpl.
  assert (Hfirst : ticking (count_resolved resolved) 0
                     (resolved, count_resolved resolved)
                     (emit (Progress (count_resolved resolved) n) w)).
  { split; simpl; [|lia].
    by rewrite progress_calls_snoc, Hconsole, counting_one. }
  case_bool_decide as Hpending; simpl.
  - exists (count_resolved resolved). split; [lia|].
    destruct Hfirst as [Hcalls _]. simpl in Hcalls.
    rewrite Hpending in Hcount. simpl in Hcount.
    assert (Hdone : count_resolved resolved = n) by lia.
    rewrite Hdone in Hcalls |- *. exact Hcalls.
  - pose proof (_translate_pending_ticking pending resolved Hsize _ Hfirst) as H.
    destruct (_translate_pending _ _ _ _ _ _ _ _ _ _ _) as [[r|e] w'];
      simpl in *; [|done].
    exists (count_resolved resolved). split; [lia|]. by rewrite H, Hcount.
Qed.

End Progress.



(* --------------------------------------------------------------------- *)
(** ** Strings *)

#[local] Arguments append !s1 s2 : simpl nomatch.

Lemma append_nil_r (s : string) : s +:+ "" = s.
Proof. induction s as [|c s IH]; simpl; [done|by rewrite IH]. Qed.

Lemma append_assoc (s t u : string) : (s +:+ t) +:+ u = s +:+ (t +:+ u).
Proof. induction s as [|c s IH]; simpl; [done|by rewrite IH]. Qed.

Lemma length_append (s t : string) :
  String.length (s +:+ t) = String.length s + String.length t.
Proof. induction s as [|c s IH]; simpl; [done|by rewrite IH]. Qed.

Lemma substring_0_length (s : string) : forall n,
  String.length (String.substring 0 n s) = min n (String.length s).
Proof.
  induction s as [|c s IH]; intros [|n]; simpl; try done. by rewrite IH.
Qed.

Lemma substring_0_all (s : string) : forall n,
  String.length s <= n -> String.substring 0 n s = s.
Proof.
  induction s as [|c s IH]; intros [|n] Hn; simpl in *; try done; [lia|].
  rewrite IH; [done|lia].
Qed.

Lemma substring_0_append (s t : string) :
  String.substring 0 (String.length s) (s +:+ t) = s.
Proof. induction s as [|c s IH]; simpl; [by destruct t|by rewrite IH]. Qed.

Lemma substring_0_append_l (s t : string) : forall n,
  n <= String.length s ->
  String.substring 0 n (s +:+ t) = String.substring 0 n s.
Proof.
  induction s as [|c s IH]; intros [|n] Hn; simpl in *; try done.
  - by destruct t.
  - lia.
  - rewrite IH; [done|lia].
Qed.

Lemma substring_append_r (s t : string) : forall m,
  String.substring (String.length s) m (s +:+ t) = String.substring 0 m t.
Proof. induction s as [|c s IH]; intros m; simpl; [done|apply IH]. Qed.

Lemma substring_split (s : string) : forall n,
  n <= String.length s ->
  String.substring 0 n s +:+ String.substring n (String.length s - n) s = s.
Proof.
  induction s as [|c s IH]; intros [|n] Hn; simpl in *; try done.
  - by rewrite substring_0_all.
  - rewrite IH; [done|lia].
Qed.

Lemma join_length (sep : string) (parts : list string) :
  String.length (join sep parts)
  = total_chars parts + String.length sep * (length parts - 1).
Proof.
  unfold total_chars.
  induction parts as [|p [|q rest] IH]; simpl in *; [lia|lia|].
  rewrite !length_append, IH. simpl. lia.
Qed.

Lemma join_snoc (sep : string) (parts : list string) (p : string) :
  parts <> [] -> join sep (parts ++ [p]) = join sep parts +:+ sep +:+ p.
Proof.
  induction parts as [|q [|r rest] IH]; intros Hne; [done|done|].
  change (join sep ((q :: r :: rest) ++ [p]))
    with (q +:+ sep +:+ join sep ((r :: rest) ++ [p])).
  rewrite IH by done.
  change (join sep (q :: r :: rest)) with (q +:+ sep +:+ join sep (r :: rest)).
  by rewrite !append_assoc.
Qed.

(** What is left of [strip] starts and ends with a character that is not
    whitespace. *)
Lemma lstrip_head (s : string) (c : ascii) (r : string) :
  lstrip s = String c r -> isspace c = false.
Proof.
  induction s as [|c' s IH]; simpl; [done|].
  destruct (isspace c') eqn:Hc'; [done|]. by intros [= <- _].
Qed.

Lemma rstrip_head (c : ascii) (r : string) :
  isspace c = false -> rstrip (String c r) = String c (rstrip r).
Proof. intros Hc. simpl. rewrite Hc. by destruct (rstrip r). Qed.

Lemma strip_head (s : string) (c : ascii) (r : string) :
  strip s = String c r -> isspace c = false.
Proof.
  unfold strip. destruct (lstrip s) as [|c' r'] eqn:Hl; [done|].
  pose proof (lstrip_head _ _ _ Hl) as Hc'.
  rewrite rstrip_head by done. by intros [= <- _].
Qed.

Lemma strip_starts_nonspace (c : ascii) (r : string) :
  isspace c = false -> strip (String c r) <> "".
Proof.
  intros Hc. unfold strip. simpl. rewrite Hc.
  fold (rstrip (String c r)). by rewrite rstrip_head.
Qed.

Lemma truthy_false (s : string) : truthy s = false <-> s = "".
Proof.
  unfold truthy. rewrite negb_false_iff. apply String.eqb_eq.
Qed.

(* --------------------------------------------------------------------- *)
(** ** The sample for language detection (src/utils/lang.py) *)

Section SampleProps.

Import PyStr Lang.

Variable max_chars : Z.

(** The loop keeps the snippets within the budget; each snippet starts
    with a character that is not whitespace. *)
Lemma sample_loop_budget texts : forall buffer total,
  total = Z.of_nat (total_chars buffer) ->
  (total <= Z.max 0 max_chars)%Z ->
  Forall (fun s => exists c r, s = String c r /\ isspace c = false) buffer ->
  let buffer' := sample_loop max_chars texts buffer total in
  (Z.of_nat (total_chars buffer') <= Z.max 0 max_chars)%Z
  /\ Forall (fun s => exists c r, s = String c r /\ isspace c = false) buffer'
  /\ length buffer' <= length buffer + length texts.
Proof.
  induction texts as [|text rest IH]; intros buffer total Htotal Hle Hall;
    cbn [sample_loop].
  { cbv zeta. subst total. split; [done|]. split; [done|]. simpl. lia. }
  destruct (truthy text) eqn:Htext; cbn [negb].
  2:{ destruct (IH buffer total Htotal Hle Hall) as (? & ? & ?).
      cbv zeta. repeat split; try done. simpl. lia. }
  destruct (max_chars - total <=? 0)%Z eqn:Hleft.
  { cbv zeta. subst total. split; [done|]. split; [done|]. simpl. lia. }
  apply Z.leb_gt in Hleft.
  destruct (truthy (strip text)) eqn:Hsnippet; cbn [negb].
  2:{ destruct (IH buffer total Htotal Hle Hall) as (? & ? & ?).
      cbv zeta. repeat split; try done. simpl. lia. }
  set (snippet := if (max_chars - total <? Z.of_nat (String.length (strip text)))%Z
                  then slice_to (Z.to_nat (max_chars - total)) (strip text)
                  else strip text).
  assert (Hlen : (Z.of_nat (String.length snippet) <= max_chars - total)%Z).
  { unfold snippet.
    destruct (max_chars - total <? _)%Z eqn:Hcut.
    - unfold slice_to. rewrite substring_0_length. lia.
    - apply Z.ltb_ge in Hcut. lia. }
  assert (Hhead : exists c r, snippet = String c r /\ isspace c = false).
  { apply truthy_true in Hsnippet.
    destruct (strip text) as [|c r] eqn:Hstrip; [done|].
    pose proof (strip_head _ _ _ Hstrip) as Hc.
    unfold snippet. destruct (max_chars - total <? _)%Z; [|by exists c, r].
    destruct (Z.to_nat (max_chars - total)) as [|n] eqn:Hn; [lia|].
    unfold slice_to. simpl. by eexists _, _. }
  destruct (IH (buffer ++ [snippet])
              (total + Z.of_nat (String.length snippet))%Z)
    as (Hbudget & Hheads & Hcount).
  - unfold total_chars. rewrite map_app, list_sum_app. simpl.
    subst total. unfold total_chars. lia.
  - lia.
  - apply Forall_app. split; [done|]. by constructor.
  - cbv zeta. split; [done|]. split; [done|].
    rewrite length_app in Hcount. simpl in *. lia.
Qed.

End SampleProps.

(** X15. The sample that [_build_sample] makes for language detection
    keeps its budget on the snippets, not on the sample: the snippets
    taken from the texts have at most [max_chars] characters together
    (none when [max_chars] is not positive), and the sample, which joins
    them with newlines, is longer than that by one character for each
    snippet after the first. *)
Theorem build_sample_budget (texts : list string) (max_chars : Z) :
  let snippets := Lang.sample_loop max_chars texts [] 0 in
  Lang._build_sample texts max_chars = join PyStr.LF snippets
  /\ (Z.of_nat (total_chars snippets) <= Z.max 0 max_chars)%Z
  /\ length snippets <= length texts
  /\ String.length (Lang._build_sample texts max_chars)
     = total_chars snippets + (length snippets - 1).
Proof.
  intros snippets.
  destruct (sample_loop_budget max_chars texts [] 0%Z)
    as (Hbudget & _ & Hcount); [done|lia|constructor|].
  split; [done|]. split; [exact Hbudget|]. split; [exact Hcount|].
  unfold Lang._build_sample. fold snippets. rewrite join_length. simpl. lia.
Qed.

Section DetectProps.

Import PyStr Lang.

Variable detect : string -> option string.

Lemma sample_loop_blank max_chars texts : forall buffer total,
  (max_chars - total <= 0)%Z \/ Forall (fun text => strip text = "") texts ->
  sample_loop max_chars texts buffer total = buffer.
Proof.
  induction texts as [|text rest IH]; intros buffer total Hnothing;
    cbn [sample_loop]; [done|].
  destruct (truthy text) eqn:Htext; cbn [negb]; [|by apply IH; destruct Hnothing as [?|H]; [left|right; by inversion H]].
  destruct Hnothing as [Hleft|Hblank].
  - apply Z.leb_le in Hleft. by rewrite Hleft.
  - destruct (max_chars - total <=? 0)%Z; [done|].
    inversion Hblank as [|? ? Hstrip Hrest]; subst.
    rewrite Hstrip. cbn [truthy String.eqb negb]. apply IH. by right.
Qed.

Lemma sample_loop_starts max_chars texts : forall buffer total,
  buffer <> [] ->
  exists rest, sample_loop max_chars texts buffer total = buffer ++ rest.
Proof.
  induction texts as [|text rest IH]; intros buffer total Hne;
    cbn [sample_loop].
  { exists []. by rewrite app_nil_r. }
  destruct (truthy text); cbn [negb]; [|by apply IH].
  destruct (max_chars - total <=? 0)%Z.
  { exists []. by rewrite app_nil_r. }
  destruct (truthy (strip text)); cbn [negb]; [|by apply IH].
  match goal with
  | |- context [sample_loop _ _ (buffer ++ [?snippet]) ?total'] =>
      destruct (IH (buffer ++ [snippet]) total') as (more & ->);
        [by destruct buffer|]
  end.
  eexists. by rewrite <- app_assoc.
Qed.

Lemma sample_loop_nonempty max_chars texts :
  (0 < max_chars)%Z ->
  Exists (fun text => strip text <> "") texts ->
  sample_loop max_chars texts [] 0 <> [].
Proof.
  intros Hpos. induction texts as [|text rest IH]; intros Hsome;
    cbn [sample_loop]; [by inversion Hsome|].
  assert (Hrest : strip text = "" -> sample_loop max_chars rest [] 0 <> []).
  { intros Hblank. apply IH. by inversion Hsome. }
  destruct (truthy text) eqn:Htext; cbn [negb].
  2:{ apply Hrest. apply truthy_false in Htext. by subst text. }
  replace (max_chars - 0 <=? 0)%Z with false by (symmetry; apply Z.leb_gt; lia).
  destruct (truthy (strip text)) eqn:Hsnippet; cbn [negb].
  2:{ apply Hrest. by apply truthy_false. }
  match goal with
  | |- context [sample_loop _ _ ([] ++ [?snippet]) ?total'] =>
      destruct (sample_loop_starts max_chars rest ([] ++ [snippet]) total')
        as (more & ->); [done|]
  end.
  done.
Qed.

End DetectProps.

(** X16. [detect_language] asks the detector exactly when there is
    something to sample. When [max_chars] is not positive, or every text
    is empty or whitespace, it returns [None] without calling [detect];
    when [max_chars] is positive and some text has a character that is
    not whitespace, it returns what [detect] says of the sample, which
    then starts with such a character. *)
Theorem detect_language_consults_detector (detect : string -> option string)
    (texts : list string) (max_chars : Z) :
  ((max_chars <= 0)%Z \/ Forall (fun text => strip text = "") texts ->
   Lang.detect_language detect texts max_chars = None)
  /\ ((0 < max_chars)%Z ->
      Exists (fun text => strip text <> "") texts ->
      Lang.detect_language detect texts max_chars
      = detect (Lang._build_sample texts max_chars)
      /\ exists c r,
           Lang._build_sample texts max_chars = String c r
           /\ isspace c = false).
Proof.
  unfold Lang.detect_language, Lang._build_sample. split.
  - intros Hnothing.
    rewrite sample_loop_blank; [done|].
    destruct Hnothing as [?|?]; [left; lia|by right].
  - intros Hpos Hsome.
    pose proof (sample_loop_nonempty max_chars texts Hpos Hsome) as Hne.
    destruct (sample_loop_budget max_chars texts [] 0%Z)
      as (_ & Hheads & _); [done|lia|constructor|].
    cbv zeta in Hheads.
    destruct (Lang.sample_loop max_chars texts [] 0) as [|s rest]; [done|].
    apply Forall_cons in Hheads as [(c & r & -> & Hc) _].
    assert (Hjoin : exists r', join PyStr.LF (String c r :: rest) = String c r').
    { destruct rest; simpl; by eexists. }
    destruct Hjoin as (r' & ->).
    pose proof (strip_starts_nonspace c r' Hc) as Hstrip.
    apply truthy_true in Hstrip. rewrite Hstrip. cbn [negb].
    split; [done|]. by exists c, r'.
Qed.

(* --------------------------------------------------------------------- *)
(** ** The subtitle parser (src/parser/ass_parser.py) *)

Lemma append_snoc_inj (a b : string) (c c' : ascii) :
  a +:+ String c "" = b +:+ String c' "" -> a = b /\ c = c'.
Proof.
  revert b. induction a as [|x a IH]; intros [|y b]; simpl; intros H.
  - by injection H as ->.
  - injection H as -> H. by destruct b.
  - injection H as -> H. by destruct a.
  - injection H as -> H. by destruct (IH _ H) as [-> ->].
Qed.

Lemma append_inj_r (s p u : string) : s +:+ u = p +:+ u -> s = p.
Proof.
  intros H.
  assert (Hlen : String.length s = String.length p).
  { apply (f_equal String.length) in H. rewrite !length_append in H. lia. }
  rewrite <- (substring_0_append s u), H, Hlen. apply substring_0_append.
Qed.

Lemma string_snoc (s : string) :
  s = "" \/ exists s' c, s = s' +:+ String c "".
Proof.
  induction s as [|x s IH]; [by left|]. right.
  destruct IH as [->|(s' & c & ->)].
  - by exists "", x.
  - by exists (String x s'), c.
Qed.

Section AssParserBasics.

Import PyStr AssParser.

Lemma endswith_append (s suffix : string) : endswith (s +:+ suffix) suffix = true.
Proof.
  unfold endswith. rewrite length_append. apply andb_true_iff. split.
  - apply Nat.leb_le. lia.
  - replace (String.length s + String.length suffix - String.length suffix)
      with (String.length s) by lia.
    rewrite substring_append_r, substring_0_all by lia.
    apply String.eqb_refl.
Qed.

Lemma endswith_inv (s suffix : string) :
  endswith s suffix = true ->
  s = drop_last (String.length suffix) s +:+ suffix.
Proof.
  unfold endswith, drop_last, slice_to. intros H.
  apply andb_true_iff in H as [Hlen Heq].
  apply Nat.leb_le in Hlen. apply String.eqb_eq in Heq.
  pose proof (substring_split s (String.length s - String.length suffix)
                ltac:(lia)) as Hsplit.
  replace (String.length s - (String.length s - String.length suffix))
    with (String.length suffix) in Hsplit by lia.
  by rewrite Heq in Hsplit.
Qed.

Lemma drop_last_append (s suffix : string) :
  drop_last (String.length suffix) (s +:+ suffix) = s.
Proof.
  unfold drop_last, slice_to. rewrite length_append.
  replace (String.length s + String.length suffix - String.length suffix)
    with (String.length s) by lia.
  apply substring_0_append.
Qed.

(** A line is what [_strip_line_ending] makes of it, put together again,
    and the ending is one of three. *)
Lemma _strip_line_ending_spec (line : string) :
  line = (_strip_line_ending line).1 +:+ (_strip_line_ending line).2
  /\ ((_strip_line_ending line).2 = ""
      \/ (_strip_line_ending line).2 = LF
      \/ (_strip_line_ending line).2 = CRLF).
Proof.
  unfold _strip_line_ending.
  destruct (endswith line CRLF) eqn:Hcrlf; simpl.
  { split; [by apply (endswith_inv line CRLF)|]. right. by right. }
  destruct (endswith line LF) eqn:Hlf; simpl.
  { split; [by apply (endswith_inv line LF)|]. right. by left. }
  split; [by rewrite append_nil_r|by left].
Qed.

Lemma _strip_line_ending_crlf (s : string) :
  _strip_line_ending (s +:+ CRLF) = (s, CRLF).
Proof.
  unfold _strip_line_ending. rewrite endswith_append.
  change (drop_last 2 (s +:+ CRLF))
    with (drop_last (String.length CRLF) (s +:+ CRLF)).
  by rewrite drop_last_append.
Qed.

Lemma endswith_lf_crlf (s : string) :
  endswith (s +:+ LF) CRLF = endswith s (String "013" "").
Proof.
  destruct (endswith s (String "013" "")) eqn:Hcr.
  - apply endswith_inv in Hcr. rewrite Hcr, append_assoc.
    apply (endswith_append _ CRLF).
  - destruct (endswith (s +:+ LF) CRLF) eqn:Hcrlf; [|done].
    apply endswith_inv in Hcrlf.
    change CRLF with (String "013" "" +:+ LF) in Hcrlf at 2.
    rewrite <- append_assoc in Hcrlf. apply append_inj_r in Hcrlf.
    rewrite Hcrlf in Hcr. by rewrite endswith_append in Hcr.
Qed.

Lemma _strip_line_ending_lf (s : string) :
  endswith s (String "013" "") = false ->
  _strip_line_ending (s +:+ LF) = (s, LF).
Proof.
  intros Hcr. unfold _strip_line_ending.
  rewrite endswith_lf_crlf, Hcr, endswith_append.
  change (drop_last 1 (s +:+ LF))
    with (drop_last (String.length LF) (s +:+ LF)).
  by rewrite drop_last_append.
Qed.

Lemma span_space_spec (s : string) :
  s = (span_space s).1 +:+ (span_space s).2
  /\ all_space (span_space s).1 = true
  /\ starts_solid (span_space s).2.
Proof.
  induction s as [|c s (IH1 & IH2 & IH3)]; simpl.
  { split; [done|]. split; [done|]. by intros ? ?. }
  destruct (isspace c) eqn:Hc.
  - destruct (span_space s) as [spaces rest]. simpl in *.
    rewrite Hc, IH2. split; [by rewrite <- IH1|done].
  - simpl. split; [done|]. split; [done|]. by intros ? ? [= <- _].
Qed.

Lemma span_space_append (spaces rest : string) :
  all_space spaces = true -> starts_solid rest ->
  span_space (spaces +:+ rest) = (spaces, rest).
Proof.
  intros Hspaces Hrest. induction spaces as [|c spaces IH]; simpl in *.
  - destruct rest as [|c r]; [done|]. simpl. by rewrite (Hrest c r).
  - apply andb_true_iff in Hspaces as [-> Hspaces]. by rewrite IH.
Qed.

Lemma lower_length (s : string) : String.length (lower s) = String.length s.
Proof. induction s as [|c s IH]; simpl; [done|by rewrite IH]. Qed.

Lemma lower_char_space (c : ascii) : isspace c = true -> lower_char c = c.
Proof.
  destruct c as [[] [] [] [] [] [] [] []]; vm_compute;
    intros H; try discriminate H; reflexivity.
Qed.

(** The characters that match the nine of [Dialogue:] are neither
    whitespace nor commas. *)
Lemma head_chars (head : string) :
  lower head = "dialogue:" ->
  String.length head = 9
  /\ forall k c, get k head = Some c -> isspace c = false /\ c <> ","%char.
Proof.
  intros Hhead.
  assert (Hlen : String.length head = 9)
    by (by rewrite <- lower_length, Hhead).
  split; [done|].
  assert (Hone : forall c x, lower_char c = x -> isspace x = false ->
                             x <> ","%char -> isspace c = false /\ c <> ","%char).
  { intros c x Hc Hx Hcomma. split.
    - destruct (isspace c) eqn:Hspace; [|done].
      rewrite (lower_char_space c Hspace) in Hc. congruence.
    - intros ->. by vm_compute in Hc. }
  do 9 (destruct head as [|? head]; [done|]).
  injection Hhead as H1 H2 H3 H4 H5 H6 H7 H8 H9 _.
  intros k c Hget.
  do 9 (destruct k as [|k];
        [injection Hget as <-; eapply Hone; [eassumption|done|done]|]).
  simpl in Hget. simpl in Hlen. destruct head; [done|]. simpl in Hlen. lia.
Qed.

Lemma DIALOGUE_PREFIX_match_inv (s prefix rest : string) :
  DIALOGUE_PREFIX_match s = Some (prefix, rest) ->
  exists head spaces,
    s = head +:+ spaces +:+ rest
    /\ prefix = head +:+ spaces
    /\ lower head = "dialogue:"
    /\ all_space spaces = true
    /\ starts_solid rest.
Proof.
  unfold DIALOGUE_PREFIX_match.
  destruct (String.eqb (lower (substring 0 9 s)) "dialogue:") eqn:Hhead;
    [|done].
  apply String.eqb_eq in Hhead.
  pose proof (span_space_spec (substring 9 (String.length s - 9) s))
    as (Hsplit & Hspaces & Hrest).
  destruct (span_space _) as [spaces rest']. simpl in *.
  intros [= <- <-]. exists (substring 0 9 s), spaces.
  split; [|done]. rewrite <- Hsplit. symmetry. apply substring_split.
  apply (f_equal String.length) in Hhead.
  rewrite lower_length, substring_0_length in Hhead.
    change (String.length "dialogue:") with 9 in Hhead. lia.
Qed.

Lemma DIALOGUE_PREFIX_match_append (head spaces rest : string) :
  lower head = "dialogue:" -> all_space spaces = true -> starts_solid rest ->
  DIALOGUE_PREFIX_match (head +:+ spaces +:+ rest)
  = Some (head +:+ spaces, rest).
Proof.
  intros Hhead Hspaces Hrest.
  destruct (head_chars head Hhead) as [Hlen _].
  assert (H1 : substring 0 9 (head +:+ spaces +:+ rest) = head)
    by (rewrite <- Hlen; apply substring_0_append).
  assert (H2 : substring 9 (String.length (head +:+ spaces +:+ rest) - 9)
                 (head +:+ spaces +:+ rest) = spaces +:+ rest).
  { rewrite length_append, <- Hlen.
    replace (String.length head + String.length (spaces +:+ rest)
             - String.length head)
      with (String.length (spaces +:+ rest)) by lia.
    rewrite substring_append_r. by apply substring_0_all. }
  unfold DIALOGUE_PREFIX_match.
  rewrite H1, H2, Hhead, String.eqb_refl. by rewrite span_space_append.
Qed.

Lemma DIALOGUE_PREFIX_match_None (s : string) :
  DIALOGUE_PREFIX_match s = None <-> lower (substring 0 9 s) <> "dialogue:".
Proof.
  unfold DIALOGUE_PREFIX_match.
  destruct (String.eqb (lower (substring 0 9 s)) "dialogue:") eqn:Hhead.
  - apply String.eqb_eq in Hhead. destruct (span_space _). split; [done|].
    intros H. by destruct H.
  - apply String.eqb_neq in Hhead. done.
Qed.

(** A line has the prefix exactly when the line without its ending has
    it: the ending cannot be a part of the nine characters. *)
Lemma head_of_stripped (stripped ending : string) :
  ending = "" \/ ending = LF \/ ending = CRLF ->
  lower (substring 0 9 (stripped +:+ ending)) = "dialogue:"
  <-> lower (substring 0 9 stripped) = "dialogue:".
Proof.
  intros Hending.
  destruct (decide (9 <= String.length stripped)) as [Hlong|Hshort].
  { by rewrite substring_0_append_l. }
  split; intros Hhead; exfalso.
  - destruct (head_chars _ Hhead) as [Hlen Hchars].
    assert (exists c r, ending = String c r /\ isspace c = true)
      as (c & r & -> & Hc).
    { destruct Hending as [->|[->| ->]]; [|by eexists _, _..].
      rewrite append_nil_r, substring_0_length in Hlen. lia. }
    destruct (Hchars (String.length stripped) c) as [Hsolid _]; [|congruence].
    rewrite substring_correct1 by lia.
    replace (String.length stripped + 0) with (0 + String.length stripped)
      by lia.
    by rewrite <- (append_correct2 stripped (String c r) 0).
  - apply (f_equal String.length) in Hhead.
    rewrite lower_length, substring_0_length in Hhead.
    change (String.length "dialogue:") with 9 in Hhead. lia.
Qed.

End AssParserBasics.

Section SplitProps.

Import PyStr.

Variable sep : ascii.

#[local] Abbreviation sep_string := (String sep EmptyString).

Lemma string_of_list_ascii_app (l : list ascii) (c : ascii) (s : string) :
  string_of_list_ascii (l ++ [c]) +:+ s = string_of_list_ascii l +:+ String c s.
Proof. induction l as [|x l IH]; simpl; [done|by rewrite IH]. Qed.

Lemma count_char_append (s t : string) :
  count_char sep (s +:+ t) = count_char sep s + count_char sep t.
Proof. induction s as [|c s IH]; simpl; [done|rewrite IH; lia]. Qed.

Lemma count_char_of_list (l : list ascii) :
  Forall (fun c => c <> sep) l ->
  count_char sep (string_of_list_ascii l) = 0.
Proof.
  induction 1 as [|c l Hc _ IH]; simpl; [done|].
  apply Ascii.eqb_neq in Hc. by rewrite Hc, IH.
Qed.

Lemma split_char_go_nonempty (s : string) : forall n cur,
  split_char_go sep n cur s <> [].
Proof.
  induction s as [|c s IH]; intros [|n] cur; simpl; try done.
  destruct (Ascii.eqb c sep); [done|apply IH].
Qed.

Lemma join_cons (p : string) (rest : list string) :
  rest <> [] -> join sep_string (p :: rest) = p +:+ String sep (join sep_string rest).
Proof. by destruct rest. Qed.

(** The pieces of [split], joined again, are the string. *)
Lemma join_split_char_go (s : string) : forall n cur,
  join sep_string (split_char_go sep n cur s)
  = string_of_list_ascii (rev cur) +:+ s.
Proof.
  induction s as [|c s IH]; intros n cur; simpl.
  - by rewrite append_nil_r.
  - destruct n as [|n]; [done|].
    destruct (Ascii.eqb c sep) eqn:Hc.
    + apply Ascii.eqb_eq in Hc as ->.
      rewrite join_cons by apply split_char_go_nonempty.
      by rewrite IH.
    + rewrite IH. simpl. apply string_of_list_ascii_app.
Qed.

Lemma length_split_char_go (s : string) : forall n cur,
  length (split_char_go sep n cur s) = min n (count_char sep s) + 1.
Proof.
  induction s as [|c s IH]; intros n cur; cbn [split_char_go count_char].
  - by rewrite Nat.min_0_r.
  - destruct n as [|n]; [done|].
    destruct (Ascii.eqb c sep); cbn [length]; rewrite IH; lia.
Qed.

(** The pieces before the last allowed cut contain no separator. *)
Lemma split_char_go_free (s : string) : forall n cur,
  Forall (fun c => c <> sep) cur ->
  Forall (free_of sep) (take n (split_char_go sep n cur s)).
Proof.
  induction s as [|c s IH]; intros n cur Hcur; simpl.
  - destruct n; cbn [take]; [constructor|]. rewrite take_nil.
    constructor; [|constructor]. apply count_char_of_list.
    by apply Forall_rev.
  - destruct n as [|n]; [constructor|].
    destruct (Ascii.eqb c sep) eqn:Hc.
    + simpl. constructor; [|by apply IH].
      apply count_char_of_list. by apply Forall_rev.
    + apply IH. constructor; [|done]. by apply Ascii.eqb_neq.
Qed.

Lemma split_char_go_piece (piece : string) : forall n cur rest,
  free_of sep piece ->
  split_char_go sep (S n) cur (piece +:+ String sep rest)
  = (string_of_list_ascii (rev cur) +:+ piece)
      :: split_char_go sep n [] rest.
Proof.
  induction piece as [|c piece IH]; intros n cur rest Hfree; simpl.
  - by rewrite Ascii.eqb_refl, append_nil_r.
  - unfold free_of in Hfree. simpl in Hfree.
    destruct (Ascii.eqb c sep) eqn:Hc; [done|].
    rewrite IH by done. simpl. by rewrite string_of_list_ascii_app.
Qed.

(** Splitting what [join] made of pieces without separator gives the
    pieces back, the last one whatever it contains. *)
Lemma split_char_join (pieces : list string) (last_piece : string) :
  Forall (free_of sep) pieces ->
  split_char sep (length pieces) (join sep_string (pieces ++ [last_piece]))
  = pieces ++ [last_piece].
Proof.
  unfold split_char. induction 1 as [|piece pieces Hpiece _ IH].
  - simpl. by destruct last_piece.
  - cbn [app length].
    rewrite (join_cons piece (pieces ++ [last_piece]))
      by (by destruct pieces).
    rewrite split_char_go_piece by done. by rewrite IH.
Qed.

Lemma join_pad (parts : list string) (k : nat) :
  parts <> [] ->
  join sep_string (parts ++ replicate k "")
  = join sep_string parts +:+
      string_of_list_ascii (replicate k sep).
Proof.
  intros Hne. induction k as [|k IH]; simpl.
  - by rewrite app_nil_r, append_nil_r.
  - replace (parts ++ "" :: replicate k "")
      with ((parts ++ replicate k "") ++ [""]).
    2:{ rewrite <- app_assoc. f_equal.
        change ("" :: replicate k "") with (replicate (S k) "").
        by rewrite <- replicate_S_end. }
    rewrite join_snoc by (by destruct parts). rewrite IH.
    rewrite !append_assoc. f_equal. clear.
    change (sep_string +:+ "") with sep_string.
    induction k as [|k IH]; simpl; [done|by rewrite IH].
Qed.

End SplitProps.

Section AssParserParse.

Import PyStr AssParser.

Lemma FIELD_NAMES_NoDup : NoDup FIELD_NAMES.
Proof.
  unfold FIELD_NAMES.
  repeat (apply NoDup_cons; split;
          [rewrite ?elem_of_cons, elem_of_nil; intros H;
           repeat (destruct H as [H|H]; [discriminate H|]); exact H|]).
  apply NoDup_nil_2.
Qed.

Lemma dict_of_snoc pairs k v : dict_of (pairs ++ [(k, v)]) = <[k := v]> (dict_of pairs).
Proof. unfold dict_of. by rewrite fold_left_app. Qed.

Lemma dict_of_lookup pairs k v :
  NoDup (pairs.*1) -> (k, v) ∈ pairs -> dict_of pairs !! k = Some v.
Proof.
  induction pairs as [|[k' v'] pairs IH] using rev_ind; intros Hnodup Hin.
  { by apply elem_of_nil in Hin. }
  rewrite dict_of_snoc. rewrite fmap_app in Hnodup.
  apply NoDup_app in Hnodup as (Hnodup & Hfresh & _).
  apply elem_of_app in Hin as [Hin|Hin].
  - rewrite lookup_insert_ne; [by apply IH|]. intros ->.
    apply (Hfresh k); [|simpl; by left].
    apply list_elem_of_fmap. by exists (k, v).
  - apply list_elem_of_singleton in Hin as [= -> ->].
    by rewrite lookup_insert_eq.
Qed.

Lemma zip_lookup {A B} (xs : list A) (ys : list B) i x y :
  xs !! i = Some x -> ys !! i = Some y -> zip xs ys !! i = Some (x, y).
Proof.
  revert ys i. induction xs as [|x' xs IH]; intros [|y' ys] [|i]; simpl;
    try done.
  - by intros [= ->] [= ->].
  - apply IH.
Qed.

Lemma ordered_fields_lookup d names values :
  Forall2 (fun name value => d !! name = Some value) names values ->
  ordered_fields d names = Ok values.
Proof.
  induction 1 as [|name value names values Hname _ IH]; simpl; [done|].
  by rewrite Hname, IH.
Qed.

Lemma ordered_fields_dict (values : list string) :
  length values = 9 ->
  ordered_fields (dict_of (zip FIELD_NAMES values)) FIELD_NAMES = Ok values.
Proof.
  intros Hlen. apply ordered_fields_lookup.
  apply Forall2_same_length_lookup_2; [done|].
  intros i name value Hname Hvalue. apply dict_of_lookup.
  - rewrite zip_fst by done. apply FIELD_NAMES_NoDup.
  - eapply list_elem_of_lookup_2. by apply zip_lookup.
Qed.

Lemma render_make_line idx prefix values text ending :
  length values = 9 ->
  render (make_line idx prefix values text ending)
  = Ok (prefix +:+ join "," (values ++ [text]) +:+ ending).
Proof.
  intros Hlen. unfold render, make_line.
  cbn [fields AssParser.prefix AssParser.text line_ending].
  by rewrite ordered_fields_dict.
Qed.

Lemma commas_replicate (k : nat) :
  string_of_list_ascii (replicate k ","%char) = commas k.
Proof. induction k as [|k IH]; simpl; [done|by rewrite IH]. Qed.

(** What [parse] does with a line, by what is left of the line without
    its ending. *)
Lemma parse_spec (idx : nat) (line : string) :
  match DIALOGUE_PREFIX_match (_strip_line_ending line).1 with
  | None => parse idx line = Raise ValueError
  | Some (prefix, payload) =>
      exists values text,
        length values = 9
        /\ Forall (free_of ",") values
        /\ join "," (values ++ [text])
           = payload +:+ commas (9 - count_char "," payload)
        /\ parse idx line
           = Ok (make_line idx prefix values text
                   (or_newline (_strip_line_ending line).2))
  end.
Proof.
  unfold parse.
  destruct (_strip_line_ending line) as [stripped ending]. simpl.
  destruct (DIALOGUE_PREFIX_match stripped) as [[prefix payload]|]; [|done].
  set (parts := split_char "," 9 payload).
  assert (Hlen : length parts = min 9 (count_char "," payload) + 1)
    by apply length_split_char_go.
  assert (Hfree : Forall (free_of ",") (take 9 parts))
    by (apply split_char_go_free; constructor).
  assert (Hjoin : join "," parts = payload)
    by (unfold parts, split_char; by rewrite join_split_char_go).
  assert (Hne : parts <> []) by apply split_char_go_nonempty.
  set (parts' := if length parts <? 10
                 then parts ++ replicate (10 - length parts) ""
                 else parts).
  assert (Hparts' : parts' = parts ++ replicate (10 - length parts) "").
  { unfold parts'. destruct (length parts <? 10) eqn:Hshort; [done|].
    apply Nat.ltb_ge in Hshort.
    replace (10 - length parts) with 0 by lia. by rewrite app_nil_r. }
  assert (Hlen' : length parts' = 10).
  { rewrite Hparts', length_app, length_replicate. lia. }
  change (length FIELD_NAMES) with 9.
  destruct (drop 9 parts') as [|text [|? ?]] eqn:Hdrop;
    try (apply (f_equal length) in Hdrop; rewrite length_drop in Hdrop;
         simpl in Hdrop; lia).
  assert (Hsplit : parts' = take 9 parts' ++ [text])
    by (by rewrite <- Hdrop, take_drop).
  assert (Hlast : last parts' = Some text)
    by (rewrite Hsplit; apply last_snoc).
  rewrite Hlast. exists (take 9 parts'), text.
  split; [rewrite length_take; lia|]. split; [|split; [|done]].
  - rewrite Hparts', take_app. apply Forall_app. split; [done|].
    apply Forall_take, Forall_replicate. reflexivity.
  - rewrite <- Hsplit, Hparts', join_pad, Hjoin, commas_replicate by done.
    do 2 f_equal. lia.
Qed.

Lemma parse_Ok_inv (idx : nat) (line : string) (dialogue : SubtitleLine) :
  parse idx line = Ok dialogue ->
  exists prefix payload values text,
    DIALOGUE_PREFIX_match (_strip_line_ending line).1 = Some (prefix, payload)
    /\ length values = 9
    /\ Forall (free_of ",") values
    /\ join "," (values ++ [text])
       = payload +:+ commas (9 - count_char "," payload)
    /\ dialogue = make_line idx prefix values text
                    (or_newline (_strip_line_ending line).2).
Proof.
  intros Hparse. pose proof (parse_spec idx line) as Hspec.
  destruct (DIALOGUE_PREFIX_match _) as [[prefix payload]|]; [|congruence].
  destruct Hspec as (values & text & Hlen & Hfree & Hjoin & Hok).
  exists prefix, payload, values, text. repeat (split; [done|]). congruence.
Qed.

(** [parse] accepts the lines that have the prefix, ending included or
    not, and raises [ValueError] on the others. *)
Lemma parse_accepts (idx : nat) (line : string) :
  match DIALOGUE_PREFIX_match line with
  | Some _ => exists dialogue, parse idx line = Ok dialogue
  | None => parse idx line = Raise ValueError
  end.
Proof.
  pose proof (parse_spec idx line) as Hspec.
  destruct (_strip_line_ending_spec line) as [Hline Hending].
  pose proof (head_of_stripped (_strip_line_ending line).1 _ Hending) as Hhead.
  rewrite <- Hline in Hhead.
  destruct (DIALOGUE_PREFIX_match line) as [[p r]|] eqn:Hmatch.
  - destruct (DIALOGUE_PREFIX_match (_strip_line_ending line).1)
      as [[prefix payload]|] eqn:Hstripped.
    + destruct Hspec as (values & text & _ & _ & _ & ->). by eexists.
    + apply DIALOGUE_PREFIX_match_None in Hstripped. exfalso.
      apply Hstripped, Hhead.
      destruct (string_dec (lower (substring 0 9 line)) "dialogue:")
        as [?|Hne]; [done|].
      apply DIALOGUE_PREFIX_match_None in Hne. congruence.
  - destruct (DIALOGUE_PREFIX_match (_strip_line_ending line).1)
      as [[prefix payload]|] eqn:Hstripped; [|done].
    exfalso. apply DIALOGUE_PREFIX_match_None in Hmatch. apply Hmatch, Hhead.
    destruct (string_dec (lower (substring 0 9 (_strip_line_ending line).1))
                "dialogue:") as [?|Hne]; [done|].
    apply DIALOGUE_PREFIX_match_None in Hne. congruence.
Qed.

End AssParserParse.

Section AssParserRoundTrip.

Import PyStr AssParser.

Lemma count_char_solid (c : ascii) (s : string) :
  (forall k x, get k s = Some x -> x <> c) -> count_char c s = 0.
Proof.
  induction s as [|x s IH]; intros Hall; simpl; [done|].
  assert (Hx : x <> c) by (by apply (Hall 0)).
  apply Ascii.eqb_neq in Hx. rewrite Hx. simpl. apply IH.
  intros k y Hk. by apply (Hall (S k)).
Qed.

Lemma count_comma_spaces (spaces : string) :
  all_space spaces = true -> count_char "," spaces = 0.
Proof.
  induction spaces as [|c spaces IH]; simpl; [done|].
  intros H. apply andb_true_iff in H as [Hc Hspaces].
  destruct (Ascii.eqb c ",") eqn:Hcomma.
  - apply Ascii.eqb_eq in Hcomma as ->. by vm_compute in Hc.
  - by apply IH.
Qed.

(** The prefix that the pattern takes has no comma in it. *)
Lemma prefix_free_of_comma (s prefix rest : string) :
  DIALOGUE_PREFIX_match s = Some (prefix, rest) ->
  s = prefix +:+ rest /\ count_char "," prefix = 0 /\ starts_solid rest.
Proof.
  intros Hmatch.
  apply DIALOGUE_PREFIX_match_inv in Hmatch
    as (head & spaces & -> & -> & Hhead & Hspaces & Hrest).
  split; [by rewrite append_assoc|]. split; [|done].
  rewrite count_char_append, (count_comma_spaces spaces) by done.
  destruct (head_chars head Hhead) as [_ Hchars].
  rewrite count_char_solid; [done|]. intros k x Hk. by apply (Hchars k).
Qed.

Lemma or_newline_ending (ending : string) :
  ending = "" \/ ending = LF \/ ending = CRLF ->
  (or_newline ending = LF \/ or_newline ending = CRLF)
  /\ (ending <> "" -> or_newline ending = ending).
Proof.
  intros [->|[->| ->]];
    (split; [first [by left|by right]|intros H; try reflexivity; by destruct H]).
Qed.

Lemma or_newline_idemp (ending : string) :
  or_newline (or_newline ending) = or_newline ending.
Proof.
  unfold or_newline. destruct (truthy ending) eqn:Hending; [by rewrite Hending|].
  done.
Qed.

(** What [render] makes of a parsed line. *)
Lemma render_parse (idx : nat) (line : string) (dialogue : SubtitleLine) :
  parse idx line = Ok dialogue ->
  render dialogue
  = Ok ((_strip_line_ending line).1
        +:+ commas (9 - count_char "," (_strip_line_ending line).1)
        +:+ or_newline (_strip_line_ending line).2).
Proof.
  intros Hparse.
  apply parse_Ok_inv in Hparse
    as (prefix & payload & values & text & Hmatch & Hlen & _ & Hjoin & ->).
  rewrite render_make_line by done. rewrite Hjoin.
  apply prefix_free_of_comma in Hmatch as (-> & Hprefix & _).
  rewrite count_char_append, Hprefix. simpl.
  by rewrite !append_assoc.
Qed.

Lemma endswith_cr_after_comma (before translated : string) :
  endswith translated (String "013" "") = false ->
  endswith (before +:+ String "," translated) (String "013" "") = false.
Proof.
  intros Hcr.
  destruct (endswith (before +:+ String "," translated) (String "013" ""))
    eqn:Hends; [|done].
  apply endswith_inv in Hends. exfalso.
  destruct (string_snoc translated) as [->|(t' & c & ->)].
  - change (before +:+ ",") with (before +:+ String "," "") in Hends.
    by apply append_snoc_inj in Hends as [_ [=]].
  - change (before +:+ String "," (t' +:+ String c ""))
      with (before +:+ (String "," t' +:+ String c "")) in Hends.
    rewrite <- append_assoc in Hends.
    apply append_snoc_inj in Hends as [_ ->].
    by rewrite endswith_append in Hcr.
Qed.

Lemma join_comma_head (value : string) (values : list string) (text : string) :
  exists r, join "," ((value :: values) ++ [text]) = value +:+ String "," r.
Proof.
  simpl. destruct (values ++ [text]) eqn:Hrest; [by destruct values|].
  by eexists.
Qed.

Lemma starts_solid_head (value r r' : string) :
  starts_solid (value +:+ String "," r) -> starts_solid (value +:+ String "," r').
Proof.
  intros Hsolid c s. destruct value as [|x value]; simpl.
  - by intros [= <- _].
  - intros [= <- _]. by apply (Hsolid x (value +:+ String "," r)).
Qed.

Lemma starts_solid_append (s t : string) :
  starts_solid s -> starts_solid (String "," t) -> starts_solid (s +:+ String "," t).
Proof.
  intros Hs Ht c r. destruct s as [|x s]; simpl; [apply Ht|].
  intros [= <- _]. by apply (Hs x s).
Qed.

(** A parsed line with another text, rendered and parsed again, is the
    same dialogue with that text. *)
Lemma parse_render (idx : nat) (line : string) (dialogue : SubtitleLine)
    (translated : string) :
  parse idx line = Ok dialogue ->
  writable (line_ending dialogue) translated ->
  exists rendered,
    render (with_text dialogue translated) = Ok rendered
    /\ parse idx rendered = Ok (with_text dialogue translated).
Proof.
  intros Hparse Hwritable.
  destruct (_strip_line_ending_spec line) as [_ Hending].
  apply or_newline_ending in Hending as [Hending _].
  apply parse_Ok_inv in Hparse
    as (prefix & payload & values & text & Hmatch & Hlen & Hfree & Hjoin & ->).
  remember (or_newline (_strip_line_ending line).2) as ending eqn:Hend.
  change (with_text (make_line idx prefix values text ending) translated)
    with (make_line idx prefix values translated ending).
  rewrite render_make_line by done. eexists. split; [reflexivity|].
  destruct values as [|value values]; [done|].
  assert (Hstripped :
    _strip_line_ending
      (prefix +:+ join "," ((value :: values) ++ [translated]) +:+ ending)
    = (prefix +:+ join "," ((value :: values) ++ [translated]), ending)).
  { rewrite <- append_assoc.
    destruct Hending as [Hlf|Hcrlf]; [|rewrite Hcrlf; apply _strip_line_ending_crlf].
    rewrite Hlf. apply _strip_line_ending_lf.
    destruct Hwritable as [Hcrlf|Hcr].
    { unfold make_line in Hcrlf. cbn [line_ending] in Hcrlf.
      rewrite Hlf in Hcrlf. discriminate Hcrlf. }
    rewrite join_snoc by done. rewrite <- append_assoc.
    by apply endswith_cr_after_comma. }
  apply DIALOGUE_PREFIX_match_inv in Hmatch
    as (head & spaces & _ & -> & Hhead & Hspaces & Hpayload).
  assert (Hsolid : starts_solid (join "," ((value :: values) ++ [translated]))).
  { destruct (join_comma_head value values translated) as (r & ->).
    destruct (join_comma_head value values text) as (r' & Hr').
    apply (starts_solid_head value r'). rewrite <- Hr', Hjoin.
    destruct (commas _) as [|c s] eqn:Hcommas.
    - by rewrite append_nil_r.
    - assert (c = ","%char) as ->.
      { destruct (9 - count_char "," payload); simpl in Hcommas; congruence. }
      apply starts_solid_append; [done|]. by intros ? ? [= <- _]. }
  pose proof (parse_spec idx
                ((head +:+ spaces)
                 +:+ join "," ((value :: values) ++ [translated])
                 +:+ ending)) as Hspec.
  rewrite Hstripped in Hspec. cbn [fst snd] in Hspec.
  rewrite (append_assoc head spaces), DIALOGUE_PREFIX_match_append in Hspec
    by done.
  destruct Hspec as (values' & text' & Hlen' & Hfree' & Hjoin' & Hok).
  rewrite Hok. rewrite Hend at 1. rewrite or_newline_idemp, <- Hend.
  assert (Hsame : values' ++ [text'] = (value :: values) ++ [translated]).
  { pose proof (split_char_join "," (value :: values) translated Hfree) as Hsplit.
    pose proof (length_split_char_go ","
                  (join "," ((value :: values) ++ [translated])) 9 []) as Hcount.
    rewrite Hlen in Hsplit. unfold split_char in Hsplit.
    rewrite Hsplit, length_app, Hlen in Hcount. cbn [length] in Hcount.
    replace (9 - count_char "," (join "," ((value :: values) ++ [translated])))
      with 0 in Hjoin' by lia.
    rewrite append_nil_r in Hjoin'.
    pose proof (split_char_join "," values' text' Hfree') as Hsplit'.
    rewrite Hlen', Hjoin' in Hsplit'. unfold split_char in Hsplit'. congruence. }
  apply app_inj_tail in Hsame as [-> ->]. done.
Qed.

End AssParserRoundTrip.

Section AssParserLoops.

Import PyStr AssParser.

Lemma extract_loop (lines : list string) : forall idx pysubs_iter dialogues,
  exists pysubs_iter',
    fold_res extract_step (enumerate_from idx lines) (pysubs_iter, dialogues)
    = Ok (pysubs_iter', dialogues ++ dialogues_from idx lines).
Proof.
  induction lines as [|line rest IH]; intros idx pysubs_iter dialogues.
  { exists pysubs_iter. simpl. by rewrite app_nil_r. }
  cbn [enumerate_from fold_res dialogues_from]. unfold extract_step at 2.
  pose proof (parse_accepts idx line) as Hparse.
  destruct (DIALOGUE_PREFIX_match line) as [[prefix payload]|].
  - destruct Hparse as (dialogue & Hparse). rewrite Hparse.
    destruct (_strip_line_ending line) as [stripped ending].
    destruct pysubs_iter as [[|event events]|];
      cbn [mbind Res_bind bind];
      (edestruct IH as (pysubs_iter' & ->); exists pysubs_iter';
       by rewrite <- app_assoc).
  - rewrite Hparse. cbn [mbind Res_bind bind]. apply IH.
Qed.

Lemma dialogues_from_index (lines : list string) : forall idx dialogue,
  dialogue ∈ dialogues_from idx lines ->
  exists line,
    lines !! (index dialogue - idx) = Some line
    /\ idx <= index dialogue
    /\ parse (index dialogue) line = Ok dialogue.
Proof.
  induction lines as [|line rest IH]; intros idx dialogue Hin; simpl in Hin.
  { by apply elem_of_nil in Hin. }
  assert (Hrest : dialogue ∈ dialogues_from (S idx) rest ->
                  exists line',
                    (line :: rest) !! (index dialogue - idx) = Some line'
                    /\ idx <= index dialogue
                    /\ parse (index dialogue) line' = Ok dialogue).
  { intros H. destruct (IH _ _ H) as (line' & Hline' & Hle & Hparse).
    exists line'. split; [|split; [lia|done]].
    replace (index dialogue - idx) with (S (index dialogue - S idx)) by lia.
    done. }
  destruct (parse idx line) as [first|e] eqn:Hparse; [|by apply Hrest].
  apply elem_of_cons in Hin as [->|Hin]; [|by apply Hrest].
  assert (Hidx : index first = idx).
  { apply parse_Ok_inv in Hparse as (? & ? & ? & ? & _ & _ & _ & _ & ->).
    done. }
  exists line. rewrite Hidx, Nat.sub_diag. done.
Qed.

Lemma render_with_text (idx : nat) (line : string) (dialogue : SubtitleLine)
    (translated : string) :
  parse idx line = Ok dialogue ->
  index dialogue = idx
  /\ exists rendered, render (with_text dialogue translated) = Ok rendered.
Proof.
  intros Hparse.
  apply parse_Ok_inv in Hparse
    as (prefix & payload & values & text & _ & Hlen & _ & _ & ->).
  split; [done|].
  change (with_text (make_line idx prefix values text
                       (or_newline (_strip_line_ending line).2)) translated)
    with (make_line idx prefix values translated
            (or_newline (_strip_line_ending line).2)).
  rewrite render_make_line by done. by eexists.
Qed.

Lemma apply_step_spec (k : nat) (translated : string) (self : ASSParser)
    (dialogue : SubtitleLine) (rendered : string) (lines : list string) :
  dialogue_lines self !! k = Some dialogue ->
  render (with_text dialogue translated) = Ok rendered ->
  list_assign (_lines self) (index dialogue) rendered = Ok lines ->
  apply_step k translated self
  = (Ok tt,
     {| _lines := lines; source_path := source_path self;
        dialogue_lines := <[k := with_text dialogue translated]>
                            (dialogue_lines self);
        _pysubs_dialogues := _pysubs_dialogues self |}).
Proof.
  intros Hk Hrender Hassign. unfold apply_step. rewrite Hk.
  change {| index := index dialogue; prefix := AssParser.prefix dialogue;
            fields := fields dialogue; text := translated;
            line_ending := line_ending dialogue |}
    with (with_text dialogue translated).
  rewrite Hrender. cbn [_lines]. 
  change (index (with_text dialogue translated)) with (index dialogue).
  by rewrite Hassign.
Qed.

Lemma apply_loop (rest : list string) :
  forall before processed translated (self : ASSParser),
    _lines self = before ++ rest ->
    dialogue_lines self = processed ++ dialogues_from (length before) rest ->
    length translated = length (dialogues_from (length before) rest) ->
    fold_m (fun (_ : unit) item => apply_step item.1 item.2)
      (enumerate_from (length processed) translated) tt self
    = (Ok tt,
       {| _lines := before ++ retext (length before) rest translated;
          source_path := source_path self;
          dialogue_lines :=
            processed
              ++ zip_with with_text (dialogues_from (length before) rest)
                   translated;
          _pysubs_dialogues := _pysubs_dialogues self |}).
Proof.
  induction rest as [|line rest IH];
    intros before processed translated self Hlines Hdialogues Hlen.
  { simpl in *. destruct translated; [|done]. simpl.
    destruct self. simpl in *. by subst. }
  cbn [dialogues_from retext] in *.
  assert (Hnext : forall x, before ++ x :: rest = (before ++ [x]) ++ rest)
    by (intros x; by rewrite <- app_assoc).
  assert (Hidx : forall x, S (length before) = length (before ++ [x]))
    by (intros x; rewrite length_app; simpl; lia).
  destruct (parse (length before) line) as [dialogue|e] eqn:Hparse.
  - destruct translated as [|t translated]; [done|].
    destruct (render_with_text _ _ _ t Hparse) as (Hindex & rendered & Hrender).
    rewrite Hrender.
    cbn [enumerate_from fold_m]. unfold mbind at 1, M_bind at 1.
    cbn [fst snd].
    rewrite (apply_step_spec (length processed) t self dialogue rendered
               (before ++ rendered :: rest)).
    + rewrite (Hidx rendered).
      replace (S (length processed))
        with (length (processed ++ [with_text dialogue t]))
        by (rewrite length_app; simpl; lia).
      match goal with
      | |- fold_m _ _ _ ?self' = _ =>
          rewrite (IH (before ++ [rendered])
                     (processed ++ [with_text dialogue t]) translated self')
      end.
      * cbn [_lines source_path dialogue_lines _pysubs_dialogues zip_with].
        by rewrite <- !app_assoc.
      * cbn [_lines]. apply Hnext.
      * cbn [dialogue_lines]. rewrite Hdialogues.
        rewrite insert_app_r_alt by lia. rewrite Nat.sub_diag. simpl.
        rewrite <- (Hidx rendered). by rewrite <- app_assoc.
      * rewrite <- (Hidx rendered). simpl in Hlen. lia.
    + rewrite Hdialogues. by apply list_lookup_middle.
    + done.
    + unfold list_assign. rewrite Hlines, Hindex.
      rewrite list_lookup_middle by done.
      rewrite insert_app_r_alt by lia. by rewrite Nat.sub_diag.
  - rewrite (Hidx line) in *. rewrite (Hnext line) in Hlines.
    rewrite (IH (before ++ [line]) processed translated self Hlines
               Hdialogues Hlen).
    by rewrite <- !app_assoc.
Qed.

Lemma retext_length (lines : list string) : forall idx translated,
  length (retext idx lines translated) = length lines.
Proof.
  induction lines as [|line rest IH]; intros idx translated; simpl; [done|].
  destruct (parse idx line) as [dialogue|e].
  - destruct translated as [|t translated]; [done|].
    destruct (render _); simpl; by rewrite IH.
  - simpl. by rewrite IH.
Qed.

(** The lines that are not dialogues stay where and what they are. *)
Lemma retext_other (lines : list string) : forall idx translated i line,
  lines !! i = Some line ->
  is_ok (parse (idx + i) line) = false ->
  retext idx lines translated !! i = Some line.
Proof.
  induction lines as [|first rest IH]; intros idx translated i line Hi Hparse;
    [done|].
  destruct i as [|i]; simpl in Hi.
  - injection Hi as ->. rewrite Nat.add_0_r in Hparse. simpl.
    by destruct (parse idx line).
  - replace (idx + S i) with (S idx + i) in Hparse by lia. simpl.
    destruct (parse idx first) as [dialogue|e].
    + destruct translated as [|t translated]; [done|].
      destruct (render _); simpl; by apply IH.
    + simpl. by apply IH.
Qed.

(** Reading the rewritten lines again gives the dialogues with the
    translations as their texts. *)
Lemma dialogues_from_retext (lines : list string) : forall idx translated,
  Forall2 (fun dialogue t => writable (line_ending dialogue) t)
    (dialogues_from idx lines) translated ->
  dialogues_from idx (retext idx lines translated)
  = zip_with with_text (dialogues_from idx lines) translated.
Proof.
  induction lines as [|line rest IH]; intros idx translated Hall; [done|].
  cbn [dialogues_from retext] in *.
  destruct (parse idx line) as [dialogue|e] eqn:Hparse.
  - inversion Hall as [|? t ? translated' Hwritable Hrest]; subst.
    destruct (parse_render idx line dialogue t Hparse Hwritable)
      as (rendered & -> & Hagain).
    cbn [dialogues_from zip_with]. rewrite Hagain. by rewrite IH.
  - cbn [dialogues_from]. rewrite Hparse. by apply IH.
Qed.

Lemma zip_with_text (dialogues : list SubtitleLine) : forall translated,
  length translated = length dialogues ->
  map text (zip_with with_text dialogues translated) = translated.
Proof.
  induction dialogues as [|d dialogues IH]; intros [|t translated] Hlen;
    simpl in *; try done.
  rewrite IH; [done|lia].
Qed.

End AssParserLoops.

Lemma new_parser_eq
    (pysubs2_load : string -> option (list AssParser.SSAEvent))
    (lines : list string) (source_path : option string) :
  AssParser.new_parser pysubs2_load lines source_path
  = Ok {| AssParser._lines := lines;
          AssParser.source_path := source_path;
          AssParser.dialogue_lines := dialogues_from 0 lines;
          AssParser._pysubs_dialogues :=
            AssParser._load_pysubs_dialogues pysubs2_load source_path |}.
Proof.
  unfold AssParser.new_parser, AssParser._extract_dialogues.
  cbn [AssParser._lines AssParser.dialogue_lines
       AssParser._pysubs_dialogues AssParser.source_path].
  unfold enumerate.
  match goal with
  | |- context [fold_res _ _ (?it, [])] =>
      destruct (extract_loop lines 0 it []) as (it' & ->)
  end.
  reflexivity.
Qed.

(** X17. Building an [ASSParser] never raises and never uses pysubs2: its
    dialogues are exactly the lines that start with the dialogue prefix,
    each parsed by [SubtitleLine.parse], in the order of the file and with
    the position of its line as index, whatever [pysubs2.load] returns
    and whether a path was given. [SubtitleLine.parse] accepts every line
    that the pattern accepts, so the branch that falls back on a pysubs2
    event is never taken. *)
Theorem new_parser_ignores_pysubs2
    (pysubs2_load : string -> option (list AssParser.SSAEvent))
    (lines : list string) (source_path : option string) :
  AssParser.new_parser pysubs2_load lines source_path
  = Ok {| AssParser._lines := lines;
          AssParser.source_path := source_path;
          AssParser.dialogue_lines := dialogues_from 0 lines;
          AssParser._pysubs_dialogues :=
            AssParser._load_pysubs_dialogues pysubs2_load source_path |}
  /\ (forall dialogue,
        dialogue ∈ dialogues_from 0 lines ->
        exists line,
          lines !! AssParser.index dialogue = Some line
          /\ AssParser.parse (AssParser.index dialogue) line = Ok dialogue)
  /\ (forall idx line,
        match AssParser.DIALOGUE_PREFIX_match line with
        | Some _ => exists dialogue, AssParser.parse idx line = Ok dialogue
        | None => AssParser.parse idx line = Raise ValueError
        end).
Proof.
  split; [|split].
  - apply new_parser_eq.
  - intros dialogue Hin.
    destruct (dialogues_from_index lines 0 dialogue Hin)
      as (line & Hline & _ & Hparse).
    rewrite Nat.sub_0_r in Hline. by exists line.
  - intros idx line. apply parse_accepts.
Qed.

(** X18. Writing a parsed line back normalises it and changes nothing
    else: [render] of what [parse] made of a line is the line without its
    ending, then one comma for each of the nine separators that the line
    lacks, then the ending of the line, or a newline if it had none. A
    dialogue line with at least nine commas that ends with a newline is
    rendered as it was read, character for character. *)
Theorem render_after_parse (idx : nat) (line : string)
    (dialogue : AssParser.SubtitleLine) :
  AssParser.parse idx line = Ok dialogue ->
  AssParser.render dialogue
  = Ok ((AssParser._strip_line_ending line).1
        +:+ commas (9 - PyStr.count_char ","
                           (AssParser._strip_line_ending line).1)
        +:+ AssParser.or_newline (AssParser._strip_line_ending line).2)
  /\ (9 <= PyStr.count_char "," line ->
      PyStr.endswith line PyStr.LF = true ->
      AssParser.render dialogue = Ok line).
Proof.
  intros Hparse. rewrite (render_parse idx line dialogue Hparse).
  split; [done|]. intros Hcommas Hnewline.
  destruct (_strip_line_ending_spec line) as [Hline Hending].
  assert (Hsome : (AssParser._strip_line_ending line).2 <> "").
  { unfold AssParser._strip_line_ending.
    destruct (PyStr.endswith line PyStr.CRLF); [done|]. by rewrite Hnewline. }
  destruct (or_newline_ending _ Hending) as [_ Hsame].
  rewrite (Hsame Hsome).
  assert (Hcount : PyStr.count_char "," (AssParser._strip_line_ending line).1
                   = PyStr.count_char "," line).
  { rewrite Hline at 2. rewrite count_char_append.
    destruct Hending as [->|[->| ->]]; simpl; lia. }
  rewrite Hcount. replace (9 - PyStr.count_char "," line) with 0 by lia.
  simpl. by rewrite <- Hline.
Qed.

Lemma render_after_parse_witness :
  let line := "Dialogue: 0,0:00:01.00,0:00:02.00,Default,,0,0,0,,Hello, world"
              +:+ PyStr.LF in
  let dialogue :=
    make_line 3 "Dialogue: "
      ["0"; "0:00:01.00"; "0:00:02.00"; "Default"; ""; "0"; "0"; "0"; ""]
      "Hello, world" PyStr.LF in
  AssParser.parse 3 line = Ok dialogue
  /\ AssParser.render dialogue
     = Ok ((AssParser._strip_line_ending line).1
           +:+ commas (9 - PyStr.count_char ","
                              (AssParser._strip_line_ending line).1)
           +:+ AssParser.or_newline (AssParser._strip_line_ending line).2)
  /\ (9 <= PyStr.count_char "," line ->
      PyStr.endswith line PyStr.LF = true ->
      AssParser.render dialogue = Ok line).
Proof.
  intros line dialogue.
  assert (Hparse : AssParser.parse 3 line = Ok dialogue)
    by (vm_compute; reflexivity).
  split; [exact Hparse|].
  exact (render_after_parse 3 line dialogue Hparse).
Defined.

(** X19. A dialogue that was parsed from a line can be given another
    text, rendered and parsed again without loss: the result is the same
    dialogue with that text, commas in the text included. The one
    exception is a text that ends with a carriage return when the line
    ends with a bare newline: the carriage return would be read as a part
    of the line ending. *)
Theorem parse_after_render (idx : nat) (line : string)
    (dialogue : AssParser.SubtitleLine) (translated : string) :
  AssParser.parse idx line = Ok dialogue ->
  AssParser.line_ending dialogue = PyStr.CRLF
  \/ PyStr.endswith translated (String "013" EmptyString) = false ->
  exists rendered,
    AssParser.render (with_text dialogue translated) = Ok rendered
    /\ AssParser.parse idx rendered = Ok (with_text dialogue translated).
Proof. intros Hparse Hwritable. by apply (parse_render idx line). Qed.

Lemma parse_after_render_witness :
  let line := "Dialogue: 0,0:00:01.00,0:00:02.00,Default,,0,0,0,,Hello, world"
              +:+ PyStr.LF in
  let dialogue :=
    make_line 3 "Dialogue: "
      ["0"; "0:00:01.00"; "0:00:02.00"; "Default"; ""; "0"; "0"; "0"; ""]
      "Hello, world" PyStr.LF in
  AssParser.parse 3 line = Ok dialogue
  /\ (AssParser.line_ending dialogue = PyStr.CRLF
      \/ PyStr.endswith "Merhaba, dunya" (String "013" EmptyString) = false)
  /\ exists rendered,
       AssParser.render (with_text dialogue "Merhaba, dunya") = Ok rendered
       /\ AssParser.parse 3 rendered
          = Ok (with_text dialogue "Merhaba, dunya").
Proof.
  intros line dialogue.
  assert (Hparse : AssParser.parse 3 line = Ok dialogue)
    by (vm_compute; reflexivity).
  assert (Hwritable :
    AssParser.line_ending dialogue = PyStr.CRLF
    \/ PyStr.endswith "Merhaba, dunya" (String "013" EmptyString) = false)
    by (right; reflexivity).
  split; [exact Hparse|]. split; [exact Hwritable|].
  exact (parse_after_render 3 line dialogue "Merhaba, dunya" Hparse Hwritable).
Defined.

Section ApplyTranslations.

Import PyStr AssParser.

Variable pysubs2_load : string -> option (list SSAEvent).

Lemma apply_translations_ok lines source_path parser translated :
  new_parser pysubs2_load lines source_path = Ok parser ->
  length translated = length (dialogue_lines parser) ->
  apply_translations translated parser
  = (Ok tt,
     {| _lines := retext 0 lines translated;
        source_path := source_path;
        dialogue_lines := zip_with with_text (dialogues_from 0 lines) translated;
        _pysubs_dialogues := _load_pysubs_dialogues pysubs2_load source_path |}).
Proof.
  rewrite new_parser_eq. intros [= <-] Hlen. simpl in Hlen.
  unfold apply_translations. cbn [dialogue_lines].
  apply Nat.eqb_eq in Hlen as Hlen'. rewrite Hlen'. cbn [negb].
  unfold enumerate.
  match goal with
  | |- fold_m _ _ _ ?self = _ =>
      apply (apply_loop lines [] [] translated self); by simpl
  end.
Qed.

End ApplyTranslations.

(** X20. [apply_translations] replaces the texts of the dialogue lines,
    in their order, and nothing else. With a number of translations other
    than the number of dialogues it raises [ValueError] and leaves the
    parser as it was. Otherwise it does not raise; the file keeps its
    number of lines; a line without the dialogue prefix stays where and
    what it was; and the texts of the dialogues are then the
    translations. *)
Theorem apply_translations_rewrites_dialogues
    (pysubs2_load : string -> option (list AssParser.SSAEvent))
    (lines : list string) (source_path : option string)
    (parser : AssParser.ASSParser) (translated : list string) :
  AssParser.new_parser pysubs2_load lines source_path = Ok parser ->
  (length translated <> length (AssParser.dialogue_lines parser) ->
   AssParser.apply_translations translated parser = (Raise ValueError, parser))
  /\ (length translated = length (AssParser.dialogue_lines parser) ->
      exists parser',
        AssParser.apply_translations translated parser = (Ok tt, parser')
        /\ AssParser._lines parser' = retext 0 lines translated
        /\ length (AssParser._lines parser') = length lines
        /\ AssParser.iter_texts parser' = translated
        /\ forall i line,
             lines !! i = Some line ->
             AssParser.DIALOGUE_PREFIX_match line = None ->
             AssParser._lines parser' !! i = Some line).
Proof.
  intros Hparser. split.
  - intros Hlen. unfold AssParser.apply_translations.
    apply Nat.eqb_neq in Hlen. by rewrite Hlen.
  - intros Hlen.
    rewrite (apply_translations_ok pysubs2_load lines source_path parser
               translated Hparser Hlen).
    eexists. split; [reflexivity|].
    cbn [AssParser._lines]. split; [done|].
    split; [apply retext_length|]. split.
    + unfold AssParser.iter_texts. cbn [AssParser.dialogue_lines].
      apply zip_with_text. rewrite Hlen.
      rewrite new_parser_eq in Hparser. by injection Hparser as <-.
    + intros i line Hline Hmatch. apply retext_other; [done|].
      pose proof (parse_accepts (0 + i) line) as Hparse.
      rewrite Hmatch in Hparse. by rewrite Hparse.
Qed.

Lemma apply_translations_rewrites_dialogues_witness :
  let lines := ["[Events]" +:+ PyStr.LF;
                "Dialogue: 0,a,b,c,d,e,f,g,h,Hi" +:+ PyStr.LF;
                "Comment: x" +:+ PyStr.LF;
                "dialogue:1,a,b,c,d,e,f,g,h,Yo, there"] in
  let parser :=
    {| AssParser._lines := lines; AssParser.source_path := None;
       AssParser.dialogue_lines := dialogues_from 0 lines;
       AssParser._pysubs_dialogues := [] |} in
  let translated := ["Selam"; "Hey, orada"] in
  AssParser.new_parser (fun _ => None) lines None = Ok parser
  /\ (length translated <> length (AssParser.dialogue_lines parser) ->
      AssParser.apply_translations translated parser
      = (Raise ValueError, parser))
  /\ (length translated = length (AssParser.dialogue_lines parser) ->
      exists parser',
        AssParser.apply_translations translated parser = (Ok tt, parser')
        /\ AssParser._lines parser' = retext 0 lines translated
        /\ length (AssParser._lines parser') = length lines
        /\ AssParser.iter_texts parser' = translated
        /\ forall i line,
             lines !! i = Some line ->
             AssParser.DIALOGUE_PREFIX_match line = None ->
             AssParser._lines parser' !! i = Some line).
Proof.
  intros lines parser translated.
  assert (Hparser : AssParser.new_parser (fun _ => None) lines None = Ok parser)
    by apply new_parser_eq.
  split; [exact Hparser|].
  exact (apply_translations_rewrites_dialogues (fun _ => None) lines None
           parser translated Hparser).
Defined.

(** X21. Translations written into a file are what a later reading of
    the file finds. After [apply_translations], a parser built from the
    rewritten lines has the translations as the texts of its dialogues,
    in order, provided none of them ends with a carriage return in a line
    that ends with a bare newline. Parsing and rendering therefore lose
    nothing of a translation, commas included. *)
Theorem translations_survive_rereading
    (pysubs2_load pysubs2_load' : string -> option (list AssParser.SSAEvent))
    (lines : list string) (source_path source_path' : option string)
    (parser : AssParser.ASSParser) (translated : list string) :
  AssParser.new_parser pysubs2_load lines source_path = Ok parser ->
  Forall2 (fun dialogue t => writable (AssParser.line_ending dialogue) t)
    (AssParser.dialogue_lines parser) translated ->
  exists parser' reread,
    AssParser.apply_translations translated parser = (Ok tt, parser')
    /\ AssParser.new_parser pysubs2_load' (AssParser._lines parser')
         source_path' = Ok reread
    /\ AssParser.iter_texts reread = translated.
Proof.
  intros Hparser Hwritable.
  pose proof (Forall2_length _ _ _ Hwritable) as Hlen. symmetry in Hlen.
  rewrite (apply_translations_ok pysubs2_load lines source_path parser
             translated Hparser Hlen).
  rewrite new_parser_eq in Hparser. injection Hparser as <-.
  cbn [AssParser.dialogue_lines] in *.
  eexists _, _. split; [reflexivity|]. cbn [AssParser._lines].
  split; [apply new_parser_eq|].
  unfold AssParser.iter_texts. cbn [AssParser.dialogue_lines].
  rewrite dialogues_from_retext by done. by apply zip_with_text.
Qed.

Lemma translations_survive_rereading_witness :
  let lines := ["[Events]" +:+ PyStr.LF;
                "Dialogue: 0,a,b,c,d,e,f,g,h,Hi" +:+ PyStr.LF;
                "Comment: x" +:+ PyStr.LF;
                "dialogue:1,a,b,c,d,e,f,g,h,Yo, there"] in
  let parser :=
    {| AssParser._lines := lines; AssParser.source_path := None;
       AssParser.dialogue_lines := dialogues_from 0 lines;
       AssParser._pysubs_dialogues := [] |} in
  let translated := ["Selam"; "Hey, orada"] in
  AssParser.new_parser (fun _ => None) lines None = Ok parser
  /\ Forall2 (fun dialogue t => writable (AssParser.line_ending dialogue) t)
       (AssParser.dialogue_lines parser) translated
  /\ exists parser' reread,
       AssParser.apply_translations translated parser = (Ok tt, parser')
       /\ AssParser.new_parser (fun _ => None) (AssParser._lines parser') None
          = Ok reread
       /\ AssParser.iter_texts reread = translated.
Proof.
  intros lines parser translated.
  assert (Hparser : AssParser.new_parser (fun _ => None) lines None = Ok parser)
    by apply new_parser_eq.
  assert (Hwritable :
    Forall2 (fun dialogue t => writable (AssParser.line_ending dialogue) t)
      (AssParser.dialogue_lines parser) translated).
  { unfold parser, translated. cbn [AssParser.dialogue_lines].
    assert (Hdialogues : exists d1 d2, dialogues_from 0 lines = [d1; d2])
      by (vm_compute; by eexists _, _).
    destruct Hdialogues as (d1 & d2 & ->).
    repeat constructor; right; reflexivity. }
  split; [exact Hparser|]. split; [exact Hwritable|].
  exact (translations_survive_rereading (fun _ => None) (fun _ => None) lines
           None None parser translated Hparser Hwritable).
Defined.

(* --------------------------------------------------------------------- *)
(** ** The factory (src/translator/factory.py) *)

Section FactoryProps.

Import PyStr Factory.

Variable secrets : EngineSecrets.
Variable session_timeout : Q.

Lemma new_translator_spec api_key plan timeout proxy :
  api_key <> "" ->
  exists t,
    DeepLAPI.new_translator api_key plan None timeout proxy = Ok t
    /\ DeepLAPI.api_key t = api_key
    /\ DeepLAPI.plan t = lower plan
    /\ DeepLAPI.proxy t = proxy
    /\ DeepLAPI.api_url t
       = if String.eqb (lower plan) "free" || endswith api_key ":fx"
         then DeepLAPI.FREE_API_URL else DeepLAPI.PRO_API_URL.
Proof.
  intros Hkey. unfold DeepLAPI.new_translator.
  apply truthy_true in Hkey. rewrite Hkey. simpl. by eexists.
Qed.

End FactoryProps.

(** X22. [build_translator] accepts exactly the engine names of
    [AVAILABLE_ENGINES], whatever their case, and raises [ValueError]
    otherwise, or for [deepl_api] when neither the argument nor the
    settings give a key. For [deepl_api] the key is the first non-empty
    one of the argument, [deepl_api_key] and [deepl_free_api_key] of the
    settings, so the key check of the constructor itself never fails; the
    endpoint is one of the two DeepL URLs, and a key that ends with [:fx]
    always goes to the free endpoint, also when the plan asked for is
    [pro]. *)
Theorem build_translator_engines (secrets : Factory.EngineSecrets)
    (session_timeout : Q) (engine_name : string)
    (proxy deepl_api_key deepl_plan : option string) :
  let key :=
    or_else (or_else deepl_api_key (Factory.deepl_api_key secrets))
      (Factory.deepl_free_api_key secrets) in
  match Factory.build_translator secrets session_timeout engine_name proxy
          deepl_api_key deepl_plan with
  | Ok (Factory.GoogleEngine p t) =>
      PyStr.lower engine_name = "google"
      /\ p = or_else proxy (Factory.google_proxy secrets)
      /\ t = session_timeout
  | Ok (Factory.DeepLWebEngine p t) =>
      PyStr.lower engine_name = "deepl_web" /\ p = proxy /\ t = session_timeout
  | Ok (Factory.DeepLAPIEngine t) =>
      PyStr.lower engine_name = "deepl_api"
      /\ key = Some (DeepLAPI.api_key t)
      /\ DeepLAPI.api_key t <> ""
      /\ (DeepLAPI.api_url t = DeepLAPI.FREE_API_URL
          \/ DeepLAPI.api_url t = DeepLAPI.PRO_API_URL)
      /\ (PyStr.endswith (DeepLAPI.api_key t) ":fx" = true ->
          DeepLAPI.api_url t = DeepLAPI.FREE_API_URL)
      /\ (DeepLAPI.api_url t = DeepLAPI.FREE_API_URL <->
          DeepLAPI.plan t = "free"
          \/ PyStr.endswith (DeepLAPI.api_key t) ":fx" = true)
  | Raise e =>
      e = ValueError
      /\ (PyStr.lower engine_name ∉ (Factory.AVAILABLE_ENGINES).*1
          \/ (PyStr.lower engine_name = "deepl_api"
              /\ truthy_opt key = false))
  end.
Proof.
  intros key. unfold Factory.build_translator.
  destruct (String.eqb (PyStr.lower engine_name) "google") eqn:Hgoogle.
  { apply String.eqb_eq in Hgoogle. done. }
  destruct (String.eqb (PyStr.lower engine_name) "deepl_web") eqn:Hweb.
  { apply String.eqb_eq in Hweb. done. }
  destruct (String.eqb (PyStr.lower engine_name) "deepl_api") eqn:Hapi.
  2:{ split; [done|]. left.
      apply String.eqb_neq in Hgoogle, Hweb, Hapi.
      unfold Factory.AVAILABLE_ENGINES. simpl.
      rewrite !elem_of_cons, elem_of_nil. intros [?|[?|[?|?]]]; done. }
  apply String.eqb_eq in Hapi.
  unfold Factory._build_deepl_api_translator. fold key.
  generalize dependent key. intros key.
  destruct (truthy_opt key) eqn:Hkey; cbn [negb].
  2:{ simpl. split; [done|]. right. done. }
  destruct key as [k|] eqn:Hk; [|done]. cbn [default from_option id].
  simpl in Hkey. apply truthy_true in Hkey.
  match goal with
  | |- context [DeepLAPI.new_translator k ?p None ?t ?x] =>
      destruct (new_translator_spec k p t x Hkey)
        as (tr & -> & Hapikey & Hplan & _ & Hurl)
  end.
  simpl. rewrite Hapikey. split; [done|]. split; [done|]. split; [done|].
  rewrite Hurl, Hplan.
  match goal with
  | |- context [String.eqb (PyStr.lower ?p) "free"] =>
      destruct (String.eqb (PyStr.lower p) "free") eqn:Hfree
  end.
  - apply String.eqb_eq in Hfree. simpl.
    split; [by left|]. split; [done|]. split; [by left|done].
  - apply String.eqb_neq in Hfree.
    destruct (PyStr.endswith k ":fx") eqn:Hfx; simpl.
    + split; [by left|]. split; [done|]. split; [by right|done].
    + split; [by right|]. split; [done|].
      split; [done|]. intros [?|?]; done.
Qed.

(* --------------------------------------------------------------------- *)
(** ** The DeepL API backend (src/translator/deepl_api.py) *)

Section DeepLAPIProps.

Import PyStr Google DeepL DeepLAPI.

Variable upper : string -> string.
Variable Net : Type.
Variable http_post : string -> payload -> option string -> Net -> reply * Net.

Lemma parse_response_pads texts data translations :
  parse_response texts data = Done translations ->
  exists received,
    translations
    = received ++ replicate (length texts - length received) (JStr "").
Proof.
  unfold parse_response.
  destruct (json_get data "translations" (JList [])) as [found|e]; [|done].
  destruct (json_items found) as [items|e]; [|done].
  destruct (collect_texts items) as [received|e]; [|done].
  intros [= <-]. by exists received.
Qed.


Lemma translate_texts_unfold self request net :
  texts request <> [] ->
  translate_texts upper Net http_post self request net
  = (match read_response (api_reply upper Net http_post self request net) with
     | Failed e => Failed e
     | Done data => parse_response (texts request) data
     end,
     (translate_texts upper Net http_post self request net).2).
Proof.
  intros Hne. unfold translate_texts, api_reply.
  rewrite bool_decide_eq_false_2 by done. cbv zeta.
  destruct (http_post _ _ _ net) as [r net']. cbn [fst snd].
  by destruct (read_response r).
Qed.

End DeepLAPIProps.


(* --------------------------------------------------------------------- *)
(** ** The DeepL web backend (src/translator/deepl_web.py) *)

Section DeepLWebProps.

Import PyStr DeepL DeepLWeb.

Context {W : Type}.
Variable internal :
  list string -> string -> string -> W -> outcome (list string) * W.
Variable sleep : pause -> W -> W.

#[local] Abbreviation recording := (recorded internal).
#[local] Abbreviation sleeping := (sleep_beside sleep).

(** The attempts on one slice: between one and [left] calls, all with the
    slice; the result is what the last call returned. *)
Lemma attempts_calls (left : nat) :
  forall attempt batch source_lang target_lang more w calls,
    let run := attempts _ recording sleeping (S left) attempt batch
                 source_lang target_lang more (w, calls) in
    exists n,
      run.2.2 = calls ++ replicate n batch
      /\ 1 <= n <= S left
      /\ match run.1 with
         | Done results =>
             results = []
             \/ exists w0 w1,
                  internal batch source_lang target_lang w0 = (Done results, w1)
         | Failed _ => True
         end.
Proof.
  induction left as [|left IH];
    intros attempt batch source_lang target_lang more w calls; cbv zeta.
  - cbn [attempts].
    assert (Hrecorded :
      recording batch source_lang target_lang (w, calls)
      = ((internal batch source_lang target_lang w).1,
         ((internal batch source_lang target_lang w).2, calls ++ [batch]))).
    { unfold recorded. cbn [fst snd].
      by destruct (internal batch source_lang target_lang w). }
    rewrite Hrecorded. clear Hrecorded.
    destruct (internal batch source_lang target_lang w) as [[results|e] w1]
      eqn:Hcall; cbn [fst snd].
    + exists 1. destruct more; cbn; (split; [done|]); (split; [lia|]);
        right; by exists w, w1.
    + exists 1.
      destruct e as [message| | |name];
        try (cbn; split; [done|]; split; [lia|done]).
      destruct (contains "rate limit" (lower message) && (attempt <? 3 - 1)%Z);
        [cbn; split; [done|]; split; [lia|by left]|].
      destruct (attempt <? 3 - 1)%Z;
        cbn; (split; [done|]); (split; [lia|]); [by left|done].
  - cbn [attempts].
    assert (Hrecorded :
      recording batch source_lang target_lang (w, calls)
      = ((internal batch source_lang target_lang w).1,
         ((internal batch source_lang target_lang w).2, calls ++ [batch]))).
    { unfold recorded. cbn [fst snd].
      by destruct (internal batch source_lang target_lang w). }
    rewrite Hrecorded. clear Hrecorded.
    destruct (internal batch source_lang target_lang w) as [[results|e] w1]
      eqn:Hcall; cbn [fst snd].
    + exists 1. destruct more; cbn; (split; [done|]); (split; [lia|]);
        right; by exists w, w1.
    + assert (Hretry : forall p,
        let run := attempts _ recording sleeping (S left) (attempt + 1)
                     batch source_lang target_lang more
                     (sleeping p (w1, calls ++ [batch])) in
        exists n,
          run.2.2 = calls ++ replicate n batch
          /\ 1 <= n <= S (S left)
          /\ match run.1 with
             | Done results =>
                 results = []
                 \/ exists w0 w1',
                      internal batch source_lang target_lang w0
                      = (Done results, w1')
             | Failed _ => True
             end).
      { intros p. cbv zeta.
        change (sleeping p (w1, calls ++ [batch]))
          with (sleep p w1, calls ++ [batch]).
        destruct (IH (attempt + 1)%Z batch source_lang target_lang more
                    (sleep p w1) (calls ++ [batch]))
          as (n & Hcalls & Hn & Hres).
        exists (S n). cbv zeta in Hcalls, Hres. rewrite Hcalls.
        split; [by rewrite <- app_assoc|]. split; [lia|done]. }
      destruct e as [message| | |name];
        try (exists 1; cbn; split; [done|]; split; [lia|done]).
      destruct (contains "rate limit" (lower message) && (attempt <? 3 - 1)%Z);
        [apply Hretry|].
      destruct (attempt <? 3 - 1)%Z; [apply Hretry|].
      exists 1. cbn. split; [done|]. split; [lia|done].
Qed.

Lemma batch_loop_calls (slices : nat) :
  forall k texts source_lang target_lang results w calls,
    let run := batch_loop _ recording sleeping slices (5 * k) texts
                 source_lang target_lang results (w, calls) in
    5 * k < length texts + 5 ->
    exists counts,
      run.2.2 = calls ++ slice_calls texts k counts
      /\ Forall (fun n => 1 <= n <= 3) counts
      /\ 5 * (k + length counts) < length texts + 5
      /\ (keeps_count internal ->
          length results <= 5 * k -> length results <= length texts ->
          forall results', run.1 = Done results' ->
                           length results' <= length texts).
Proof.
  induction slices as [|slices IH];
    intros k texts source_lang target_lang results w calls; cbv zeta;
    intros Hk.
  { exists []. cbn. rewrite app_nil_r. split; [done|]. split; [done|].
    split; [lia|]. intros _ _ Hle results' [= <-]. done. }
  cbn [batch_loop].
  destruct (length texts <=? 5 * k) eqn:Hend.
  { exists []. cbn. rewrite app_nil_r. split; [done|]. split; [done|].
    split; [lia|]. intros _ _ Hle results' [= <-]. done. }
  apply Nat.leb_gt in Hend.
  pose proof (attempts_calls 2 0%Z (take 5 (drop (5 * k) texts)) source_lang
                target_lang (5 * k + 5 <? length texts) w calls) as Hattempts.
  cbv zeta in Hattempts.
  destruct (attempts _ _ _ 3 0%Z _ _ _ _ (w, calls))
    as [[batch_results|e] [w1 calls1]].
  2:{ destruct Hattempts as (n & Hcalls & Hn & _). cbn [fst snd] in *.
      exists [n]. cbn [slice_calls]. rewrite app_nil_r.
      split; [done|]. split; [by constructor|]. split; [simpl; lia|done]. }
  destruct Hattempts as (n & Hcalls & Hn & Hresults). cbn [fst snd] in *.
  replace (5 * k + 5) with (5 * S k) by lia.
  destruct (IH (S k) texts source_lang target_lang (results ++ batch_results)
              w1 calls1 ltac:(lia))
    as (counts & Hnew & Hcounts & Hbound & Hlength).
  cbv zeta in Hnew, Hlength.
  exists (n :: counts). cbn [slice_calls].
  split; [by rewrite Hnew, Hcalls, <- app_assoc|].
  split; [by constructor|]. split; [simpl; lia|].
  intros Hkeeps Hpos Hfit results' Hrun.
  apply (Hlength Hkeeps); [..|done].
  - rewrite length_app.
    destruct Hresults as [->|(w0 & w2 & Hcall)]; [simpl; lia|].
    apply Hkeeps in Hcall. rewrite Hcall, length_take. lia.
  - rewrite length_app.
    destruct Hresults as [->|(w0 & w2 & Hcall)]; [simpl; lia|].
    apply Hkeeps in Hcall. rewrite Hcall, length_take, length_drop. lia.
Qed.

End DeepLWebProps.

(** X24. [DeepLWebTranslator.translate_texts] asks for the texts five at
    a time and in order: the calls of [_translate_batch_internal] are for
    the slices [texts[0:5]], [texts[5:10]], ... in turn, between one and
    three calls for each slice that is reached, whatever the calls return
    or raise. What it returns has at least as many entries as texts; and
    where [_translate_batch_internal] returns as many translations as it
    is given texts, exactly as many. *)
Theorem deepl_web_translate_texts_slices {W : Type}
    (internal : list string -> string -> string -> W
                -> DeepL.outcome (list string) * W)
    (sleep : DeepLWeb.pause -> W -> W)
    (request : TranslationRequest) (w : W) :
  let run := DeepLWeb.translate_texts _ (recorded internal)
               (sleep_beside sleep) request (w, []) in
  (exists counts,
     run.2.2 = slice_calls (texts request) 0 counts
     /\ Forall (fun n => 1 <= n <= 3) counts
     /\ 5 * length counts < length (texts request) + 5)
  /\ forall results,
       run.1 = DeepL.Done results ->
       length (texts request) <= length results
       /\ (keeps_count internal -> length results = length (texts request)).
Proof.
  intros run. unfold run, DeepLWeb.translate_texts.
  case_bool_decide as Hnone.
  { cbn. rewrite Hnone. split.
    - exists []. split; [done|]. split; [constructor|simpl; lia].
    - intros results [= <-]. done. }
  pose proof (batch_loop_calls internal sleep (length (texts request)) 0
                (texts request) (source_lang request) (target_lang request)
                [] w [] ltac:(lia)) as Hloop.
  cbv zeta in Hloop. change (5 * 0) with 0 in Hloop.
  destruct (DeepLWeb.batch_loop _ _ _ _ 0 _ _ _ _ (w, []))
    as [[results|e] [w1 calls]].
  - destruct Hloop as (counts & Hnew & Hcounts & Hbound & Hlength).
    cbn [fst snd] in *. subst calls. split; [by exists counts|].
    intros results' [= <-]. rewrite length_app, length_replicate.
    split; [lia|]. intros Hkeeps.
    specialize (Hlength Hkeeps ltac:(simpl; lia) ltac:(simpl; lia)
                  results eq_refl). lia.
  - destruct Hloop as (counts & Hnew & Hcounts & Hbound & _).
    cbn [fst snd] in *. subst calls. split; [by exists counts|].
    intros results' [=].
Qed.

(** X25. The timestamp that [_build_request_body] sends is the current
    time in milliseconds when the texts contain no letter [i]; otherwise
    it is the next multiple of [i_count + 1] after the current time,
    which is later than the current time by at most [i_count + 1]
    milliseconds. *)
Theorem deepl_web_timestamp (texts : list string) (now : Z) :
  let n := DeepLWeb.i_count texts in
  let sent := DeepLWeb.adjust_timestamp texts now in
  (0 <= n)%Z
  /\ (n = 0%Z -> sent = now)
  /\ ((0 < n)%Z ->
      (sent mod (n + 1) = 0)%Z /\ (now < sent <= now + n + 1)%Z).
Proof.
  intros n sent. unfold sent, DeepLWeb.adjust_timestamp. fold n.
  assert (Hn : (0 <= n)%Z) by (unfold n, DeepLWeb.i_count; lia).
  split; [done|]. split.
  - intros ->. done.
  - intros Hpos. apply Z.ltb_lt in Hpos as Hpos'. rewrite Hpos'.
    pose proof (Z.mod_pos_bound now (n + 1) ltac:(lia)) as Hbound.
    split; [|lia].
    rewrite (Z.div_mod now (n + 1)) at 1 by lia.
    replace ((n + 1) * (now / (n + 1)) + now mod (n + 1) - now mod (n + 1)
             + (n + 1))%Z
      with ((1 + now / (n + 1)) * (n + 1))%Z by lia.
    apply Z.mod_mul. lia.
Qed.

(* --------------------------------------------------------------------- *)
(** ** The command line (src/cli.py) *)

Lemma translate_length (B : Type)
    (translate_texts : TranslationRequest -> M B (list string))
    (ratio : string -> string -> Q)
    (json_dump : gmap string string -> list Byte.byte)
    (orchestrator : TranslationOrchestrator) (texts : list string)
    (source_lang target_lang : string) (progress_cb log_cb : bool)
    (w w' : world B) (out : list string) :
  translate B translate_texts ratio json_dump orchestrator texts source_lang
    target_lang progress_cb log_cb w = (Ok out, w') ->
  length out = length texts.
Proof.
  unfold translate, mbind, M_bind, lift_res.
  pose proof (resolve_all_length B translate_texts ratio json_dump
                orchestrator source_lang target_lang progress_cb log_cb
                texts w I) as Hlen.
  destruct (resolve_all _ _ _ _ _ _ _ _ _ _ w) as [[resolved|e] w1];
    simpl in *; [|done].
  pose proof (finish_spec resolved) as Hfinish.
  destruct (finish resolved) as [out'|e]; [|done].
  intros [= <- <-]. destruct Hfinish as [Hout _]. congruence.
Qed.


